(** * SimpleSSD page-mapped FTL: [ftl/page_mapping.cc]

    A shallow embedding of [SimpleSSD::FTL::PageMapping] and the properties
    of its free-block pool, erase path, garbage collection timing, trim,
    empty requests and the Bloom-filter refresh scheduler.

    Conventions.
    - [uint32_t] / [uint64_t] values that the code does arithmetic on are
      [Z] with the wrap-around written out ([u32], [u64]).
    - Block, page and io-unit indices are [nat]: they index vectors and are
      bounded by the [uint32_t] configuration values.
    - [std::unordered_map] is [gmap]; [std::list<Block>] and [std::vector]
      are [list].
    - The PAL, the DRAM model, the CPU latency table, the event engine's
      clock, the error model and victim selection are collaborators whose
      code is not part of [page_mapping.cc]; they are the fields of [Env].
    - [panic(...)] is the outcome [Panic msg]; an access the C++ standard
      leaves undefined is the outcome [Undefined]. *)

From Stdlib Require Import ZArith QArith Lia String Sorted.
From stdpp Require Import base option list gmap strings sorting.

Local Open Scope Z_scope.

(** ** Machine integers *)

Definition u32 (x : Z) : Z := x mod 2 ^ 32.
Definition u64 (x : Z) : Z := x mod 2 ^ 64.

(** Modelled from the spec: the macro [MAX] of [util/algorithm.hh] (not
    in the sources at hand), "max of their finishes"; written as the
    usual ternary. *)
Definition MAX (x y : Z) : Z := if x >? y then x else y.

(** ** Bitset ([util/bitset.hh]): one flag per io unit *)

Definition Bitset := list bool.

Definition Bitset_new (n : nat) : Bitset := replicate n false.
Definition Bitset_test (b : Bitset) (i : nat) : bool := default false (b !! i).
Definition Bitset_count (b : Bitset) : Z := Z.of_nat (length (filter (λ x, x = true) b)).
Definition Bitset_any (b : Bitset) : bool := existsb id b.
Definition Bitset_all (b : Bitset) : bool := forallb id b.
Definition Bitset_set_all (b : Bitset) : Bitset := replicate (length b) true.
Definition Bitset_set (b : Bitset) (i : nat) : Bitset := <[i := true]> b.
Definition Bitset_flip (b : Bitset) : Bitset := negb <$> b.
Definition Bitset_and (a b : Bitset) : Bitset := zip_with andb a b.
Definition Bitset_or (a b : Bitset) : Bitset := zip_with orb a b.

(** ** Block

    Modelled from the spec: the class [Block] of [ftl/common/block.hh]
    (its code is not in the sources at hand).  Spec 3 and 4.1: per-page
    valid and erased bits, a write pointer per io unit, the erase count
    and the time stamps; [write] sets valid, clears erased and updates
    the time stamps; [invalidate] is idempotent; [erase] resets the
    per-page state and increments the erase count.  Spec 3 gives two
    invariants of a block, "next_write_page_index[u] ≤ pages_in_block"
    and "a page can only be written once between erases": [write] is
    defined on an io unit of a page that is still erased ([writable]),
    and the spec says nothing of another write. *)

Record Block := mkBlock {
  block_index : nat;
  erase_count : Z;
  next_write_page_index : list nat;
  valid_bits : list Bitset;
  erased_bits : list Bitset;
  page_lpns : list (list Z);
  last_written_time : Z;
  last_accessed_time : Z;
  max_error_count : Z
}.

Module Block.

Definition new (blockIdx pages ioUnits : nat) (initEraseCount : Z) : Block :=
  {| block_index := blockIdx;
     erase_count := u32 initEraseCount;
     next_write_page_index := replicate ioUnits 0%nat;
     valid_bits := replicate pages (replicate ioUnits false);
     erased_bits := replicate pages (replicate ioUnits true);
     page_lpns := replicate pages (replicate ioUnits 0);
     last_written_time := 0;
     last_accessed_time := 0;
     max_error_count := 0 |}.

Definition getBlockIndex (b : Block) : nat := block_index b.
Definition getEraseCount (b : Block) : Z := erase_count b.
Definition getLastAccessedTime (b : Block) : Z := last_accessed_time b.
Definition getLastWrittenTime (b : Block) : Z := last_written_time b.
Definition getMaxErrorCount (b : Block) : Z := max_error_count b.

(** [valid_page_count = Σ valid_bits]. *)
Definition getValidPageCount (b : Block) : Z :=
  Z.of_nat (length (filter (λ x, x = true) (concat (valid_bits b)))).

(** The write pointer of one io unit. *)
Definition getNextWritePageIndexOf (b : Block) (ioUnit : nat) : nat :=
  default 0%nat (next_write_page_index b !! ioUnit).

(** The write pointer of the block: "a block is full when every I/O
    unit's pointer equals pages_in_block", so the block's pointer is the
    least of its io units' pointers. *)
Definition getNextWritePageIndex (b : Block) : nat :=
  match next_write_page_index b with
  | [] => 0%nat
  | p :: ps => foldr Nat.min p ps
  end.

(** The valid bits and the logical page numbers of a page; the result
    says whether the page has any valid io unit. *)
Definition getPageInfo (b : Block) (pageIndex : nat) : bool * list Z * Bitset :=
  let map := default [] (valid_bits b !! pageIndex) in
  (Bitset_any map, default [] (page_lpns b !! pageIndex), map).

Definition setBit (bits : list Bitset) (page ioUnit : nat) (v : bool) : list Bitset :=
  alter (λ row, <[ioUnit := v]> row) page bits.

Definition read (pageIndex ioUnit : nat) (tick : Z) (b : Block) : Block :=
  {| block_index := block_index b;
     erase_count := erase_count b;
     next_write_page_index := next_write_page_index b;
     valid_bits := valid_bits b;
     erased_bits := erased_bits b;
     page_lpns := page_lpns b;
     last_written_time := last_written_time b;
     last_accessed_time := tick;
     max_error_count := max_error_count b |}.

(** The io unit of the page exists and has not been written since the
    last erase. *)
Definition writable (pageIndex ioUnit : nat) (b : Block) : bool :=
  Bitset_test (default [] (erased_bits b !! pageIndex)) ioUnit.

Definition write (pageIndex : nat) (lpn : Z) (ioUnit : nat) (tick : Z) (b : Block) : Block :=
  {| block_index := block_index b;
     erase_count := erase_count b;
     next_write_page_index := <[ioUnit := S pageIndex]> (next_write_page_index b);
     valid_bits := setBit (valid_bits b) pageIndex ioUnit true;
     erased_bits := setBit (erased_bits b) pageIndex ioUnit false;
     page_lpns := alter (λ row, <[ioUnit := lpn]> row) pageIndex (page_lpns b);
     last_written_time := tick;
     last_accessed_time := tick;
     max_error_count := max_error_count b |}.

Definition invalidate (pageIndex ioUnit : nat) (b : Block) : Block :=
  {| block_index := block_index b;
     erase_count := erase_count b;
     next_write_page_index := next_write_page_index b;
     valid_bits := setBit (valid_bits b) pageIndex ioUnit false;
     erased_bits := erased_bits b;
     page_lpns := page_lpns b;
     last_written_time := last_written_time b;
     last_accessed_time := last_accessed_time b;
     max_error_count := max_error_count b |}.

Definition erase (b : Block) : Block :=
  {| block_index := block_index b;
     erase_count := u32 (erase_count b + 1);
     next_write_page_index := replicate (length (next_write_page_index b)) 0%nat;
     valid_bits := (λ row, replicate (length row) false) <$> valid_bits b;
     erased_bits := (λ row, replicate (length row) true) <$> erased_bits b;
     page_lpns := page_lpns b;
     last_written_time := last_written_time b;
     last_accessed_time := last_accessed_time b;
     max_error_count := max_error_count b |}.

Definition setLastWrittenTime (tick : Z) (b : Block) : Block :=
  {| block_index := block_index b;
     erase_count := erase_count b;
     next_write_page_index := next_write_page_index b;
     valid_bits := valid_bits b;
     erased_bits := erased_bits b;
     page_lpns := page_lpns b;
     last_written_time := tick;
     last_accessed_time := last_accessed_time b;
     max_error_count := max_error_count b |}.

End Block.

(** ** Bloom filter

    Modelled from the spec: the class [bloom_filter] (its code is not in
    the sources at hand).  Spec 3 and 4.5: each filter has its own salt
    set, a bit table and the counters [true_positive], [false_positive],
    [true_negative] and [actual_insert]; [insert] and [contains]; no
    delete.  The bit positions a key hashes to under a salt set are a
    collaborator ([bloom_positions] of [Env]). *)

Record bloom_filter := mkBloom {
  salt : nat;
  bit_table : gset nat;
  inserted_element_count : Z;
  true_positive : Z;
  false_positive : Z;
  true_negative : Z;
  actual_insert : Z
}.

Module Bloom.

Definition new (seed : nat) : bloom_filter :=
  {| salt := seed; bit_table := ∅; inserted_element_count := 0;
     true_positive := 0; false_positive := 0; true_negative := 0;
     actual_insert := 0 |}.

Definition insert (positions : list nat) (f : bloom_filter) : bloom_filter :=
  {| salt := salt f;
     bit_table := list_to_set positions ∪ bit_table f;
     inserted_element_count := inserted_element_count f + 1;
     true_positive := true_positive f;
     false_positive := false_positive f;
     true_negative := true_negative f;
     actual_insert := actual_insert f |}.

Definition contains (positions : list nat) (f : bloom_filter) : bool :=
  forallb (λ p, bool_decide (p ∈ bit_table f)) positions.

Definition incr_true_positive (f : bloom_filter) : bloom_filter :=
  {| salt := salt f; bit_table := bit_table f;
     inserted_element_count := inserted_element_count f;
     true_positive := true_positive f + 1;
     false_positive := false_positive f;
     true_negative := true_negative f;
     actual_insert := actual_insert f |}.

Definition incr_false_positive (f : bloom_filter) : bloom_filter :=
  {| salt := salt f; bit_table := bit_table f;
     inserted_element_count := inserted_element_count f;
     true_positive := true_positive f;
     false_positive := false_positive f + 1;
     true_negative := true_negative f;
     actual_insert := actual_insert f |}.

Definition incr_true_negative (f : bloom_filter) : bloom_filter :=
  {| salt := salt f; bit_table := bit_table f;
     inserted_element_count := inserted_element_count f;
     true_positive := true_positive f;
     false_positive := false_positive f;
     true_negative := true_negative f + 1;
     actual_insert := actual_insert f |}.

Definition incr_actual_insert (f : bloom_filter) : bloom_filter :=
  {| salt := salt f; bit_table := bit_table f;
     inserted_element_count := inserted_element_count f;
     true_positive := true_positive f;
     false_positive := false_positive f;
     true_negative := true_negative f;
     actual_insert := actual_insert f + 1 |}.

Definition set_false_positive (v : Z) (f : bloom_filter) : bloom_filter :=
  {| salt := salt f; bit_table := bit_table f;
     inserted_element_count := inserted_element_count f;
     true_positive := true_positive f;
     false_positive := v;
     true_negative := true_negative f;
     actual_insert := actual_insert f |}.

End Bloom.

(** ** Requests, configuration and collaborators *)

(** [FTL::Request]: the logical page and its io map. *)
Record Request := mkRequest { lpn : Z; ioFlag : Bitset }.

(** [FTL::LPNRange]. *)
Record LPNRange := mkRange { slpn : Z; nlp : Z }.

(** [PAL::Request]. *)
Record PALRequest := mkPAL { blockIndex : nat; pageIndex : nat; pal_ioFlag : Bitset }.

(** The functions of [CPU::FTL__PAGE_MAPPING] that [applyLatency] is
    asked about. *)
Inductive CPUFunction :=
| READ | WRITE | TRIM | FORMAT
| READ_INTERNAL | WRITE_INTERNAL | TRIM_INTERNAL | ERASE_INTERNAL
| SELECT_VICTIM_BLOCK | DO_GARBAGE_COLLECTION.

(** [param] (the [Parameter] structure of the FTL) and the values
    [PageMapping] reads from [conf]. *)
Record Config := mkConfig {
  totalPhysicalBlocks : nat;
  totalLogicalBlocks : nat;
  pagesInBlock : nat;
  ioUnitInPage : nat;
  pageCountToMaxPerf : nat;
  FTL_INITIAL_ERASE_COUNT : Z;
  FTL_BAD_BLOCK_THRESHOLD : Z;
  FTL_USE_RANDOM_IO_TWEAK : bool;
  FTL_REFRESH_PERIOD : Z;
  FTL_REFRESH_FILTER_NUM : nat;
  FTL_RANDOM_SEED : nat
}.

(** What the FTL calls and observes outside [page_mapping.cc], in the
    order of the calls. *)
Inductive Event :=
| PAL_read (req : PALRequest) (beginAt finishedAt : Z)
| PAL_write (req : PALRequest) (beginAt finishedAt : Z)
| PAL_erase (req : PALRequest) (beginAt finishedAt : Z)
| DRAM_read (lpn : Z) (size : Z) (beginAt finishedAt : Z)
| DRAM_write (lpn : Z) (size : Z) (beginAt finishedAt : Z)
| warn (msg : string).

(** The collaborators.  [Dev] is their state (PAL and DRAM timelines,
    the engine's clock, the random device): each call maps the tick it is
    given and [Dev] to the tick it leaves and the next [Dev].
    - [pal_read], [pal_write], [pal_erase]: [pPAL->read/write/erase].
    - [dram_read], [dram_write]: [pDRAM->read/write] on the mapping entry
      of an LPN, with the size in bytes.
    - [applyLatency]: the CPU latency of a function of this module.
    - [getTick]: the engine's current time.
    - [getRBER]: [errorModel.getRBER(retention, eraseCount, layer)], the
      value of the [float] it returns.
    - [bloom_positions]: the bit positions of a key under a salt set.
    - [gcThresholdReached n]: [freeBlockRatio() < gcThreshold] at
      [nFreeBlocks = n], a comparison of [float]s.
    - [selectVictims]: the list [selectVictimBlock] fills, from the
      in-use blocks, [nFreeBlocks], [bReclaimMore] and the tick (weights
      in [float], [std::sort], [std::random_device]).
    - [uninitialized]: the value of the local [beginAt] of
      [doGarbageCollection] in its collecting loops, where it is passed
      to [Block::write] before any assignment. *)
Record Env (Dev : Type) := mkEnv {
  pal_read : PALRequest → Z → Dev → Z * Dev;
  pal_write : PALRequest → Z → Dev → Z * Dev;
  pal_erase : PALRequest → Z → Dev → Z * Dev;
  dram_read : Z → Z → Z → Dev → Z * Dev;
  dram_write : Z → Z → Z → Dev → Z * Dev;
  applyLatency : CPUFunction → Z;
  getTick : Dev → Z;
  getRBER : Z → Z → nat → Q;
  bloom_positions : nat → Z → list nat;
  gcThresholdReached : Z → bool;
  selectVictims : gmap nat Block → Z → bool → Z → Dev → list nat;
  uninitialized : Z
}.

Arguments pal_read {Dev}.
Arguments pal_write {Dev}.
Arguments pal_erase {Dev}.
Arguments dram_read {Dev}.
Arguments dram_write {Dev}.
Arguments applyLatency {Dev}.
Arguments getTick {Dev}.
Arguments getRBER {Dev}.
Arguments bloom_positions {Dev}.
Arguments gcThresholdReached {Dev}.
Arguments selectVictims {Dev}.
Arguments uninitialized {Dev}.

(** The counters of [stat]. *)
Record Stat := mkStat {
  gcCount : Z;
  reclaimedBlocks : Z;
  validSuperPageCopies : Z;
  validPageCopies : Z;
  refreshCount : Z;
  refreshedBlocks : Z;
  refreshSuperPageCopies : Z;
  refreshPageCopies : Z;
  refreshCallCount : Z;
  layerCheckCount : Z
}.

(** [memset(&stat, 0, sizeof(stat))]. *)
Definition Stat_zero : Stat := mkStat 0 0 0 0 0 0 0 0 0 0.

(** ** The state of [PageMapping] *)

Record World (Dev : Type) := mkWorld {
  table : gmap Z (list (nat * nat));
  blocks : gmap nat Block;
  freeBlocks : list Block;
  nFreeBlocks : Z;
  lastFreeBlock : list nat;
  lastFreeBlockIOMap : Bitset;
  lastFreeBlockIndex : nat;
  bReclaimMore : bool;
  stat : Stat;
  bloomFilters : list bloom_filter;
  refresh_table : gmap Z Z;
  dev : Dev;
  trace : list Event
}.

Arguments table {Dev}.
Arguments blocks {Dev}.
Arguments freeBlocks {Dev}.
Arguments nFreeBlocks {Dev}.
Arguments lastFreeBlock {Dev}.
Arguments lastFreeBlockIOMap {Dev}.
Arguments lastFreeBlockIndex {Dev}.
Arguments bReclaimMore {Dev}.
Arguments stat {Dev}.
Arguments bloomFilters {Dev}.
Arguments refresh_table {Dev}.
Arguments dev {Dev}.
Arguments trace {Dev}.

(** Field updates. *)
Section Setters.
Context {Dev : Type}.
Implicit Type w : World Dev.

Definition set_table (f : gmap Z (list (nat * nat)) → gmap Z (list (nat * nat))) w : World Dev :=
  mkWorld Dev (f (table w)) (blocks w) (freeBlocks w) (nFreeBlocks w) (lastFreeBlock w)
    (lastFreeBlockIOMap w) (lastFreeBlockIndex w) (bReclaimMore w) (stat w)
    (bloomFilters w) (refresh_table w) (dev w) (trace w).

Definition set_blocks (f : gmap nat Block → gmap nat Block) w : World Dev :=
  mkWorld Dev (table w) (f (blocks w)) (freeBlocks w) (nFreeBlocks w) (lastFreeBlock w)
    (lastFreeBlockIOMap w) (lastFreeBlockIndex w) (bReclaimMore w) (stat w)
    (bloomFilters w) (refresh_table w) (dev w) (trace w).

Definition set_freeBlocks (f : list Block → list Block) w : World Dev :=
  mkWorld Dev (table w) (blocks w) (f (freeBlocks w)) (nFreeBlocks w) (lastFreeBlock w)
    (lastFreeBlockIOMap w) (lastFreeBlockIndex w) (bReclaimMore w) (stat w)
    (bloomFilters w) (refresh_table w) (dev w) (trace w).

Definition set_nFreeBlocks (f : Z → Z) w : World Dev :=
  mkWorld Dev (table w) (blocks w) (freeBlocks w) (f (nFreeBlocks w)) (lastFreeBlock w)
    (lastFreeBlockIOMap w) (lastFreeBlockIndex w) (bReclaimMore w) (stat w)
    (bloomFilters w) (refresh_table w) (dev w) (trace w).

Definition set_lastFreeBlock (f : list nat → list nat) w : World Dev :=
  mkWorld Dev (table w) (blocks w) (freeBlocks w) (nFreeBlocks w) (f (lastFreeBlock w))
    (lastFreeBlockIOMap w) (lastFreeBlockIndex w) (bReclaimMore w) (stat w)
    (bloomFilters w) (refresh_table w) (dev w) (trace w).

Definition set_lastFreeBlockIOMap (v : Bitset) w : World Dev :=
  mkWorld Dev (table w) (blocks w) (freeBlocks w) (nFreeBlocks w) (lastFreeBlock w)
    v (lastFreeBlockIndex w) (bReclaimMore w) (stat w)
    (bloomFilters w) (refresh_table w) (dev w) (trace w).

Definition set_lastFreeBlockIndex (v : nat) w : World Dev :=
  mkWorld Dev (table w) (blocks w) (freeBlocks w) (nFreeBlocks w) (lastFreeBlock w)
    (lastFreeBlockIOMap w) v (bReclaimMore w) (stat w)
    (bloomFilters w) (refresh_table w) (dev w) (trace w).

Definition set_bReclaimMore (v : bool) w : World Dev :=
  mkWorld Dev (table w) (blocks w) (freeBlocks w) (nFreeBlocks w) (lastFreeBlock w)
    (lastFreeBlockIOMap w) (lastFreeBlockIndex w) v (stat w)
    (bloomFilters w) (refresh_table w) (dev w) (trace w).

Definition set_stat (f : Stat → Stat) w : World Dev :=
  mkWorld Dev (table w) (blocks w) (freeBlocks w) (nFreeBlocks w) (lastFreeBlock w)
    (lastFreeBlockIOMap w) (lastFreeBlockIndex w) (bReclaimMore w) (f (stat w))
    (bloomFilters w) (refresh_table w) (dev w) (trace w).

Definition set_bloomFilters (f : list bloom_filter → list bloom_filter) w : World Dev :=
  mkWorld Dev (table w) (blocks w) (freeBlocks w) (nFreeBlocks w) (lastFreeBlock w)
    (lastFreeBlockIOMap w) (lastFreeBlockIndex w) (bReclaimMore w) (stat w)
    (f (bloomFilters w)) (refresh_table w) (dev w) (trace w).

Definition set_refresh_table (f : gmap Z Z → gmap Z Z) w : World Dev :=
  mkWorld Dev (table w) (blocks w) (freeBlocks w) (nFreeBlocks w) (lastFreeBlock w)
    (lastFreeBlockIOMap w) (lastFreeBlockIndex w) (bReclaimMore w) (stat w)
    (bloomFilters w) (f (refresh_table w)) (dev w) (trace w).

(** A call to a collaborator: the device moves on and the call is
    recorded. *)
Definition set_dev (d : Dev) (e : Event) w : World Dev :=
  mkWorld Dev (table w) (blocks w) (freeBlocks w) (nFreeBlocks w) (lastFreeBlock w)
    (lastFreeBlockIOMap w) (lastFreeBlockIndex w) (bReclaimMore w) (stat w)
    (bloomFilters w) (refresh_table w) d (trace w ++ [e]).

(** The collaborators move on their own between two operations. *)
Definition env_moves (d : Dev) w : World Dev :=
  mkWorld Dev (table w) (blocks w) (freeBlocks w) (nFreeBlocks w) (lastFreeBlock w)
    (lastFreeBlockIOMap w) (lastFreeBlockIndex w) (bReclaimMore w) (stat w)
    (bloomFilters w) (refresh_table w) d (trace w).

End Setters.

(** ** The monad of FTL operations: state, [panic] and undefined
    behaviour *)

Inductive Outcome (A : Type) : Type :=
| Done (a : A)
| Panic (msg : string)
| Undefined.

Arguments Done {A}.
Arguments Panic {A}.
Arguments Undefined {A}.

Definition FTL (Dev A : Type) : Type := World Dev → Outcome (A * World Dev).

#[global] Instance FTL_ret {Dev} : MRet (FTL Dev) := λ A a w, Done (a, w).

#[global] Instance FTL_bind {Dev} : MBind (FTL Dev) := λ A B k m w,
  match m w with
  | Done (a, w') => k a w'
  | Panic msg => Panic msg
  | Undefined => Undefined
  end.

Section Monad.
Context {Dev : Type}.

Definition gets {A} (f : World Dev → A) : FTL Dev A := λ w, Done (f w, w).
Definition modify (f : World Dev → World Dev) : FTL Dev unit := λ w, Done (tt, f w).
Definition panic {A} (msg : string) : FTL Dev A := λ _, Panic msg.
Definition undefined {A} : FTL Dev A := λ _, Undefined.

(** [for (auto &x : l) body(x)], the locals of the loop carried in [acc]. *)
Fixpoint foldM {A B} (body : B → A → FTL Dev B) (acc : B) (l : list A) : FTL Dev B :=
  match l with
  | [] => mret acc
  | x :: l' => acc' ← body acc x; foldM body acc' l'
  end.

Definition for_each {A} (l : list A) (body : A → FTL Dev unit) : FTL Dev unit :=
  foldM (λ _ x, body x) tt l.

End Monad.

(** ** The operations of [PageMapping] *)

Section PageMapping.
Context {Dev : Type}.
Variable env : Env Dev.
Variable cfg : Config.

#[local] Abbreviation M := (FTL Dev).

(** [bRandomTweak] and [bitsetSize], set by the constructor. *)
Definition bRandomTweak : bool := FTL_USE_RANDOM_IO_TWEAK cfg.
Definition bitsetSize : nat := if bRandomTweak then ioUnitInPage cfg else 1%nat.

(** *** Calls to the collaborators; each leaves the tick it was given
    advanced by the callee. *)

Definition pPAL_read (req : PALRequest) (tick : Z) : M Z := λ w,
  let '(t, d) := pal_read env req tick (dev w) in
  Done (t, set_dev d (PAL_read req tick t) w).

Definition pPAL_write (req : PALRequest) (tick : Z) : M Z := λ w,
  let '(t, d) := pal_write env req tick (dev w) in
  Done (t, set_dev d (PAL_write req tick t) w).

Definition pPAL_erase (req : PALRequest) (tick : Z) : M Z := λ w,
  let '(t, d) := pal_erase env req tick (dev w) in
  Done (t, set_dev d (PAL_erase req tick t) w).

Definition pDRAM_read (entry : Z) (size : Z) (tick : Z) : M Z := λ w,
  let '(t, d) := dram_read env entry size tick (dev w) in
  Done (t, set_dev d (DRAM_read entry size tick t) w).

Definition pDRAM_write (entry : Z) (size : Z) (tick : Z) : M Z := λ w,
  let '(t, d) := dram_write env entry size tick (dev w) in
  Done (t, set_dev d (DRAM_write entry size tick t) w).

Definition do_warn (msg : string) : M unit := λ w,
  Done (tt, set_dev (dev w) (warn msg) w).

(** [block->second.f(...)] on the entry of [blocks] with key [b]. *)
Definition onBlock (b : nat) (f : Block → Block) : M unit :=
  modify (set_blocks (alter f b)).

(** [block->second.write(pageIndex, lpn, idx, tick)] on the entry of
    [blocks] with key [b]: defined when the io unit of the page is
    [Block.writable]. *)
Definition writeBlock (b pageIndex : nat) (lpn : Z) (ioUnit : nat) (tick : Z) : M unit :=
  bs ← gets blocks;
  match bs !! b with
  | None => undefined
  | Some blk =>
      if Block.writable pageIndex ioUnit blk
      then onBlock b (Block.write pageIndex lpn ioUnit tick)
      else undefined
  end.

(** *** [getFreeBlock] *)

(** The search of [getFreeBlock]: the first free block of the stripe
    [idx], else the first free block; [None] when [freeBlocks.begin()]
    is the end of an empty list. *)
Definition findFreeBlock (idx : nat) (free : list Block) : option (nat * Block) :=
  match list_find (λ b, (Block.getBlockIndex b mod pageCountToMaxPerf cfg)%nat = idx) free with
  | Some found => Some found
  | None => match free with
            | [] => None
            | b :: _ => Some (0%nat, b)
            end
  end.

Definition getFreeBlock (idx : nat) : M nat :=
  if decide (pageCountToMaxPerf cfg ≤ idx)%nat then panic "Index out of range" else
  n ← gets nFreeBlocks;
  if 0 <? n then
    free ← gets freeBlocks;
    match findFreeBlock idx free with
    | None => undefined
    | Some (iter, blk) =>
        let blockIndex := Block.getBlockIndex blk in
        bs ← gets blocks;
        if decide (is_Some (bs !! blockIndex)) then panic "Corrupted" else
        now ← gets (λ w, getTick env (dev w));
        modify (set_blocks (<[blockIndex := blk]>));;
        onBlock blockIndex (Block.setLastWrittenTime now);;
        modify (set_freeBlocks (delete iter));;
        modify (set_nFreeBlocks (λ n, u32 (n - 1)));;
        mret blockIndex
    end
  else panic "No free block left".

(** *** [getLastFreeBlock] *)

Definition getLastFreeBlock (iomap : Bitset) : M nat :=
  cur ← gets lastFreeBlockIOMap;
  (if negb bRandomTweak || Bitset_any (Bitset_and cur iomap) then
     i ← gets lastFreeBlockIndex;
     modify (set_lastFreeBlockIndex
               (if decide (S i = pageCountToMaxPerf cfg) then 0%nat else S i));;
     modify (set_lastFreeBlockIOMap iomap)
   else
     modify (set_lastFreeBlockIOMap (Bitset_or cur iomap)));;
  i ← gets lastFreeBlockIndex;
  last ← gets lastFreeBlock;
  match last !! i with
  | None => panic "vector::at"
  | Some b =>
      bs ← gets blocks;
      match bs !! b with
      | None => panic "Corrupted"
      | Some freeBlock =>
          (if decide (Block.getNextWritePageIndex freeBlock = pagesInBlock cfg) then
             fresh ← getFreeBlock i;
             modify (set_lastFreeBlock (<[i := fresh]>));;
             modify (set_bReclaimMore true)
           else mret tt);;
          last' ← gets lastFreeBlock;
          match last' !! i with
          | None => panic "vector::at"
          | Some b' => mret b'
          end
      end
  end.

(** *** [selectVictimBlock]: the victims are the collaborator's; the
    flag and the tick are the code's.  The configured GC mode and evict
    policy are taken as valid (no [panic("Invalid GC mode")]) and the
    sampling loop of the random policies as ending. *)

Definition selectVictimBlock (tick : Z) : M (list nat * Z) :=
  bs ← gets blocks;
  n ← gets nFreeBlocks;
  more ← gets bReclaimMore;
  d ← gets dev;
  (if more then modify (set_bReclaimMore false) else mret tt);;
  mret (selectVictims env bs n more tick d,
        u64 (tick + applyLatency env SELECT_VICTIM_BLOCK)).

(** *** [eraseInternal] *)

(** The reverse search for the place of the erased block.  [iter] is
    the position of the iterator ([length free] is [freeBlocks.end()]);
    each round first decrements it.  [None]: the iterator was
    decremented at [freeBlocks.begin()]. *)
Fixpoint reverseSearch (free : list Block) (erasedCount : Z) (iter : nat) : option nat :=
  match iter with
  | O => None
  | S iter' =>
      match free !! iter' with
      | None => None
      | Some b =>
          if Block.getEraseCount b <=? erasedCount then Some (S iter')
          else if decide (iter' = 0%nat) then Some 0%nat
          else reverseSearch free erasedCount iter'
      end
  end.

(** [freeBlocks.emplace(iter, blk)]: insert before the position. *)
Definition emplace (iter : nat) (blk : Block) (free : list Block) : list Block :=
  take iter free ++ blk :: drop iter free.

Definition eraseInternal (req : PALRequest) (tick : Z) : M Z :=
  bs ← gets blocks;
  match bs !! blockIndex req with
  | None => panic "No such block"
  | Some blk =>
      if decide (Block.getValidPageCount blk ≠ 0) then
        panic "There are valid pages in victim block"
      else
        onBlock (blockIndex req) Block.erase;;
        tick ← pPAL_erase req tick;
        bs ← gets blocks;
        match bs !! blockIndex req with
        | None => undefined
        | Some erased =>
            let erasedCount := Block.getEraseCount erased in
            (if erasedCount <? FTL_BAD_BLOCK_THRESHOLD cfg then
               free ← gets freeBlocks;
               match reverseSearch free erasedCount (length free) with
               | None => undefined
               | Some iter =>
                   modify (set_freeBlocks (emplace iter erased));;
                   modify (set_nFreeBlocks (λ n, u32 (n + 1)))
               end
             else mret tt);;
            modify (set_blocks (delete (blockIndex req)));;
            mret (u64 (tick + applyLatency env ERASE_INTERNAL))
        end
  end.

(** *** [doGarbageCollection] *)

Definition incr_validPageCopies (s : Stat) : Stat :=
  mkStat (gcCount s) (reclaimedBlocks s) (validSuperPageCopies s)
    (u64 (validPageCopies s + 1)) (refreshCount s) (refreshedBlocks s)
    (refreshSuperPageCopies s) (refreshPageCopies s) (refreshCallCount s)
    (layerCheckCount s).

Definition incr_validSuperPageCopies (s : Stat) : Stat :=
  mkStat (gcCount s) (reclaimedBlocks s) (u64 (validSuperPageCopies s + 1))
    (validPageCopies s) (refreshCount s) (refreshedBlocks s)
    (refreshSuperPageCopies s) (refreshPageCopies s) (refreshCallCount s)
    (layerCheckCount s).

Definition incr_refreshPageCopies (s : Stat) : Stat :=
  mkStat (gcCount s) (reclaimedBlocks s) (validSuperPageCopies s)
    (validPageCopies s) (refreshCount s) (refreshedBlocks s)
    (refreshSuperPageCopies s) (u64 (refreshPageCopies s + 1)) (refreshCallCount s)
    (layerCheckCount s).

Definition incr_refreshSuperPageCopies (s : Stat) : Stat :=
  mkStat (gcCount s) (reclaimedBlocks s) (validSuperPageCopies s)
    (validPageCopies s) (refreshCount s) (refreshedBlocks s)
    (u64 (refreshSuperPageCopies s + 1)) (refreshPageCopies s) (refreshCallCount s)
    (layerCheckCount s).

(** [stat.gcCount++; stat.reclaimedBlocks += list.size()]. *)
Definition count_gc (n : Z) (s : Stat) : Stat :=
  mkStat (u64 (gcCount s + 1)) (u64 (reclaimedBlocks s + n)) (validSuperPageCopies s)
    (validPageCopies s) (refreshCount s) (refreshedBlocks s)
    (refreshSuperPageCopies s) (refreshPageCopies s) (refreshCallCount s)
    (layerCheckCount s).

(** [stat.refreshCallCount++; stat.layerCheckCount += layerCheckCount]. *)
Definition count_refresh_call (checked : Z) (s : Stat) : Stat :=
  mkStat (gcCount s) (reclaimedBlocks s) (validSuperPageCopies s)
    (validPageCopies s) (refreshCount s) (refreshedBlocks s)
    (refreshSuperPageCopies s) (refreshPageCopies s) (u64 (refreshCallCount s + 1))
    (u64 (layerCheckCount s + checked)).

Definition set_refreshCallCount (v : Z) (s : Stat) : Stat :=
  mkStat (gcCount s) (reclaimedBlocks s) (validSuperPageCopies s)
    (validPageCopies s) (refreshCount s) (refreshedBlocks s)
    (refreshSuperPageCopies s) (refreshPageCopies s) v (layerCheckCount s).

(** The io map of a write request of one copied io unit. *)
Definition writeFlag (size idx : nat) : Bitset :=
  if bRandomTweak then Bitset_set (Bitset_new size) idx
  else Bitset_set_all (Bitset_new size).

(** The locals of [doGarbageCollection] that the collecting loops
    carry: [tick] and the three request vectors. *)
Record GCLocals := mkGC {
  gc_tick : Z;
  readRequests : list PALRequest;
  writeRequests : list PALRequest;
  eraseRequests : list PALRequest
}.

(** One io unit of a valid page: the body of [for (idx ...)].
    [beginAt] is the value [Block::write] is given for the time. *)
Definition gcCopyUnit (victim pageIdx newBlockIdx : nat) (lpns : list Z) (bit : Bitset)
    (beginAt : Z) (l : GCLocals) (idx : nat) : M GCLocals :=
  if Bitset_test bit idx then
    onBlock victim (Block.invalidate pageIdx idx);;
    match lpns !! idx with
    | None => panic "vector::at"
    | Some lpn =>
        tbl ← gets table;
        match tbl !! lpn with
        | None => panic "Invalid mapping table entry"
        | Some mappingList =>
            tick ← pDRAM_read lpn (8 * Z.of_nat (ioUnitInPage cfg)) (gc_tick l);
            if decide (length mappingList ≤ idx)%nat then panic "vector::at" else
            bs ← gets blocks;
            match bs !! newBlockIdx with
            | None => undefined
            | Some freeBlock =>
                let newPageIdx := Block.getNextWritePageIndexOf freeBlock idx in
                modify (set_table (alter (<[idx := (newBlockIdx, newPageIdx)]>) lpn));;
                writeBlock newBlockIdx newPageIdx lpn idx beginAt;;
                modify (set_stat incr_validPageCopies);;
                mret (mkGC tick (readRequests l)
                        (writeRequests l ++
                           [mkPAL newBlockIdx newPageIdx (writeFlag (ioUnitInPage cfg) idx)])
                        (eraseRequests l))
            end
        end
    end
  else mret l.

(** One page of a victim: the body of [for (pageIndex ...)]. *)
Definition gcCopyPage (victim : nat) (beginAt : Z) (l : GCLocals) (pageIdx : nat) : M GCLocals :=
  bs ← gets blocks;
  match bs !! victim with
  | None => undefined
  | Some block =>
      let '(valid, lpns, bit) := Block.getPageInfo block pageIdx in
      if valid then
        let bit := if bRandomTweak then bit else Bitset_set_all (Bitset_new (ioUnitInPage cfg)) in
        newBlockIdx ← getLastFreeBlock bit;
        bs ← gets blocks;
        match bs !! newBlockIdx with
        | None => undefined
        | Some _ =>
            let l := mkGC (gc_tick l) (readRequests l ++ [mkPAL victim pageIdx bit])
                       (writeRequests l) (eraseRequests l) in
            l ← foldM (gcCopyUnit victim pageIdx newBlockIdx lpns bit beginAt) l (seq 0 bitsetSize);
            modify (set_stat incr_validSuperPageCopies);;
            mret l
        end
      else mret l
  end.

(** One block to reclaim: the body of [for (auto &iter : blocksToReclaim)]. *)
Definition gcCollectBlock (beginAt : Z) (l : GCLocals) (victim : nat) : M GCLocals :=
  bs ← gets blocks;
  match bs !! victim with
  | None => panic "Invalid block"
  | Some _ =>
      l ← foldM (gcCopyPage victim beginAt) l (seq 0 (pagesInBlock cfg));
      mret (mkGC (gc_tick l) (readRequests l) (writeRequests l)
              (eraseRequests l ++
                 [mkPAL victim 0 (Bitset_set_all (Bitset_new (ioUnitInPage cfg)))]))
  end.

(** The three loops of "Do actual I/O here". *)
Definition gcIssueReads (tick : Z) (readFinishedAt : Z) (reqs : list PALRequest) : M Z :=
  foldM (λ readFinishedAt req,
           beginAt ← pPAL_read req tick;
           mret (MAX readFinishedAt beginAt)) readFinishedAt reqs.

Definition gcIssueWrites (readFinishedAt : Z) (writeFinishedAt : Z) (reqs : list PALRequest) : M Z :=
  foldM (λ writeFinishedAt req,
           beginAt ← pPAL_write req readFinishedAt;
           mret (MAX writeFinishedAt beginAt)) writeFinishedAt reqs.

Definition gcIssueErases (readFinishedAt : Z) (eraseFinishedAt : Z) (reqs : list PALRequest) : M Z :=
  foldM (λ eraseFinishedAt req,
           beginAt ← eraseInternal req readFinishedAt;
           mret (MAX eraseFinishedAt beginAt)) eraseFinishedAt reqs.

Definition doGarbageCollection (blocksToReclaim : list nat) (tick : Z) : M Z :=
  match blocksToReclaim with
  | [] => mret tick
  | _ =>
      l ← foldM (gcCollectBlock (uninitialized env)) (mkGC tick [] [] []) blocksToReclaim;
      readFinishedAt ← gcIssueReads (gc_tick l) tick (readRequests l);
      writeFinishedAt ← gcIssueWrites readFinishedAt tick (writeRequests l);
      eraseFinishedAt ← gcIssueErases readFinishedAt tick (eraseRequests l);
      mret (u64 (MAX writeFinishedAt eraseFinishedAt + applyLatency env DO_GARBAGE_COLLECTION))
  end.

(** *** [refreshPage] *)

(** [for (pageIndex = layerNum; pageIndex < pagesInBlock; pageIndex += 64)]. *)
Definition layerPages (layerNum : nat) : list nat :=
  (λ k, layerNum + 64 * k)%nat <$> seq 0 ((pagesInBlock cfg + 63 - layerNum) / 64)%nat.

(** The GC cycle that [refreshPage] and [writeInternal] run on a copy
    of the tick ([uint64_t beginAt = tick]): the caller's tick stays. *)
Definition gcCycle (tick : Z) : M unit :=
  '(list, beginAt) ← selectVictimBlock tick;
  _ ← doGarbageCollection list beginAt;
  modify (set_stat (count_gc (Z.of_nat (length list)))).

Definition refreshCopyUnit (blockIdx pageIdx newBlockIdx : nat) (lpns : list Z) (bit : Bitset)
    (beginAt : Z) (l : GCLocals) (idx : nat) : M GCLocals :=
  if Bitset_test bit idx then
    onBlock blockIdx (Block.invalidate pageIdx idx);;
    match lpns !! idx with
    | None => panic "vector::at"
    | Some lpn =>
        tbl ← gets table;
        match tbl !! lpn with
        | None => mret l
        | Some mappingList =>
            tick ← pDRAM_read lpn (8 * Z.of_nat (ioUnitInPage cfg)) (gc_tick l);
            if decide (length mappingList ≤ idx)%nat then panic "vector::at" else
            bs ← gets blocks;
            match bs !! newBlockIdx with
            | None => undefined
            | Some freeBlock =>
                let newPageIdx := Block.getNextWritePageIndexOf freeBlock idx in
                modify (set_table (alter (<[idx := (newBlockIdx, newPageIdx)]>) lpn));;
                writeBlock newBlockIdx newPageIdx lpn idx beginAt;;
                modify (set_stat incr_refreshPageCopies);;
                mret (mkGC tick (readRequests l)
                        (writeRequests l ++
                           [mkPAL newBlockIdx newPageIdx (writeFlag (ioUnitInPage cfg) idx)])
                        (eraseRequests l))
            end
        end
    end
  else mret l.

Definition refreshCopyPage (blockIdx : nat) (beginAt : Z) (l : GCLocals) (pageIdx : nat) : M GCLocals :=
  bs ← gets blocks;
  match bs !! blockIdx with
  | None => undefined
  | Some block =>
      if decide (Block.getValidPageCount block ≠ 0) then
        let '(_, lpns, bit) := Block.getPageInfo block pageIdx in
        let bit := if bRandomTweak then bit else Bitset_set_all (Bitset_new (ioUnitInPage cfg)) in
        newBlockIdx ← getLastFreeBlock bit;
        bs ← gets blocks;
        match bs !! newBlockIdx with
        | None => undefined
        | Some _ =>
            let l := mkGC (gc_tick l) (readRequests l ++ [mkPAL blockIdx pageIdx bit])
                       (writeRequests l) (eraseRequests l) in
            l ← foldM (refreshCopyUnit blockIdx pageIdx newBlockIdx lpns bit beginAt) l
                  (seq 0 bitsetSize);
            modify (set_stat incr_refreshSuperPageCopies);;
            mret l
        end
      else mret l
  end.

Definition refreshPage (blockIdx layerNum : nat) (tick : Z) : M Z :=
  n ← gets nFreeBlocks;
  (if gcThresholdReached env n then gcCycle tick else mret tt);;
  bs ← gets blocks;
  match bs !! blockIdx with
  | None => mret tick
  | Some _ =>
      l ← foldM (refreshCopyPage blockIdx tick) (mkGC tick [] [] []) (layerPages layerNum);
      readFinishedAt ← gcIssueReads (gc_tick l) tick (readRequests l);
      writeFinishedAt ← gcIssueWrites readFinishedAt tick (writeRequests l);
      mret (u64 (MAX writeFinishedAt readFinishedAt + applyLatency env DO_GARBAGE_COLLECTION))
  end.

(** *** [readInternal] and [read] *)

Definition mappingSize (req : Request) : Z :=
  if bRandomTweak then 8 * Bitset_count (ioFlag req) else 8.

Definition readUnit (req : Request) (tick : Z) (finishedAt : Z) (idx : nat) : M Z :=
  if Bitset_test (ioFlag req) idx || negb bRandomTweak then
    tbl ← gets table;
    match tbl !! lpn req with
    | None => undefined
    | Some mappingList =>
        match mappingList !! idx with
        | None => panic "vector::at"
        | Some (b, p) =>
            if decide (b < totalPhysicalBlocks cfg ∧ p < pagesInBlock cfg)%nat then
              bs ← gets blocks;
              match bs !! b with
              | None => panic "Block is not in use"
              | Some _ =>
                  onBlock b (Block.read p idx tick);;
                  beginAt ← pPAL_read (mkPAL b p (writeFlag (length (ioFlag req)) idx)) tick;
                  mret (MAX finishedAt beginAt)
              end
            else mret finishedAt
        end
    end
  else mret finishedAt.

Definition readInternal (req : Request) (tick : Z) : M Z :=
  tbl ← gets table;
  match tbl !! lpn req with
  | None => mret tick
  | Some _ =>
      let finishedAt := tick in
      tick ← pDRAM_read (lpn req) (mappingSize req) tick;
      finishedAt ← foldM (readUnit req tick) finishedAt (seq 0 bitsetSize);
      mret (u64 (finishedAt + applyLatency env READ_INTERNAL))
  end.

Definition read (req : Request) (tick : Z) : M Z :=
  tick ← (if 0 <? Bitset_count (ioFlag req) then readInternal req tick
          else do_warn "FTL got empty request";; mret tick);
  mret (u64 (tick + applyLatency env READ)).

(** *** [setRefreshPeriod] and the refresh registration of
    [writeInternal] *)

(** [((uint64_t)block_id << 32) + layer_id]. *)
Definition refreshKey (block_id layer_id : nat) : Z :=
  u64 (Z.shiftl (Z.of_nat block_id) 32 + Z.of_nat layer_id).

Definition setRefreshPeriod (block_id layer_id : nat) (rtc : nat) : M unit :=
  let item := refreshKey block_id layer_id in
  filters ← gets bloomFilters;
  if decide (length filters ≤ rtc)%nat then undefined else
  rt ← gets refresh_table;
  (match rt !! item with
   | None =>
       modify (set_refresh_table (<[item := Z.of_nat rtc]>));;
       modify (set_bloomFilters (alter Bloom.incr_actual_insert rtc))
   | Some second =>
       if second >? Z.of_nat rtc then
         modify (set_refresh_table (<[item := Z.of_nat rtc]>));;
         modify (set_bloomFilters (alter Bloom.incr_actual_insert rtc))
       else mret tt
   end);;
  modify (set_bloomFilters
            (alter (λ f, Bloom.insert (bloom_positions env (salt f) item) f) rtc)).

(** [newRBER > 0.01]. *)
Definition ECC_capability : Q := 1 # 100.
Definition exceedsECC (newRBER : Q) : bool := negb (Qle_bool newRBER ECC_capability).

(** The loop
    [for (uint32_t i = size, j = (1 << (size - 1)); i > 0; i--, j = j >> 1)]
    from the value [i] of its counter on; [size] is
    [bloomFilters.size()]. *)
Fixpoint registerRefresh (size : nat) (blockIdx layerNumber : nat) (eraseCount : Z)
    (i : nat) (j : Z) : M unit :=
  match i with
  | O => mret tt
  | S i' =>
      (if decide (i = size) then setRefreshPeriod blockIdx layerNumber (i - 1)
       else
         let newRBER :=
           getRBER env (u64 (FTL_REFRESH_PERIOD cfg * 1000000000 * j)) eraseCount layerNumber in
         if exceedsECC newRBER then setRefreshPeriod blockIdx layerNumber (i - 1)
         else mret tt);;
      registerRefresh size blockIdx layerNumber eraseCount i' (Z.shiftr j 1)
  end.

(** The block [if (sendToPAL) { // Predict error ... }].  The shift
    [1 << (size - 1)] of an [int] is undefined for no filter and for
    more than 32. *)
Definition predictError (blockIdx pageIdx : nat) : M unit :=
  bs ← gets blocks;
  match bs !! blockIdx with
  | None => undefined
  | Some block =>
      let eraseCount := Block.getEraseCount block in
      let layerNumber := (pageIdx mod 64)%nat in
      size ← gets (λ w, length (bloomFilters w));
      if decide (size = 0 ∨ 32 < size)%nat then undefined else
      registerRefresh size blockIdx layerNumber eraseCount size
        (u32 (Z.shiftl 1 (Z.of_nat (size - 1))))
  end.

(** *** [writeInternal] and [write] *)

Definition invalidateOld (req : Request) (mappingList : list (nat * nat)) (idx : nat) : M unit :=
  if Bitset_test (ioFlag req) idx || negb bRandomTweak then
    match mappingList !! idx with
    | None => panic "vector::at"
    | Some (b, p) =>
        if decide (b < totalPhysicalBlocks cfg ∧ p < pagesInBlock cfg)%nat then
          bs ← gets blocks;
          match bs !! b with
          | None => undefined
          | Some _ => onBlock b (Block.invalidate p idx)
          end
        else mret tt
    end
  else mret tt.

Definition writeUnit (req : Request) (blockIdx : nat) (tick : Z) (sendToPAL readBeforeWrite : bool)
    (finishedAt : Z) (idx : nat) : M Z :=
  if Bitset_test (ioFlag req) idx || negb bRandomTweak then
    bs ← gets blocks;
    tbl ← gets table;
    match bs !! blockIdx, tbl !! lpn req with
    | Some block, Some mappingList =>
        let pageIdx := Block.getNextWritePageIndexOf block idx in
        match mappingList !! idx with
        | None => panic "vector::at"
        | Some (oldBlock, oldPage) =>
            let beginAt := tick in
            writeBlock blockIdx pageIdx (lpn req) idx beginAt;;
            beginAt ← (if readBeforeWrite && sendToPAL
                       then pPAL_read (mkPAL oldBlock oldPage (Bitset_flip (ioFlag req))) beginAt
                       else mret beginAt);
            modify (set_table (alter (<[idx := (blockIdx, pageIdx)]>) (lpn req)));;
            beginAt ← (if sendToPAL
                       then pPAL_write (mkPAL blockIdx pageIdx (writeFlag (length (ioFlag req)) idx))
                              beginAt
                       else mret beginAt);
            (if sendToPAL then predictError blockIdx pageIdx else mret tt);;
            mret (MAX finishedAt beginAt)
        end
    | _, _ => undefined
    end
  else mret finishedAt.

Definition writeInternal (req : Request) (tick : Z) (sendToPAL : bool) : M Z :=
  let finishedAt := tick in
  tbl ← gets table;
  (match tbl !! lpn req with
   | Some mappingList => for_each (seq 0 bitsetSize) (invalidateOld req mappingList)
   | None =>
       modify (set_table
                 (<[lpn req := replicate bitsetSize (totalPhysicalBlocks cfg, pagesInBlock cfg)]>))
   end);;
  blockIdx ← getLastFreeBlock (ioFlag req);
  bs ← gets blocks;
  match bs !! blockIdx with
  | None => panic "No such block"
  | Some _ =>
      tick ← (if sendToPAL then
                t ← pDRAM_read (lpn req) (mappingSize req) tick;
                pDRAM_write (lpn req) (mappingSize req) t
              else mret tick);
      let readBeforeWrite := negb bRandomTweak && negb (Bitset_all (ioFlag req)) in
      finishedAt ← foldM (writeUnit req blockIdx tick sendToPAL readBeforeWrite) finishedAt
                     (seq 0 bitsetSize);
      let tick := if sendToPAL then u64 (finishedAt + applyLatency env WRITE_INTERNAL) else tick in
      n ← gets nFreeBlocks;
      (if gcThresholdReached env n then
         if sendToPAL then gcCycle tick
         else panic "ftl: GC triggered while in initialization"
       else mret tt);;
      mret tick
  end.

(** [writeInternal(req, tick)]: the default of [sendToPAL] is [true]
    (spec 4.6: only initialization writes pass [false]). *)
Definition write (req : Request) (tick : Z) : M Z :=
  tick ← (if 0 <? Bitset_count (ioFlag req) then writeInternal req tick true
          else do_warn "FTL got empty request";; mret tick);
  mret (u64 (tick + applyLatency env WRITE)).

(** *** [trimInternal], [trim] and [format] *)

Definition trimUnit (mappingList : list (nat * nat)) (idx : nat) : M unit :=
  match mappingList !! idx with
  | None => panic "vector::at"
  | Some (b, p) =>
      bs ← gets blocks;
      match bs !! b with
      | None => panic "Block is not in use"
      | Some _ => onBlock b (Block.invalidate p idx)
      end
  end.

Definition trimInternal (req : Request) (tick : Z) : M Z :=
  tbl ← gets table;
  match tbl !! lpn req with
  | None => mret tick
  | Some mappingList =>
      tick ← pDRAM_read (lpn req) (mappingSize req) tick;
      for_each (seq 0 bitsetSize) (trimUnit mappingList);;
      modify (set_table (delete (lpn req)));;
      mret (u64 (tick + applyLatency env TRIM_INTERNAL))
  end.

Definition trim (req : Request) (tick : Z) : M Z :=
  tick ← trimInternal req tick;
  mret (u64 (tick + applyLatency env TRIM)).

(** "Do trim" of [format] for one io unit; [blockList] is the vector
    [list] of block indices. *)
Definition formatUnit (mappingList : list (nat * nat)) (blockList : list nat) (idx : nat)
    : M (list nat) :=
  match mappingList !! idx with
  | None => panic "vector::at"
  | Some (b, p) =>
      bs ← gets blocks;
      match bs !! b with
      | None => panic "Block is not in use"
      | Some _ => onBlock b (Block.invalidate p idx);; mret (blockList ++ [b])
      end
  end.

(** The body of [for (auto iter = table.begin(); ...)] for one entry. *)
Definition formatEntry (range : LPNRange) (blockList : list nat) (entry : Z * list (nat * nat))
    : M (list nat) :=
  let '(first, mappingList) := entry in
  if decide (slpn range ≤ first ∧ first < u64 (slpn range + nlp range)) then
    blockList ← foldM (formatUnit mappingList) blockList (seq 0 bitsetSize);
    modify (set_table (delete first));;
    mret blockList
  else mret blockList.

(** [std::sort] then [std::unique] and [erase]. *)
Definition sortUnique (blockList : list nat) : list nat :=
  remove_dups (merge_sort Nat.le blockList).

(** [std::unordered_map] leaves the order of [table.begin() ...
    table.end()] open; the model walks [map_to_list].  What is proved of
    the loop below ([format_entries_not_in_use]) holds for every order. *)
Definition format (range : LPNRange) (tick : Z) : M Z :=
  tbl ← gets table;
  blockList ← foldM (formatEntry range) [] (map_to_list tbl);
  tick ← doGarbageCollection (sortUnique blockList) tick;
  mret (u64 (tick + applyLatency env FORMAT)).

(** *** [refresh_event] *)

(** The loop [while (target_bf < bloomFilters.size() - 1)] that picks
    the filter to check; [remaining] is [bloomFilters.size() - 1 -
    target_bf], which the loop condition compares with 0 and each round
    lowers by one. *)
Fixpoint selectFilter (remaining : nat) (target_bf : nat) (RC_copy : Z) : nat :=
  match remaining with
  | O => target_bf
  | S remaining' =>
      if Z.land RC_copy 1 =? 0
      then selectFilter remaining' (S target_bf) (Z.shiftr RC_copy 1)
      else target_bf
  end.

(** The locals of the sweep: [tick] and [layerCheckCount]. *)
Definition checkLayer (target_bf : nat) (i : nat) (acc : Z * Z) (j : nat) : M (Z * Z) :=
  let '(tick, layerCheckCount) := acc in
  let item := refreshKey i j in
  rt ← gets refresh_table;
  filters ← gets bloomFilters;
  match filters !! target_bf with
  | None => undefined
  | Some f =>
      if Bloom.contains (bloom_positions env (salt f) item) f then
        (match rt !! item with
         | Some second =>
             if second <=? Z.of_nat target_bf
             then modify (set_bloomFilters (alter Bloom.incr_true_positive target_bf))
             else modify (set_bloomFilters (alter Bloom.incr_false_positive target_bf))
         | None => modify (set_bloomFilters (alter Bloom.incr_false_positive target_bf))
         end);;
        tick ← refreshPage i j tick;
        mret (tick, u32 (layerCheckCount + 1))
      else
        modify (set_bloomFilters (alter Bloom.incr_true_negative target_bf));;
        mret (tick, layerCheckCount)
  end.

(** The filter [refresh_event] checks at the call count [RC]. *)
Definition targetFilter (size : nat) (RC : Z) : nat := selectFilter (size - 1) 0 RC.

(** [tick] is passed by value: the event leaves no tick. *)
Definition refresh_event (tick : Z) : M unit :=
  RC ← gets (λ w, refreshCallCount (stat w));
  size ← gets (λ w, length (bloomFilters w));
  if decide (size = 0%nat) then undefined else
  let target_bf := targetFilter size RC in
  '(_, layerCheckCount) ←
    foldM (λ acc i, foldM (checkLayer target_bf i) acc (seq 0 64))
      (tick, 0) (seq 0 (totalPhysicalBlocks cfg));
  modify (set_stat (count_refresh_call layerCheckCount)).

(** *** The constructor, [initialize] and [resetStatValues] *)

(** The members after the initializer list and the loop that fills
    [freeBlocks]. *)
Definition created (d : Dev) : World Dev :=
  mkWorld Dev ∅ ∅
    ((λ i, Block.new i (pagesInBlock cfg) (ioUnitInPage cfg) (FTL_INITIAL_ERASE_COUNT cfg))
       <$> seq 0 (totalPhysicalBlocks cfg))
    (Z.of_nat (totalPhysicalBlocks cfg))
    (replicate (pageCountToMaxPerf cfg) 0%nat)
    (Bitset_new (ioUnitInPage cfg)) 0%nat false Stat_zero [] ∅ d [].

(** The rest of the constructor: "Allocate free blocks". *)
Definition PageMapping_ctor : M unit :=
  for_each (seq 0 (pageCountToMaxPerf cfg))
    (λ i, b ← getFreeBlock i; modify (set_lastFreeBlock (<[i := b]>)));;
  modify (set_lastFreeBlockIndex 0%nat);;
  modify (set_stat (λ _, Stat_zero)).

(** One write of the warm-up of [initialize]:
    [tick = 0; req.lpn = ...; writeInternal(req, tick, false)] with every
    flag of [req.ioFlag] set. *)
Definition warmupWrite (lpn : Z) : M unit :=
  _ ← writeInternal (mkRequest lpn (Bitset_set_all (Bitset_new (ioUnitInPage cfg)))) 0 false;
  mret tt.

(** The refresh set-up of [initialize]: [num_bf] filters are pushed
    (the first of the [num_bf + 1] parameter sets is dropped), with the
    seeds [FTL_RANDOM_SEED + 1231 + i]; then
    [stat.refreshCallCount = 1; bloomFilters[0].false_positive = 0]. *)
Definition setupRefresh : M unit :=
  modify (set_bloomFilters
            (λ filters, filters ++
               ((λ i, Bloom.new (FTL_RANDOM_SEED cfg + 1231 + S i)) <$>
                  seq 0 (FTL_REFRESH_FILTER_NUM cfg))));;
  modify (set_stat (set_refreshCallCount 1));;
  filters ← gets bloomFilters;
  match filters with
  | [] => undefined
  | _ => modify (set_bloomFilters (alter (Bloom.set_false_positive 0) 0%nat))
  end.

Definition resetStatValues : M unit := modify (set_stat (λ _, Stat_zero)).

(** *** The public operations and the reachable states *)

Inductive Operation :=
| op_read (req : Request) (tick : Z)
| op_write (req : Request) (tick : Z)
| op_trim (req : Request) (tick : Z)
| op_format (range : LPNRange) (tick : Z)
| op_refresh_event (tick : Z)
| op_warmup (lpn : Z)
| op_setupRefresh
| op_resetStatValues.

Definition run (op : Operation) : M unit :=
  match op with
  | op_read req tick => _ ← read req tick; mret tt
  | op_write req tick => _ ← write req tick; mret tt
  | op_trim req tick => _ ← trim req tick; mret tt
  | op_format range tick => _ ← format range tick; mret tt
  | op_refresh_event tick => refresh_event tick
  | op_warmup lpn => warmupWrite lpn
  | op_setupRefresh => setupRefresh
  | op_resetStatValues => resetStatValues
  end.

(** The states the FTL can be in between two operations: it is
    constructed, then operations that return follow one another; between
    them the collaborators (the engine's clock, the PAL) move on their
    own. *)
Inductive reachable : World Dev → Prop :=
| reachable_ctor d w :
    PageMapping_ctor (created d) = Done (tt, w) → reachable w
| reachable_run w op w' :
    reachable w → run op w = Done (tt, w') → reachable w'
| reachable_env w d :
    reachable w → reachable (env_moves d w).

End PageMapping.

Arguments reachable {Dev}.

(** ** [getStatus] and [calculateWearLeveling] *)

(** The member [status]: the three fields the code names. *)
Record Status := mkStatus {
  totalLogicalPages : Z;
  mappedLogicalPages : Z;
  freePhysicalBlocks : Z
}.

Section GetStatus.
Context {Dev : Type}.
Implicit Type w : World Dev.

(** The loop [for (lpn = lpnBegin; lpn < lpnEnd; lpn++)] over the
    logical pages [lpns], with [status.mappedLogicalPages] as [mapped]. *)
Definition countMapped (tbl : gmap Z (list (nat * nat))) (lpns : list Z) : Z :=
  foldl (λ mapped lpn, if decide (is_Some (tbl !! lpn)) then u64 (mapped + 1) else mapped)
    0 lpns.

(** [getStatus(lpnBegin, lpnEnd)] on the member [status]; the result is
    what the returned pointer shows. *)
Definition getStatus (status : Status) (lpnBegin lpnEnd : Z) w : Status :=
  if decide (lpnBegin = 0 ∧ totalLogicalPages status ≤ lpnEnd) then
    mkStatus (totalLogicalPages status) (Z.of_nat (size (table w))) (nFreeBlocks w)
  else
    mkStatus (totalLogicalPages status)
      (countMapped (table w) (seqZ lpnBegin (lpnEnd - lpnBegin))) (nFreeBlocks w).

End GetStatus.

(** What [calculateWearLeveling] returns: [-1] ("no meaning of
    wear-leveling"), or the [float] quotient
    [(float)totalEraseCnt * totalEraseCnt / (numOfBlocks *
    sumOfSquaredEraseCnt)], kept as its three operands. *)
Inductive WearLeveling :=
| wear_none
| wear_factor (totalEraseCnt numOfBlocks sumOfSquaredEraseCnt : Z).

(** [totalEraseCnt += eraseCnt; sumOfSquaredEraseCnt += eraseCnt *
    eraseCnt] on [uint64_t]. *)
Definition wearAdd (sums : Z * Z) (b : Block) : Z * Z :=
  let eraseCnt := Block.getEraseCount b in
  (u64 (sums.1 + eraseCnt), u64 (sums.2 + u64 (eraseCnt * eraseCnt))).

(** The loop from [freeBlocks.rbegin()] that stops at the first erase
    count 0. *)
Fixpoint wearFree (riter : list Block) (sums : Z * Z) : Z * Z :=
  match riter with
  | [] => sums
  | b :: riter' =>
      if Block.getEraseCount b =? 0 then sums else wearFree riter' (wearAdd sums b)
  end.

Section WearLevelingModel.
Context {Dev : Type}.
Variable cfg : Config.
Implicit Type w : World Dev.

Definition calculateWearLeveling w : WearLeveling :=
  let inUse := foldl wearAdd (0, 0) (map_to_list (blocks w)).*2 in
  let '(totalEraseCnt, sumOfSquaredEraseCnt) := wearFree (reverse (freeBlocks w)) inUse in
  if sumOfSquaredEraseCnt =? 0 then wear_none
  else wear_factor totalEraseCnt (Z.of_nat (totalLogicalBlocks cfg)) sumOfSquaredEraseCnt.

End WearLevelingModel.

(** * Reasoning about operations that return *)

(** ** Invariants kept by an operation *)

Section Stable.
Context {Dev : Type}.
Implicit Type I : World Dev → Prop.

(** [stable I m]: when [m] returns, it has kept [I]. *)
Definition stable I {A} (m : FTL Dev A) : Prop :=
  ∀ w a w', m w = Done (a, w') → I w → I w'.

Lemma bind_Done {A B} (m : FTL Dev A) (k : A → FTL Dev B) w b w' :
  (m ≫= k) w = Done (b, w') ↔ ∃ a w1, m w = Done (a, w1) ∧ k a w1 = Done (b, w').
Proof.
  unfold mbind, FTL_bind. split.
  - destruct (m w) as [[a w1]| |]; try discriminate. eauto.
  - intros (a & w1 & -> & H). exact H.
Qed.

Lemma stable_ret I {A} (a : A) : stable I (mret a : FTL Dev A).
Proof. intros w a' w' H HI. inversion H; subst; exact HI. Qed.

Lemma stable_bind I {A B} (m : FTL Dev A) (k : A → FTL Dev B) :
  stable I m → (∀ a, stable I (k a)) → stable I (m ≫= k).
Proof.
  intros Hm Hk w b w' H HI. apply bind_Done in H as (a & w1 & H1 & H2).
  eapply Hk; eauto.
Qed.

Lemma stable_gets I {A} (f : World Dev → A) : stable I (gets f).
Proof. intros w a w' H HI. inversion H; subst; exact HI. Qed.

Lemma stable_panic I {A} msg : stable I (panic msg : FTL Dev A).
Proof. intros w a w' H. discriminate. Qed.

Lemma stable_undefined I {A} : stable I (undefined : FTL Dev A).
Proof. intros w a w' H. discriminate. Qed.

Lemma stable_modify I (f : World Dev → World Dev) :
  (∀ w, I w → I (f w)) → stable I (modify f).
Proof. intros Hf w a w' H HI. inversion H; subst. auto. Qed.

Lemma stable_foldM I {A B} (body : B → A → FTL Dev B) l :
  (∀ acc x, stable I (body acc x)) → ∀ acc, stable I (foldM body acc l).
Proof.
  intros Hb. induction l as [|x l IH]; intros acc; simpl.
  - apply stable_ret.
  - apply stable_bind; [apply Hb | intros; apply IH].
Qed.

Lemma stable_for_each I {A} (body : A → FTL Dev unit) l :
  (∀ x, stable I (body x)) → stable I (for_each l body).
Proof. intros Hb. apply stable_foldM. intros _ x. apply Hb. Qed.

Lemma stable_impl I {A} (m m' : FTL Dev A) :
  (∀ w, m w = m' w) → stable I m' → stable I m.
Proof. intros E H w a w' Hm. rewrite E in Hm. eauto. Qed.

End Stable.

(** ** Postconditions *)

Section Hoare.
Context {Dev : Type}.

(** [hoare P m Q]: when [m] returns from a state with [P], the result
    and the state it leaves have [Q]. *)
Definition hoare {A} (P : World Dev → Prop) (m : FTL Dev A) (Q : A → World Dev → Prop) : Prop :=
  ∀ w a w', m w = Done (a, w') → P w → Q a w'.

Lemma hoare_bind {A B} P (m : FTL Dev A) Q (k : A → FTL Dev B) R :
  hoare P m Q → (∀ a, hoare (Q a) (k a) R) → hoare P (m ≫= k) R.
Proof.
  intros Hm Hk w b w' H HP. apply bind_Done in H as (a & w1 & H1 & H2).
  eapply Hk; eauto.
Qed.

Lemma hoare_ret {A} (P : World Dev → Prop) (a : A) (Q : A → World Dev → Prop) :
  (∀ w, P w → Q a w) → hoare P (mret a) Q.
Proof. intros H w a' w' [= <- <-]. apply H. Qed.

Lemma hoare_stable {A} I (m : FTL Dev A) : stable I m → hoare I m (λ _, I).
Proof. intros H w a w'. apply H. Qed.

Lemma hoare_panic {A} P msg (Q : A → World Dev → Prop) : hoare P (panic msg) Q.
Proof. intros w a w' H. discriminate. Qed.

Lemma hoare_undefined {A} P (Q : A → World Dev → Prop) : hoare P undefined Q.
Proof. intros w a w' H. discriminate. Qed.

Lemma hoare_foldM {A B} (Inv : B → World Dev → Prop) (body : B → A → FTL Dev B) l :
  (∀ acc x, hoare (Inv acc) (body acc x) Inv) →
  ∀ acc, hoare (Inv acc) (foldM body acc l) Inv.
Proof.
  intros Hb. induction l as [|x l IH]; intros acc; simpl.
  - by apply hoare_ret.
  - eapply hoare_bind; [apply Hb | apply IH].
Qed.

Lemma hoare_foldM_from {A B} (Inv : B → World Dev → Prop) (body : B → A → FTL Dev B) l
    (P : World Dev → Prop) acc :
  (∀ acc x, hoare (Inv acc) (body acc x) Inv) →
  (∀ w, P w → Inv acc w) →
  hoare P (foldM body acc l) Inv.
Proof.
  intros Hb HP w a w' H Hw. eapply (hoare_foldM Inv body l Hb acc); eauto.
Qed.

End Hoare.

(** What a write on a block has done when it returns. *)
Lemma writeBlock_Done {Dev} b p l i t (w w' : World Dev) u :
  writeBlock b p l i t w = Done (u, w') →
  ∃ blk, blocks w !! b = Some blk ∧ Block.writable p i blk = true ∧
    w' = set_blocks (alter (Block.write p l i t) b) w.
Proof.
  unfold writeBlock. intros H. apply bind_Done in H as (bs & w0 & [= <- <-] & H).
  destruct (blocks w !! b) as [blk|]; [|discriminate].
  destruct (Block.writable p i blk) eqn:E; [|discriminate].
  injection H as _ <-. eauto.
Qed.

(** One step through the structure of an operation; [leaf] closes
    the calls. *)
Ltac stable_step leaf :=
  lazymatch goal with
  | |- stable _ (mret _) => apply stable_ret
  | |- stable _ (gets _) => apply stable_gets
  | |- stable _ (panic _) => apply stable_panic
  | |- stable _ undefined => apply stable_undefined
  | |- stable _ (_ ≫= _) => apply stable_bind; [| intros ?]
  | |- stable _ (foldM _ _ _) => apply stable_foldM; intros ? ?
  | |- stable _ (for_each _ _) => apply stable_for_each; intros ?
  | |- stable _ (if ?c then _ else _) => destruct c
  | |- stable _ (match ?x with _ => _ end) => destruct x
  | |- stable _ _ => leaf
  end.

Ltac stable_go leaf := repeat (stable_step leaf).

(** ** What the operations are built from

    An invariant is carried through an operation from the steps of the
    operation that touch what it speaks of.  The hypotheses of this
    section are those steps; each lemma depends on the ones its operation
    takes. *)

(** The methods of [Block] the operations call on an in-use block
    outside [eraseInternal]. *)
Inductive BlockMethod : (Block → Block) → Prop :=
| bm_read p i t : BlockMethod (Block.read p i t)
| bm_write p l i t : BlockMethod (Block.write p l i t)
| bm_invalidate p i : BlockMethod (Block.invalidate p i)
| bm_setLastWrittenTime t : BlockMethod (Block.setLastWrittenTime t).

(** They leave the index and the erase count of the block. *)
Lemma BlockMethod_index f b : BlockMethod f → block_index (f b) = block_index b.
Proof. by intros []. Qed.

Lemma BlockMethod_erase_count f b : BlockMethod f → erase_count (f b) = erase_count b.
Proof. by intros []. Qed.

(** The updates of the mapping table: an io unit is mapped to its new
    page, an entry of sentinels is created, an entry is removed. *)
Inductive TableStep (cfg : Config) :
    (gmap Z (list (nat * nat)) → gmap Z (list (nat * nat))) → Prop :=
| ts_remap idx v lpn : TableStep cfg (alter (<[idx := v]>) lpn)
| ts_create lpn :
    TableStep cfg
      (<[lpn := replicate (bitsetSize cfg) (totalPhysicalBlocks cfg, pagesInBlock cfg)]>)
| ts_remove lpn : TableStep cfg (delete lpn).

(** The counters the copy loops and the GC cycle bump. *)
Inductive CopyCounter : (Stat → Stat) → Prop :=
| cc_valid : CopyCounter incr_validPageCopies
| cc_validSuper : CopyCounter incr_validSuperPageCopies
| cc_refresh : CopyCounter incr_refreshPageCopies
| cc_refreshSuper : CopyCounter incr_refreshSuperPageCopies
| cc_gc n : CopyCounter (count_gc n).

Section Steps.
Context {Dev : Type}.
Variable env : Env Dev.
Variable cfg : Config.
Variable I : World Dev → Prop.

Hypothesis I_table : ∀ f w, TableStep cfg f → I w → I (set_table f w).
Hypothesis I_onBlock : ∀ f b w, BlockMethod f → I w → I (set_blocks (alter f b) w).
Hypothesis I_lastFreeBlock : ∀ f w, I w → I (set_lastFreeBlock f w).
Hypothesis I_lastFreeBlockIOMap : ∀ v w, I w → I (set_lastFreeBlockIOMap v w).
Hypothesis I_lastFreeBlockIndex : ∀ v w, I w → I (set_lastFreeBlockIndex v w).
Hypothesis I_bReclaimMore : ∀ v w, I w → I (set_bReclaimMore v w).
Hypothesis I_counter : ∀ f w, CopyCounter f → I w → I (set_stat f w).
Hypothesis I_stat : ∀ f w, I w → I (set_stat f w).
Hypothesis I_bloomFilters : ∀ f w, I w → I (set_bloomFilters f w).
Hypothesis I_refresh_table : ∀ f w, I w → I (set_refresh_table f w).
Hypothesis I_PAL_read : ∀ d r t t' w, I w → I (set_dev d (PAL_read r t t') w).
Hypothesis I_PAL_write : ∀ d r t t' w, I w → I (set_dev d (PAL_write r t t') w).
Hypothesis I_DRAM_read : ∀ d l s t t' w, I w → I (set_dev d (DRAM_read l s t t') w).
Hypothesis I_DRAM_write : ∀ d l s t t' w, I w → I (set_dev d (DRAM_write l s t t') w).
Hypothesis I_warn : ∀ msg w, I w → I (set_dev (dev w) (warn msg) w).
Hypothesis I_getFreeBlock : ∀ idx, stable I (getFreeBlock env cfg idx).
Hypothesis I_eraseInternal : ∀ req tick, stable I (eraseInternal env cfg req tick).

Lemma stable_pPAL_read req tick : stable I (pPAL_read env req tick).
Proof.
  intros w a w' H HI. unfold pPAL_read in H.
  destruct (pal_read env req tick (dev w)) as [t d]. inversion H; subst. auto.
Qed.

Lemma stable_pPAL_write req tick : stable I (pPAL_write env req tick).
Proof.
  intros w a w' H HI. unfold pPAL_write in H.
  destruct (pal_write env req tick (dev w)) as [t d]. inversion H; subst. auto.
Qed.

Lemma stable_pDRAM_read l s tick : stable I (pDRAM_read env l s tick).
Proof.
  intros w a w' H HI. unfold pDRAM_read in H.
  destruct (dram_read env l s tick (dev w)) as [t d]. inversion H; subst. auto.
Qed.

Lemma stable_pDRAM_write l s tick : stable I (pDRAM_write env l s tick).
Proof.
  intros w a w' H HI. unfold pDRAM_write in H.
  destruct (dram_write env l s tick (dev w)) as [t d]. inversion H; subst. auto.
Qed.

Lemma stable_do_warn msg : stable I (do_warn msg).
Proof. intros w a w' H HI. inversion H; subst. auto. Qed.

Lemma stable_onBlock b f : BlockMethod f → stable I (onBlock b f).
Proof. intros Hf. apply stable_modify. auto. Qed.

Lemma stable_writeBlock b p l i t : stable I (writeBlock b p l i t).
Proof. unfold writeBlock. stable_go ltac:(apply stable_onBlock; constructor). Qed.

Ltac leaf :=
  first
    [ apply stable_pPAL_read | apply stable_pPAL_write
    | apply stable_pDRAM_read | apply stable_pDRAM_write
    | apply stable_do_warn
    | apply stable_onBlock; constructor
    | apply stable_writeBlock
    | apply I_getFreeBlock | apply I_eraseInternal
    | apply stable_modify; intros; first
        [ apply I_table; [constructor|] | apply I_lastFreeBlock | apply I_lastFreeBlockIOMap
        | apply I_lastFreeBlockIndex | apply I_bReclaimMore
        | apply I_bloomFilters | apply I_refresh_table
        | apply I_counter; [constructor|] | apply I_stat ]; assumption ].

Lemma stable_getLastFreeBlock iomap : stable I (getLastFreeBlock env cfg iomap).
Proof. unfold getLastFreeBlock. stable_go leaf. Qed.

Lemma stable_selectVictimBlock tick : stable I (selectVictimBlock env tick).
Proof. unfold selectVictimBlock. stable_go leaf. Qed.

Lemma stable_gcCopyUnit v p n lpns bit t l idx :
  stable I (gcCopyUnit env cfg v p n lpns bit t l idx).
Proof. unfold gcCopyUnit. stable_go leaf. Qed.

Lemma stable_gcCopyPage v t l p : stable I (gcCopyPage env cfg v t l p).
Proof.
  unfold gcCopyPage.
  stable_go ltac:(first [apply stable_getLastFreeBlock | apply stable_gcCopyUnit | leaf]).
Qed.

Lemma stable_gcCollectBlock t l v : stable I (gcCollectBlock env cfg t l v).
Proof.
  unfold gcCollectBlock. stable_go ltac:(first [apply stable_gcCopyPage | leaf]).
Qed.

Lemma stable_gcIssueReads t r reqs : stable I (gcIssueReads env t r reqs).
Proof. unfold gcIssueReads. stable_go leaf. Qed.

Lemma stable_gcIssueWrites t r reqs : stable I (gcIssueWrites env t r reqs).
Proof. unfold gcIssueWrites. stable_go leaf. Qed.

Lemma stable_gcIssueErases t r reqs : stable I (gcIssueErases env cfg t r reqs).
Proof. unfold gcIssueErases. stable_go leaf. Qed.

Lemma stable_doGarbageCollection l tick : stable I (doGarbageCollection env cfg l tick).
Proof.
  unfold doGarbageCollection.
  stable_go ltac:(first [apply stable_gcCollectBlock | apply stable_gcIssueReads
                        | apply stable_gcIssueWrites | apply stable_gcIssueErases | leaf]).
Qed.

Lemma stable_gcCycle tick : stable I (gcCycle env cfg tick).
Proof.
  unfold gcCycle.
  stable_go ltac:(first [apply stable_selectVictimBlock | apply stable_doGarbageCollection | leaf]).
Qed.

Lemma stable_refreshCopyUnit v p n lpns bit t l idx :
  stable I (refreshCopyUnit env cfg v p n lpns bit t l idx).
Proof. unfold refreshCopyUnit. stable_go leaf. Qed.

Lemma stable_refreshCopyPage v t l p : stable I (refreshCopyPage env cfg v t l p).
Proof.
  unfold refreshCopyPage.
  stable_go ltac:(first [apply stable_getLastFreeBlock | apply stable_refreshCopyUnit | leaf]).
Qed.

Lemma stable_refreshPage b layer tick : stable I (refreshPage env cfg b layer tick).
Proof.
  unfold refreshPage.
  stable_go ltac:(first [apply stable_gcCycle | apply stable_refreshCopyPage
                        | apply stable_gcIssueReads | apply stable_gcIssueWrites | leaf]).
Qed.

Lemma stable_readInternal req tick : stable I (readInternal env cfg req tick).
Proof. unfold readInternal, readUnit. stable_go leaf. Qed.

Lemma stable_read req tick : stable I (read env cfg req tick).
Proof. unfold read. stable_go ltac:(first [apply stable_readInternal | leaf]). Qed.

Lemma stable_setRefreshPeriod b l rtc : stable I (setRefreshPeriod env b l rtc).
Proof. unfold setRefreshPeriod. stable_go leaf. Qed.

Lemma stable_registerRefresh size b l ec i j :
  stable I (registerRefresh env cfg size b l ec i j).
Proof.
  revert j. induction i as [|i IH]; intros j; simpl.
  - apply stable_ret.
  - stable_go ltac:(first [apply stable_setRefreshPeriod | apply IH]).
Qed.

Lemma stable_predictError b p : stable I (predictError env cfg b p).
Proof. unfold predictError. stable_go ltac:(first [apply stable_registerRefresh | leaf]). Qed.

Lemma stable_writeInternal req tick sendToPAL :
  stable I (writeInternal env cfg req tick sendToPAL).
Proof.
  unfold writeInternal, invalidateOld, writeUnit.
  stable_go ltac:(first [apply stable_getLastFreeBlock | apply stable_predictError
                        | apply stable_gcCycle | leaf]).
Qed.

Lemma stable_write req tick : stable I (write env cfg req tick).
Proof. unfold write. stable_go ltac:(first [apply stable_writeInternal | leaf]). Qed.

Lemma stable_trimInternal req tick : stable I (trimInternal env cfg req tick).
Proof. unfold trimInternal, trimUnit. stable_go leaf. Qed.

Lemma stable_trim req tick : stable I (trim env cfg req tick).
Proof. unfold trim. stable_go ltac:(first [apply stable_trimInternal | leaf]). Qed.

Lemma stable_format range tick : stable I (format env cfg range tick).
Proof.
  unfold format, formatEntry, formatUnit.
  stable_go ltac:(first [apply stable_doGarbageCollection | leaf]).
Qed.

Lemma stable_refresh_event tick : stable I (refresh_event env cfg tick).
Proof.
  unfold refresh_event, checkLayer.
  stable_go ltac:(first [apply stable_refreshPage | leaf]).
Qed.

Lemma stable_warmupWrite lpn : stable I (warmupWrite env cfg lpn).
Proof. unfold warmupWrite. stable_go ltac:(first [apply stable_writeInternal | leaf]). Qed.

Lemma stable_setupRefresh : stable I (setupRefresh cfg).
Proof. unfold setupRefresh. stable_go leaf. Qed.

Lemma stable_resetStatValues : stable I (resetStatValues : FTL Dev unit).
Proof. unfold resetStatValues. stable_go leaf. Qed.

Lemma stable_PageMapping_ctor : stable I (PageMapping_ctor env cfg).
Proof. unfold PageMapping_ctor. stable_go leaf. Qed.

(** Every operation keeps [I]. *)
Lemma stable_run op : stable I (run env cfg op).
Proof.
  destruct op; simpl;
    stable_go ltac:(first [apply stable_read | apply stable_write | apply stable_trim
                          | apply stable_format | apply stable_refresh_event
                          | apply stable_warmupWrite | apply stable_setupRefresh
                          | apply stable_resetStatValues]).
Qed.

End Steps.

(** * The free-block pool: [getFreeBlock] and [eraseInternal] *)

Section Pool.
Context {Dev : Type}.
Variable env : Env Dev.
Variable cfg : Config.
Implicit Type w : World Dev.

Lemma findFreeBlock_lookup idx free iter blk :
  findFreeBlock cfg idx free = Some (iter, blk) → free !! iter = Some blk.
Proof.
  unfold findFreeBlock. destruct (list_find _ free) as [[i b]|] eqn:E.
  - intros [= <- <-]. apply list_find_Some in E. tauto.
  - destruct free as [|b l]; [discriminate|]. intros [= <- <-]. reflexivity.
Qed.

(** What [getFreeBlock] has done when it returns. *)
Lemma getFreeBlock_Done idx b w w' :
  getFreeBlock env cfg idx w = Done (b, w') →
  ∃ iter blk,
    freeBlocks w !! iter = Some blk ∧ b = block_index blk ∧
    blocks w !! b = None ∧ 0 < nFreeBlocks w ∧
    w' = set_nFreeBlocks (λ n, u32 (n - 1))
           (set_freeBlocks (delete iter)
              (set_blocks (alter (Block.setLastWrittenTime (getTick env (dev w))) b)
                 (set_blocks (<[b := blk]>) w))).
Proof.
  unfold getFreeBlock. destruct (decide _); [discriminate|].
  unfold mbind, FTL_bind, gets, modify, onBlock, mret, FTL_ret; simpl.
  destruct (0 <? nFreeBlocks w) eqn:En; [|discriminate].
  destruct (findFreeBlock cfg idx (freeBlocks w)) as [[iter blk]|] eqn:Ef; [|discriminate].
  destruct (decide _) as [|Hn]; [discriminate|]. intros [= <- <-].
  exists iter, blk. repeat split.
  - eapply findFreeBlock_lookup; eauto.
  - unfold Block.getBlockIndex. destruct (blocks w !! block_index blk) eqn:E; [|done].
    exfalso. apply Hn. eauto.
  - lia.
Qed.

(** The state [eraseInternal] leaves, before the CPU latency, when the
    erased block goes back to the pool at [iter], and when it does not. *)
Definition erased_world (req : PALRequest) (tick : Z) (w : World Dev) : World Dev :=
  set_dev (pal_erase env req tick (dev w)).2
    (PAL_erase req tick (pal_erase env req tick (dev w)).1)
    (set_blocks (alter Block.erase (blockIndex req)) w).

Definition returned_world (req : PALRequest) (tick : Z) (blk : Block) (iter : nat)
    (w : World Dev) : World Dev :=
  set_blocks (delete (blockIndex req))
    (set_nFreeBlocks (λ n, u32 (n + 1))
       (set_freeBlocks (emplace iter (Block.erase blk)) (erased_world req tick w))).

Definition discarded_world (req : PALRequest) (tick : Z) (w : World Dev) : World Dev :=
  set_blocks (delete (blockIndex req)) (erased_world req tick w).

Definition erase_finished (req : PALRequest) (tick : Z) (w : World Dev) : Z :=
  u64 ((pal_erase env req tick (dev w)).1 + applyLatency env ERASE_INTERNAL).

(** [eraseInternal], case by case. *)
Lemma eraseInternal_eq req tick w :
  eraseInternal env cfg req tick w =
  match blocks w !! blockIndex req with
  | None => Panic "No such block"
  | Some blk =>
      if decide (Block.getValidPageCount blk ≠ 0)
      then Panic "There are valid pages in victim block"
      else if erase_count (Block.erase blk) <? FTL_BAD_BLOCK_THRESHOLD cfg then
        match reverseSearch (freeBlocks w) (erase_count (Block.erase blk))
                (length (freeBlocks w)) with
        | None => Undefined
        | Some iter => Done (erase_finished req tick w, returned_world req tick blk iter w)
        end
      else Done (erase_finished req tick w, discarded_world req tick w)
  end.
Proof.
  unfold eraseInternal.
  unfold mbind, FTL_bind, gets, modify, onBlock, mret, FTL_ret, pPAL_erase; simpl.
  destruct (blocks w !! blockIndex req) as [blk|] eqn:Eb; [|reflexivity].
  destruct (decide _); [reflexivity|]. simpl.
  destruct (pal_erase env req tick (dev w)) as [t d] eqn:Ep. simpl.
  rewrite lookup_alter_eq, Eb. simpl. unfold Block.getEraseCount.
  unfold erase_finished, returned_world, discarded_world, erased_world. rewrite Ep. simpl.
  destruct (_ <? _); [|reflexivity].
  destruct (reverseSearch _ _ _); reflexivity.
Qed.

(** The reverse search fails exactly on the empty list: its first step
    decrements [freeBlocks.end()]. *)
Lemma reverseSearch_below free c iter :
  (iter ≤ length free)%nat → (0 < iter)%nat →
  ∃ pos, reverseSearch free c iter = Some pos ∧ (pos ≤ iter)%nat.
Proof.
  induction iter as [|iter IH]; [lia|]. intros Hle _. simpl.
  destruct (free !! iter) as [b|] eqn:E.
  2:{ apply lookup_ge_None in E. lia. }
  destruct (_ <=? _); [eauto|].
  destruct (decide (iter = 0%nat)); [exists 0%nat; split; [done|lia]|].
  destruct IH as (pos & -> & Hp); [lia..|]. exists pos. split; [done|lia].
Qed.

Lemma reverseSearch_None free c :
  reverseSearch free c (length free) = None ↔ free = [].
Proof.
  split.
  - destruct free as [|b l]; [done|]. intros H.
    destruct (reverseSearch_below (b :: l) c (length (b :: l))) as (pos & E & _);
      [done | simpl; lia |]. congruence.
  - intros ->. reflexivity.
Qed.

End Pool.

(** ** Ascending erase counts *)

(** Every adjacent pair of the list has non-decreasing erase counts. *)
Definition by_erase_count (a b : Block) : Prop := erase_count a ≤ erase_count b.
Definition ascending (free : list Block) : Prop := Sorted by_erase_count free.

#[local] Instance by_erase_count_trans : Transitive by_erase_count.
Proof. intros a b c. unfold by_erase_count. lia. Qed.

Lemma ascending_strong free : ascending free ↔ StronglySorted by_erase_count free.
Proof.
  split; [apply Sorted_StronglySorted; apply _ | apply StronglySorted_Sorted].
Qed.

Lemma ascending_delete free iter : ascending free → ascending (delete iter free).
Proof.
  rewrite !ascending_strong, delete_take_drop. intros H.
  assert (drop (S iter) free = drop 1 (drop iter free)) as E.
  { rewrite drop_drop. f_equal. lia. }
  rewrite E. rewrite <- (take_drop iter free) in H.
  apply StronglySorted_app in H as (Hx & H1 & H2).
  apply StronglySorted_app. split_and!; [|done|].
  - intros a b Ha Hb. apply Hx; [done|].
    eapply (subseteq_drop 1); exact Hb.
  - rewrite <- (take_drop 1 (drop iter free)) in H2.
    by apply StronglySorted_app_1_r in H2.
Qed.

Lemma StronglySorted_lookup {A} (R : relation A) l i j a b :
  StronglySorted R l → (i < j)%nat → l !! i = Some a → l !! j = Some b → R a b.
Proof.
  intros H Hij Ha Hb.
  rewrite <- (take_drop j l) in H, Ha.
  apply StronglySorted_app in H as (Hx & _ & _). apply Hx.
  - rewrite lookup_app_l in Ha.
    + eapply list_elem_of_lookup_2; eauto.
    + rewrite length_take. apply lookup_lt_Some in Hb. lia.
  - eapply list_elem_of_lookup_2 with (i := 0%nat). rewrite lookup_drop.
    by rewrite Nat.add_0_r.
Qed.

(** Where the reverse search stops: everything before has an erase
    count of at most [c], everything from there on a greater one. *)
Lemma reverseSearch_place free c iter pos :
  StronglySorted by_erase_count free →
  (∀ j b, (iter ≤ j)%nat → free !! j = Some b → c < erase_count b) →
  reverseSearch free c iter = Some pos →
  (∀ a, a ∈ take pos free → erase_count a ≤ c) ∧
  (∀ b, b ∈ drop pos free → c < erase_count b).
Proof.
  intros Hs. revert pos. induction iter as [|iter IH]; intros pos Hgt; simpl; [done|].
  destruct (free !! iter) as [b|] eqn:Eb; [|done].
  unfold Block.getEraseCount. destruct (erase_count b <=? c) eqn:Ec.
  - intros [= <-]. apply Z.leb_le in Ec. split.
    + intros a Ha. apply list_elem_of_lookup in Ha as [i Hi].
      apply lookup_take_Some in Hi as [Hi Hlt].
      destruct (decide (i = iter)) as [->|Hne]; [congruence|].
      assert (by_erase_count a b) as Hab.
      { eapply (StronglySorted_lookup _ free i iter); eauto. lia. }
      unfold by_erase_count in Hab. lia.
    + intros b' Hb'. apply list_elem_of_lookup in Hb' as [i Hi].
      rewrite lookup_drop in Hi. eapply Hgt; [|exact Hi]. lia.
  - apply Z.leb_gt in Ec.
    assert (∀ j b', (iter ≤ j)%nat → free !! j = Some b' → c < erase_count b') as Hgt'.
    { intros j b' Hj Hb'. destruct (decide (j = iter)) as [->|Hne]; [congruence|].
      eapply Hgt; [|exact Hb']. lia. }
    destruct (decide (iter = 0%nat)) as [->|Hne].
    + intros [= <-]. split; [intros a; rewrite take_0; by intros ?%elem_of_nil|].
      intros b' Hb'. rewrite drop_0 in Hb'. apply list_elem_of_lookup in Hb' as [i Hi].
      eapply Hgt'; [|exact Hi]. lia.
    + intros Hr. apply IH; done.
Qed.

(** The reinsertion of [eraseInternal] keeps the list ascending. *)
Lemma ascending_emplace free blk iter :
  ascending free →
  reverseSearch free (erase_count blk) (length free) = Some iter →
  ascending (emplace iter blk free).
Proof.
  rewrite !ascending_strong. intros Hs Hr.
  destruct (reverseSearch_place free (erase_count blk) (length free) iter Hs) as [Hlo Hhi];
    [|done|].
  { intros j b Hj Hb. apply lookup_lt_Some in Hb. lia. }
  unfold emplace. rewrite <- (take_drop iter free) in Hs.
  apply StronglySorted_app in Hs as (Hx & H1 & H2).
  apply StronglySorted_app. split_and!; [|done|].
  - intros a b Ha Hb. apply elem_of_cons in Hb as [->|Hb].
    + apply Hlo, Ha.
    + by apply Hx.
  - apply StronglySorted_cons. split; [|done].
    apply Forall_forall. intros b Hb. apply Hhi in Hb. unfold by_erase_count. lia.
Qed.

(** ** Invariants of the pool

    A property [J] of [freeBlocks], [nFreeBlocks] and [blocks] holds in
    every reachable state when the allocation of [getFreeBlock], the two
    ends of [eraseInternal] and the methods called on in-use blocks keep
    it and the constructor's pool has it. *)

Section PoolInvariant.
Context {Dev : Type}.
Variable env : Env Dev.
Variable cfg : Config.
Variable J : list Block → Z → gmap nat Block → Prop.

Definition pool_inv (w : World Dev) : Prop :=
  J (freeBlocks w) (nFreeBlocks w) (blocks w).

Hypothesis J_method : ∀ f b fb n bs,
  BlockMethod f → J fb n bs → J fb n (alter f b bs).
Hypothesis J_allocate : ∀ fb n bs iter blk t,
  fb !! iter = Some blk → bs !! block_index blk = None → 0 < n → J fb n bs →
  J (delete iter fb) (u32 (n - 1))
    (alter (Block.setLastWrittenTime t) (block_index blk) (<[block_index blk := blk]> bs)).
Hypothesis J_return : ∀ fb n bs b blk iter,
  bs !! b = Some blk →
  erase_count (Block.erase blk) < FTL_BAD_BLOCK_THRESHOLD cfg →
  reverseSearch fb (erase_count (Block.erase blk)) (length fb) = Some iter →
  J fb n bs →
  J (emplace iter (Block.erase blk) fb) (u32 (n + 1)) (delete b bs).
Hypothesis J_discard : ∀ fb n bs b blk,
  bs !! b = Some blk →
  FTL_BAD_BLOCK_THRESHOLD cfg ≤ erase_count (Block.erase blk) →
  J fb n bs → J fb n (delete b bs).

Lemma pool_getFreeBlock idx : stable pool_inv (getFreeBlock env cfg idx).
Proof.
  intros w b w' H HJ. apply getFreeBlock_Done in H as (iter & blk & Hf & -> & Hb & Hn & ->).
  unfold pool_inv; simpl. by apply J_allocate.
Qed.

Lemma pool_eraseInternal req tick : stable pool_inv (eraseInternal env cfg req tick).
Proof.
  intros w t w' H HJ. rewrite eraseInternal_eq in H.
  destruct (blocks w !! blockIndex req) as [blk|] eqn:Eb; [|discriminate].
  destruct (decide (Block.getValidPageCount blk ≠ 0)); [discriminate|].
  destruct (_ <? _) eqn:Et.
  - destruct (reverseSearch _ _ _) as [iter|] eqn:Er; [|discriminate].
    injection H as <- <-. unfold pool_inv; simpl. rewrite delete_alter_eq.
    apply Z.ltb_lt in Et. eapply J_return; eauto.
  - injection H as <- <-. unfold pool_inv; simpl. rewrite delete_alter_eq.
    apply Z.ltb_ge in Et. eapply J_discard; eauto.
Qed.

Lemma pool_run op : stable pool_inv (run env cfg op).
Proof.
  apply stable_run;
    first [ apply pool_getFreeBlock | apply pool_eraseInternal
          | intros f b w Hf H; unfold pool_inv; simpl; by apply J_method
          | intros; assumption ].
Qed.

Lemma pool_ctor : stable pool_inv (PageMapping_ctor env cfg).
Proof.
  apply stable_PageMapping_ctor;
    first [ apply pool_getFreeBlock | intros; assumption ].
Qed.

Hypothesis J_created : ∀ d : Dev, pool_inv (created cfg d).

Lemma pool_reachable w : reachable env cfg w → pool_inv w.
Proof.
  induction 1 as [d w H|w op w' _ IH H|w d _ IH].
  - eapply pool_ctor; eauto.
  - eapply pool_run; eauto.
  - exact IH.
Qed.

End PoolInvariant.

(** ** The three invariants of the pool *)

Section PoolFacts.
Context {Dev : Type}.
Variable env : Env Dev.
Variable cfg : Config.
Implicit Type w : World Dev.

(** *** The free list is ascending *)

Lemma ascending_same_count (l : list Block) c :
  Forall (λ b, erase_count b = c) l → ascending l.
Proof.
  intros H. apply ascending_strong. induction H as [|b l Hb Hl IH]; constructor; [done|].
  eapply Forall_impl; [exact Hl|]. intros b' Hb'. unfold by_erase_count. simpl in *. lia.
Qed.

Lemma ascending_created (d : Dev) : ascending (freeBlocks (created cfg d)).
Proof.
  apply (ascending_same_count _ (u32 (FTL_INITIAL_ERASE_COUNT cfg))).
  simpl. apply Forall_fmap, Forall_forall. by intros i _.
Qed.

Lemma ascending_reachable w : reachable env cfg w → ascending (freeBlocks w).
Proof.
  apply (pool_reachable env cfg (λ fb _ _, ascending fb)).
  - intros f b fb n bs _ H. exact H.
  - intros fb n bs iter blk t _ _ _ H. by apply ascending_delete.
  - intros fb n bs b blk iter _ _ Hr H. by apply ascending_emplace.
  - intros fb n bs b blk _ _ H. exact H.
  - intros d. apply ascending_created.
Qed.

(** *** [nFreeBlocks] counts the free list, and free and in-use blocks
    together are at most [bound] *)

Definition counted (bound : Z) (fb : list Block) (n : Z) (bs : gmap nat Block) : Prop :=
  n = Z.of_nat (length fb) ∧ Z.of_nat (length fb) + Z.of_nat (size bs) ≤ bound.

Lemma size_alter_blocks (f : Block → Block) b (bs : gmap nat Block) :
  size (alter f b bs) = size bs.
Proof. by rewrite <- !size_dom, dom_alter_L. Qed.

Lemma length_emplace iter (blk : Block) fb : length (emplace iter blk fb) = S (length fb).
Proof.
  unfold emplace. rewrite length_app. simpl. rewrite length_take, length_drop. lia.
Qed.

Lemma size_delete_blocks b blk (bs : gmap nat Block) :
  bs !! b = Some blk → S (size (delete b bs)) = size bs.
Proof.
  intros H. rewrite map_size_delete_Some by eauto.
  assert (size bs ≠ 0%nat) by (eapply map_size_ne_0_lookup_2; eauto). lia.
Qed.

Section Counted.
Variable bound : Z.
Hypothesis bound_u32 : bound < 2 ^ 32.

Lemma counted_method f b fb n bs :
  BlockMethod f → counted bound fb n bs → counted bound fb n (alter f b bs).
Proof. intros _ [-> H]. split; [done|]. by rewrite size_alter_blocks. Qed.

Lemma counted_allocate fb n bs iter blk t :
  fb !! iter = Some blk → bs !! block_index blk = None → 0 < n → counted bound fb n bs →
  counted bound (delete iter fb) (u32 (n - 1))
    (alter (Block.setLastWrittenTime t) (block_index blk) (<[block_index blk := blk]> bs)).
Proof.
  intros Hf Hb Hn [-> H].
  unfold counted. rewrite size_alter_blocks, map_size_insert_None, length_delete by eauto.
  apply lookup_lt_Some in Hf.
  split; [|lia]. unfold u32. rewrite Z.mod_small; lia.
Qed.

Lemma counted_return fb n bs b blk iter :
  bs !! b = Some blk → counted bound fb n bs →
  counted bound (emplace iter (Block.erase blk) fb) (u32 (n + 1)) (delete b bs).
Proof.
  intros Hb [-> H]. apply size_delete_blocks in Hb.
  unfold counted. rewrite length_emplace. split; [|lia]. unfold u32. rewrite Z.mod_small; lia.
Qed.

Lemma counted_discard fb n bs b blk :
  bs !! b = Some blk → counted bound fb n bs → counted bound fb n (delete b bs).
Proof. intros Hb [-> H]. apply size_delete_blocks in Hb. split; [done|lia]. Qed.

Lemma counted_run op : stable (pool_inv (counted bound)) (run env cfg op).
Proof.
  apply pool_run.
  - apply counted_method.
  - apply counted_allocate.
  - intros fb n bs b blk iter Hb _ _. by apply counted_return.
  - intros fb n bs b blk Hb _. by eapply counted_discard.
Qed.

End Counted.

Definition pool_ok w : Prop :=
  pool_inv (counted (Z.of_nat (totalPhysicalBlocks cfg))) w.

Lemma pool_ok_reachable w :
  Z.of_nat (totalPhysicalBlocks cfg) < 2 ^ 32 → reachable env cfg w → pool_ok w.
Proof.
  intros Hu. apply (pool_reachable env cfg).
  - by apply counted_method.
  - by apply counted_allocate.
  - intros fb n bs b blk iter Hb _ _. by apply counted_return.
  - intros fb n bs b blk Hb _. by eapply counted_discard.
  - intros d. unfold pool_inv, counted; simpl.
    rewrite length_fmap, length_seq, map_size_empty. lia.
Qed.

End PoolFacts.

(** * A small device for the examples

    Collaborators with fixed latencies: a PAL read takes 10, a write 100,
    an erase 1000, a DRAM access 1 and every CPU function 5; the clock
    stands at 0.  The error model grows linearly with the retention
    time, [rber(t) = t / (1.5 * 10^11)]; GC is due below two free blocks
    and takes the first full in-use block. *)

Module Demo.

Definition firstFull (pages : nat) (bs : gmap nat Block) : list nat :=
  take 1 (fst <$> filter (λ kb, Block.getNextWritePageIndex kb.2 = pages) (map_to_list bs)).

Definition env (pages : nat) : Env unit :=
  {| pal_read := λ _ t d, (t + 10, d);
     pal_write := λ _ t d, (t + 100, d);
     pal_erase := λ _ t d, (t + 1000, d);
     dram_read := λ _ _ t d, (t + 1, d);
     dram_write := λ _ _ t d, (t + 1, d);
     applyLatency := λ _, 5;
     getTick := λ _, 0;
     getRBER := λ t _ _, (inject_Z t / inject_Z 150000000000)%Q;
     bloom_positions := λ s k, [Z.to_nat (k mod 97); Z.to_nat ((k + Z.of_nat s) mod 89)];
     gcThresholdReached := λ n, n <? 2;
     selectVictims := λ bs _ _ _ _, firstFull pages bs;
     uninitialized := 0 |}.

(** Four blocks of eight pages with one io unit, one write target; a
    block is retired at its tenth erase; two Bloom filters, base period
    one second. *)
Definition cfg : Config :=
  {| totalPhysicalBlocks := 4; totalLogicalBlocks := 3; pagesInBlock := 8;
     ioUnitInPage := 1; pageCountToMaxPerf := 1;
     FTL_INITIAL_ERASE_COUNT := 0; FTL_BAD_BLOCK_THRESHOLD := 10;
     FTL_USE_RANDOM_IO_TWEAK := false; FTL_REFRESH_PERIOD := 1;
     FTL_REFRESH_FILTER_NUM := 2; FTL_RANDOM_SEED := 0 |}.

(** The same with blocks retired at their first erase. *)
Definition cfg_fragile : Config :=
  {| totalPhysicalBlocks := 4; totalLogicalBlocks := 3; pagesInBlock := 8;
     ioUnitInPage := 1; pageCountToMaxPerf := 1;
     FTL_INITIAL_ERASE_COUNT := 0; FTL_BAD_BLOCK_THRESHOLD := 1;
     FTL_USE_RANDOM_IO_TWEAK := false; FTL_REFRESH_PERIOD := 1;
     FTL_REFRESH_FILTER_NUM := 2; FTL_RANDOM_SEED := 0 |}.

(** Two io units per page and the random io tweak. *)
Definition cfg_tweak : Config :=
  {| totalPhysicalBlocks := 4; totalLogicalBlocks := 3; pagesInBlock := 8;
     ioUnitInPage := 2; pageCountToMaxPerf := 1;
     FTL_INITIAL_ERASE_COUNT := 0; FTL_BAD_BLOCK_THRESHOLD := 10;
     FTL_USE_RANDOM_IO_TWEAK := true; FTL_REFRESH_PERIOD := 1;
     FTL_REFRESH_FILTER_NUM := 2; FTL_RANDOM_SEED := 0 |}.

(** The state an operation leaves, or the state it started from when it
    does not return. *)
Definition after {A} (m : FTL unit A) (w : World unit) : World unit :=
  match m w with
  | Done (_, w') => w'
  | _ => w
  end.

(** Constructed, then the refresh set-up of [initialize]. *)
Definition constructed (c : Config) : World unit :=
  after (PageMapping_ctor (env (pagesInBlock c)) c) (created c tt).

Definition initialized (c : Config) : World unit :=
  after (setupRefresh c) (constructed c).

Lemma constructed_reachable c :
  PageMapping_ctor (env (pagesInBlock c)) c (created c tt) = Done (tt, constructed c) →
  reachable (env (pagesInBlock c)) c (constructed c).
Proof. intros H. eapply reachable_ctor, H. Qed.

Lemma initialized_reachable c :
  PageMapping_ctor (env (pagesInBlock c)) c (created c tt) = Done (tt, constructed c) →
  setupRefresh c (constructed c) = Done (tt, initialized c) →
  reachable (env (pagesInBlock c)) c (initialized c).
Proof.
  intros H1 H2. eapply (reachable_run _ _ _ op_setupRefresh); [|exact H2].
  by apply constructed_reachable.
Qed.

Lemma after_run (e : Env unit) c op w :
  (∃ w', run e c op w = Done (tt, w')) →
  run e c op w = Done (tt, after (run e c op) w).
Proof. intros [w' H]. unfold after. rewrite H. reflexivity. Qed.

End Demo.

(** Runs of operations on the small device. *)
Fixpoint after_ops (e : Env unit) (c : Config) (ops : list Operation) (w : World unit)
    : World unit :=
  match ops with
  | [] => w
  | op :: ops' => after_ops e c ops' (Demo.after (run e c op) w)
  end.

Fixpoint all_return (e : Env unit) (c : Config) (ops : list Operation) (w : World unit)
    : bool :=
  match ops with
  | [] => true
  | op :: ops' =>
      match run e c op w with
      | Done (_, w') => all_return e c ops' w'
      | _ => false
      end
  end.

Lemma reachable_ops e c ops : ∀ w,
  reachable e c w → all_return e c ops w = true → reachable e c (after_ops e c ops w).
Proof.
  induction ops as [|op ops IH]; intros w Hr H; [done|].
  simpl in *. unfold Demo.after.
  destruct (run e c op w) as [[[] w']| |] eqn:E; try discriminate.
  apply IH; [|done]. eapply reachable_run; eauto.
Qed.

(** * The erase path *)

(** An erased block has no valid page. *)
Lemma erased_no_valid_page blk : Block.getValidPageCount (Block.erase blk) = 0.
Proof.
  assert (∀ rows : list Bitset,
            filter (λ x, x = true)
              (concat ((λ row : Bitset, replicate (length row) false) <$> rows)) = []) as E.
  { induction rows as [|row rows IH]; [done|].
    cbn [fmap list_fmap concat]. rewrite filter_app, IH, app_nil_r.
    induction (length row) as [|n IHn]; [done|].
    cbn [replicate]. by rewrite filter_cons_False. }
  unfold Block.getValidPageCount, Block.erase. cbn [valid_bits]. by rewrite E.
Qed.

Section Erase.
Context {Dev : Type}.
Variable env : Env Dev.
Variable cfg : Config.
Implicit Type w : World Dev.

(** C4.  [eraseInternal] on an in-use block [blk]: with a valid page
    left it panics; otherwise the block object is erased, which raises
    its erase count by exactly one (as a [uint32_t]); the block leaves
    the in-use map, and it is put back into the free list if and only if
    the raised erase count is strictly below [FTL_BAD_BLOCK_THRESHOLD]:
    then the free list is the old one with the erased block, under its
    index and with the raised count, inserted at one place, it is one
    longer, and [nFreeBlocks] is incremented; else the free list and
    [nFreeBlocks] are left as they were: the block is discarded and is
    in neither container.  The call returns whenever the block is
    discarded or the free list has an element. *)
Theorem eraseInternal_spec req tick w blk :
  blocks w !! blockIndex req = Some blk →
  (Block.getValidPageCount blk ≠ 0 →
     eraseInternal env cfg req tick w = Panic "There are valid pages in victim block") ∧
  erase_count (Block.erase blk) = u32 (erase_count blk + 1) ∧
  (0 ≤ erase_count blk → erase_count blk + 1 < 2 ^ 32 →
     erase_count (Block.erase blk) = erase_count blk + 1) ∧
  (Block.getValidPageCount blk = 0 →
     (∀ t' w', eraseInternal env cfg req tick w = Done (t', w') →
        blocks w' = delete (blockIndex req) (blocks w) ∧
        ((erase_count (Block.erase blk) < FTL_BAD_BLOCK_THRESHOLD cfg ∧
          ∃ iter erased,
            (iter ≤ length (freeBlocks w))%nat ∧
            freeBlocks w' = take iter (freeBlocks w) ++ erased :: drop iter (freeBlocks w) ∧
            block_index erased = block_index blk ∧
            erase_count erased = u32 (erase_count blk + 1) ∧
            Block.getValidPageCount erased = 0 ∧
            erased ∈ freeBlocks w' ∧
            length (freeBlocks w') = S (length (freeBlocks w)) ∧
            nFreeBlocks w' = u32 (nFreeBlocks w + 1))
         ∨ (FTL_BAD_BLOCK_THRESHOLD cfg ≤ erase_count (Block.erase blk) ∧
            freeBlocks w' = freeBlocks w ∧ nFreeBlocks w' = nFreeBlocks w))) ∧
     (FTL_BAD_BLOCK_THRESHOLD cfg ≤ erase_count (Block.erase blk) ∨ freeBlocks w ≠ [] →
        ∃ t' w', eraseInternal env cfg req tick w = Done (t', w'))).
Proof.
  intros Hb. rewrite eraseInternal_eq, Hb. split_and!.
  - intros Hv. destruct (decide _); [done|contradiction].
  - reflexivity.
  - intros H0 H1. simpl. unfold u32. rewrite Z.mod_small; lia.
  - intros Hv. destruct (decide (Block.getValidPageCount blk ≠ 0)) as [|_]; [contradiction|].
    split.
    + intros t' w'. destruct (_ <? _) eqn:Et.
      * destruct (reverseSearch _ _ _) as [iter|] eqn:Er; [|discriminate].
        intros [= <- <-]. simpl. rewrite delete_alter_eq. split; [done|].
        left. apply Z.ltb_lt in Et. split; [done|].
        assert (iter ≤ length (freeBlocks w))%nat as Hle.
        { destruct (freeBlocks w) as [|b0 fb] eqn:Ef; [by simpl in Er|].
          destruct (reverseSearch_below (b0 :: fb) (u32 (erase_count blk + 1))
                      (length (b0 :: fb))) as (pos & Hp & Hpl); [done|simpl; lia|].
          simpl in Er, Hp. rewrite Hp in Er. injection Er as <-. exact Hpl. }
        exists iter, (Block.erase blk). unfold emplace. split_and!; try done.
        -- apply erased_no_valid_page.
        -- apply elem_of_app. right. apply elem_of_cons. by left.
        -- rewrite length_app, length_take, length_cons, length_drop. lia.
      * intros [= <- <-]. simpl. rewrite delete_alter_eq. split; [done|].
        right. apply Z.ltb_ge in Et. done.
    + intros Hr. destruct (_ <? _) eqn:Et; [|eauto].
      apply Z.ltb_lt in Et. destruct Hr as [Hr|Hr]; [lia|].
      destruct (reverseSearch _ _ _) as [iter|] eqn:Er; [eauto|].
      apply reverseSearch_None in Er. contradiction.
Qed.

(** C10.  On an in-use block without valid pages whose raised erase
    count is below the threshold, [eraseInternal] is undefined exactly
    when the free list is empty: the reverse search decrements
    [freeBlocks.end()] before it looks at anything, and on a list with an
    element it finds a place and the call returns. *)
Theorem eraseInternal_needs_free_block req tick w blk :
  blocks w !! blockIndex req = Some blk →
  Block.getValidPageCount blk = 0 →
  erase_count (Block.erase blk) < FTL_BAD_BLOCK_THRESHOLD cfg →
  (eraseInternal env cfg req tick w = Undefined ↔ freeBlocks w = []) ∧
  (freeBlocks w ≠ [] → ∃ t' w', eraseInternal env cfg req tick w = Done (t', w')) ∧
  (∀ c, reverseSearch (freeBlocks w) c (length (freeBlocks w)) = None ↔ freeBlocks w = []).
Proof.
  intros Hb Hv Ht. rewrite eraseInternal_eq, Hb.
  destruct (decide (Block.getValidPageCount blk ≠ 0)) as [|_]; [contradiction|].
  apply Z.ltb_lt in Ht. rewrite Ht. split_and!.
  - destruct (reverseSearch _ _ _) as [iter|] eqn:Er.
    + split; [discriminate|]. intros E.
      apply (reverseSearch_None _ (erase_count (Block.erase blk))) in E. congruence.
    + split; [|done]. intros _. by apply reverseSearch_None in Er.
  - intros Hne. destruct (reverseSearch _ _ _) as [iter|] eqn:Er; [eauto|].
    apply reverseSearch_None in Er. contradiction.
  - intros c. apply reverseSearch_None.
Qed.

End Erase.

(** The block the constructor took for writing, erased while the other
    three are free. *)
Definition demo_erase_request : PALRequest := mkPAL 0 0 [true].
Definition demo_first_block : Block := Block.setLastWrittenTime 0 (Block.new 0 8 1 0).

Lemma eraseInternal_spec_witness :
  ∃ t' w',
    eraseInternal (Demo.env 8) Demo.cfg demo_erase_request 0 (Demo.constructed Demo.cfg)
      = Done (t', w') ∧
    blocks w' !! 0%nat = None ∧
    (block_index <$> freeBlocks w') = [1; 2; 3; 0]%nat ∧
    (erase_count <$> freeBlocks w') = [0; 0; 0; 1] ∧
    nFreeBlocks w' = 4.
Proof.
  destruct (eraseInternal_spec (Demo.env 8) Demo.cfg demo_erase_request 0
              (Demo.constructed Demo.cfg) demo_first_block) as (_ & _ & _ & H).
  { vm_compute. reflexivity. }
  destruct H as [Hall Hex]; [vm_compute; reflexivity|].
  destruct Hex as (t' & w' & HD); [right; vm_compute; discriminate|].
  exists t', w'. split; [exact HD|].
  destruct (Hall t' w' HD) as [Hb _].
  rewrite Hb. vm_compute in HD. injection HD as _ <-.
  vm_compute. split_and!; reflexivity.
Defined.

Lemma eraseInternal_needs_free_block_witness :
  eraseInternal (Demo.env 8) Demo.cfg demo_erase_request 0 (Demo.constructed Demo.cfg)
    = Undefined
  ↔ freeBlocks (Demo.constructed Demo.cfg) = [].
Proof.
  refine (proj1
    (eraseInternal_needs_free_block (Demo.env 8) Demo.cfg demo_erase_request 0
       (Demo.constructed Demo.cfg) demo_first_block _ _ _)).
  - vm_compute. reflexivity.
  - vm_compute. reflexivity.
  - vm_compute. reflexivity.
Defined.

(** The empty free list of C10 is met in a reachable state: a device
    of one block, whose only block the constructor takes for writing.
    One page is written and its logical page formatted; the format
    reclaims the block, and the reverse search of [eraseInternal] starts
    on the empty list. *)
Definition cfg_single : Config :=
  {| totalPhysicalBlocks := 1; totalLogicalBlocks := 1; pagesInBlock := 8;
     ioUnitInPage := 1; pageCountToMaxPerf := 1;
     FTL_INITIAL_ERASE_COUNT := 0; FTL_BAD_BLOCK_THRESHOLD := 10;
     FTL_USE_RANDOM_IO_TWEAK := false; FTL_REFRESH_PERIOD := 1;
     FTL_REFRESH_FILTER_NUM := 2; FTL_RANDOM_SEED := 0 |}.

Definition single_written : World unit :=
  Demo.after (run (Demo.env 8) cfg_single (op_write (mkRequest 0 [true]) 0))
    (Demo.initialized cfg_single).

Lemma single_written_reachable : reachable (Demo.env 8) cfg_single single_written.
Proof.
  eapply (reachable_run _ _ _ (op_write (mkRequest 0 [true]) 0)).
  - apply (Demo.initialized_reachable cfg_single); vm_compute; reflexivity.
  - vm_compute. reflexivity.
Qed.

Example format_on_empty_free_list :
  reachable (Demo.env 8) cfg_single single_written ∧
  freeBlocks single_written = [] ∧
  format (Demo.env 8) cfg_single (mkRange 0 1) 0 single_written = Undefined.
Proof. split; [apply single_written_reachable|]. split; vm_compute; reflexivity. Qed.

(** * The free list is sorted; free and in-use blocks are accounted for *)

(** ** Retired blocks

    The PAL is called once for every erase, so the record of calls
    tells how often a block has been erased, and with the initial erase
    count what its erase count is. *)

(** The call is an erase of block [b]. *)
Definition erase_of (b : nat) (e : Event) : bool :=
  match e with
  | PAL_erase req _ _ => bool_decide (blockIndex req = b)
  | _ => false
  end.

(** How often block [b] has been erased. *)
Fixpoint erases (b : nat) (T : list Event) : Z :=
  match T with
  | [] => 0
  | e :: T' => (if erase_of b e then 1 else 0) + erases b T'
  end.

Lemma erases_snoc b T e :
  erases b (T ++ [e]) = erases b T + (if erase_of b e then 1 else 0).
Proof. induction T as [|e' T IH]; simpl; [lia|]. rewrite IH. lia. Qed.

Lemma erases_nonneg b T : 0 ≤ erases b T.
Proof. induction T as [|e T IH]; simpl; [lia|]. destruct (erase_of b e); lia. Qed.

Lemma u32_u32_succ x : u32 (u32 x + 1) = u32 (x + 1).
Proof. unfold u32. by rewrite Zplus_mod_idemp_l. Qed.

Lemma emplace_Permutation iter (blk : Block) fb : emplace iter blk fb ≡ₚ blk :: fb.
Proof.
  unfold emplace. rewrite <- Permutation_middle. by rewrite take_drop.
Qed.

Lemma NoDup_bounded_length (l : list nat) N :
  NoDup l → (∀ x, x ∈ l → (x < N)%nat) → (length l ≤ N)%nat.
Proof.
  intros Hnd Hb. rewrite <- (length_seq N 0). apply submseteq_length.
  apply NoDup_submseteq; [done|]. intros x Hx. apply elem_of_seq. specialize (Hb x Hx). lia.
Qed.

Section Retired.
Context {Dev : Type}.
Variable env : Env Dev.
Variable cfg : Config.
Implicit Type w : World Dev.

(** Block [b] has been retired: it has been erased, and its last erase
    left its erase count, [FTL_INITIAL_ERASE_COUNT] raised once per
    erase (as a [uint32_t]), at [FTL_BAD_BLOCK_THRESHOLD] or above. *)
Definition retired (T : list Event) (b : nat) : bool :=
  (0 <? erases b T) &&
  (FTL_BAD_BLOCK_THRESHOLD cfg <=? u32 (FTL_INITIAL_ERASE_COUNT cfg + erases b T)).

Definition retiredBlocks (T : list Event) : list nat :=
  filter (λ b, retired T b = true) (seq 0 (totalPhysicalBlocks cfg)).

(** A block of the pool has the erase count its erases gave it, and
    none of its erases retired it. *)
Definition in_service (T : list Event) (blk : Block) : Prop :=
  erase_count blk = u32 (FTL_INITIAL_ERASE_COUNT cfg + erases (block_index blk) T) ∧
  (0 < erases (block_index blk) T → erase_count blk < FTL_BAD_BLOCK_THRESHOLD cfg).

(** Every block of the device is in use, free or retired. *)
Definition tallied w : Prop :=
  (∀ k blk, blocks w !! k = Some blk →
     block_index blk = k ∧ (k < totalPhysicalBlocks cfg)%nat ∧ in_service (trace w) blk) ∧
  (∀ blk, blk ∈ freeBlocks w →
     (block_index blk < totalPhysicalBlocks cfg)%nat ∧ blocks w !! block_index blk = None ∧
     in_service (trace w) blk) ∧
  NoDup (block_index <$> freeBlocks w) ∧
  nFreeBlocks w = Z.of_nat (length (freeBlocks w)) ∧
  (∀ b, (b < totalPhysicalBlocks cfg)%nat → blocks w !! b = None →
     b ∉ block_index <$> freeBlocks w → retired (trace w) b = true).

Hypothesis device : Z.of_nat (totalPhysicalBlocks cfg) < 2 ^ 32.

Lemma tallied_free_length w :
  tallied w → (length (freeBlocks w) ≤ totalPhysicalBlocks cfg)%nat.
Proof.
  intros (_ & HB & HC & _). rewrite <- (length_fmap block_index).
  apply NoDup_bounded_length; [done|]. intros x Hx.
  apply list_elem_of_fmap in Hx as (blk & -> & Hblk). by apply HB.
Qed.

Lemma tallied_call d e w :
  (∀ b, erase_of b e = false) → tallied w → tallied (set_dev d e w).
Proof.
  intros He H. unfold tallied, in_service in *. simpl.
  assert (∀ b, erases b (trace w ++ [e]) = erases b (trace w)) as E.
  { intros b. rewrite erases_snoc, He. lia. }
  unfold retired. setoid_rewrite E. exact H.
Qed.

Lemma tallied_method f b w :
  BlockMethod f → tallied w → tallied (set_blocks (alter f b) w).
Proof.
  intros Hf (HA & HB & HC & HD & HE). unfold tallied. simpl. split_and!; [| |done..|].
  - intros k blk Hk. destruct (decide (k = b)) as [->|Hne].
    + rewrite lookup_alter_eq in Hk. destruct (blocks w !! b) as [blk0|] eqn:E; [|done].
      injection Hk as <-. destruct (HA b blk0 E) as (Hi & Hlt & Hc & Hs).
      unfold in_service. rewrite BlockMethod_index, BlockMethod_erase_count by done.
      by rewrite Hi in *.
    + rewrite lookup_alter_ne in Hk by done. by apply HA.
  - intros blk Hblk. destruct (HB blk Hblk) as (Hlt & Hn & Hs). split_and!; [done| |done].
    by apply lookup_alter_None.
  - intros b' Hlt Hn Hf'. apply HE; [done| |done]. by apply lookup_alter_None in Hn.
Qed.

Lemma tallied_getFreeBlock idx : stable tallied (getFreeBlock env cfg idx).
Proof.
  intros w b w' H Hw. pose proof (tallied_free_length w Hw) as Hlen.
  destruct Hw as (HA & HB & HC & HD & HE).
  apply getFreeBlock_Done in H as (iter & blk & Hit & -> & Hnone & Hpos & ->).
  assert (blk ∈ freeBlocks w) as Hin by (eapply list_elem_of_lookup_2; eauto).
  destruct (HB blk Hin) as (Hlt & _ & Hs).
  assert (∀ blk', blk' ∈ delete iter (freeBlocks w) →
            blk' ∈ freeBlocks w ∧ block_index blk' ≠ block_index blk) as Hother.
  { intros blk' Hblk'. split; [by eapply list_elem_of_delete_inv|].
    intros Heq. apply list_elem_of_lookup in Hblk' as [j Hj].
    rewrite list_lookup_delete in Hj.
    assert (block_index <$> freeBlocks w !! (if decide (j < iter)%nat then j else S j)
            = Some (block_index blk)) as H1.
    { destruct (decide _); rewrite Hj; simpl; by rewrite Heq. }
    assert (block_index <$> freeBlocks w !! iter = Some (block_index blk)) as H2
      by (by rewrite Hit).
    rewrite <- list_lookup_fmap in H1, H2.
    pose proof (NoDup_lookup _ _ _ _ HC H1 H2) as Hij. destruct (decide _); lia. }
  unfold tallied. simpl. split_and!.
  - intros k blk' Hk. destruct (decide (k = block_index blk)) as [->|Hne].
    + rewrite lookup_alter_eq, lookup_insert_eq in Hk. injection Hk as <-.
      split_and!; [done|done|]. exact Hs.
    + rewrite lookup_alter_ne, lookup_insert_ne in Hk by done. by apply HA.
  - intros blk' Hblk'. destruct (Hother blk' Hblk') as [Hin' Hne].
    destruct (HB blk' Hin') as (Hlt' & Hn' & Hs'). split_and!; [done| |done].
    by rewrite lookup_alter_ne, lookup_insert_ne.
  - eapply sublist_NoDup; [exact HC|]. apply fmap_sublist, sublist_delete.
  - rewrite length_delete by eauto. apply lookup_lt_Some in Hit.
    unfold u32. rewrite Z.mod_small; lia.
  - intros b' Hlt' Hn' Hf'. destruct (decide (b' = block_index blk)) as [->|Hne].
    { by rewrite lookup_alter_eq, lookup_insert_eq in Hn'. }
    rewrite lookup_alter_ne, lookup_insert_ne in Hn' by done.
    apply HE; [done..|]. intros Hb'. apply Hf'.
    apply list_elem_of_fmap in Hb' as (blk' & -> & Hblk').
    apply list_elem_of_fmap. exists blk'. split; [done|].
    apply list_elem_of_lookup in Hblk' as [j Hj].
    assert (j ≠ iter) as Hji by (intros ->; congruence).
    apply list_elem_of_lookup. exists (if decide (j < iter)%nat then j else pred j).
    rewrite list_lookup_delete. destruct (decide (j < iter)%nat).
    + by rewrite decide_True.
    + rewrite decide_False by lia. replace (S (pred j)) with j by lia. done.
Qed.

Lemma tallied_eraseInternal req tick : stable tallied (eraseInternal env cfg req tick).
Proof.
  intros w t' w' H Hw. pose proof (tallied_free_length w Hw) as Hlen.
  destruct Hw as (HA & HB & HC & HD & HE).
  rewrite eraseInternal_eq in H.
  destruct (blocks w !! blockIndex req) as [blk|] eqn:Eb; [|done].
  destruct (decide _); [done|].
  destruct (HA _ _ Eb) as (Hi & Hlt & Hc & Hs).
  set (b := blockIndex req) in *.
  set (e := PAL_erase req tick (pal_erase env req tick (dev w)).1).
  assert (erase_of b e = true) as Heb by (by apply bool_decide_eq_true_2).
  assert (∀ b', b' ≠ b → erases b' (trace w ++ [e]) = erases b' (trace w)) as Eo.
  { intros b' Hne. rewrite erases_snoc. simpl. rewrite bool_decide_eq_false_2; [lia|].
    intros Heq. apply Hne. by rewrite <- Heq. }
  assert (erases b (trace w ++ [e]) = erases b (trace w) + 1) as Eb1.
  { by rewrite erases_snoc, Heb. }
  assert (erase_count (Block.erase blk)
          = u32 (FTL_INITIAL_ERASE_COUNT cfg + erases b (trace w ++ [e]))) as Ec.
  { simpl. rewrite Hc, Hi, Eb1, u32_u32_succ. f_equal. lia. }
  assert (∀ blk', blk' ∈ freeBlocks w → block_index blk' ≠ b) as Hfree.
  { intros blk' Hblk' Heq. destruct (HB blk' Hblk') as (_ & Hn & _). congruence. }
  assert (∀ k blk', delete b (alter Block.erase b (blocks w)) !! k = Some blk' →
            block_index blk' = k ∧ (k < totalPhysicalBlocks cfg)%nat ∧
            in_service (trace w ++ [e]) blk') as HA'.
  { intros k blk' Hk. rewrite delete_alter_eq in Hk.
    apply lookup_delete_Some in Hk as [Hne Hk].
    destruct (HA k blk' Hk) as (Hi' & Hlt' & Hs'). split_and!; [done..|].
    unfold in_service in *. rewrite Hi', Eo by done. by rewrite Hi' in Hs'. }
  assert (∀ blk', blk' ∈ freeBlocks w →
            (block_index blk' < totalPhysicalBlocks cfg)%nat ∧
            delete b (alter Block.erase b (blocks w)) !! block_index blk' = None ∧
            in_service (trace w ++ [e]) blk') as HB'.
  { intros blk' Hblk'. destruct (HB blk' Hblk') as (Hlt' & Hn' & Hs').
    split_and!; [done| |].
    - rewrite delete_alter_eq. by apply lookup_delete_None; right.
    - unfold in_service in *. by rewrite Eo by (by apply Hfree). }
  assert (∀ b', (b' < totalPhysicalBlocks cfg)%nat → b' ≠ b →
            delete b (alter Block.erase b (blocks w)) !! b' = None →
            b' ∉ block_index <$> freeBlocks w → retired (trace w ++ [e]) b' = true) as HE'.
  { intros b' Hlt' Hne Hn' Hf'. rewrite delete_alter_eq, lookup_delete_ne in Hn' by done.
    unfold retired. rewrite Eo by done. by apply HE. }
  destruct (_ <? _) eqn:Et.
  - destruct (reverseSearch _ _ _) as [iter|]; [|done]. injection H as _ <-.
    apply Z.ltb_lt in Et. unfold tallied. simpl.
    assert (NoDup (block_index <$> emplace iter (Block.erase blk) (freeBlocks w))) as HC'.
    { rewrite emplace_Permutation. simpl. apply NoDup_cons. split; [|done].
      intros Hin. apply list_elem_of_fmap in Hin as (blk' & Heq & Hblk').
      apply (Hfree blk' Hblk'). by rewrite <- Heq. }
    assert (∀ blk', blk' ∈ emplace iter (Block.erase blk) (freeBlocks w) →
              (block_index blk' < totalPhysicalBlocks cfg)%nat ∧
              delete b (alter Block.erase b (blocks w)) !! block_index blk' = None ∧
              in_service (trace w ++ [e]) blk') as HB''.
    { intros blk' Hblk'. rewrite emplace_Permutation in Hblk'.
      apply elem_of_cons in Hblk' as [->|Hblk']; [|by apply HB'].
      simpl. rewrite Hi. split_and!; [done| |].
      - rewrite delete_alter_eq. apply lookup_delete_eq.
      - split; [by rewrite <- Hi in Ec|]. intros _. exact Et. }
    split_and!; [done..| |].
    + assert (length (emplace iter (Block.erase blk) (freeBlocks w))
              ≤ totalPhysicalBlocks cfg)%nat as Hlen'.
      { rewrite <- (length_fmap block_index). apply NoDup_bounded_length; [done|].
        intros x Hx. apply list_elem_of_fmap in Hx as (blk' & -> & Hblk'). by apply HB''. }
      rewrite length_emplace in *. unfold u32. rewrite Z.mod_small; lia.
    + intros b' Hlt' Hn' Hf'. apply HE'; [done| |done|].
      * intros ->. apply Hf'. apply list_elem_of_fmap. exists (Block.erase blk).
        split; [by rewrite <- Hi|]. rewrite emplace_Permutation. by left.
      * intros Hin. apply Hf'. apply list_elem_of_fmap in Hin as (blk' & -> & Hblk').
        apply list_elem_of_fmap. exists blk'. split; [done|].
        rewrite emplace_Permutation. by right.
  - injection H as _ <-. apply Z.ltb_ge in Et. unfold tallied. simpl.
    split_and!; [done..|].
    intros b' Hlt' Hn' Hf'. destruct (decide (b' = b)) as [->|Hne]; [|by apply HE'].
    unfold retired. fold e. rewrite <- Ec. apply andb_true_intro. split.
    + apply Z.ltb_lt. rewrite Eb1. pose proof (erases_nonneg b (trace w)). lia.
    + by apply Z.leb_le.
Qed.

Lemma tallied_created (d : Dev) : tallied (created cfg d).
Proof.
  unfold tallied, created. simpl. split_and!.
  - intros k blk Hk. by rewrite lookup_empty in Hk.
  - intros blk Hblk. apply list_elem_of_fmap in Hblk as (i & -> & Hi).
    apply elem_of_seq in Hi. simpl. split_and!; [lia|done|].
    split; [|simpl; lia]. simpl. f_equal. lia.
  - rewrite <- list_fmap_compose. replace (block_index ∘ _) with (@id nat) by done.
    rewrite list_fmap_id. apply NoDup_seq.
  - by rewrite length_fmap, length_seq.
  - intros b Hlt _ Hb. exfalso. apply Hb. rewrite <- list_fmap_compose.
    replace (block_index ∘ _) with (@id nat) by done. rewrite list_fmap_id.
    apply elem_of_seq. lia.
Qed.

Lemma tallied_reachable w : reachable env cfg w → tallied w.
Proof.
  induction 1 as [d w H|w op w' _ IH H|w d _ IH].
  - refine (stable_PageMapping_ctor env cfg tallied _ _ _ _ _ _ _ H (tallied_created d));
      first [apply tallied_getFreeBlock | intros; assumption].
  - refine (stable_run env cfg tallied _ _ _ _ _ _ _ _ _ _ _ _ _ _ _ _ _ op w tt w' H IH);
      first [ apply tallied_getFreeBlock | apply tallied_eraseInternal
            | intros; by apply tallied_method
            | intros; by apply tallied_call
            | intros; assumption ].
  - exact IH.
Qed.

End Retired.

Section PoolClaims.
Context {Dev : Type}.
Variable env : Env Dev.
Variable cfg : Config.
Implicit Type w : World Dev.

(** C5.  The free list has ascending erase counts in every reachable
    state: every adjacent pair of [freeBlocks] has non-decreasing erase
    counts.  It is so after the constructor's loop; [getFreeBlock] only
    removes an element; and the reinsertion of [eraseInternal] keeps an
    ascending list ascending: the erased block is put at the place the
    reverse scan stops at, behind every block with an erase count of at
    most its own and before every block with a greater one. *)
Theorem freeBlocks_ascending :
  (∀ d : Dev, ascending (freeBlocks (created cfg d))) ∧
  (∀ idx b w w', getFreeBlock env cfg idx w = Done (b, w') →
     ∃ iter, freeBlocks w' = delete iter (freeBlocks w)) ∧
  (∀ req tick t' w w', ascending (freeBlocks w) →
     eraseInternal env cfg req tick w = Done (t', w') → ascending (freeBlocks w')) ∧
  (∀ req tick t' w w' blk, ascending (freeBlocks w) →
     blocks w !! blockIndex req = Some blk →
     erase_count (Block.erase blk) < FTL_BAD_BLOCK_THRESHOLD cfg →
     eraseInternal env cfg req tick w = Done (t', w') →
     ∃ pos,
       freeBlocks w' = take pos (freeBlocks w) ++ Block.erase blk :: drop pos (freeBlocks w) ∧
       (∀ a, a ∈ take pos (freeBlocks w) → erase_count a ≤ erase_count (Block.erase blk)) ∧
       (∀ b, b ∈ drop pos (freeBlocks w) → erase_count (Block.erase blk) < erase_count b)) ∧
  (∀ w, reachable env cfg w → ascending (freeBlocks w)).
Proof.
  split_and!.
  - apply ascending_created.
  - intros idx b w w' H. apply getFreeBlock_Done in H as (iter & blk & _ & _ & _ & _ & ->).
    by exists iter.
  - intros req tick t' w w' Ha H.
    refine (pool_eraseInternal env cfg (λ fb _ _, ascending fb) _ _ req tick w t' w' H Ha).
    + intros fb n bs b blk iter _ _ Hr Hs. by apply ascending_emplace.
    + intros fb n bs b blk _ _ Hs. exact Hs.
  - intros req tick t' w w' blk Ha Hb Hlt H. rewrite eraseInternal_eq, Hb in H.
    destruct (decide _); [discriminate|].
    apply Z.ltb_lt in Hlt. rewrite Hlt in H.
    destruct (reverseSearch _ _ _) as [pos|] eqn:Er; [|discriminate].
    injection H as _ <-. exists pos. split; [done|].
    apply (reverseSearch_place (freeBlocks w) _ (length (freeBlocks w))).
    + by apply ascending_strong.
    + intros j b Hj Hl. apply lookup_lt_Some in Hl. lia.
    + exact Er.
  - apply ascending_reachable.
Qed.

(** The number of free blocks plus the number of in-use blocks. *)
Definition accounted w : Z := nFreeBlocks w + Z.of_nat (size (blocks w)).

(** The blocks in use, the free blocks and the retired blocks are the
    blocks of the device, each counted once. *)
Lemma tallied_accounted w :
  tallied cfg w →
  accounted w =
    Z.of_nat (totalPhysicalBlocks cfg) - Z.of_nat (length (retiredBlocks cfg (trace w))).
Proof.
  intros (HA & HB & HC & HD & HE). unfold accounted. rewrite HD.
  set (U := list_to_set (seq 0 (totalPhysicalBlocks cfg)) : gset nat).
  set (DB := dom (blocks w) : gset nat).
  set (DF := list_to_set (block_index <$> freeBlocks w) : gset nat).
  set (R := list_to_set (retiredBlocks cfg (trace w)) : gset nat).
  assert (size U = totalPhysicalBlocks cfg) as HU.
  { unfold U. rewrite size_list_to_set by apply NoDup_seq. apply length_seq. }
  assert (size DB = size (blocks w)) as HDB by apply size_dom.
  assert (size DF = length (freeBlocks w)) as HDF.
  { unfold DF. rewrite size_list_to_set by done. apply length_fmap. }
  assert (size R = length (retiredBlocks cfg (trace w))) as HR.
  { unfold R. rewrite size_list_to_set; [done|]. apply NoDup_filter, NoDup_seq. }
  assert (∀ b, b ∈ R ↔ (b < totalPhysicalBlocks cfg)%nat ∧ retired cfg (trace w) b = true) as ER.
  { intros b. unfold R, retiredBlocks. rewrite elem_of_list_to_set, list_elem_of_filter.
    rewrite elem_of_seq. split; [intros [? ?]|intros [? ?]]; split; (done || lia). }
  assert (∀ blk, in_service cfg (trace w) blk → retired cfg (trace w) (block_index blk) = false)
    as Hserv.
  { intros blk [Hc Hs]. unfold retired. destruct (0 <? _) eqn:E0; [|done]. simpl.
    apply Z.ltb_lt in E0. apply Z.leb_gt. rewrite <- Hc. by apply Hs. }
  assert (DB ## DF) as H1.
  { intros b Hb Hf. unfold DF in Hf. apply elem_of_list_to_set in Hf.
    apply list_elem_of_fmap in Hf as (blk & -> & Hblk). destruct (HB blk Hblk) as (_ & Hn & _).
    apply elem_of_dom in Hb as [? Hb]. congruence. }
  assert (DB ∪ DF ## R) as H2.
  { intros b Hb Hr. apply ER in Hr as [_ Hr]. apply elem_of_union in Hb as [Hb|Hb].
    - apply elem_of_dom in Hb as [blk Hb]. destruct (HA b blk Hb) as (Hi & _ & Hs).
      apply Hserv in Hs. congruence.
    - unfold DF in Hb. apply elem_of_list_to_set in Hb.
      apply list_elem_of_fmap in Hb as (blk & -> & Hblk).
      destruct (HB blk Hblk) as (_ & _ & Hs). apply Hserv in Hs. congruence. }
  assert (U = DB ∪ DF ∪ R) as EU.
  { apply set_eq. intros b. unfold U. rewrite elem_of_list_to_set, elem_of_seq.
    rewrite !elem_of_union. split.
    - intros [_ Hlt]. destruct (blocks w !! b) as [blk|] eqn:E.
      + left. left. by apply elem_of_dom.
      + destruct (decide (b ∈ block_index <$> freeBlocks w)) as [Hf|Hf].
        * left. right. by apply elem_of_list_to_set.
        * right. apply ER. split; [lia|]. apply HE; [lia|done..].
    - intros [[Hb|Hb]|Hr].
      + apply elem_of_dom in Hb as [blk Hb]. destruct (HA b blk Hb) as (_ & Hlt & _). lia.
      + unfold DF in Hb. apply elem_of_list_to_set in Hb.
        apply list_elem_of_fmap in Hb as (blk & -> & Hblk).
        destruct (HB blk Hblk) as (Hlt & _). lia.
      + apply ER in Hr as [Hlt _]. lia. }
  assert (size U = (size DB + size DF + size R)%nat) as Hsize.
  { rewrite EU, size_union by done. by rewrite size_union by done. }
  lia.
Qed.

(** C3, as the code has it.  In every reachable state the free and the
    in-use blocks together are the blocks of the device less the retired
    ones: [nFreeBlocks] plus the size of the in-use map is
    [totalPhysicalBlocks] minus the number of blocks whose last erase
    raised their erase count to [FTL_BAD_BLOCK_THRESHOLD] or above.  So
    the sum is at most [totalPhysicalBlocks] and no operation that
    returns raises it; and [eraseInternal] leaves it as it was when the
    raised erase count is below the threshold and lowers it by exactly
    one when the count reaches the threshold: the block is retired. *)
Theorem blocks_accounted :
  Z.of_nat (totalPhysicalBlocks cfg) < 2 ^ 32 →
  (∀ w, reachable env cfg w →
     accounted w =
       Z.of_nat (totalPhysicalBlocks cfg) - Z.of_nat (length (retiredBlocks cfg (trace w)))) ∧
  (∀ w, reachable env cfg w → accounted w ≤ Z.of_nat (totalPhysicalBlocks cfg)) ∧
  (∀ w op w', reachable env cfg w → run env cfg op w = Done (tt, w') →
     accounted w' ≤ accounted w) ∧
  (∀ w req tick t' w', pool_ok cfg w →
     eraseInternal env cfg req tick w = Done (t', w') →
     ∃ blk, blocks w !! blockIndex req = Some blk ∧
       accounted w' =
         accounted w -
           (if erase_count (Block.erase blk) <? FTL_BAD_BLOCK_THRESHOLD cfg then 0 else 1)).
Proof.
  intros Hu. split_and!.
  - intros w Hr. apply tallied_accounted. by apply (tallied_reachable env).
  - intros w Hr. apply (pool_ok_reachable _ _ _ Hu) in Hr as [Hn Hs].
    unfold accounted. lia.
  - intros w op w' Hr H. apply (pool_ok_reachable _ _ _ Hu) in Hr as [Hn Hs].
    assert (pool_inv (counted (accounted w)) w) as Hc.
    { split; [done|]. unfold accounted. lia. }
    assert (accounted w < 2 ^ 32) as Hb by (unfold accounted; lia).
    destruct (counted_run env cfg (accounted w) Hb op w tt w' H Hc) as [Hn' Hs'].
    unfold accounted at 1. lia.
  - intros w req tick t' w' [Hn Hs] H. rewrite eraseInternal_eq in H.
    destruct (blocks w !! blockIndex req) as [blk|] eqn:Eb; [|discriminate].
    destruct (decide (Block.getValidPageCount blk ≠ 0)); [discriminate|].
    exists blk. split; [done|]. pose proof (size_delete_blocks _ _ _ Eb) as Hd.
    destruct (_ <? _).
    + destruct (reverseSearch _ _ _) as [iter|]; [|discriminate].
      injection H as <- <-. unfold accounted; simpl. rewrite delete_alter_eq.
      unfold u32. rewrite Z.mod_small; lia.
    + injection H as <- <-. unfold accounted; simpl. rewrite delete_alter_eq. lia.
Qed.

End PoolClaims.

(** One page written after [initialize]. *)
Definition demo_written : World unit :=
  Demo.after (run (Demo.env 8) Demo.cfg (op_write (mkRequest 0 [true]) 0))
    (Demo.initialized Demo.cfg).

Lemma demo_written_reachable : reachable (Demo.env 8) Demo.cfg demo_written.
Proof.
  eapply (reachable_run _ _ _ (op_write (mkRequest 0 [true]) 0)).
  - apply (Demo.initialized_reachable Demo.cfg); vm_compute; reflexivity.
  - vm_compute. reflexivity.
Defined.

(** A second page written after [demo_written]. *)
Definition demo_two : World unit :=
  Demo.after (run (Demo.env 8) Demo.cfg (op_write (mkRequest 1 [true]) 100)) demo_written.

Lemma demo_two_reachable : reachable (Demo.env 8) Demo.cfg demo_two.
Proof.
  eapply (reachable_run _ _ _ (op_write (mkRequest 1 [true]) 100)).
  - exact demo_written_reachable.
  - vm_compute. reflexivity.
Defined.

(** [demo_two] after a format of the first page: the collection copies
    the second page until the block is full, then to a new block, and
    erases the block. *)
Definition demo_formatted : World unit :=
  Demo.after (run (Demo.env 8) Demo.cfg (op_format (mkRange 0 1) 300)) demo_two.

Lemma demo_formatted_reachable : reachable (Demo.env 8) Demo.cfg demo_formatted.
Proof.
  eapply (reachable_run _ _ _ (op_format (mkRange 0 1) 300)).
  - exact demo_two_reachable.
  - vm_compute. reflexivity.
Defined.

(** A worn device.  Block 0 is filled with the pages 0 to 7, which stay.
    Page 9 is written to the next block; four times page 8 is written
    beside it and formatted, and the collection of the format moves
    page 9 to a new block and erases the old one.  Block 0 has then
    never been erased, the blocks 2 and 3 once and block 1 twice; the
    free list holds block 3 and block 1. *)
Definition demo_wear_ops : list Operation :=
  ((λ l, op_write (mkRequest l [true]) 0) <$> [0; 1; 2; 3; 4; 5; 6; 7]) ++
  [op_write (mkRequest 9 [true]) 0] ++
  concat (replicate 4 [op_write (mkRequest 8 [true]) 0; op_format (mkRange 8 1) 0]).

Definition demo_worn : World unit :=
  after_ops (Demo.env 8) Demo.cfg demo_wear_ops (Demo.initialized Demo.cfg).

Lemma demo_worn_reachable : reachable (Demo.env 8) Demo.cfg demo_worn.
Proof.
  apply reachable_ops.
  - apply (Demo.initialized_reachable Demo.cfg); vm_compute; reflexivity.
  - vm_compute. reflexivity.
Defined.

(** The pages of block 0 are trimmed: the block is in use without a
    valid page.  It is then erased. *)
Definition demo_stale : World unit :=
  after_ops (Demo.env 8) Demo.cfg
    ((λ l, op_trim (mkRequest l [true]) 0) <$> [0; 1; 2; 3; 4; 5; 6; 7]) demo_worn.

Lemma demo_stale_reachable : reachable (Demo.env 8) Demo.cfg demo_stale.
Proof.
  apply reachable_ops; [exact demo_worn_reachable|]. vm_compute. reflexivity.
Defined.

Definition demo_placed : World unit :=
  Demo.after (eraseInternal (Demo.env 8) Demo.cfg demo_erase_request 0) demo_stale.

(** The block of [demo_stale] that is erased. *)
Definition demo_stale_block : Block :=
  default (Block.new 0 8 1 0) (blocks demo_stale !! 0%nat).

(** The free list holds block 3, erased once, and block 1, erased
    twice; block 0, erased for the first time, is placed between them. *)
Lemma freeBlocks_ascending_witness :
  (block_index <$> freeBlocks demo_stale) = [3; 1]%nat ∧
  (erase_count <$> freeBlocks demo_stale) = [1; 2] ∧
  (∃ pos,
     freeBlocks demo_placed =
       take pos (freeBlocks demo_stale) ++ Block.erase demo_stale_block ::
       drop pos (freeBlocks demo_stale) ∧
     (∀ a, a ∈ take pos (freeBlocks demo_stale) →
        erase_count a ≤ erase_count (Block.erase demo_stale_block)) ∧
     (∀ b, b ∈ drop pos (freeBlocks demo_stale) →
        erase_count (Block.erase demo_stale_block) < erase_count b)) ∧
  (block_index <$> freeBlocks demo_placed) = [3; 0; 1]%nat ∧
  (erase_count <$> freeBlocks demo_placed) = [1; 1; 2] ∧
  ascending (freeBlocks demo_placed).
Proof.
  destruct (freeBlocks_ascending (Demo.env 8) Demo.cfg) as (_ & _ & H3 & H4 & H5).
  pose proof (H5 demo_stale demo_stale_reachable) as Ha.
  split_and!;
    [vm_compute; reflexivity|vm_compute; reflexivity|
    |vm_compute; reflexivity|vm_compute; reflexivity|].
  - refine (H4 demo_erase_request 0 _ demo_stale demo_placed demo_stale_block Ha _ _ _);
      vm_compute; reflexivity.
  - refine (H3 demo_erase_request 0 _ demo_stale demo_placed Ha _).
    vm_compute. reflexivity.
Defined.

(** With blocks retired at their first erase: one page is written, then
    the logical page is formatted.  The block of the page is erased, its
    erase count reaches the threshold and three of the four blocks are
    left. *)
Definition fragile_written : World unit :=
  Demo.after (run (Demo.env 8) Demo.cfg_fragile (op_write (mkRequest 0 [true]) 0))
    (Demo.initialized Demo.cfg_fragile).

Definition fragile_formatted : World unit :=
  Demo.after (run (Demo.env 8) Demo.cfg_fragile (op_format (mkRange 0 1) 50)) fragile_written.

Lemma fragile_written_reachable : reachable (Demo.env 8) Demo.cfg_fragile fragile_written.
Proof.
  eapply (reachable_run _ _ _ (op_write (mkRequest 0 [true]) 0)).
  - apply (Demo.initialized_reachable Demo.cfg_fragile); vm_compute; reflexivity.
  - vm_compute. reflexivity.
Defined.

Lemma blocks_accounted_counterexample :
  reachable (Demo.env 8) Demo.cfg_fragile fragile_written ∧
  run (Demo.env 8) Demo.cfg_fragile (op_format (mkRange 0 1) 50) fragile_written
    = Done (tt, fragile_formatted) ∧
  accounted fragile_written = Z.of_nat (totalPhysicalBlocks Demo.cfg_fragile) ∧
  accounted fragile_formatted ≠ Z.of_nat (totalPhysicalBlocks Demo.cfg_fragile).
Proof.
  split_and!.
  - apply fragile_written_reachable.
  - vm_compute. reflexivity.
  - vm_compute. reflexivity.
  - vm_compute. discriminate.
Qed.

Lemma fragile_formatted_reachable :
  reachable (Demo.env 8) Demo.cfg_fragile fragile_formatted.
Proof.
  eapply (reachable_run _ _ _ (op_format (mkRange 0 1) 50)).
  - exact fragile_written_reachable.
  - vm_compute. reflexivity.
Defined.

(** Block 0 is retired, and the other three are accounted for. *)
Lemma blocks_accounted_witness :
  retiredBlocks Demo.cfg_fragile (trace fragile_formatted) = [0%nat] ∧
  accounted fragile_formatted = 3.
Proof.
  split; [vm_compute; reflexivity|].
  rewrite (proj1 (blocks_accounted (Demo.env 8) Demo.cfg_fragile eq_refl)
             fragile_formatted fragile_formatted_reachable).
  vm_compute. reflexivity.
Defined.

(** * Empty requests and trim *)

Section Requests.
Context {Dev : Type}.
Variable env : Env Dev.
Variable cfg : Config.
Implicit Type w : World Dev.

(** C8.  A read or a write whose io map has no bit set returns; the
    state it leaves is the state it found with the warning appended to
    the record of calls, so the mapping table, the blocks and the free
    pool are as they were and neither the PAL nor the DRAM was called;
    the tick is advanced by the CPU latency of the operation alone (as a
    [uint64_t]). *)
Theorem empty_request req tick w :
  Bitset_count (ioFlag req) = 0 →
  let w' := set_dev (dev w) (warn "FTL got empty request") w in
  read env cfg req tick w = Done (u64 (tick + applyLatency env READ), w') ∧
  write env cfg req tick w = Done (u64 (tick + applyLatency env WRITE), w') ∧
  table w' = table w ∧ blocks w' = blocks w ∧
  freeBlocks w' = freeBlocks w ∧ nFreeBlocks w' = nFreeBlocks w ∧
  stat w' = stat w ∧ dev w' = dev w ∧
  trace w' = trace w ++ [warn "FTL got empty request"].
Proof.
  intros H. unfold read, write. rewrite H. simpl. split_and!; reflexivity.
Qed.

Lemma trimInternal_unmapped req tick w :
  table w !! lpn req = None → trimInternal env cfg req tick w = Done (tick, w).
Proof.
  intros H. unfold trimInternal, mbind, FTL_bind, gets. simpl. rewrite H. reflexivity.
Qed.

Lemma trimInternal_unmaps req tick w t1 w1 :
  trimInternal env cfg req tick w = Done (t1, w1) → table w1 !! lpn req = None.
Proof.
  unfold trimInternal. intros H.
  apply bind_Done in H as (tbl & w0 & [= <- <-] & H).
  destruct (table w !! lpn req) as [mappingList|] eqn:E.
  - apply bind_Done in H as (t & wa & _ & H).
    apply bind_Done in H as (? & wb & _ & H).
    apply bind_Done in H as (? & wc & [= _ <-] & [= _ <-]).
    simpl. apply lookup_delete_eq.
  - injection H as _ <-. exact E.
Qed.

(** C7.  When [trim] of a logical page returns, a second [trim] of the
    same page returns as well and leaves the state as the first one left
    it: it finds no mapping entry, calls nothing and only advances the
    tick by the CPU latency of [TRIM]. *)
Theorem trim_twice req tick w t1 w1 :
  trim env cfg req tick w = Done (t1, w1) →
  table w1 !! lpn req = None ∧
  ∀ tick', trim env cfg req tick' w1 = Done (u64 (tick' + applyLatency env TRIM), w1).
Proof.
  unfold trim. intros H.
  apply bind_Done in H as (t & w0 & H & [= _ <-]).
  apply trimInternal_unmaps in H. split; [exact H|].
  intros tick'. unfold mbind, FTL_bind.
  rewrite (trimInternal_unmapped _ _ _ H). reflexivity.
Qed.

End Requests.

Lemma empty_request_witness :
  read (Demo.env 8) Demo.cfg (mkRequest 3 [false]) 7 demo_written
    = Done (12, set_dev tt (warn "FTL got empty request") demo_written).
Proof.
  refine (proj1 (empty_request (Demo.env 8) Demo.cfg (mkRequest 3 [false]) 7 demo_written _)).
  reflexivity.
Defined.

(** The page written in [demo_written], trimmed. *)
Definition demo_trimmed : World unit :=
  Demo.after (trim (Demo.env 8) Demo.cfg (mkRequest 0 [true]) 200) demo_written.

Lemma trim_twice_witness :
  trim (Demo.env 8) Demo.cfg (mkRequest 0 [true]) 300 demo_trimmed = Done (305, demo_trimmed).
Proof.
  refine (proj2 (trim_twice (Demo.env 8) Demo.cfg (mkRequest 0 [true]) 200 demo_written
                   211 demo_trimmed _) 300).
  vm_compute. reflexivity.
Defined.

(** * The refresh registration of a write *)

Section Registration.
Context {Dev : Type}.
Variable env : Env Dev.
Variable cfg : Config.
Implicit Type w : World Dev.

(** The RBER the code predicts for the Bloom level [level]: at the
    retention time [refresh_period * 10^9 * 2^level]. *)
Definition levelRBER (eraseCount : Z) (layerNumber : nat) (level : nat) : Q :=
  getRBER env (u64 (FTL_REFRESH_PERIOD cfg * 1000000000 * 2 ^ Z.of_nat level))
    eraseCount layerNumber.

(** The levels a key is inserted into, in the order of the insertions:
    the highest, then the lower ones whose own period's RBER exceeds the
    ECC capability. *)
Definition registered (size : nat) (eraseCount : Z) (layerNumber : nat) (level : nat) : bool :=
  bool_decide (S level = size) || exceedsECC (levelRBER eraseCount layerNumber level).

Definition registrationLevels (size : nat) (eraseCount : Z) (layerNumber : nat) : list nat :=
  filter (λ level, registered size eraseCount layerNumber level = true) (reverse (seq 0 size)).

Lemma for_each_cons {A} (x : A) l (body : A → FTL Dev unit) w :
  for_each (x :: l) body w = (body x ;; for_each l body) w.
Proof.
  unfold for_each. simpl. unfold mbind, FTL_bind.
  destruct (body x w) as [[[] w1]| |]; reflexivity.
Qed.

Lemma registerRefresh_levels size b l ec i j w :
  (i ≠ 0%nat → j = 2 ^ Z.of_nat (i - 1)) →
  registerRefresh env cfg size b l ec i j w =
  for_each (filter (λ level, registered size ec l level = true) (reverse (seq 0 i)))
    (setRefreshPeriod env b l) w.
Proof.
  revert j w. induction i as [|i IH]; intros j w Hj; [reflexivity|].
  rewrite seq_S, reverse_app. simpl.
  rewrite (filter_cons (λ level, registered size ec l level = true)).
  replace (i - 0)%nat with i by lia.
  assert (j = 2 ^ Z.of_nat i) as -> by (rewrite Hj by lia; f_equal; lia).
  assert (∀ w1, registerRefresh env cfg size b l ec i (Z.shiftr (2 ^ Z.of_nat i) 1) w1 =
                for_each (filter (λ level, registered size ec l level = true)
                            (reverse (seq 0 i))) (setRefreshPeriod env b l) w1) as IH'.
  { intros w1. apply IH. intros Hi.
    replace i with (S (i - 1)) at 1 by lia.
    rewrite Nat2Z.inj_succ, Z.shiftr_div_pow2, Z.pow_succ_r by lia.
    rewrite Z.pow_1_r, Z.mul_comm, Z.div_mul; lia. }
  destruct (decide (registered size ec l i = true)) as [Hr|Hr];
    unfold registered, levelRBER in Hr.
  - rewrite for_each_cons.
    match goal with
    | |- (?m ≫= _) w = _ => assert (m = setRefreshPeriod env b l i) as ->
    end.
    { destruct (decide (S i = size)); [done|].
      rewrite bool_decide_eq_false_2 in Hr by done. simpl in Hr. by rewrite Hr. }
    unfold mbind, FTL_bind.
    destruct (setRefreshPeriod env b l i w) as [[[] w1]| |]; [apply IH'|done..].
  - match goal with
    | |- (?m ≫= _) w = _ => assert (m = mret tt) as ->
    end.
    { destruct (decide (S i = size)).
      - rewrite bool_decide_eq_true_2 in Hr by done. done.
      - rewrite bool_decide_eq_false_2 in Hr by done. simpl in Hr.
        by destruct (exceedsECC _). }
    apply IH'.
Qed.

(** Insertions into the filter of a level, counted by the filter. *)
Definition insertions (level : nat) w : Z :=
  default 0 (inserted_element_count <$> bloomFilters w !! level).

Lemma setRefreshPeriod_insertions b l rtc w w' level :
  setRefreshPeriod env b l rtc w = Done (tt, w') →
  length (bloomFilters w') = length (bloomFilters w) ∧
  insertions level w' = insertions level w + (if decide (level = rtc) then 1 else 0).
Proof.
  unfold setRefreshPeriod. intros H.
  apply bind_Done in H as (filters & w0 & [= <- <-] & H).
  destruct (decide _) as [|Hlt]; [discriminate|].
  apply bind_Done in H as (rt & w0 & [= <- <-] & H).
  apply bind_Done in H as ([] & w1 & H1 & [= <-]).
  assert (length (bloomFilters w1) = length (bloomFilters w) ∧
          insertions level w1 = insertions level w) as [Hl Hi].
  { destruct (refresh_table w !! refreshKey b l) as [second|].
    - destruct (second >? Z.of_nat rtc).
      + injection H1 as <-. unfold insertions. simpl.
        rewrite length_alter. split; [done|].
        rewrite list_lookup_alter. destruct (decide (rtc = level)) as [->|]; [|done].
        by destruct (bloomFilters w !! level).
      + by injection H1 as <-.
    - injection H1 as <-. unfold insertions. simpl.
      rewrite length_alter. split; [done|].
      rewrite list_lookup_alter. destruct (decide (rtc = level)) as [->|]; [|done].
      by destruct (bloomFilters w !! level). }
  unfold insertions in *. simpl. rewrite length_alter. split; [done|].
  rewrite list_lookup_alter. destruct (decide (rtc = level)) as [->|].
  - rewrite decide_True by done.
    destruct (bloomFilters w1 !! level) as [f|] eqn:E.
    + simpl. rewrite <- Hi. simpl. lia.
    + apply lookup_ge_None in E. lia.
  - rewrite decide_False by done. rewrite Hi. lia.
Qed.

Lemma for_each_insertions b l levels w w' level :
  NoDup levels →
  for_each levels (setRefreshPeriod env b l) w = Done (tt, w') →
  length (bloomFilters w') = length (bloomFilters w) ∧
  insertions level w' = insertions level w + (if decide (level ∈ levels) then 1 else 0).
Proof.
  revert w. induction levels as [|x levels IH]; intros w Hnd H.
  - injection H as <-. rewrite decide_False by apply not_elem_of_nil. split; [done|lia].
  - rewrite for_each_cons in H. apply bind_Done in H as ([] & w1 & H1 & H2).
    apply NoDup_cons in Hnd as [Hx Hnd].
    apply (setRefreshPeriod_insertions _ _ _ _ _ level) in H1 as [Hl1 Hi1].
    apply IH in H2 as [Hl2 Hi2]; [|done]. split; [congruence|].
    rewrite Hi2, Hi1. destruct (decide (level = x)) as [->|Hne].
    + rewrite (decide_False (P := x ∈ levels)) by done.
      rewrite decide_True by (apply elem_of_cons; by left). lia.
    + destruct (decide (level ∈ levels)).
      * rewrite decide_True by (apply elem_of_cons; by right). lia.
      * rewrite decide_False; [lia|]. rewrite elem_of_cons. tauto.
Qed.

End Registration.

Section RegistrationClaim.
Context {Dev : Type}.
Variable env : Env Dev.
Variable cfg : Config.
Implicit Type w : World Dev.

Lemma registrationLevels_elem size ec layer level :
  level ∈ registrationLevels env cfg size ec layer ↔
  (level < size)%nat ∧
  (S level = size ∨ exceedsECC (levelRBER env cfg ec layer level) = true).
Proof.
  unfold registrationLevels. rewrite list_elem_of_filter, elem_of_reverse, elem_of_seq.
  unfold registered. rewrite orb_true_iff, bool_decide_eq_true. split.
  - intros [H [_ Hlt]]. split; [lia|done].
  - intros [Hlt H]. split; [done|lia].
Qed.

Lemma registrationLevels_NoDup size ec layer :
  NoDup (registrationLevels env cfg size ec layer).
Proof. apply NoDup_filter. rewrite reverse_Permutation. apply NoDup_seq. Qed.

Lemma registrationLevels_head size ec layer :
  (0 < size)%nat → head (registrationLevels env cfg size ec layer) = Some (size - 1)%nat.
Proof.
  intros H. unfold registrationLevels. destruct size as [|n]; [lia|].
  rewrite seq_S, reverse_app. simpl.
  rewrite (filter_cons (λ level, registered env cfg (S n) ec layer level = true)).
  rewrite decide_True; [simpl; f_equal; lia|].
  unfold registered. by rewrite bool_decide_eq_true_2.
Qed.

(** Where the registration runs: a written io unit of [writeInternal]
    with [sendToPAL] ends in the registration of the block written and
    of the page just taken from the block's write pointer, with the
    block's erase count and with the Bloom filters and the refresh table
    as they were before the unit. *)
Lemma writeUnit_registers req blockIdx tick readBeforeWrite finishedAt idx w t' w' block :
  Bitset_test (ioFlag req) idx || negb (bRandomTweak cfg) = true →
  blocks w !! blockIdx = Some block →
  writeUnit env cfg req blockIdx tick true readBeforeWrite finishedAt idx w = Done (t', w') →
  ∃ w1,
    predictError env cfg blockIdx (Block.getNextWritePageIndexOf block idx) w1 = Done (tt, w') ∧
    Block.getEraseCount <$> blocks w1 !! blockIdx = Some (Block.getEraseCount block) ∧
    bloomFilters w1 = bloomFilters w ∧
    refresh_table w1 = refresh_table w.
Proof.
  intros Hf Hb. unfold writeUnit. rewrite Hf.
  unfold mbind at 1, FTL_bind at 1, gets at 1.
  unfold mbind at 1, FTL_bind at 1, gets at 1.
  rewrite Hb. destruct (table w !! lpn req) as [mappingList|]; [|discriminate].
  destruct (mappingList !! idx) as [[oldBlock oldPage]|]; [|discriminate].
  intros H.
  apply bind_Done in H as ([] & w1 & H1 & H).
  apply bind_Done in H as (b1 & w2 & H2 & H).
  apply bind_Done in H as ([] & w3 & H3 & H).
  apply bind_Done in H as (b2 & w4 & H4 & H).
  apply bind_Done in H as ([] & w5 & H5 & H).
  injection H as <- <-.
  exists w4. split; [exact H5|].
  apply writeBlock_Done in H1 as (blk & _ & _ & ->). injection H3 as <-.
  assert (blocks w4 = blocks w2 ∧ bloomFilters w4 = bloomFilters w2 ∧
          refresh_table w4 = refresh_table w2) as (-> & -> & ->).
  { unfold pPAL_write in H4. destruct (pal_write _ _ _ _). by injection H4 as _ <-. }
  simpl in *.
  destruct (readBeforeWrite && true).
  - unfold pPAL_read in H2. simpl in H2. destruct (pal_read _ _ _ _).
    injection H2 as _ <-. simpl. rewrite lookup_alter_eq, Hb. done.
  - injection H2 as _ <-. simpl. rewrite lookup_alter_eq, Hb. done.
Qed.

(** C1, as the code has it.  The refresh registration of a written io
    unit ([if (sendToPAL) { // Predict error ... }] in [writeInternal])
    with [size] Bloom filters, [1 ≤ size ≤ 32], is the sequence of calls
    [setRefreshPeriod(block, layer, level)] for the levels of
    [registrationLevels], taken from the highest level down: the highest
    level [size - 1] always and first, and a lower level [i - 1] exactly
    when [rber(refresh_period * 10^9 * 2^(i-1), erase_count, layer)]
    exceeds the ECC capability 0.01 — the period exponent paired with a
    level is the level itself, not the level above.  Each call inserts
    the key once into the filter of its level. *)
Theorem refresh_registration blockIdx pageIdx w block :
  blocks w !! blockIdx = Some block →
  (1 ≤ length (bloomFilters w) ≤ 32)%nat →
  let size := length (bloomFilters w) in
  let ec := erase_count block in
  let layer := (pageIdx mod 64)%nat in
  predictError env cfg blockIdx pageIdx w =
    for_each (registrationLevels env cfg size ec layer)
      (setRefreshPeriod env blockIdx layer) w ∧
  head (registrationLevels env cfg size ec layer) = Some (size - 1)%nat ∧
  (∀ i, (1 ≤ i < size)%nat →
     (i - 1)%nat ∈ registrationLevels env cfg size ec layer ↔
     exceedsECC
       (getRBER env (u64 (FTL_REFRESH_PERIOD cfg * 1000000000 * 2 ^ (Z.of_nat i - 1)))
          ec layer) = true) ∧
  (∀ w', predictError env cfg blockIdx pageIdx w = Done (tt, w') →
     ∀ level,
       insertions level w' =
       insertions level w +
         (if decide (level ∈ registrationLevels env cfg size ec layer) then 1 else 0)).
Proof.
  intros Hb Hsize size ec layer.
  assert (predictError env cfg blockIdx pageIdx w =
          for_each (registrationLevels env cfg size ec layer)
            (setRefreshPeriod env blockIdx layer) w) as E.
  { unfold predictError, mbind, FTL_bind, gets. simpl. rewrite Hb.
    destruct (decide _) as [[]|_]; [lia..|].
    apply registerRefresh_levels. intros _. unfold Block.getEraseCount.
    rewrite Z.shiftl_1_l. unfold u32. apply Z.mod_small. split; [lia|].
    apply Z.pow_lt_mono_r; lia. }
  split_and!.
  - exact E.
  - apply registrationLevels_head. lia.
  - intros i Hi. rewrite registrationLevels_elem.
    unfold levelRBER. replace (Z.of_nat (i - 1)) with (Z.of_nat i - 1) by lia.
    split; [intros [_ [|]]; [lia|done] | intros H; split; [lia|by right]].
  - intros w' H level. rewrite E in H.
    eapply for_each_insertions in H as [_ H]; [exact H|].
    apply registrationLevels_NoDup.
Qed.

End RegistrationClaim.

Lemma refresh_registration_witness :
  head (registrationLevels (Demo.env 8) Demo.cfg 2 0 0) = Some 1%nat.
Proof.
  refine (proj1 (proj2
    (refresh_registration (Demo.env 8) Demo.cfg 0 0 (Demo.initialized Demo.cfg)
       demo_first_block _ _))).
  - vm_compute. reflexivity.
  - vm_compute. split; lia.
Defined.

(** With two filters and a base period of one second, the RBER of the
    period of level 1, [2 * 10^9], exceeds the ECC capability, while the
    RBER of the period of level 0 does not.  The first write after
    [initialize] (block 0, page 0, no erase yet) inserts its key into
    level 1 and not into level 0 = 1 - 1. *)
Lemma refresh_registration_counterexample :
  exceedsECC (getRBER (Demo.env 8) (u64 (FTL_REFRESH_PERIOD Demo.cfg * 1000000000 * 2 ^ 1)) 0 0)
    = true ∧
  write (Demo.env 8) Demo.cfg (mkRequest 0 [true]) 0 (Demo.initialized Demo.cfg)
    = Done (112, demo_written) ∧
  table demo_written !! 0 = Some [(0%nat, 0%nat)] ∧
  insertions 0 (Demo.initialized Demo.cfg) = 0 ∧
  insertions 0 demo_written = 0 ∧
  insertions 1 demo_written = 1.
Proof. vm_compute. split_and!; reflexivity. Qed.

(** * The periodic refresh event *)

(** ** What [getFreeBlock] and [eraseInternal] leave alone *)

Section PoolFrame.
Context {Dev : Type}.
Variable env : Env Dev.
Variable cfg : Config.
Variable I : World Dev → Prop.

Hypothesis I_blocks : ∀ f w, I w → I (set_blocks f w).
Hypothesis I_freeBlocks : ∀ f w, I w → I (set_freeBlocks f w).
Hypothesis I_nFreeBlocks : ∀ f w, I w → I (set_nFreeBlocks f w).
Hypothesis I_PAL_erase : ∀ d r t t' w, I w → I (set_dev d (PAL_erase r t t') w).

Lemma frame_getFreeBlock idx : stable I (getFreeBlock env cfg idx).
Proof.
  unfold getFreeBlock, onBlock.
  stable_go ltac:(apply stable_modify; intros; auto).
Qed.

Lemma stable_pPAL_erase req tick : stable I (pPAL_erase env req tick).
Proof.
  intros w a w' H HI. unfold pPAL_erase in H.
  destruct (pal_erase env req tick (dev w)) as [t d]. inversion H; subst. auto.
Qed.

Lemma frame_eraseInternal req tick : stable I (eraseInternal env cfg req tick).
Proof.
  unfold eraseInternal, onBlock.
  stable_go ltac:(first [apply stable_pPAL_erase | apply stable_modify; intros; auto]).
Qed.

End PoolFrame.

(** The keys a firing checks, in its order: the 64 layers of every
    block. *)
Definition sweepKeys (cfg : Config) : list Z :=
  concat ((λ i, refreshKey i <$> seq 0 64) <$> seq 0 (totalPhysicalBlocks cfg)).

(** How many keys of a list pass a test. *)
Definition tally (test : Z → bool) (keys : list Z) : Z :=
  Z.of_nat (length (filter (λ key, test key = true) keys)).

Lemma tally_snoc test keys key :
  tally test (keys ++ [key]) = tally test keys + (if test key then 1 else 0).
Proof.
  unfold tally. rewrite filter_app, length_app.
  rewrite (filter_cons (λ key, test key = true)), filter_nil.
  destruct (decide (test key = true)) as [E|E].
  - rewrite E. simpl. lia.
  - apply not_true_is_false in E. rewrite E. simpl. lia.
Qed.

Section RefreshEvent.
Context {Dev : Type}.
Variable env : Env Dev.
Variable cfg : Config.
Implicit Type w : World Dev.

(** [refreshPage] leaves [stat.refreshCallCount] alone. *)
Lemma refreshPage_call_count b layer tick c :
  stable (λ w, refreshCallCount (stat w) = c) (refreshPage env cfg b layer tick).
Proof.
  apply stable_refreshPage;
    first [ apply frame_getFreeBlock; intros; assumption
          | apply frame_eraseInternal; intros; assumption
          | intros f w [] H; exact H
          | intros; assumption ].
Qed.

Lemma land_1_even RC : (Z.land RC 1 =? 0) = Z.even RC.
Proof.
  change 1 with (Z.ones 1). rewrite Z.land_ones by lia. change (2 ^ 1) with 2.
  rewrite Zeven_mod. reflexivity.
Qed.

Lemma selectFilter_ge remaining target RC :
  (target ≤ selectFilter remaining target RC ≤ target + remaining)%nat.
Proof.
  revert target RC. induction remaining as [|r IH]; intros target RC; simpl; [lia|].
  destruct (Z.land RC 1 =? 0); [|lia]. specialize (IH (S target) (Z.shiftr RC 1)). lia.
Qed.

Lemma pow2_succ n : 0 ≤ n → 2 ^ (n + 1) = 2 * 2 ^ n.
Proof. intros Hn. rewrite Z.pow_add_r by lia. lia. Qed.

Lemma even_mod_pow2 q n : 0 ≤ n → (2 * q) mod 2 ^ (n + 1) = 2 * (q mod 2 ^ n).
Proof.
  intros Hn. rewrite pow2_succ by lia.
  assert (0 < 2 ^ n) as Hp by (apply Z.pow_pos_nonneg; lia).
  apply Z.mul_mod_distr_l; lia.
Qed.

Lemma odd_mod_pow2 q n : 0 ≤ n → (2 * q + 1) mod 2 ^ (n + 1) = 2 * (q mod 2 ^ n) + 1.
Proof.
  intros Hn. rewrite pow2_succ by lia.
  assert (0 < 2 ^ n) as Hp by (apply Z.pow_pos_nonneg; lia).
  pose proof (Z.mod_pos_bound q (2 ^ n) Hp) as Hb.
  symmetry. apply (Z.mod_unique_pos _ _ (q / 2 ^ n)); [lia|].
  pose proof (Z.div_mod q (2 ^ n)). lia.
Qed.

(** A lower filter is chosen exactly at the counts whose lowest set bit
    is at its position. *)
Lemma selectFilter_lower remaining target RC i :
  (i < remaining)%nat →
  selectFilter remaining target RC = (target + i)%nat ↔
  RC mod 2 ^ (Z.of_nat i + 1) = 2 ^ Z.of_nat i.
Proof.
  revert target RC i. induction remaining as [|r IH]; intros target RC i Hi; [lia|].
  simpl. rewrite land_1_even, Z.shiftr_div_pow2 by lia. change (2 ^ 1) with 2.
  destruct (Z.even RC) eqn:Ev.
  - apply Z.even_spec in Ev as [q ->]. rewrite Z.mul_comm, Z.div_mul by lia.
    rewrite Z.mul_comm.
    destruct i as [|i].
    + pose proof (selectFilter_ge r (S target) q). simpl.
      rewrite Z.pow_1_r. rewrite Z.mul_comm, Z.mod_mul by lia. split; [lia|discriminate].
    + replace (target + S i)%nat with (S target + i)%nat by lia.
      rewrite (IH (S target) q i) by lia.
      rewrite Nat2Z.inj_succ, <- Z.add_1_r.
      rewrite even_mod_pow2 by lia. rewrite (pow2_succ (Z.of_nat i)) by lia. lia.
  - assert (Z.odd RC = true) as Ho by (rewrite <- Z.negb_even, Ev; done).
    apply Z.odd_spec in Ho as [q ->].
    destruct i as [|i].
    + simpl. rewrite Z.pow_1_r. rewrite Z.add_comm, Z.mul_comm, Z.mod_add by lia.
      split; [done|intros _; lia].
    + rewrite Nat2Z.inj_succ, <- Z.add_1_r, odd_mod_pow2 by lia.
      rewrite (pow2_succ (Z.of_nat i)) by lia. split; lia.
Qed.

(** The highest filter is chosen exactly at the multiples of
    [2 ^ remaining]. *)
Lemma selectFilter_top remaining target RC :
  selectFilter remaining target RC = (target + remaining)%nat ↔
  RC mod 2 ^ Z.of_nat remaining = 0.
Proof.
  revert target RC. induction remaining as [|r IH]; intros target RC.
  - simpl. rewrite Z.mod_1_r. split; [done|intros _; lia].
  - simpl. rewrite land_1_even, Z.shiftr_div_pow2 by lia. change (2 ^ 1) with 2.
    rewrite Nat2Z.inj_succ, <- Z.add_1_r.
    destruct (Z.even RC) eqn:Ev.
    + apply Z.even_spec in Ev as [q ->]. rewrite Z.mul_comm, Z.div_mul by lia.
      rewrite Z.mul_comm, even_mod_pow2 by lia.
      replace (target + S r)%nat with (S target + r)%nat by lia.
      rewrite (IH (S target) q). lia.
    + assert (Z.odd RC = true) as Ho by (rewrite <- Z.negb_even, Ev; done).
      apply Z.odd_spec in Ho as [q ->]. rewrite odd_mod_pow2 by lia. split; lia.
Qed.

(** The lowest set bit of [RC] is at position [i]. *)
Definition lowest_set_bit (RC : Z) (i : nat) : Prop :=
  Z.testbit RC (Z.of_nat i) = true ∧
  ∀ k, (k < i)%nat → Z.testbit RC (Z.of_nat k) = false.

Lemma lowest_set_bit_mod RC i :
  lowest_set_bit RC i ↔ RC mod 2 ^ (Z.of_nat i + 1) = 2 ^ Z.of_nat i.
Proof.
  split.
  - intros [Hi Hlow]. apply Z.bits_inj'. intros n Hn.
    rewrite Z.pow2_bits_eqb by lia.
    destruct (Z.ltb_spec n (Z.of_nat i + 1)) as [Hlt|Hge].
    + rewrite Z.mod_pow2_bits_low by lia.
      destruct (Z.eqb_spec (Z.of_nat i) n) as [<-|Hne]; [done|].
      replace n with (Z.of_nat (Z.to_nat n)) by lia. apply Hlow. lia.
    + rewrite Z.mod_pow2_bits_high by lia. symmetry. apply Z.eqb_neq. lia.
  - intros H. split.
    + rewrite <- (Z.mod_pow2_bits_low RC (Z.of_nat i + 1)) by lia.
      rewrite H, Z.pow2_bits_eqb by lia. apply Z.eqb_refl.
    + intros k Hk. rewrite <- (Z.mod_pow2_bits_low RC (Z.of_nat i + 1)) by lia.
      rewrite H, Z.pow2_bits_eqb by lia. apply Z.eqb_neq. lia.
Qed.

Lemma low_bits_clear RC n k :
  RC mod 2 ^ Z.of_nat n = 0 → (k < n)%nat → Z.testbit RC (Z.of_nat k) = false.
Proof.
  intros H Hk. rewrite <- (Z.mod_pow2_bits_low RC (Z.of_nat n)) by lia.
  rewrite H. apply Z.bits_0.
Qed.

(** The filter [refresh_event] checks at the call count [RC], with
    [size] filters: the position of the lowest set bit of [RC] below the
    highest filter, else the highest filter. *)
Lemma targetFilter_spec size RC :
  (1 ≤ size)%nat →
  (targetFilter size RC < size)%nat ∧
  (∀ k, (k < targetFilter size RC)%nat → Z.testbit RC (Z.of_nat k) = false) ∧
  ((targetFilter size RC < size - 1)%nat → lowest_set_bit RC (targetFilter size RC)).
Proof.
  intros Hs. unfold targetFilter.
  pose proof (selectFilter_ge (size - 1) 0 RC) as Hge.
  split; [lia|].
  destruct (decide (selectFilter (size - 1) 0 RC < size - 1)%nat) as [Hlt|Hnl].
  - pose proof (proj1 (selectFilter_lower (size - 1) 0 RC _ Hlt) eq_refl) as Hm.
    apply lowest_set_bit_mod in Hm. split; [apply Hm | intros _; exact Hm].
  - split; [|lia]. intros k Hk.
    assert (selectFilter (size - 1) 0 RC = (0 + (size - 1))%nat) as Et by lia.
    apply selectFilter_top in Et. eapply low_bits_clear; [exact Et|lia].
Qed.

Lemma checkLayer_call_count target i acc j c :
  stable (λ w, refreshCallCount (stat w) = c) (checkLayer env cfg target i acc j).
Proof.
  unfold checkLayer.
  stable_go ltac:(first [ apply refreshPage_call_count
                        | apply stable_modify; intros; assumption ]).
Qed.

(** The sweep leaves the refresh table and the filters to
    [checkLayer]: [refreshPage] touches neither. *)
Lemma refreshPage_filters b layer tick B R :
  stable (λ w, bloomFilters w = B ∧ refresh_table w = R) (refreshPage env cfg b layer tick).
Proof.
  apply stable_refreshPage;
    first [ apply frame_getFreeBlock; intros; assumption
          | apply frame_eraseInternal; intros; assumption
          | intros; assumption ].
Qed.

(** Whether filter [f] answers that it contains the key, and whether
    the refresh table holds the key at the level [target] or below. *)
Definition contained (f : bloom_filter) (key : Z) : bool :=
  Bloom.contains (bloom_positions env (salt f) key) f.

Definition due (rt : gmap Z Z) (target : nat) (key : Z) : bool :=
  match rt !! key with
  | Some second => second <=? Z.of_nat target
  | None => false
  end.

(** The sweep of the filter [target] over [keys], from [w] to [w']: the
    other filters are as they were; the filter [target] has its salt
    set and its bits, and each key has raised one of its counters, by
    the answer of this filter and by the refresh table. *)
Definition swept_over (keys : list Z) (target : nat) w w' : Prop :=
  refresh_table w' = refresh_table w ∧
  (∀ level, level ≠ target → bloomFilters w' !! level = bloomFilters w !! level) ∧
  ∃ f f', bloomFilters w !! target = Some f ∧ bloomFilters w' !! target = Some f' ∧
    salt f' = salt f ∧ bit_table f' = bit_table f ∧
    true_negative f' = true_negative f + tally (λ key, negb (contained f key)) keys ∧
    true_positive f' =
      true_positive f + tally (λ key, contained f key && due (refresh_table w) target key) keys ∧
    false_positive f' =
      false_positive f +
      tally (λ key, contained f key && negb (due (refresh_table w) target key)) keys.

(** A firing sweeps a filter over every layer of every block. *)
Definition swept (target : nat) w w' : Prop := swept_over (sweepKeys cfg) target w w'.

Lemma swept_over_start target w f :
  bloomFilters w !! target = Some f → swept_over [] target w w.
Proof.
  intros Hf. split; [done|]. split; [done|]. exists f, f. unfold tally. simpl.
  split_and!; try done; lia.
Qed.

Lemma swept_over_checkLayer w0 keys target i acc j :
  hoare (swept_over keys target w0) (checkLayer env cfg target i acc j)
    (λ _, swept_over (keys ++ [refreshKey i j]) target w0).
Proof.
  intros w a w' H (Hrt & Hoth & f & f' & Hf & Hf' & Hsalt & Hbits & Htn & Htp & Hfp).
  unfold checkLayer in H. destruct acc as [t lcc].
  apply bind_Done in H as (rt & ? & [= <- <-] & H).
  apply bind_Done in H as (filters & ? & [= <- <-] & H).
  rewrite Hf' in H.
  assert (Bloom.contains (bloom_positions env (salt f') (refreshKey i j)) f'
          = contained f (refreshKey i j)) as Ec.
  { unfold contained, Bloom.contains. by rewrite Hsalt, Hbits. }
  rewrite Ec in H.
  assert (∀ bump : bloom_filter → bloom_filter,
            salt (bump f') = salt f' → bit_table (bump f') = bit_table f' →
            true_negative (bump f') = true_negative f +
              tally (λ key, negb (contained f key)) (keys ++ [refreshKey i j]) →
            true_positive (bump f') = true_positive f +
              tally (λ key, contained f key && due (refresh_table w0) target key)
                (keys ++ [refreshKey i j]) →
            false_positive (bump f') = false_positive f +
              tally (λ key, contained f key && negb (due (refresh_table w0) target key))
                (keys ++ [refreshKey i j]) →
            swept_over (keys ++ [refreshKey i j]) target w0
              (set_bloomFilters (alter bump target) w)) as Hbump.
  { intros bump Hs Hb Hn Hp Hq. split; [done|]. split.
    - intros level Hne. simpl. rewrite list_lookup_alter_ne by done. by apply Hoth.
    - exists f, (bump f'). simpl. rewrite list_lookup_alter_eq, Hf'. simpl.
      split_and!; try done; congruence. }
  rewrite !tally_snoc in Hbump. rewrite Hrt in H.
  destruct (contained f (refreshKey i j)) eqn:Ek.
  - apply bind_Done in H as ([] & w1 & H1 & H).
    apply bind_Done in H as (t1 & w2 & H2 & [= _ <-]).
    assert (swept_over (keys ++ [refreshKey i j]) target w0 w1) as Hw1.
    { destruct (refresh_table w0 !! refreshKey i j) as [second|] eqn:Er.
      - destruct (second <=? Z.of_nat target) eqn:El.
        + assert (due (refresh_table w0) target (refreshKey i j) = true) as Ed
            by (unfold due; by rewrite Er).
          rewrite Ed in Hbump. injection H1 as <-. apply Hbump; simpl; first [done|lia].
        + assert (due (refresh_table w0) target (refreshKey i j) = false) as Ed
            by (unfold due; by rewrite Er).
          rewrite Ed in Hbump. injection H1 as <-. apply Hbump; simpl; first [done|lia].
      - assert (due (refresh_table w0) target (refreshKey i j) = false) as Ed
          by (unfold due; by rewrite Er).
        rewrite Ed in Hbump. injection H1 as <-. apply Hbump; simpl; first [done|lia]. }
    destruct Hw1 as (Hrt1 & Hoth1 & g & g' & Hg & Hg' & Hrest).
    destruct (refreshPage_filters i j t _ _ w1 t1 w2 H2 (conj eq_refl eq_refl)) as [EB ER].
    split; [congruence|]. split; [intros; rewrite EB; by apply Hoth1|].
    exists g, g'. rewrite EB. done.
  - apply bind_Done in H as ([] & w1 & [= <-] & [= _ <-]).
    apply Hbump; simpl; first [done|lia].
Qed.

Lemma swept_over_layers w0 target i js : ∀ keys acc,
  hoare (swept_over keys target w0) (foldM (checkLayer env cfg target i) acc js)
    (λ _, swept_over (keys ++ (refreshKey i <$> js)) target w0).
Proof.
  induction js as [|j js IH]; intros keys acc.
  - simpl. rewrite app_nil_r. by apply hoare_ret.
  - cbn [foldM fmap list_fmap]. eapply hoare_bind; [apply swept_over_checkLayer|].
    intros acc1 w a w' H Hs. pose proof (IH _ acc1 w a w' H Hs) as Hsw.
    by rewrite <- app_assoc in Hsw.
Qed.

Lemma swept_over_blocks w0 target ids : ∀ keys acc,
  hoare (swept_over keys target w0)
    (foldM (λ acc i, foldM (checkLayer env cfg target i) acc (seq 0 64)) acc ids)
    (λ _, swept_over (keys ++ concat ((λ i, refreshKey i <$> seq 0 64) <$> ids)) target w0).
Proof.
  induction ids as [|i ids IH]; intros keys acc.
  - simpl. rewrite app_nil_r. by apply hoare_ret.
  - cbn [foldM fmap list_fmap concat]. eapply hoare_bind; [apply swept_over_layers|].
    intros acc1 w a w' H Hs. pose proof (IH _ acc1 w a w' H Hs) as Hsw.
    by rewrite <- app_assoc in Hsw.
Qed.

(** What a firing that returns has done: it has swept the filter
    [targetFilter size RC] for the call count [RC] it found, and raised
    the call count. *)
Lemma refresh_event_Done tick w w' :
  refresh_event env cfg tick w = Done (tt, w') →
  (1 ≤ length (bloomFilters w))%nat ∧
  swept (targetFilter (length (bloomFilters w)) (refreshCallCount (stat w))) w w' ∧
  refreshCallCount (stat w') = u64 (refreshCallCount (stat w) + 1).
Proof.
  unfold refresh_event. intros H.
  apply bind_Done in H as (RC & w0 & [= <- <-] & H).
  apply bind_Done in H as (size & w0 & [= <- <-] & H).
  destruct (decide _) as [|Hs]; [discriminate|].
  apply bind_Done in H as ([t lcc] & w1 & H1 & [= <-]).
  split; [lia|].
  set (target := targetFilter _ _) in *.
  assert (target < length (bloomFilters w))%nat as Hlt.
  { unfold target, targetFilter.
    pose proof (selectFilter_ge (length (bloomFilters w) - 1) 0 (refreshCallCount (stat w))).
    lia. }
  destruct (lookup_lt_is_Some_2 _ _ Hlt) as [f Hf].
  pose proof (swept_over_blocks w target (seq 0 (totalPhysicalBlocks cfg)) [] _
                w _ w1 H1 (swept_over_start target w f Hf)) as Hsw.
  split; [exact Hsw|].
  assert (refreshCallCount (stat w1) = refreshCallCount (stat w)) as E.
  { refine (stable_foldM (λ w0, refreshCallCount (stat w0) = refreshCallCount (stat w))
              _ _ _ _ w _ w1 H1 eq_refl).
    intros acc i. apply stable_foldM. intros acc' j. apply checkLayer_call_count. }
  simpl. by rewrite E.
Qed.

Lemma setupRefresh_call_count w w' :
  setupRefresh cfg w = Done (tt, w') → refreshCallCount (stat w') = 1.
Proof.
  unfold setupRefresh. intros H.
  apply bind_Done in H as ([] & w1 & [= <-] & H).
  apply bind_Done in H as ([] & w2 & [= <-] & H).
  apply bind_Done in H as (filters & w3 & [= <- <-] & H).
  simpl in H. destruct (_ ++ _); [discriminate|]. by injection H as <-.
Qed.

(** C2, as the code has it.  A firing of the refresh event that
    returns has swept one filter, the filter [targetFilter size RC] for
    the call count [RC] it found: over the 64 layers of every block it
    has asked this filter whether it contains the key and raised this
    filter's counters by the answers, and it has left the other filters
    as they were.  No bit of [RC] below the filter's level is set, and
    below the highest level the level is the position of the lowest set
    bit of [RC]; the call count is then [RC + 1] (as a [uint64_t]).
    [initialize] leaves the count at 1, and a firing at count 1 sweeps
    level 0 and leaves the count at 2.  So a level [i] below the highest
    is swept exactly at the counts that are [2^i] modulo [2^(i+1)] —
    every [2^(i+1)] firings, not every [2^i] — and the highest level
    exactly at the multiples of [2^(size-1)]. *)
Theorem refresh_event_level tick w w' :
  refresh_event env cfg tick w = Done (tt, w') →
  let RC := refreshCallCount (stat w) in
  let size := length (bloomFilters w) in
  let target := targetFilter size RC in
  swept target w w' ∧
  (target < size)%nat ∧
  (∀ k, (k < target)%nat → Z.testbit RC (Z.of_nat k) = false) ∧
  ((target < size - 1)%nat → lowest_set_bit RC target) ∧
  refreshCallCount (stat w') = u64 (RC + 1) ∧
  (∀ w0, setupRefresh cfg w0 = Done (tt, w) → RC = 1) ∧
  (RC = 1 → target = 0%nat ∧ refreshCallCount (stat w') = 2) ∧
  (∀ i c, (i < size - 1)%nat →
     targetFilter size c = i ↔ c mod 2 ^ (Z.of_nat i + 1) = 2 ^ Z.of_nat i) ∧
  (∀ c, targetFilter size c = (size - 1)%nat ↔ c mod 2 ^ Z.of_nat (size - 1) = 0).
Proof.
  intros H RC size target. subst RC size target.
  apply refresh_event_Done in H as (Hs & Hsw & Hc).
  destruct (targetFilter_spec _ (refreshCallCount (stat w)) Hs) as (Hlt & Hlow & Hbit).
  split_and!; try done.
  - intros w0 H0. eapply setupRefresh_call_count, H0.
  - intros E. split; [|by rewrite Hc, E].
    rewrite E. unfold targetFilter.
    destruct (length (bloomFilters w) - 1)%nat; reflexivity.
  - intros i c Hi. unfold targetFilter.
    rewrite <- (selectFilter_lower _ 0 c i Hi). done.
  - intros c. unfold targetFilter.
    rewrite <- (selectFilter_top _ 0 c). done.
Qed.

End RefreshEvent.

(** Two firings after the write of [demo_written], with two filters. *)
Definition demo_fired_once : World unit :=
  Demo.after (refresh_event (Demo.env 8) Demo.cfg 1000) demo_written.

Definition demo_fired_twice : World unit :=
  Demo.after (refresh_event (Demo.env 8) Demo.cfg 2000) demo_fired_once.

(** The answers a filter has counted. *)
Definition answers (f : bloom_filter) : Z :=
  true_positive f + false_positive f + true_negative f.

Lemma refresh_event_level_witness :
  swept (Demo.env 8) Demo.cfg 0 demo_written demo_fired_once ∧
  refreshCallCount (stat demo_fired_once) = 2.
Proof.
  destruct (refresh_event_level (Demo.env 8) Demo.cfg 1000 demo_written demo_fired_once)
    as (Hsw & _ & _ & _ & _ & _ & H & _).
  - vm_compute. reflexivity.
  - split; [exact Hsw|]. apply H. vm_compute. reflexivity.
Defined.

(** The first firing sweeps level 0: the 256 layers are counted by
    filter 0.  The next firing, [2^0 = 1] firing later, sweeps level 1
    and not level 0: filter 0 has counted nothing more. *)
Lemma refresh_event_level_counterexample :
  refreshCallCount (stat demo_written) = 1 ∧
  refresh_event (Demo.env 8) Demo.cfg 1000 demo_written = Done (tt, demo_fired_once) ∧
  refresh_event (Demo.env 8) Demo.cfg 2000 demo_fired_once = Done (tt, demo_fired_twice) ∧
  answers <$> bloomFilters demo_written = [0; 0] ∧
  answers <$> bloomFilters demo_fired_once = [256; 0] ∧
  answers <$> bloomFilters demo_fired_twice = [256; 256] ∧
  refreshCallCount (stat demo_fired_twice) = 3.
Proof. vm_compute. split_and!; reflexivity. Qed.

(** * Sentinel slots under trim and format *)

Section Sentinel.
Context {Dev : Type}.
Variable env : Env Dev.
Variable cfg : Config.
Implicit Type w : World Dev.

(** ** Two more invariants of the reachable states *)

(** Every block index in the pool is below [totalPhysicalBlocks]. *)
Definition indexed (fb : list Block) (n : Z) (bs : gmap nat Block) : Prop :=
  (∀ b, b ∈ fb → (block_index b < totalPhysicalBlocks cfg)%nat) ∧
  (∀ k b, bs !! k = Some b →
     (k < totalPhysicalBlocks cfg)%nat ∧ (block_index b < totalPhysicalBlocks cfg)%nat).

Lemma indexed_reachable w : reachable env cfg w → pool_inv indexed w.
Proof.
  apply (pool_reachable env cfg).
  - intros f b fb n bs Hf [H1 H2]. split; [done|].
    intros k blk Hk. rewrite lookup_alter in Hk. destruct (decide (b = k)) as [->|]; [|eauto].
    destruct (bs !! k) as [blk0|] eqn:E; [|done]. injection Hk as <-.
    rewrite BlockMethod_index by done. eauto.
  - intros fb n bs iter blk t Hf Hb Hn [H1 H2].
    assert (block_index blk < totalPhysicalBlocks cfg)%nat as Hlt.
    { apply H1. eapply list_elem_of_lookup_2, Hf. }
    split.
    + intros b Hin. apply H1. eapply elem_of_sublist; [exact Hin|apply sublist_delete].
    + intros k b Hk. rewrite lookup_alter in Hk.
      destruct (decide (block_index blk = k)) as [<-|Hne].
      * rewrite lookup_insert_eq in Hk. injection Hk as <-. done.
      * rewrite lookup_insert_ne in Hk by done. eauto.
  - intros fb n bs b blk iter Hb _ _ [H1 H2]. split.
    + intros b' Hin. unfold emplace in Hin.
      apply elem_of_app in Hin as [Hin|Hin].
      * apply H1. eapply elem_of_sublist; [exact Hin|apply sublist_take].
      * apply elem_of_cons in Hin as [->|Hin].
        -- simpl. by apply (H2 b blk).
        -- apply H1. eapply elem_of_sublist; [exact Hin|apply sublist_drop].
    + intros k b' Hk. apply lookup_delete_Some in Hk as [_ Hk]. eauto.
  - intros fb n bs b blk Hb _ [H1 H2]. split; [done|].
    intros k b' Hk. apply lookup_delete_Some in Hk as [_ Hk]. eauto.
  - intros d. split; simpl.
    + intros b Hin. apply list_elem_of_fmap in Hin as (i & -> & Hi).
      apply elem_of_seq in Hi. simpl. lia.
    + intros k b Hk. by rewrite lookup_empty in Hk.
Qed.

(** The sentinel block index is no key of [blocks]. *)
Lemma sentinel_not_in_use w :
  reachable env cfg w → blocks w !! totalPhysicalBlocks cfg = None.
Proof.
  intros Hr. apply indexed_reachable in Hr as [_ H].
  destruct (blocks w !! totalPhysicalBlocks cfg) as [b|] eqn:E; [|done].
  apply H in E. lia.
Qed.

(** Every mapping entry has [bitsetSize] slots. *)
Definition table_sized w : Prop :=
  ∀ lpn mappingList, table w !! lpn = Some mappingList → length mappingList = bitsetSize cfg.

Lemma table_sized_step f w : TableStep cfg f → table_sized w → table_sized (set_table f w).
Proof.
  intros Hf H lpn ml. simpl. destruct Hf as [idx v lpn'|lpn'|lpn'].
  - rewrite lookup_alter. destruct (decide (lpn' = lpn)) as [->|]; [|apply H].
    destruct (table w !! lpn) as [ml0|] eqn:E; [|done]. intros [= <-].
    rewrite length_insert. eauto.
  - rewrite lookup_insert. destruct (decide (lpn' = lpn)) as [->|]; [|apply H].
    intros [= <-]. apply length_replicate.
  - intros Hl. apply lookup_delete_Some in Hl as [_ Hl]. eauto.
Qed.

Lemma table_sized_reachable w : reachable env cfg w → table_sized w.
Proof.
  induction 1 as [d w H|w op w' _ IH H|w d _ IH].
  - eapply (stable_PageMapping_ctor env cfg table_sized);
      [ first [ apply frame_getFreeBlock; intros; assumption | intros; assumption ] ..
      | exact H | ].
    intros lpn ml Hl. simpl in Hl. by rewrite lookup_empty in Hl.
  - eapply (stable_run env cfg table_sized);
      [ first [ apply frame_getFreeBlock; intros; assumption
              | apply frame_eraseInternal; intros; assumption
              | apply table_sized_step
              | intros; assumption ] ..
      | exact H | exact IH ].
  - exact IH.
Qed.

(** ** The loops over the slots of an entry *)

Lemma foldM_cons {A B} (body : B → A → FTL Dev B) acc x l w :
  foldM body acc (x :: l) w = (body acc x ≫= λ acc', foldM body acc' l) w.
Proof. reflexivity. Qed.

(** [trimInternal]'s loop reaches a slot whose block is not in use. *)
Lemma trim_loop_not_in_use mappingList b p idx n a w :
  mappingList !! idx = Some (b, p) → (a ≤ idx < a + n)%nat → blocks w !! b = None →
  for_each (seq a n) (trimUnit mappingList) w = Panic "Block is not in use".
Proof.
  intros Hm. revert a w. induction n as [|n IH]; intros a w Hi Hb; [lia|].
  simpl. rewrite for_each_cons. unfold mbind, FTL_bind.
  destruct (decide (a = idx)) as [->|Hne].
  - unfold trimUnit. rewrite Hm. unfold mbind, FTL_bind, gets. by rewrite Hb.
  - destruct (lookup_lt_is_Some_2 mappingList a) as [[b' p'] Ha].
    { apply lookup_lt_Some in Hm. lia. }
    unfold trimUnit at 1. rewrite Ha. unfold mbind, FTL_bind, gets, onBlock, modify.
    destruct (blocks w !! b') as [blk|] eqn:Eb'; [|done].
    apply IH; [lia|]. simpl. by apply lookup_alter_None.
Qed.

(** [format]'s loop over an entry of full size returns with the same
    blocks in use, or stops at a block that is not in use. *)
Lemma format_loop_outcome mappingList n a acc w :
  (a + n ≤ length mappingList)%nat →
  match foldM (formatUnit mappingList) acc (seq a n) w with
  | Done (_, w') => ∀ b, blocks w' !! b = None ↔ blocks w !! b = None
  | Panic msg => msg = "Block is not in use"
  | Undefined => False
  end.
Proof.
  revert a acc w. induction n as [|n IH]; intros a acc w Hlen; [done|].
  rewrite <- cons_seq, foldM_cons. unfold mbind, FTL_bind.
  destruct (lookup_lt_is_Some_2 mappingList a) as [[b' p'] Ha]; [lia|].
  unfold formatUnit at 1. rewrite Ha. unfold mbind, FTL_bind, gets, onBlock, modify.
  destruct (blocks w !! b') as [blk|] eqn:Eb'; [|done]. simpl.
  specialize (IH (S a) (acc ++ [b'])
                (set_blocks (alter (Block.invalidate p' a) b') w)).
  destruct (foldM _ _ _ _) as [[l w']| |]; [|by apply IH; lia..].
  intros b. rewrite IH by lia. simpl. apply lookup_alter_None.
Qed.

(** [format]'s loop reaches a slot whose block is not in use. *)
Lemma format_loop_not_in_use mappingList b p idx n a acc w :
  mappingList !! idx = Some (b, p) → (a ≤ idx < a + n)%nat → blocks w !! b = None →
  foldM (formatUnit mappingList) acc (seq a n) w = Panic "Block is not in use".
Proof.
  intros Hm. revert a acc w. induction n as [|n IH]; intros a acc w Hi Hb; [lia|].
  rewrite <- cons_seq, foldM_cons. unfold mbind, FTL_bind.
  destruct (decide (a = idx)) as [->|Hne].
  - unfold formatUnit. rewrite Hm. unfold mbind, FTL_bind, gets. by rewrite Hb.
  - destruct (lookup_lt_is_Some_2 mappingList a) as [[b' p'] Ha].
    { apply lookup_lt_Some in Hm. lia. }
    unfold formatUnit at 1. rewrite Ha. unfold mbind, FTL_bind, gets, onBlock, modify.
    destruct (blocks w !! b') as [blk|] eqn:Eb'; [|done].
    apply IH; [lia|]. simpl. by apply lookup_alter_None.
Qed.

(** [format]'s loop over the table stops at "Block is not in use" when
    an entry in the range has a slot whose block is not in use. *)
Lemma format_entries_not_in_use range lpn mappingList b p idx entries acc w :
  (lpn, mappingList) ∈ entries →
  (∀ e, e ∈ entries → length e.2 = bitsetSize cfg) →
  slpn range ≤ lpn < u64 (slpn range + nlp range) →
  mappingList !! idx = Some (b, p) → (idx < bitsetSize cfg)%nat →
  blocks w !! b = None →
  foldM (formatEntry cfg range) acc entries w = Panic "Block is not in use".
Proof.
  intros Hin Hlen Hr Hm Hi. revert acc w Hin Hlen.
  induction entries as [|[first ml] entries IH]; intros acc w Hin Hlen Hb.
  { by apply elem_of_nil in Hin. }
  rewrite foldM_cons. unfold mbind, FTL_bind.
  assert (∀ acc' w', blocks w' !! b = None →
            (lpn, mappingList) ∈ entries →
            foldM (formatEntry cfg range) acc' entries w' = Panic "Block is not in use")
    as IH'.
  { intros acc' w' Hb' Hin'. apply IH; [done| |done].
    intros e He. apply Hlen. by apply elem_of_cons; right. }
  unfold formatEntry at 1.
  destruct (decide (slpn range ≤ first ∧ first < u64 (slpn range + nlp range))) as [Hf|Hf].
  - unfold mbind, FTL_bind.
    destruct (decide ((lpn, mappingList) = (first, ml))) as [[= <- <-]|Hne].
    + rewrite (format_loop_not_in_use mappingList b p idx); [done..|lia|done].
    + pose proof (format_loop_outcome ml (bitsetSize cfg) 0 acc w) as Ho.
      assert (length ml = bitsetSize cfg) as El.
      { apply (Hlen (first, ml)). apply elem_of_cons. by left. }
      specialize (Ho ltac:(lia)).
      destruct (foldM (formatUnit ml) acc _ w) as [[l w']| |]; [|by subst|done].
      unfold modify. simpl. apply IH'.
      * simpl. by apply Ho.
      * apply elem_of_cons in Hin as [|]; [contradiction|done].
  - unfold mret, FTL_ret. apply IH'; [done|].
    apply elem_of_cons in Hin as [[= <- <-]|]; [|done]. exfalso. apply Hf. lia.
Qed.

(** C9.  In a reachable state, let the mapping entry of a logical page
    have a slot, among its [bitsetSize] slots, that still holds the
    sentinel pair [(totalPhysicalBlocks, pagesInBlock)].  Then [trim] of
    the page, and [format] of any range that contains the page, end in
    the panic ["Block is not in use"]: both look the block of every slot
    up in [blocks], and the sentinel index is never in use. *)
Theorem sentinel_slot_panics req tick w mappingList idx :
  reachable env cfg w →
  table w !! lpn req = Some mappingList →
  (idx < bitsetSize cfg)%nat →
  mappingList !! idx = Some (totalPhysicalBlocks cfg, pagesInBlock cfg) →
  trim env cfg req tick w = Panic "Block is not in use" ∧
  ∀ range tick',
    slpn range ≤ lpn req < u64 (slpn range + nlp range) →
    format env cfg range tick' w = Panic "Block is not in use".
Proof.
  intros Hr Ht Hi Hm. pose proof (sentinel_not_in_use w Hr) as Hb. split.
  - unfold trim, trimInternal, mbind, FTL_bind, gets. rewrite Ht.
    unfold pDRAM_read. destruct (dram_read env _ _ _ _) as [t d].
    rewrite (trim_loop_not_in_use mappingList (totalPhysicalBlocks cfg) (pagesInBlock cfg) idx);
      [done..|lia|done].
  - intros range tick' Hrange. unfold format, mbind, FTL_bind, gets.
    rewrite (format_entries_not_in_use range (lpn req) mappingList
               (totalPhysicalBlocks cfg) (pagesInBlock cfg) idx); try done.
    + by apply elem_of_map_to_list.
    + intros [l ml] He. apply elem_of_map_to_list in He.
      eapply (table_sized_reachable w Hr), He.
Qed.

End Sentinel.

(** Under the random io tweak with two io units per page, the first
    write of a logical page with the io map [10]: the second slot of its
    mapping entry keeps the sentinel. *)
Definition tweak_written : World unit :=
  Demo.after (run (Demo.env 8) Demo.cfg_tweak (op_write (mkRequest 0 [true; false]) 0))
    (Demo.initialized Demo.cfg_tweak).

Lemma tweak_written_reachable : reachable (Demo.env 8) Demo.cfg_tweak tweak_written.
Proof.
  eapply (reachable_run _ _ _ (op_write (mkRequest 0 [true; false]) 0)).
  - apply (Demo.initialized_reachable Demo.cfg_tweak); vm_compute; reflexivity.
  - vm_compute. reflexivity.
Defined.

Lemma sentinel_slot_panics_witness :
  table tweak_written !! 0 = Some [(0%nat, 0%nat); (4%nat, 8%nat)] ∧
  trim (Demo.env 8) Demo.cfg_tweak (mkRequest 0 [true; true]) 500 tweak_written
    = Panic "Block is not in use".
Proof.
  split; [vm_compute; reflexivity|].
  refine (proj1 (sentinel_slot_panics (Demo.env 8) Demo.cfg_tweak (mkRequest 0 [true; true]) 500
                   tweak_written [(0%nat, 0%nat); (4%nat, 8%nat)] 1
                   tweak_written_reachable _ _ _)).
  - vm_compute. reflexivity.
  - vm_compute. lia.
  - vm_compute. reflexivity.
Defined.

(** * The timing of garbage collection *)

(** ** The record of calls of one garbage collection *)

(** DRAM reads that follow one another: each begins at the tick the
    one before left; [chain t0 evs t] leads from [t0] to [t]. *)
Inductive chain : Z → list Event → Z → Prop :=
| chain_nil t : chain t [] t
| chain_cons t lpn size t' evs t'' :
    chain t' evs t'' → chain t (DRAM_read lpn size t t' :: evs) t''.

Lemma chain_snoc t0 evs t lpn size t' :
  chain t0 evs t → chain t0 (evs ++ [DRAM_read lpn size t t']) t'.
Proof.
  induction 1 as [t|t l s t1 evs t2 _ IH]; simpl.
  - constructor. constructor.
  - constructor. exact IH.
Qed.

(** [MAX] over the finish times, from [t0]. *)
Definition maxFinish (t0 : Z) (finished : list Z) : Z := foldl MAX t0 finished.

Section GCTiming.
Context {Dev : Type}.
Variable env : Env Dev.
Variable cfg : Config.
Implicit Type w : World Dev.

(** Since the record [T0], the mapping entries were looked up in DRAM
    from the tick [t0] to the tick [t]. *)
Definition looked_up (T0 : list Event) (t0 t : Z) w : Prop :=
  ∃ evs, trace w = T0 ++ evs ∧ chain t0 evs t.

Section Collect.
Variable T0 : list Event.
Variable t0 : Z.

Lemma looked_up_frame t (f : World Dev → World Dev) :
  (∀ w, trace (f w) = trace w) → ∀ w, looked_up T0 t0 t w → looked_up T0 t0 t (f w).
Proof. intros Hf w (evs & Ht & Hc). exists evs. by rewrite Hf. Qed.

Lemma looked_up_getLastFreeBlock t iomap :
  stable (looked_up T0 t0 t) (getLastFreeBlock env cfg iomap).
Proof.
  apply stable_getLastFreeBlock;
    first [ apply frame_getFreeBlock | idtac ];
    intros; by apply looked_up_frame.
Qed.

Lemma looked_up_pDRAM_read lpn size t :
  hoare (looked_up T0 t0 t) (pDRAM_read env lpn size t) (looked_up T0 t0).
Proof.
  intros w t' w' H (evs & Ht & Hc). unfold pDRAM_read in H.
  destruct (dram_read env lpn size t (dev w)) as [t1 d]. injection H as <- <-.
  exists (evs ++ [DRAM_read lpn size t t1]). simpl. rewrite Ht, app_assoc. split; [done|].
  by apply chain_snoc.
Qed.

(** One step of an operation under [looked_up]: the steps that call
    nothing keep the tick. *)
Ltac collect_step :=
  lazymatch goal with
  | |- hoare _ (mret _) _ => apply hoare_ret; intros ? ?; assumption
  | |- hoare _ (panic _) _ => apply hoare_panic
  | |- hoare _ undefined _ => apply hoare_undefined
  | |- hoare _ (pDRAM_read _ _ _ _ ≫= _) _ =>
      eapply hoare_bind; [apply looked_up_pDRAM_read | intros ?]
  | |- hoare _ (gets _ ≫= _) _ =>
      eapply hoare_bind; [apply hoare_stable, stable_gets | intros ?]
  | |- hoare _ (getLastFreeBlock _ _ _ ≫= _) _ =>
      eapply hoare_bind; [apply hoare_stable, looked_up_getLastFreeBlock | intros ?]
  | |- hoare _ (onBlock _ _ ≫= _) _ =>
      eapply hoare_bind;
        [apply hoare_stable, stable_modify; intros; by apply looked_up_frame | intros ?]
  | |- hoare _ (writeBlock _ _ _ _ _ ≫= _) _ =>
      eapply hoare_bind;
        [apply hoare_stable, stable_writeBlock; intros; by apply looked_up_frame | intros ?]
  | |- hoare _ (modify _ ≫= _) _ =>
      eapply hoare_bind;
        [apply hoare_stable, stable_modify; intros; by apply looked_up_frame | intros ?]
  | |- hoare _ (if ?c then _ else _) _ => destruct c
  | |- hoare _ (match ?x with _ => _ end) _ => destruct x
  end.

Lemma looked_up_gcCopyUnit v p n lpns bit u l idx :
  hoare (looked_up T0 t0 (gc_tick l)) (gcCopyUnit env cfg v p n lpns bit u l idx)
    (λ l' w, looked_up T0 t0 (gc_tick l') w).
Proof. unfold gcCopyUnit. repeat collect_step. Qed.

Lemma looked_up_gcCopyPage v u l p :
  hoare (looked_up T0 t0 (gc_tick l)) (gcCopyPage env cfg v u l p)
    (λ l' w, looked_up T0 t0 (gc_tick l') w).
Proof.
  unfold gcCopyPage. repeat collect_step.
  eapply hoare_bind.
  - apply (hoare_foldM_from (λ l' w, looked_up T0 t0 (gc_tick l') w)).
    + intros acc x. apply looked_up_gcCopyUnit.
    + intros w H. exact H.
  - intros l'. repeat collect_step.
Qed.

Lemma looked_up_gcCollectBlock u l v :
  hoare (looked_up T0 t0 (gc_tick l)) (gcCollectBlock env cfg u l v)
    (λ l' w, looked_up T0 t0 (gc_tick l') w).
Proof.
  unfold gcCollectBlock. repeat collect_step.
  eapply hoare_bind.
  - apply (hoare_foldM_from (λ l' w, looked_up T0 t0 (gc_tick l') w)).
    + intros acc x. apply looked_up_gcCopyPage.
    + intros w H. exact H.
  - intros l'. repeat collect_step.
Qed.

End Collect.

(** The collecting loops only look mapping entries up in DRAM, one
    after the other from the tick of the call. *)
Lemma collect_looked_up u blocksToReclaim tick w l w' :
  foldM (gcCollectBlock env cfg u) (mkGC tick [] [] []) blocksToReclaim w = Done (l, w') →
  ∃ lookups, trace w' = trace w ++ lookups ∧ chain tick lookups (gc_tick l).
Proof.
  intros H.
  refine (hoare_foldM (λ l' w0, looked_up (trace w) tick (gc_tick l') w0) _ _ _ _ w l w' H _).
  - intros acc x. apply looked_up_gcCollectBlock.
  - exists []. simpl. rewrite app_nil_r. split; [done|constructor].
Qed.

(** The three loops of calls: every read begins at [tick], every
    write and every erase at [readFinishedAt]. *)
Lemma gcIssueReads_trace tick readFinishedAt reqs w r w' :
  gcIssueReads env tick readFinishedAt reqs w = Done (r, w') →
  ∃ finished,
    length finished = length reqs ∧
    trace w' = trace w ++ zip_with (λ req f, PAL_read req tick f) reqs finished ∧
    r = maxFinish readFinishedAt finished.
Proof.
  unfold gcIssueReads. revert readFinishedAt w.
  induction reqs as [|req reqs IH]; intros r0 w H.
  - injection H as <- <-. exists []. simpl. by rewrite app_nil_r.
  - rewrite foldM_cons in H. apply bind_Done in H as (r1 & w1 & H1 & H).
    apply bind_Done in H1 as (t & w2 & H1 & [= <- <-]).
    unfold pPAL_read in H1. destruct (pal_read env req tick (dev w)) as [t1 d].
    injection H1 as <- <-. apply IH in H as (finished & Hl & Ht & ->).
    exists (t1 :: finished). simpl. rewrite Ht. simpl. rewrite <- app_assoc.
    split_and!; [by rewrite Hl|done|done].
Qed.

Lemma gcIssueWrites_trace readFinishedAt writeFinishedAt reqs w r w' :
  gcIssueWrites env readFinishedAt writeFinishedAt reqs w = Done (r, w') →
  ∃ finished,
    length finished = length reqs ∧
    trace w' = trace w ++ zip_with (λ req f, PAL_write req readFinishedAt f) reqs finished ∧
    r = maxFinish writeFinishedAt finished.
Proof.
  unfold gcIssueWrites. revert writeFinishedAt w.
  induction reqs as [|req reqs IH]; intros r0 w H.
  - injection H as <- <-. exists []. simpl. by rewrite app_nil_r.
  - rewrite foldM_cons in H. apply bind_Done in H as (r1 & w1 & H1 & H).
    apply bind_Done in H1 as (t & w2 & H1 & [= <- <-]).
    unfold pPAL_write in H1. destruct (pal_write env req readFinishedAt (dev w)) as [t1 d].
    injection H1 as <- <-. apply IH in H as (finished & Hl & Ht & ->).
    exists (t1 :: finished). simpl. rewrite Ht. simpl. rewrite <- app_assoc.
    split_and!; [by rewrite Hl|done|done].
Qed.

(** An erase that returns has called the PAL once, at the tick it was
    given, and leaves the PAL's tick advanced by the CPU latency of
    [ERASE_INTERNAL]. *)
Lemma eraseInternal_trace req tick w t' w' :
  eraseInternal env cfg req tick w = Done (t', w') →
  ∃ f, trace w' = trace w ++ [PAL_erase req tick f] ∧
       t' = u64 (f + applyLatency env ERASE_INTERNAL).
Proof.
  rewrite eraseInternal_eq. intros H.
  destruct (blocks w !! blockIndex req) as [blk|]; [|discriminate].
  destruct (decide (Block.getValidPageCount blk ≠ 0)); [discriminate|].
  exists (pal_erase env req tick (dev w)).1.
  destruct (_ <? _).
  - destruct (reverseSearch _ _ _); [|discriminate]. by injection H as <- <-.
  - by injection H as <- <-.
Qed.

Definition eraseFinish (f : Z) : Z := u64 (f + applyLatency env ERASE_INTERNAL).

Lemma gcIssueErases_trace readFinishedAt eraseFinishedAt reqs w r w' :
  gcIssueErases env cfg readFinishedAt eraseFinishedAt reqs w = Done (r, w') →
  ∃ finished,
    length finished = length reqs ∧
    trace w' = trace w ++ zip_with (λ req f, PAL_erase req readFinishedAt f) reqs finished ∧
    r = maxFinish eraseFinishedAt (eraseFinish <$> finished).
Proof.
  unfold gcIssueErases. revert eraseFinishedAt w.
  induction reqs as [|req reqs IH]; intros r0 w H.
  - injection H as <- <-. exists []. simpl. by rewrite app_nil_r.
  - rewrite foldM_cons in H. apply bind_Done in H as (r1 & w1 & H1 & H).
    apply bind_Done in H1 as (t & w2 & H1 & [= <- <-]).
    apply eraseInternal_trace in H1 as (f & Hf & ->).
    apply IH in H as (finished & Hl & Ht & ->).
    exists (f :: finished). simpl. rewrite Ht, Hf. rewrite <- app_assoc.
    split_and!; [by rewrite Hl|done|done].
Qed.

(** C6, as the code has it.  A call of [doGarbageCollection] with no
    block to reclaim returns at once and leaves the tick as it is.  With
    a block to reclaim, a call that returns has made these calls, in this
    order: the DRAM reads of the mapping entries of the copied io units,
    one after the other from the tick of the call to a tick [tickC]; the
    PAL reads, every one beginning at [tickC] — which is the tick of the
    call only when no io unit is copied or the DRAM reads take no time;
    the PAL writes, every one beginning at [readFinishedAt], the maximum
    of the tick of the call and the finish times of the reads; the PAL
    erases, every one beginning at that same [readFinishedAt].  The tick
    it leaves is the maximum of the tick of the call, the finish times of
    the writes and the finish times of the erases (each with the CPU
    latency of [ERASE_INTERNAL]), plus the CPU latency of
    [DO_GARBAGE_COLLECTION]. *)
Theorem gc_timing blocksToReclaim tick w tick' w' :
  doGarbageCollection env cfg blocksToReclaim tick w = Done (tick', w') →
  (blocksToReclaim = [] → tick' = tick ∧ w' = w) ∧
  (blocksToReclaim ≠ [] →
   ∃ lookups tickC reads readFinished writes writeFinished erases eraseFinished,
     let readFinishedAt := maxFinish tick readFinished in
     trace w' = trace w ++ lookups
       ++ zip_with (λ req f, PAL_read req tickC f) reads readFinished
       ++ zip_with (λ req f, PAL_write req readFinishedAt f) writes writeFinished
       ++ zip_with (λ req f, PAL_erase req readFinishedAt f) erases eraseFinished ∧
     chain tick lookups tickC ∧
     length readFinished = length reads ∧
     length writeFinished = length writes ∧
     length eraseFinished = length erases ∧
     tick' = u64 (MAX (maxFinish tick writeFinished)
                      (maxFinish tick (eraseFinish <$> eraseFinished))
                  + applyLatency env DO_GARBAGE_COLLECTION)).
Proof.
  intros H. split.
  - intros ->. by injection H as <- <-.
  - intros Hne. unfold doGarbageCollection in H.
    destruct blocksToReclaim as [|v vs]; [done|].
    apply bind_Done in H as (l & w1 & H1 & H).
    apply bind_Done in H as (r & w2 & H2 & H).
    apply bind_Done in H as (wf & w3 & H3 & H).
    apply bind_Done in H as (ef & w4 & H4 & [= <- <-]).
    apply collect_looked_up in H1 as (lookups & Ht1 & Hc).
    apply gcIssueReads_trace in H2 as (readFinished & Hl2 & Ht2 & ->).
    apply gcIssueWrites_trace in H3 as (writeFinished & Hl3 & Ht3 & ->).
    apply gcIssueErases_trace in H4 as (eraseFinished & Hl4 & Ht4 & ->).
    exists lookups, (gc_tick l), (readRequests l), readFinished,
      (writeRequests l), writeFinished, (eraseRequests l), eraseFinished.
    simpl. split_and!; try done.
    rewrite Ht4, Ht3, Ht2, Ht1. by rewrite <- !app_assoc.
Qed.

End GCTiming.

(** Eight pages written after [initialize]: the first block is full of
    valid pages.  It is then collected at tick 5000. *)
Definition demo_filled : World unit :=
  foldl (λ w lpn,
           Demo.after (run (Demo.env 8) Demo.cfg (op_write (mkRequest lpn [true]) 0)) w)
    (Demo.initialized Demo.cfg) [0; 1; 2; 3; 4; 5; 6; 7].

Definition demo_collected : World unit :=
  Demo.after (doGarbageCollection (Demo.env 8) Demo.cfg [0%nat] 5000) demo_filled.

Lemma gc_timing_witness :
  ∃ lookups tickC reads readFinished writes writeFinished erases eraseFinished,
    trace demo_collected = trace demo_filled ++ lookups
      ++ zip_with (λ req f, PAL_read req tickC f) reads readFinished
      ++ zip_with (λ req f, PAL_write req (maxFinish 5000 readFinished) f) writes writeFinished
      ++ zip_with (λ req f, PAL_erase req (maxFinish 5000 readFinished) f) erases eraseFinished ∧
    chain 5000 lookups tickC ∧
    length readFinished = length reads ∧
    length writeFinished = length writes ∧
    length eraseFinished = length erases ∧
    6028 = u64 (MAX (maxFinish 5000 writeFinished)
                    (maxFinish 5000 (eraseFinish (Demo.env 8) <$> eraseFinished))
                + applyLatency (Demo.env 8) DO_GARBAGE_COLLECTION).
Proof.
  refine (proj2 (gc_timing (Demo.env 8) Demo.cfg [0%nat] 5000 demo_filled 6028 demo_collected _) _).
  - vm_compute. reflexivity.
  - discriminate.
Defined.

(** The collection is called at tick 5000; its first PAL read (the
    ninth call it makes, after eight DRAM reads) begins at tick 5008. *)
Lemma gc_timing_counterexample :
  doGarbageCollection (Demo.env 8) Demo.cfg [0%nat] 5000 demo_filled
    = Done (6028, demo_collected) ∧
  trace demo_collected !! (length (trace demo_filled) + 8)%nat
    = Some (PAL_read (mkPAL 0 0 [true]) 5008 5018) ∧
  5008 ≠ 5000.
Proof. vm_compute. split_and!; [reflexivity..|discriminate]. Qed.

(** * The pool of blocks, once more

    Each block is in the pool once; what [getFreeBlock] hands out; worn
    blocks. *)

Section PoolMore.
Context {Dev : Type}.
Variable env : Env Dev.
Variable cfg : Config.
Implicit Type w : World Dev.

(** Every physical block is in the pool at most once. *)
Definition separate (fb : list Block) (n : Z) (bs : gmap nat Block) : Prop :=
  NoDup (block_index <$> fb) ∧
  (∀ k b, bs !! k = Some b → block_index b = k) ∧
  (∀ b, b ∈ fb → bs !! block_index b = None).

Lemma separate_reachable w : reachable env cfg w → pool_inv separate w.
Proof.
  apply (pool_reachable env cfg).
  - intros f b fb n bs Hf (H1 & H2 & H3). split_and!; [done| |].
    + intros k blk Hk. rewrite lookup_alter in Hk. destruct (decide (b = k)) as [->|]; [|eauto].
      destruct (bs !! k) as [blk0|] eqn:E; [|done]. injection Hk as <-.
      rewrite BlockMethod_index by done. eauto.
    + intros b' Hb'. rewrite lookup_alter. destruct (decide (b = block_index b')) as [->|]; [|eauto].
      by rewrite (H3 b' Hb').
  - intros fb n bs iter blk t Hf Hb Hn (H1 & H2 & H3).
    assert (∀ b', b' ∈ delete iter fb → block_index b' ≠ block_index blk) as Hne.
    { intros b' Hb' E. rewrite <- (take_drop_middle fb iter blk Hf) in H1.
      rewrite fmap_app, fmap_cons in H1. apply NoDup_app in H1 as (_ & Hx & Hd).
      apply NoDup_cons in Hd as [Hd _]. rewrite delete_take_drop in Hb'.
      apply elem_of_app in Hb' as [Hb'|Hb'].
      - apply (Hx (block_index b')); [by apply list_elem_of_fmap_2|]. rewrite E. left.
      - apply Hd. rewrite <- E. by apply list_elem_of_fmap_2. }
    split_and!.
    + eapply sublist_NoDup; [exact H1|apply fmap_sublist, sublist_delete].
    + intros k b Hk. rewrite lookup_alter in Hk.
      destruct (decide (block_index blk = k)) as [<-|Hk'].
      * rewrite lookup_insert_eq in Hk. by injection Hk as <-.
      * rewrite lookup_insert_ne in Hk by done. eauto.
    + intros b' Hb'. rewrite lookup_alter_ne, lookup_insert_ne.
      * apply H3. eapply elem_of_sublist; [exact Hb'|apply sublist_delete].
      * intros E. by apply (Hne b' Hb').
      * intros E. by apply (Hne b' Hb').
  - intros fb n bs b blk iter Hb _ _ (H1 & H2 & H3).
    assert (block_index blk = b) as Hi by eauto.
    assert (b ∉ block_index <$> fb) as Hnot.
    { intros Hin. apply list_elem_of_fmap in Hin as (b' & -> & Hb').
      rewrite (H3 b' Hb') in Hb. done. }
    split_and!.
    + unfold emplace. rewrite fmap_app, fmap_cons. simpl. rewrite Hi.
      rewrite <- (take_drop iter fb), fmap_app in H1, Hnot.
      apply NoDup_app in H1 as (Ha & Hx & Hd).
      apply NoDup_app. split_and!; [done| |].
      * intros x Hx1 Hx2. apply elem_of_cons in Hx2 as [->|Hx2]; [|by eapply Hx].
        apply Hnot, elem_of_app. by left.
      * apply NoDup_cons. split; [|done]. intros Hin. apply Hnot, elem_of_app. by right.
    + intros k b' Hk. apply lookup_delete_Some in Hk as [_ Hk]. eauto.
    + intros b' Hb'. unfold emplace in Hb'. rewrite lookup_delete.
      destruct (decide (b = block_index b')); [done|].
      apply elem_of_app in Hb' as [Hb'|Hb'].
      * apply H3. eapply elem_of_sublist; [exact Hb'|apply sublist_take].
      * apply elem_of_cons in Hb' as [->|Hb']; [simpl in *; congruence|].
        apply H3. eapply elem_of_sublist; [exact Hb'|apply sublist_drop].
  - intros fb n bs b blk Hb _ (H1 & H2 & H3). split_and!; [done| |].
    + intros k b' Hk. apply lookup_delete_Some in Hk as [_ Hk]. eauto.
    + intros b' Hb'. rewrite lookup_delete. destruct (decide _); [done|]. eauto.
  - intros d. unfold pool_inv, separate; simpl. split_and!.
    + rewrite <- list_fmap_compose. simpl.
      replace (block_index ∘ _) with (@id nat) by done. rewrite list_fmap_id. apply NoDup_seq.
    + intros k b Hk. by rewrite lookup_empty in Hk.
    + intros b _. apply lookup_empty.
Qed.


(** Erase counts are [uint32_t] values, and below the larger of the
    bad-block threshold and the count the blocks start with. *)
Definition worn_below (limit : Z) (fb : list Block) (n : Z) (bs : gmap nat Block) : Prop :=
  (∀ b, b ∈ fb → 0 ≤ erase_count b < limit) ∧
  (∀ k b, bs !! k = Some b → 0 ≤ erase_count b < limit).

Lemma worn_below_reachable limit w :
  FTL_BAD_BLOCK_THRESHOLD cfg ≤ limit →
  u32 (FTL_INITIAL_ERASE_COUNT cfg) < limit →
  reachable env cfg w → pool_inv (worn_below limit) w.
Proof.
  intros Ht Hi. apply (pool_reachable env cfg).
  - intros f b fb n bs Hf [H1 H2]. split; [done|].
    intros k blk Hk. rewrite lookup_alter in Hk. destruct (decide (b = k)) as [->|]; [|eauto].
    destruct (bs !! k) as [blk0|] eqn:E; [|done]. injection Hk as <-.
    rewrite BlockMethod_erase_count by done. eauto.
  - intros fb n bs iter blk t Hf Hb Hn [H1 H2]. split.
    + intros b Hin. apply H1. eapply elem_of_sublist; [exact Hin|apply sublist_delete].
    + intros k b Hk. rewrite lookup_alter in Hk.
      destruct (decide (block_index blk = k)) as [<-|Hne].
      * rewrite lookup_insert_eq in Hk. injection Hk as <-. simpl.
        apply H1. eapply list_elem_of_lookup_2, Hf.
      * rewrite lookup_insert_ne in Hk by done. eauto.
  - intros fb n bs b blk iter Hb Hlt _ [H1 H2]. split.
    + intros b' Hin. unfold emplace in Hin.
      apply elem_of_app in Hin as [Hin|Hin].
      * apply H1. eapply elem_of_sublist; [exact Hin|apply sublist_take].
      * apply elem_of_cons in Hin as [->|Hin].
        -- split; [|lia]. simpl. unfold u32. apply Z.mod_pos_bound. lia.
        -- apply H1. eapply elem_of_sublist; [exact Hin|apply sublist_drop].
    + intros k b' Hk. apply lookup_delete_Some in Hk as [_ Hk]. eauto.
  - intros fb n bs b blk Hb _ [H1 H2]. split; [done|].
    intros k b' Hk. apply lookup_delete_Some in Hk as [_ Hk]. eauto.
  - intros d. unfold pool_inv, worn_below; simpl. split.
    + intros b Hb. apply list_elem_of_fmap in Hb as (i & -> & _). simpl.
      split; [|done]. unfold u32. apply Z.mod_pos_bound. lia.
    + intros k b Hk. by rewrite lookup_empty in Hk.
Qed.

Lemma findFreeBlock_stripe idx free iter blk :
  findFreeBlock cfg idx free = Some (iter, blk) →
  (∃ x, x ∈ free ∧ (block_index x mod pageCountToMaxPerf cfg)%nat = idx) →
  (block_index blk mod pageCountToMaxPerf cfg)%nat = idx ∧
  ∀ j x, (j < iter)%nat → free !! j = Some x →
    (block_index x mod pageCountToMaxPerf cfg)%nat ≠ idx.
Proof.
  unfold findFreeBlock. destruct (list_find _ free) as [[i b]|] eqn:E.
  - intros [= <- <-] _. apply list_find_Some in E as (_ & Hp & Hfirst). split; [done|].
    intros j x Hj Hx. eauto.
  - intros _ (x & Hx & Hp). apply list_find_None in E.
    rewrite Forall_forall in E. by apply E in Hx.
Qed.

Lemma findFreeBlock_head idx free iter blk :
  findFreeBlock cfg idx free = Some (iter, blk) →
  (∀ x, x ∈ free → (block_index x mod pageCountToMaxPerf cfg)%nat ≠ idx) →
  iter = 0%nat.
Proof.
  unfold findFreeBlock. destruct (list_find _ free) as [[i b]|] eqn:E.
  - intros [= <- <-] Hall. apply list_find_Some in E as (Hl & Hp & _).
    apply list_elem_of_lookup_2 in Hl. by apply Hall in Hl.
  - destruct free; [done|]. by intros [= <- <-].
Qed.

Lemma findFreeBlock_None idx free : findFreeBlock cfg idx free = None ↔ free = [].
Proof.
  unfold findFreeBlock. destruct (list_find _ free) as [[i b]|] eqn:E.
  - split; [done|]. intros ->. done.
  - destruct free; [done|]. split; done.
Qed.

(** [getFreeBlock], case by case. *)
Definition allocated_world (iter : nat) (blk : Block) (w : World Dev) : World Dev :=
  set_nFreeBlocks (λ n, u32 (n - 1))
    (set_freeBlocks (delete iter)
       (set_blocks (alter (Block.setLastWrittenTime (getTick env (dev w))) (block_index blk))
          (set_blocks (<[block_index blk := blk]>) w))).

Lemma getFreeBlock_eq idx w :
  getFreeBlock env cfg idx w =
  if decide (pageCountToMaxPerf cfg ≤ idx)%nat then Panic "Index out of range"
  else if 0 <? nFreeBlocks w then
    match findFreeBlock cfg idx (freeBlocks w) with
    | None => Undefined
    | Some (iter, blk) =>
        if decide (is_Some (blocks w !! block_index blk)) then Panic "Corrupted"
        else Done (block_index blk, allocated_world iter blk w)
    end
  else Panic "No free block left".
Proof.
  unfold getFreeBlock. destruct (decide _); [done|].
  unfold mbind, FTL_bind, gets, modify, onBlock, mret, FTL_ret; simpl.
  destruct (0 <? nFreeBlocks w); [|done].
  destruct (findFreeBlock cfg idx (freeBlocks w)) as [[iter blk]|]; [|done].
  unfold Block.getBlockIndex. destruct (decide _); done.
Qed.

End PoolMore.

Section PoolTheorems.
Context {Dev : Type}.
Variable env : Env Dev.
Variable cfg : Config.
Implicit Type w : World Dev.

(** X1.  In every reachable state a physical block is in the pool at
    most once: the block indices of the free list are pairwise distinct,
    an in-use block is stored under its own index, and no free block is
    in the in-use map.  So the "Corrupted" check of [getFreeBlock] never
    fires between two operations. *)
Theorem block_in_pool_once w :
  reachable env cfg w →
  NoDup (block_index <$> freeBlocks w) ∧
  (∀ k b, blocks w !! k = Some b → block_index b = k) ∧
  (∀ b, b ∈ freeBlocks w → blocks w !! block_index b = None).
Proof. intros H. exact (separate_reachable env cfg w H). Qed.

(** X2.  In a reachable state [getFreeBlock(idx)] with [idx] below
    [pageCountToMaxPerf] fails in one way only, by "No free block left",
    and it does so exactly when the free list is empty.  Otherwise it
    returns the index of the first free block of the stripe [idx] (of
    the first free block when the stripe has none), after moving that
    block, stamped with the current time, from the free list into the
    in-use map and lowering [nFreeBlocks] by one. *)
Theorem getFreeBlock_reachable idx w :
  Z.of_nat (totalPhysicalBlocks cfg) < 2 ^ 32 →
  (idx < pageCountToMaxPerf cfg)%nat →
  reachable env cfg w →
  (freeBlocks w = [] ∧ getFreeBlock env cfg idx w = Panic "No free block left") ∨
  (∃ iter blk w',
     getFreeBlock env cfg idx w = Done (block_index blk, w') ∧
     freeBlocks w !! iter = Some blk ∧
     ((∃ x, x ∈ freeBlocks w ∧ (block_index x mod pageCountToMaxPerf cfg)%nat = idx) →
        (block_index blk mod pageCountToMaxPerf cfg)%nat = idx ∧
        ∀ j x, (j < iter)%nat → freeBlocks w !! j = Some x →
          (block_index x mod pageCountToMaxPerf cfg)%nat ≠ idx) ∧
     ((∀ x, x ∈ freeBlocks w → (block_index x mod pageCountToMaxPerf cfg)%nat ≠ idx) →
        iter = 0%nat) ∧
     blocks w' !! block_index blk =
       Some (Block.setLastWrittenTime (getTick env (dev w)) blk) ∧
     freeBlocks w' = delete iter (freeBlocks w) ∧
     nFreeBlocks w' = nFreeBlocks w - 1).
Proof.
  intros Hu Hidx Hr.
  destruct (pool_ok_reachable env cfg w Hu Hr) as [Hn Hs].
  destruct (separate_reachable env cfg w Hr) as (_ & _ & Hsep).
  rewrite getFreeBlock_eq. destruct (decide _) as [|_]; [lia|].
  destruct (findFreeBlock cfg idx (freeBlocks w)) as [[iter blk]|] eqn:Ef.
  - right. pose proof (findFreeBlock_lookup cfg _ _ _ _ Ef) as Hl.
    assert (0 < nFreeBlocks w) as Hpos.
    { rewrite Hn. apply lookup_lt_Some in Hl. lia. }
    apply Z.ltb_lt in Hpos as Hpos'. rewrite Hpos'.
    assert (blocks w !! block_index blk = None) as Hnone.
    { apply Hsep. eapply list_elem_of_lookup_2, Hl. }
    destruct (decide _) as [[? Hx]|_]; [congruence|].
    eexists iter, blk, _. split; [reflexivity|]. simpl. split_and!.
    + done.
    + by apply findFreeBlock_stripe.
    + intros Hall. by eapply findFreeBlock_head.
    + by rewrite lookup_alter_eq, lookup_insert_eq.
    + done.
    + unfold u32. rewrite Z.mod_small; lia.
  - left. apply findFreeBlock_None in Ef. split; [done|].
    rewrite Hn, Ef. reflexivity.
Qed.

(** X3.  Blocks whose erase count has reached [FTL_BAD_BLOCK_THRESHOLD]
    are never used again: when the blocks start below the threshold,
    every free and every in-use block of a reachable state has an erase
    count below it. *)
Theorem bad_blocks_leave w :
  u32 (FTL_INITIAL_ERASE_COUNT cfg) < FTL_BAD_BLOCK_THRESHOLD cfg →
  reachable env cfg w →
  (∀ b, b ∈ freeBlocks w → 0 ≤ erase_count b < FTL_BAD_BLOCK_THRESHOLD cfg) ∧
  (∀ k b, blocks w !! k = Some b → 0 ≤ erase_count b < FTL_BAD_BLOCK_THRESHOLD cfg).
Proof.
  intros Hi Hr. apply (worn_below_reachable env cfg (FTL_BAD_BLOCK_THRESHOLD cfg) w); [lia|done..].
Qed.

End PoolTheorems.

Lemma block_in_pool_once_witness :
  NoDup (block_index <$> freeBlocks demo_written) ∧
  (∀ k b, blocks demo_written !! k = Some b → block_index b = k) ∧
  (∀ b, b ∈ freeBlocks demo_written → blocks demo_written !! block_index b = None).
Proof.
  exact (block_in_pool_once (Demo.env 8) Demo.cfg demo_written demo_written_reachable).
Defined.

Lemma getFreeBlock_reachable_witness :
  ∃ b w', getFreeBlock (Demo.env 8) Demo.cfg 0 demo_written = Done (b, w').
Proof.
  destruct (getFreeBlock_reachable (Demo.env 8) Demo.cfg 0 demo_written)
    as [[Hnil _]|(iter & blk & w' & H & _)].
  - vm_compute. reflexivity.
  - simpl. lia.
  - exact demo_written_reachable.
  - vm_compute in Hnil. discriminate.
  - eauto.
Defined.

(** With blocks retired at their first erase: block 0 has been erased
    once and is gone; the three blocks left have never been erased. *)
Lemma bad_blocks_leave_witness :
  retiredBlocks Demo.cfg_fragile (trace fragile_formatted) = [0%nat] ∧
  blocks fragile_formatted !! 0%nat = None ∧
  (block_index <$> freeBlocks fragile_formatted) = [1; 2; 3]%nat ∧
  (∀ b, b ∈ freeBlocks fragile_formatted →
     0 ≤ erase_count b < FTL_BAD_BLOCK_THRESHOLD Demo.cfg_fragile) ∧
  (∀ k b, blocks fragile_formatted !! k = Some b →
     0 ≤ erase_count b < FTL_BAD_BLOCK_THRESHOLD Demo.cfg_fragile).
Proof.
  split_and!; [vm_compute; reflexivity..| |];
    apply (bad_blocks_leave (Demo.env 8) Demo.cfg_fragile fragile_formatted);
    first [exact fragile_formatted_reachable | vm_compute; reflexivity].
Defined.

(** * The constructor *)

Section Constructor.
Context {Dev : Type}.
Variable env : Env Dev.
Variable cfg : Config.
Implicit Type w : World Dev.

Definition freshBlock (i : nat) : Block :=
  Block.new i (pagesInBlock cfg) (ioUnitInPage cfg) (FTL_INITIAL_ERASE_COUNT cfg).

(** The state after [k] rounds of the constructor's "Allocate free
    blocks" loop. *)
Fixpoint allocated (d : Dev) (k : nat) : World Dev :=
  match k with
  | O => created cfg d
  | S k' => set_lastFreeBlock (<[k' := k']>) (allocated_world env 0 (freshBlock k') (allocated d k'))
  end.

Lemma allocated_fields d k :
  Z.of_nat (totalPhysicalBlocks cfg) < 2 ^ 32 →
  (k ≤ totalPhysicalBlocks cfg)%nat → (k ≤ pageCountToMaxPerf cfg)%nat →
  freeBlocks (allocated d k) = freshBlock <$> seq k (totalPhysicalBlocks cfg - k) ∧
  nFreeBlocks (allocated d k) = Z.of_nat (totalPhysicalBlocks cfg - k) ∧
  (∀ i, is_Some (blocks (allocated d k) !! i) ↔ (i < k)%nat) ∧
  lastFreeBlock (allocated d k) = seq 0 k ++ replicate (pageCountToMaxPerf cfg - k) 0%nat ∧
  table (allocated d k) = ∅ ∧ trace (allocated d k) = [] ∧ dev (allocated d k) = d.
Proof.
  intros Hu. induction k as [|k IH]; intros HN HP.
  - simpl. rewrite !Nat.sub_0_r. split_and!; try done.
    intros i. rewrite lookup_empty. split; [by intros [? ?]|lia].
  - destruct IH as (Hf & Hn & Hb & Hl & Ht & Htr & Hd); [lia..|].
    assert (<[k := k]> (seq 0 k ++ replicate (pageCountToMaxPerf cfg - k) 0%nat) =
            seq 0 (S k) ++ replicate (pageCountToMaxPerf cfg - S k) 0%nat) as E.
    { replace (pageCountToMaxPerf cfg - k)%nat
        with (S (pageCountToMaxPerf cfg - S k)) by lia.
      rewrite seq_S, <- app_assoc. simpl.
      rewrite insert_app_r_alt; rewrite length_seq; [|lia]. by rewrite Nat.sub_diag. }
    simpl. split_and!; try done.
    + rewrite Hf. replace (totalPhysicalBlocks cfg - k)%nat
        with (S (totalPhysicalBlocks cfg - S k)) by lia. reflexivity.
    + rewrite Hn. unfold u32. rewrite Z.mod_small; lia.
    + intros i. rewrite lookup_alter. destruct (decide (k = i)) as [->|Hne].
      * rewrite lookup_insert_eq. simpl. split; [lia|eauto].
      * rewrite lookup_insert_ne by done. rewrite Hb. lia.
    + rewrite Hl. exact E.
Qed.

Lemma allocate_round d k :
  Z.of_nat (totalPhysicalBlocks cfg) < 2 ^ 32 →
  (k < totalPhysicalBlocks cfg)%nat → (k < pageCountToMaxPerf cfg)%nat →
  (b ← getFreeBlock env cfg k; modify (set_lastFreeBlock (<[k := b]>))) (allocated d k)
  = Done (tt, allocated d (S k)).
Proof.
  intros Hu HN HP.
  destruct (allocated_fields d k Hu) as (Hf & Hn & Hb & _); [lia..|].
  unfold mbind, FTL_bind. rewrite getFreeBlock_eq.
  destruct (decide _) as [|_]; [lia|]. rewrite Hn.
  assert ((0 <? Z.of_nat (totalPhysicalBlocks cfg - k)) = true) as -> by (apply Z.ltb_lt; lia).
  rewrite Hf. replace (totalPhysicalBlocks cfg - k)%nat
    with (S (totalPhysicalBlocks cfg - S k)) by lia. simpl.
  unfold findFreeBlock. simpl. rewrite decide_True by (apply Nat.mod_small; lia). simpl.
  destruct (decide _) as [Hs|_]; [apply Hb in Hs; lia|]. reflexivity.
Qed.

Lemma allocate_rounds d k n :
  Z.of_nat (totalPhysicalBlocks cfg) < 2 ^ 32 →
  (k + n ≤ totalPhysicalBlocks cfg)%nat → (k + n ≤ pageCountToMaxPerf cfg)%nat →
  for_each (seq k n)
    (λ i, b ← getFreeBlock env cfg i; modify (set_lastFreeBlock (<[i := b]>))) (allocated d k)
  = Done (tt, allocated d (k + n)).
Proof.
  intros Hu. revert k. induction n as [|n IH]; intros k HN HP.
  - by rewrite Nat.add_0_r.
  - rewrite <- cons_seq, for_each_cons. unfold mbind at 1, FTL_bind at 1.
    rewrite allocate_round by lia. rewrite IH by lia. f_equal. f_equal. f_equal. lia.
Qed.

Lemma allocate_exhausted d k n :
  Z.of_nat (totalPhysicalBlocks cfg) < 2 ^ 32 →
  (k ≤ totalPhysicalBlocks cfg)%nat → (totalPhysicalBlocks cfg < k + n)%nat →
  (k + n ≤ pageCountToMaxPerf cfg)%nat →
  for_each (seq k n)
    (λ i, b ← getFreeBlock env cfg i; modify (set_lastFreeBlock (<[i := b]>))) (allocated d k)
  = Panic "No free block left".
Proof.
  intros Hu. revert k. induction n as [|n IH]; intros k Hk HN HP; [lia|].
  rewrite <- cons_seq, for_each_cons. unfold mbind at 1, FTL_bind at 1.
  destruct (decide (k = totalPhysicalBlocks cfg)) as [->|Hne].
  - destruct (allocated_fields d (totalPhysicalBlocks cfg) Hu) as (Hf & Hn & _); [lia..|].
    unfold mbind, FTL_bind. rewrite getFreeBlock_eq.
    destruct (decide _) as [|_]; [lia|]. rewrite Hn, Nat.sub_diag. reflexivity.
  - rewrite allocate_round by lia. apply IH; lia.
Qed.

(** X4.  The constructor on a device of [N] blocks (a [uint32_t]) and
    [P] write targets.  With [P ≤ N] it returns: the write targets are
    the blocks [0 .. P-1], one per stripe and the only blocks in use,
    the free list holds the blocks [P .. N-1] in this order, and
    [nFreeBlocks] is [N - P]; nothing is mapped and no collaborator was
    called.  With [N < P] the loop runs out of free blocks and the
    constructor panics. *)
Theorem PageMapping_ctor_spec (d : Dev) :
  Z.of_nat (totalPhysicalBlocks cfg) < 2 ^ 32 →
  ((pageCountToMaxPerf cfg ≤ totalPhysicalBlocks cfg)%nat →
   ∃ w, PageMapping_ctor env cfg (created cfg d) = Done (tt, w) ∧
     lastFreeBlock w = seq 0 (pageCountToMaxPerf cfg) ∧
     lastFreeBlockIndex w = 0%nat ∧
     (∀ i, is_Some (blocks w !! i) ↔ (i < pageCountToMaxPerf cfg)%nat) ∧
     block_index <$> freeBlocks w =
       seq (pageCountToMaxPerf cfg) (totalPhysicalBlocks cfg - pageCountToMaxPerf cfg) ∧
     nFreeBlocks w = Z.of_nat (totalPhysicalBlocks cfg - pageCountToMaxPerf cfg) ∧
     table w = ∅ ∧ trace w = []) ∧
  ((totalPhysicalBlocks cfg < pageCountToMaxPerf cfg)%nat →
   PageMapping_ctor env cfg (created cfg d) = Panic "No free block left").
Proof.
  intros Hu. split.
  - intros HP. unfold PageMapping_ctor.
    pose proof (allocate_rounds d 0 (pageCountToMaxPerf cfg) Hu) as H. simpl in H.
    unfold mbind at 1, FTL_bind at 1. rewrite H by lia.
    destruct (allocated_fields d (pageCountToMaxPerf cfg) Hu) as (Hf & Hn & Hb & Hl & Ht & Htr & _);
      [lia..|].
    eexists. split; [reflexivity|]. simpl. split_and!; try done.
    + by rewrite Hl, Nat.sub_diag, app_nil_r.
    + rewrite Hf, <- list_fmap_compose.
      replace (block_index ∘ freshBlock) with (@id nat) by done. apply list_fmap_id.
  - intros HP. unfold PageMapping_ctor.
    pose proof (allocate_exhausted d 0 (pageCountToMaxPerf cfg) Hu) as H. simpl in H.
    unfold mbind at 1, FTL_bind at 1. rewrite H by lia. reflexivity.
Qed.

End Constructor.

Lemma PageMapping_ctor_spec_witness :
  ∃ w, PageMapping_ctor (Demo.env 8) Demo.cfg (created Demo.cfg tt) = Done (tt, w) ∧
    lastFreeBlock w = [0%nat] ∧ nFreeBlocks w = 3.
Proof.
  destruct (proj1 (PageMapping_ctor_spec (Demo.env 8) Demo.cfg tt eq_refl))
    as (w & H & Hl & _ & _ & _ & Hn & _).
  - simpl. lia.
  - exists w. split_and!; [exact H|exact Hl|exact Hn].
Defined.

(** * The write target: [getLastFreeBlock] *)

Section WriteTarget.
Context {Dev : Type}.
Variable env : Env Dev.
Variable cfg : Config.
Implicit Type w : World Dev.

(** The write target [getLastFreeBlock] moves to: the next one, round
    robin, unless the random tweak is on and the io map does not overlap
    the io units already written to the current one. *)
Definition targetIndex (iomap : Bitset) w : nat :=
  if negb (bRandomTweak cfg) || Bitset_any (Bitset_and (lastFreeBlockIOMap w) iomap)
  then (if decide (S (lastFreeBlockIndex w) = pageCountToMaxPerf cfg) then 0%nat
        else S (lastFreeBlockIndex w))
  else lastFreeBlockIndex w.

(** The state after the first statement of [getLastFreeBlock]. *)
Definition targeted (iomap : Bitset) w : World Dev :=
  if negb (bRandomTweak cfg) || Bitset_any (Bitset_and (lastFreeBlockIOMap w) iomap)
  then set_lastFreeBlockIOMap iomap (set_lastFreeBlockIndex (targetIndex iomap w) w)
  else set_lastFreeBlockIOMap (Bitset_or (lastFreeBlockIOMap w) iomap) w.

Lemma getLastFreeBlock_eq iomap w :
  getLastFreeBlock env cfg iomap w =
  match lastFreeBlock w !! targetIndex iomap w with
  | None => Panic "vector::at"
  | Some b0 =>
      match blocks w !! b0 with
      | None => Panic "Corrupted"
      | Some blk0 =>
          if decide (Block.getNextWritePageIndex blk0 = pagesInBlock cfg) then
            match getFreeBlock env cfg (targetIndex iomap w) (targeted iomap w) with
            | Done (b, w2) =>
                Done (b, set_bReclaimMore true
                           (set_lastFreeBlock (<[targetIndex iomap w := b]>) w2))
            | Panic msg => Panic msg
            | Undefined => Undefined
            end
          else Done (b0, targeted iomap w)
      end
  end.
Proof.
  unfold getLastFreeBlock, targeted.
  unfold mbind at 1, FTL_bind at 1, gets at 1.
  unfold mbind at 1, FTL_bind at 1.
  assert (∀ (w1 : World Dev) i,
    lastFreeBlock w1 = lastFreeBlock w → blocks w1 = blocks w → lastFreeBlockIndex w1 = i →
    (i0 ← gets lastFreeBlockIndex;
     last ← gets lastFreeBlock;
     match last !! i0 with
     | None => panic "vector::at"
     | Some b =>
         bs ← gets blocks;
         match bs !! b with
         | None => panic "Corrupted"
         | Some freeBlock =>
             (if decide (Block.getNextWritePageIndex freeBlock = pagesInBlock cfg) then
                freshBlock ← getFreeBlock env cfg i0;
                modify (set_lastFreeBlock (<[i0 := freshBlock]>));;
                modify (set_bReclaimMore true)
              else mret tt);;
             last' ← gets lastFreeBlock;
             match last' !! i0 with
             | None => panic "vector::at"
             | Some b' => mret b'
             end
         end
     end) w1 =
    match lastFreeBlock w !! i with
    | None => Panic "vector::at"
    | Some b0 =>
        match blocks w !! b0 with
        | None => Panic "Corrupted"
        | Some blk0 =>
            if decide (Block.getNextWritePageIndex blk0 = pagesInBlock cfg) then
              match getFreeBlock env cfg i w1 with
              | Done (b, w2) =>
                  Done (b, set_bReclaimMore true (set_lastFreeBlock (<[i := b]>) w2))
              | Panic msg => Panic msg
              | Undefined => Undefined
              end
            else Done (b0, w1)
        end
    end) as Hrest.
  { intros w1 i E1 E2 E3.
    unfold mbind, FTL_bind, gets, modify, mret, FTL_ret, panic; simpl.
    rewrite E3, E1.
    destruct (lastFreeBlock w !! i) as [b0|] eqn:El; [|done].
    rewrite E2. destruct (blocks w !! b0) as [blk0|]; [|done].
    destruct (decide _); [|by rewrite E1, El].
    destruct (getFreeBlock _ _ _ _) as [[b w2]| |] eqn:Eg; [|done..].
    simpl. apply getFreeBlock_Done in Eg as (iter & blk & _ & _ & _ & _ & ->). simpl.
    rewrite E1, list_lookup_insert_eq; [done|]. by apply lookup_lt_Some in El. }
  unfold targetIndex.
  destruct (negb (bRandomTweak cfg) || _) eqn:Ea.
  - unfold mbind at 1, FTL_bind at 1, gets at 1.
    unfold mbind at 1, FTL_bind at 1, modify at 1.
    unfold modify at 1. apply Hrest; done.
  - unfold modify at 1. apply Hrest; done.
Qed.

(** X5.  What [getLastFreeBlock] returns is an in-use block, the write
    target of the index it moved to: the block that was the target when
    that one is not full, and with the pool untouched; a block just
    taken from the free list by [getFreeBlock] when it is full, and then
    [bReclaimMore] is set.  So the lookups [blocks.find(getLastFreeBlock
    (...))] of [writeInternal] and of the copy loops always find their
    block. *)
Theorem getLastFreeBlock_in_use iomap w b w' :
  getLastFreeBlock env cfg iomap w = Done (b, w') →
  lastFreeBlockIndex w' = targetIndex iomap w ∧
  lastFreeBlock w' !! targetIndex iomap w = Some b ∧
  is_Some (blocks w' !! b) ∧
  ∃ b0 blk0,
    lastFreeBlock w !! targetIndex iomap w = Some b0 ∧ blocks w !! b0 = Some blk0 ∧
    if decide (Block.getNextWritePageIndex blk0 = pagesInBlock cfg)
    then (∃ w2, getFreeBlock env cfg (targetIndex iomap w) (targeted iomap w) = Done (b, w2)) ∧
         blocks w !! b = None ∧ bReclaimMore w' = true
    else b = b0 ∧ blocks w' = blocks w ∧ freeBlocks w' = freeBlocks w ∧
         nFreeBlocks w' = nFreeBlocks w ∧ lastFreeBlock w' = lastFreeBlock w.
Proof.
  rewrite getLastFreeBlock_eq.
  destruct (lastFreeBlock w !! _) as [b0|] eqn:El; [|done].
  destruct (blocks w !! b0) as [blk0|] eqn:Eb; [|done].
  assert (lastFreeBlockIndex (targeted iomap w) = targetIndex iomap w ∧
          blocks (targeted iomap w) = blocks w ∧
          freeBlocks (targeted iomap w) = freeBlocks w ∧
          nFreeBlocks (targeted iomap w) = nFreeBlocks w ∧
          lastFreeBlock (targeted iomap w) = lastFreeBlock w) as (Hi & Hbs & Hfb & Hn & Hl).
  { unfold targeted, targetIndex. destruct (negb _ || _); done. }
  destruct (decide _) as [Hfull|Hroom].
  - destruct (getFreeBlock _ _ _ _) as [[b' w2]| |] eqn:Eg; [|done..].
    intros [= <- <-]. pose proof (getFreeBlock_Done _ _ _ _ _ _ Eg) as Hg.
    destruct Hg as (iter & blk & Hf & Hb' & Hnone & _ & Hw2).
    assert (lastFreeBlockIndex w2 = targetIndex iomap w ∧ lastFreeBlock w2 = lastFreeBlock w ∧
            is_Some (blocks w2 !! b')) as (Hi2 & Hl2 & Hb2).
    { rewrite Hw2. simpl. rewrite lookup_alter_eq, lookup_insert_eq. eauto. }
    simpl. rewrite Hi2, Hl2. split_and!; [done| |done|].
    + apply list_lookup_insert_eq. by apply lookup_lt_Some in El.
    + exists b0, blk0. rewrite decide_True by done.
      split_and!; [done|done|eauto|by rewrite <- Hbs|done].
  - intros [= <- <-]. rewrite Hi, Hl, Hbs. split_and!; [done..|eauto|].
    exists b0, blk0. rewrite decide_False by done. done.
Qed.

(** X6.  [eraseInternal] leaves [lastFreeBlock] as it is.  When the
    block it erases is a write target, the target's index dangles: the
    next [getLastFreeBlock] that moves to this target panics with
    "Corrupted", and so does the next write of a page that is not
    mapped. *)
Theorem erased_write_target req tick w t1 w1 iomap :
  eraseInternal env cfg req tick w = Done (t1, w1) →
  lastFreeBlock w !! targetIndex iomap w = Some (blockIndex req) →
  lastFreeBlock w1 = lastFreeBlock w ∧
  blocks w1 !! blockIndex req = None ∧
  getLastFreeBlock env cfg iomap w1 = Panic "Corrupted" ∧
  ∀ lpn tick', table w1 !! lpn = None → 0 < Bitset_count iomap →
    write env cfg (mkRequest lpn iomap) tick' w1 = Panic "Corrupted".
Proof.
  intros He Hl. rewrite eraseInternal_eq in He.
  destruct (blocks w !! blockIndex req) as [blk|] eqn:Eb; [|done].
  destruct (decide _); [done|].
  assert (lastFreeBlock w1 = lastFreeBlock w ∧ blocks w1 !! blockIndex req = None ∧
          lastFreeBlockIndex w1 = lastFreeBlockIndex w ∧
          lastFreeBlockIOMap w1 = lastFreeBlockIOMap w) as (H1 & H2 & H3 & H4).
  { destruct (_ <? _).
    - destruct (reverseSearch _ _ _); [|done]. injection He as <- <-. simpl.
      by rewrite lookup_delete_eq.
    - injection He as <- <-. simpl. by rewrite lookup_delete_eq. }
  assert (∀ w2, lastFreeBlock w2 = lastFreeBlock w1 → blocks w2 = blocks w1 →
            lastFreeBlockIndex w2 = lastFreeBlockIndex w1 →
            lastFreeBlockIOMap w2 = lastFreeBlockIOMap w1 →
            getLastFreeBlock env cfg iomap w2 = Panic "Corrupted") as Hp.
  { intros w2 E1 E2 E3 E4. rewrite getLastFreeBlock_eq.
    assert (targetIndex iomap w2 = targetIndex iomap w) as ->.
    { unfold targetIndex. by rewrite E3, E4, H3, H4. }
    by rewrite E1, H1, Hl, E2, H2. }
  split_and!; [done..|by apply Hp|].
  intros lpn tick' Ht Hc. unfold write. apply Z.ltb_lt in Hc. simpl. rewrite Hc.
  unfold mbind at 1, FTL_bind at 1. unfold writeInternal.
  unfold mbind at 1, FTL_bind at 1, gets at 1. simpl. rewrite Ht.
  unfold mbind at 1, FTL_bind at 1. unfold mbind at 1, FTL_bind at 1, modify at 1.
  unfold mbind at 1, FTL_bind at 1. rewrite Hp; done.
Qed.

End WriteTarget.

Definition demo_targeted : World unit :=
  Demo.after (getLastFreeBlock (Demo.env 8) Demo.cfg [true]) demo_written.

Lemma getLastFreeBlock_in_use_witness : is_Some (blocks demo_targeted !! 0%nat).
Proof.
  refine (proj1 (proj2 (proj2
    (getLastFreeBlock_in_use (Demo.env 8) Demo.cfg [true] demo_written 0 demo_targeted _)))).
  vm_compute. reflexivity.
Defined.

Definition demo_erased : World unit :=
  Demo.after (eraseInternal (Demo.env 8) Demo.cfg demo_erase_request 400) demo_trimmed.

Lemma erased_write_target_witness :
  getLastFreeBlock (Demo.env 8) Demo.cfg [true] demo_erased = Panic "Corrupted".
Proof.
  refine (proj1 (proj2 (proj2
    (erased_write_target (Demo.env 8) Demo.cfg demo_erase_request 400 demo_trimmed
       _ demo_erased [true] _ _)))).
  - vm_compute. reflexivity.
  - vm_compute. reflexivity.
Defined.

(** * What read, trim and format leave alone *)

(** What a block holds, its access time apart. *)
Definition contents (b : Block) :=
  (block_index b, erase_count b, next_write_page_index b, valid_bits b, erased_bits b,
   page_lpns b, last_written_time b, max_error_count b).

Lemma contents_alter_read p i t b (bs : gmap nat Block) :
  contents <$> alter (Block.read p i t) b bs = contents <$> bs.
Proof.
  apply map_eq. intros k. rewrite !lookup_fmap, lookup_alter.
  destruct (decide (b = k)) as [->|]; [|done]. by destruct (bs !! k).
Qed.

Section Frames.
Context {Dev : Type}.
Variable env : Env Dev.
Variable cfg : Config.
Implicit Type w : World Dev.

(** The state outside the device, the record of calls and the access
    times of the blocks. *)
Definition same_ftl w w1 : Prop :=
  table w1 = table w ∧ freeBlocks w1 = freeBlocks w ∧ nFreeBlocks w1 = nFreeBlocks w ∧
  lastFreeBlock w1 = lastFreeBlock w ∧ lastFreeBlockIndex w1 = lastFreeBlockIndex w ∧
  lastFreeBlockIOMap w1 = lastFreeBlockIOMap w ∧ bReclaimMore w1 = bReclaimMore w ∧
  stat w1 = stat w ∧ bloomFilters w1 = bloomFilters w ∧ refresh_table w1 = refresh_table w ∧
  contents <$> blocks w1 = contents <$> blocks w.

Lemma same_ftl_readInternal w req tick : stable (same_ftl w) (readInternal env cfg req tick).
Proof.
  unfold readInternal, readUnit.
  stable_go ltac:(first
    [ apply stable_pDRAM_read; intros; assumption
    | apply stable_pPAL_read; intros; assumption
    | apply stable_modify; intros w1 H; unfold same_ftl in *; simpl;
      rewrite contents_alter_read; exact H ]).
Qed.

(** X7.  A read changes nothing of the FTL but the access times of the
    blocks it reads: the mapping table, the pool, the write targets, the
    statistics and the refresh registrations are as before, and so is
    what every block holds.  A read of a page that is not mapped leaves
    the whole state as it is, calls neither DRAM nor PAL, and costs the
    CPU latency of [read] only. *)
Theorem read_only req tick w t' w' :
  read env cfg req tick w = Done (t', w') →
  same_ftl w w' ∧
  (0 < Bitset_count (ioFlag req) → table w !! lpn req = None →
   w' = w ∧ t' = u64 (tick + applyLatency env READ)).
Proof.
  intros H. split.
  - assert (stable (same_ftl w) (read env cfg req tick)) as Hs.
    { unfold read. stable_go ltac:(first
        [ apply same_ftl_readInternal | apply stable_do_warn; intros; assumption ]). }
    eapply Hs; [exact H|]. by unfold same_ftl.
  - intros Hc Ht. apply Z.ltb_lt in Hc. unfold read in H. rewrite Hc in H.
    unfold readInternal in H.
    unfold mbind, FTL_bind, gets, mret, FTL_ret in H. rewrite Ht in H.
    by injection H as <- <-.
Qed.


(** The calls a trim adds to the record are DRAM reads. *)
Definition is_DRAM_read (e : Event) : Prop :=
  match e with DRAM_read _ _ _ _ => True | _ => False end.

Definition trimmed_from w w1 : Prop :=
  table w1 = table w ∧ freeBlocks w1 = freeBlocks w ∧ nFreeBlocks w1 = nFreeBlocks w ∧
  lastFreeBlock w1 = lastFreeBlock w ∧ dom (blocks w1) = dom (blocks w) ∧
  ∃ evs, trace w1 = trace w ++ evs ∧ Forall is_DRAM_read evs.

Lemma trimmed_from_refl w : trimmed_from w w.
Proof.
  unfold trimmed_from. split_and!; try done. exists []. by rewrite app_nil_r.
Qed.

Lemma trimmed_from_loop w tick req mappingList :
  stable (trimmed_from w)
    (tick' ← pDRAM_read env (lpn req) (mappingSize cfg req) tick;
     for_each (seq 0 (bitsetSize cfg)) (trimUnit mappingList);;
     mret tick').
Proof.
  unfold trimUnit.
  stable_go ltac:(first
    [ apply stable_pDRAM_read; intros d l s t t1 w1 (H1 & H2 & H3 & H4 & H5 & evs & H6 & H7);
      unfold trimmed_from; simpl; split_and!; try done;
      exists (evs ++ [DRAM_read l s t t1]); rewrite H6, <- app_assoc; split; [done|];
      apply Forall_app; split; [done|]; by repeat constructor
    | apply stable_modify; intros w1 (H1 & H2 & H3 & H4 & H5 & H6);
      unfold trimmed_from; simpl; split_and!; try done; by rewrite dom_alter_L ]).
Qed.

(** X8.  A trim that returns removes the entry of its page from the
    mapping table and nothing else: the free list, [nFreeBlocks], the
    write targets and the set of in-use blocks are as before (a block
    whose last valid page is trimmed stays in use), and the only calls
    it makes are DRAM reads: the PAL is not called. *)
Theorem trim_unmaps_only req tick w t' w' :
  trim env cfg req tick w = Done (t', w') →
  table w' = delete (lpn req) (table w) ∧
  freeBlocks w' = freeBlocks w ∧ nFreeBlocks w' = nFreeBlocks w ∧
  lastFreeBlock w' = lastFreeBlock w ∧ dom (blocks w') = dom (blocks w) ∧
  ∃ evs, trace w' = trace w ++ evs ∧ Forall is_DRAM_read evs.
Proof.
  unfold trim, trimInternal. intros H.
  apply bind_Done in H as (t1 & w1 & H & [= <- <-]).
  unfold mbind at 1, FTL_bind at 1, gets at 1 in H.
  destruct (table w !! lpn req) as [mappingList|] eqn:Et.
  - apply bind_Done in H as (t2 & w2 & H2 & H).
    apply bind_Done in H as ([] & w3 & H3 & H).
    apply bind_Done in H as ([] & w4 & [= <-] & [= <- <-]).
    assert (trimmed_from w w3) as (H1' & H2' & H3' & H4' & H5' & H6').
    { eapply (trimmed_from_loop w tick req mappingList w t2 w3); [|apply trimmed_from_refl].
      unfold mbind at 1, FTL_bind at 1. rewrite H2.
      unfold mbind at 1, FTL_bind at 1. rewrite H3. reflexivity. }
    simpl. by rewrite H1'.
  - injection H as <- <-. rewrite delete_id by done. split_and!; try done.
    exists []. by rewrite app_nil_r.
Qed.

(** The trim loop of [format] passes over the entries outside the
    range. *)
Lemma format_entries_outside range entries w :
  Forall (λ entry : Z * list (nat * nat),
            ¬ (slpn range ≤ entry.1 ∧ entry.1 < u64 (slpn range + nlp range))) entries →
  foldM (formatEntry cfg range) [] entries w = Done ([], w).
Proof.
  induction 1 as [|[first ml] entries Hx _ IH]; [done|].
  rewrite foldM_cons. unfold mbind, FTL_bind. simpl.
  rewrite decide_False by done. exact IH.
Qed.

(** X9.  A format whose range holds no mapped page leaves the state as
    it is and costs the CPU latency of [format] only: no block is
    reclaimed, and the garbage collection it calls with an empty list
    adds nothing to the tick. *)
Theorem format_nothing range tick w :
  (∀ k ml, table w !! k = Some ml → ¬ (slpn range ≤ k ∧ k < u64 (slpn range + nlp range))) →
  format env cfg range tick w = Done (u64 (tick + applyLatency env FORMAT), w).
Proof.
  intros Hout. unfold format.
  unfold mbind at 1, FTL_bind at 1, gets at 1.
  unfold mbind at 1, FTL_bind at 1.
  rewrite format_entries_outside; [reflexivity|].
  apply Forall_forall. intros [k ml] Hin. simpl.
  apply elem_of_map_to_list in Hin. eauto.
Qed.

End Frames.

Definition demo_read : World unit :=
  Demo.after (read (Demo.env 8) Demo.cfg (mkRequest 0 [true]) 500) demo_written.

Lemma read_only_witness : same_ftl demo_written demo_read.
Proof.
  refine (proj1 (read_only (Demo.env 8) Demo.cfg (mkRequest 0 [true]) 500 demo_written
                   _ demo_read _)).
  vm_compute. reflexivity.
Defined.

Lemma trim_unmaps_only_witness : table demo_trimmed = delete 0 (table demo_written).
Proof.
  refine (proj1 (trim_unmaps_only (Demo.env 8) Demo.cfg (mkRequest 0 [true]) 200 demo_written
                   _ demo_trimmed _)).
  vm_compute. reflexivity.
Defined.

(** The empty range, on a state with a mapped page. *)
Lemma format_nothing_witness :
  format (Demo.env 8) Demo.cfg (mkRange 0 0) 300 demo_written
  = Done (u64 (300 + applyLatency (Demo.env 8) FORMAT), demo_written).
Proof.
  apply format_nothing. intros k ml _ [H1 H2]. simpl in H1, H2.
  change (u64 (0 + 0)) with 0 in H2. lia.
Defined.

(** * The warm-up writes of [initialize] *)

Section Warmup.
Context {Dev : Type}.
Variable env : Env Dev.
Variable cfg : Config.
Implicit Type w : World Dev.

(** What a write of the warm-up leaves alone: the collaborators and
    the record of their calls, the statistics and the refresh
    registrations. *)
Definition quiet w w1 : Prop :=
  dev w1 = dev w ∧ trace w1 = trace w ∧ stat w1 = stat w ∧
  bloomFilters w1 = bloomFilters w ∧ refresh_table w1 = refresh_table w.

Lemma quiet_getLastFreeBlock w iomap : stable (quiet w) (getLastFreeBlock env cfg iomap).
Proof.
  apply stable_getLastFreeBlock;
    first [ apply frame_getFreeBlock; intros; assumption | intros; assumption ].
Qed.

Lemma quiet_writeUnit w req b tick rbw fin idx :
  stable (quiet w) (writeUnit env cfg req b tick false rbw fin idx).
Proof.
  unfold writeUnit, writeBlock. rewrite andb_false_r.
  stable_go ltac:(apply stable_modify; intros; assumption).
Qed.

Lemma quiet_warmup_steps w req :
  stable (quiet w)
    (tbl ← gets table;
     (match tbl !! lpn req with
      | Some mappingList =>
          for_each (seq 0 (bitsetSize cfg)) (invalidateOld cfg req mappingList)
      | None =>
          modify (set_table
            (<[lpn req := replicate (bitsetSize cfg)
                            (totalPhysicalBlocks cfg, pagesInBlock cfg)]>))
      end);;
     getLastFreeBlock env cfg (ioFlag req)).
Proof.
  unfold invalidateOld.
  stable_go ltac:(first [ apply quiet_getLastFreeBlock
                        | apply stable_modify; intros; assumption ]).
Qed.

(** X10.  A write of the warm-up of [initialize]
    ([writeInternal(req, tick, false)]) that returns has called neither
    the PAL nor DRAM, has run no garbage collection and has registered
    nothing for refresh: the collaborators, the record of calls, the
    statistics, the Bloom filters and the refresh table are as before.
    It returns only when the free blocks have not fallen to the GC
    threshold; when they have, it panics. *)
Theorem warmup_is_quiet lpn w w' :
  warmupWrite env cfg lpn w = Done (tt, w') →
  dev w' = dev w ∧ trace w' = trace w ∧ stat w' = stat w ∧
  bloomFilters w' = bloomFilters w ∧ refresh_table w' = refresh_table w ∧
  gcThresholdReached env (nFreeBlocks w') = false.
Proof.
  unfold warmupWrite. intros H.
  apply bind_Done in H as (t & w1 & H & [= <-]).
  unfold writeInternal in H.
  set (req := mkRequest lpn (Bitset_set_all (Bitset_new (ioUnitInPage cfg)))) in *.
  apply bind_Done in H as (tbl & w2 & [= <- <-] & H).
  apply bind_Done in H as ([] & w3 & H3 & H).
  apply bind_Done in H as (blockIdx & w4 & H4 & H).
  apply bind_Done in H as (bs & w5 & [= <- <-] & H).
  assert (quiet w w4) as Hq4.
  { eapply (quiet_warmup_steps w req w blockIdx w4); [|by unfold quiet].
    unfold mbind at 1, FTL_bind at 1, gets at 1.
    unfold mbind at 1, FTL_bind at 1. fold req. rewrite H3. exact H4. }
  destruct (blocks w4 !! blockIdx); [|done].
  apply bind_Done in H as (t1 & w6 & [= <- <-] & H).
  apply bind_Done in H as (fin & w7 & H7 & H).
  assert (quiet w w7) as Hq7.
  { eapply stable_foldM; [|exact H7|exact Hq4]. intros acc x. apply quiet_writeUnit. }
  apply bind_Done in H as (n & w8 & [= <- <-] & H).
  apply bind_Done in H as ([] & w9 & H9 & [= <- <-]).
  destruct (gcThresholdReached env (nFreeBlocks w7)) eqn:Eg; [done|].
  injection H9 as <-. destruct Hq7 as (? & ? & ? & ? & ?). done.
Qed.

End Warmup.

Definition demo_warmed : World unit :=
  Demo.after (warmupWrite (Demo.env 8) Demo.cfg 0) (Demo.initialized Demo.cfg).

Lemma warmup_is_quiet_witness :
  trace demo_warmed = trace (Demo.initialized Demo.cfg) ∧
  gcThresholdReached (Demo.env 8) (nFreeBlocks demo_warmed) = false.
Proof.
  destruct (warmup_is_quiet (Demo.env 8) Demo.cfg 0 (Demo.initialized Demo.cfg) demo_warmed)
    as (_ & H1 & _ & _ & _ & H2).
  - vm_compute. reflexivity.
  - split; [exact H1|exact H2].
Defined.

(** * The refresh table and its keys *)

(** X11.  The key of a block and a layer, [(block << 32) + layer], is
    read back: for a block index and a layer below 2^32 the high half of
    the key is the block and the low half the layer, so two different
    pairs never share a key (in the refresh table or in a Bloom
    filter). *)
Theorem refreshKey_decode block_id layer_id :
  Z.of_nat block_id < 2 ^ 32 → Z.of_nat layer_id < 2 ^ 32 →
  Z.shiftr (refreshKey block_id layer_id) 32 = Z.of_nat block_id ∧
  Z.land (refreshKey block_id layer_id) (Z.ones 32) = Z.of_nat layer_id ∧
  ∀ block_id' layer_id',
    Z.of_nat block_id' < 2 ^ 32 → Z.of_nat layer_id' < 2 ^ 32 →
    refreshKey block_id layer_id = refreshKey block_id' layer_id' →
    block_id = block_id' ∧ layer_id = layer_id'.
Proof.
  assert (∀ b l, Z.of_nat b < 2 ^ 32 → Z.of_nat l < 2 ^ 32 →
            refreshKey b l = Z.of_nat b * 2 ^ 32 + Z.of_nat l) as E.
  { intros b l Hb Hl. unfold refreshKey, u64. rewrite Z.shiftl_mul_pow2 by lia.
    apply Z.mod_small. lia. }
  assert (∀ b l, Z.of_nat b < 2 ^ 32 → Z.of_nat l < 2 ^ 32 →
            Z.shiftr (refreshKey b l) 32 = Z.of_nat b ∧
            Z.land (refreshKey b l) (Z.ones 32) = Z.of_nat l) as D.
  { intros b l Hb Hl. rewrite E by done. rewrite Z.shiftr_div_pow2, Z.land_ones by lia.
    split.
    - rewrite Z.div_add_l by lia. rewrite Z.div_small by lia. lia.
    - rewrite Z.add_comm, Z.mod_add by lia. apply Z.mod_small. lia. }
  intros Hb Hl. destruct (D _ _ Hb Hl) as [D1 D2]. split_and!; [done..|].
  intros b' l' Hb' Hl' Heq. destruct (D _ _ Hb' Hl') as [D1' D2'].
  rewrite Heq in D1, D2. split; lia.
Qed.

Section Registration2.
Context {Dev : Type}.
Variable env : Env Dev.
Variable cfg : Config.
Implicit Type w : World Dev.

Lemma contains_insert positions f :
  Bloom.contains positions (Bloom.insert positions f) = true.
Proof.
  unfold Bloom.contains. apply forallb_forall. intros p Hp. simpl.
  apply bool_decide_eq_true. apply elem_of_union_l, elem_of_list_to_set.
  by apply list_elem_of_In.
Qed.

(** X12.  [setRefreshPeriod(block, layer, rtc)] with an existing filter
    [rtc] returns, and then the refresh table holds for the key the
    lowest level registered so far (the smaller of [rtc] and the level
    it held), the filter [rtc] contains the key, and the entries of the
    other keys and the other filters are as before.  With no filter
    [rtc] the vector is indexed out of its bounds. *)
Theorem setRefreshPeriod_spec block_id layer_id rtc w :
  let item := refreshKey block_id layer_id in
  ((rtc < length (bloomFilters w))%nat →
   ∃ w', setRefreshPeriod env block_id layer_id rtc w = Done (tt, w') ∧
     refresh_table w' !! item =
       Some (match refresh_table w !! item with
             | Some second => Z.min second (Z.of_nat rtc)
             | None => Z.of_nat rtc
             end) ∧
     (∀ k, k ≠ item → refresh_table w' !! k = refresh_table w !! k) ∧
     (∃ f, bloomFilters w' !! rtc = Some f ∧
           Bloom.contains (bloom_positions env (salt f) item) f = true) ∧
     (∀ level, level ≠ rtc → bloomFilters w' !! level = bloomFilters w !! level)) ∧
  ((length (bloomFilters w) ≤ rtc)%nat →
   setRefreshPeriod env block_id layer_id rtc w = Undefined).
Proof.
  intros item. split.
  - intros Hlt. unfold setRefreshPeriod. fold item.
    unfold mbind, FTL_bind, gets, modify, mret, FTL_ret. simpl.
    destruct (decide _) as [|_]; [lia|].
    destruct (lookup_lt_is_Some_2 _ _ Hlt) as [f0 Hf0].
    destruct (refresh_table w !! item) as [second|] eqn:Er.
    + destruct (second >? Z.of_nat rtc) eqn:Ec.
      * eexists. split; [reflexivity|]. simpl. split_and!.
        -- rewrite lookup_insert_eq. f_equal. apply Z.gtb_lt in Ec. lia.
        -- intros k Hk. by rewrite lookup_insert_ne.
        -- rewrite !list_lookup_alter_eq, Hf0. simpl. eexists. split; [done|].
           apply contains_insert.
        -- intros level Hl. by rewrite !list_lookup_alter_ne.
      * eexists. split; [reflexivity|]. simpl. split_and!.
        -- rewrite Er. f_equal. rewrite Z.gtb_ltb in Ec. apply Z.ltb_ge in Ec. lia.
        -- done.
        -- rewrite !list_lookup_alter_eq, Hf0. simpl. eexists. split; [done|].
           apply contains_insert.
        -- intros level Hl. by rewrite !list_lookup_alter_ne.
    + eexists. split; [reflexivity|]. simpl. split_and!.
      * by rewrite lookup_insert_eq.
      * intros k Hk. by rewrite lookup_insert_ne.
      * rewrite !list_lookup_alter_eq, Hf0. simpl. eexists. split; [done|].
        apply contains_insert.
      * intros level Hl. by rewrite !list_lookup_alter_ne.
  - intros Hge. unfold setRefreshPeriod.
    unfold mbind, FTL_bind, gets. simpl. by rewrite decide_True.
Qed.

(** X13.  [resetStatValues] clears [refreshCallCount] with the other
    counters, and the choice of the filter reads this counter: the
    refresh event that follows a reset sweeps the highest filter,
    whatever level was due — it asks this filter for every layer of
    every block and leaves the other filters as they were — and leaves
    the count at 1. *)
Theorem reset_then_refresh_event w w1 tick w2 :
  resetStatValues w = Done (tt, w1) →
  refresh_event env cfg tick w1 = Done (tt, w2) →
  stat w1 = Stat_zero ∧ bloomFilters w1 = bloomFilters w ∧
  swept env cfg (length (bloomFilters w) - 1) w1 w2 ∧
  refreshCallCount (stat w2) = 1.
Proof.
  intros [= <-] H. apply refresh_event_Done in H as (Hs & Hsw & Hc). simpl in *.
  split_and!; [done..| |done].
  replace (length (bloomFilters w) - 1)%nat with (targetFilter (length (bloomFilters w)) 0);
    [exact Hsw|].
  unfold targetFilter.
  pose proof (proj2 (selectFilter_top (length (bloomFilters w) - 1) 0 0)) as Ht.
  rewrite Ht; [lia|]. apply Z.mod_0_l. lia.
Qed.

End Registration2.

Lemma refreshKey_decode_witness : Z.shiftr (refreshKey 3 5) 32 = 3.
Proof. refine (proj1 (refreshKey_decode 3 5 _ _)); vm_compute; reflexivity. Defined.

Lemma setRefreshPeriod_spec_witness :
  ∃ w', setRefreshPeriod (Demo.env 8) 1 2 0 demo_written = Done (tt, w') ∧
    refresh_table w' !! refreshKey 1 2 = Some 0.
Proof.
  destruct (proj1 (setRefreshPeriod_spec (Demo.env 8) 1 2 0 demo_written))
    as (w' & H & Ht & _).
  - vm_compute. lia.
  - exists w'. split; [exact H|]. rewrite Ht. vm_compute. reflexivity.
Defined.

Definition demo_reset : World unit := Demo.after resetStatValues demo_written.
Definition demo_reset_fired : World unit :=
  Demo.after (refresh_event (Demo.env 8) Demo.cfg 1000) demo_reset.

(** At [demo_written] the count is 1 and level 0 is due; after the
    reset the firing sweeps level 1. *)
Lemma reset_then_refresh_event_witness :
  swept (Demo.env 8) Demo.cfg 1 demo_reset demo_reset_fired ∧
  refreshCallCount (stat demo_reset_fired) = 1.
Proof.
  refine (proj2 (proj2
    (reset_then_refresh_event (Demo.env 8) Demo.cfg demo_written demo_reset 1000
       demo_reset_fired _ _))).
  - vm_compute. reflexivity.
  - vm_compute. reflexivity.
Defined.

(** * [getStatus] counts the mapped pages *)

Section GetStatusFacts.
Context {Dev : Type}.
Implicit Type w : World Dev.
Implicit Type tbl : gmap Z (list (nat * nat)).

Lemma countMapped_length tbl lpns acc :
  0 ≤ acc → acc + Z.of_nat (length lpns) < 2 ^ 64 →
  foldl (λ mapped lpn, if decide (is_Some (tbl !! lpn)) then u64 (mapped + 1) else mapped)
    acc lpns
  = acc + Z.of_nat (length (filter (λ lpn, is_Some (tbl !! lpn)) lpns)).
Proof.
  revert acc. induction lpns as [|x l IH]; intros acc Ha Hl; simpl in *; [lia|].
  rewrite (filter_cons (λ lpn, is_Some (tbl !! lpn))).
  destruct (decide (is_Some (tbl !! x))).
  - unfold u64. rewrite Z.mod_small by lia. rewrite IH by lia. simpl. lia.
  - apply IH; lia.
Qed.

Lemma mapped_among tbl lpns :
  NoDup lpns →
  length (filter (λ lpn, is_Some (tbl !! lpn)) lpns) =
  size (filter (λ kv : Z * list (nat * nat), kv.1 ∈ lpns) tbl).
Proof.
  induction 1 as [|x l Hx Hl IH].
  - simpl. rewrite map_empty_filter_2; [by rewrite map_size_empty|].
    intros k v _ Hin. simpl in Hin. by apply elem_of_nil in Hin.
  - rewrite (filter_cons (λ lpn, is_Some (tbl !! lpn))).
    destruct (tbl !! x) as [v|] eqn:Ex.
    + rewrite decide_True by eauto. simpl. rewrite IH.
      assert (filter (λ kv : Z * list (nat * nat), kv.1 ∈ x :: l) tbl =
              <[x := v]> (filter (λ kv : Z * list (nat * nat), kv.1 ∈ l) tbl)) as ->.
      { apply map_eq. intros k. destruct (decide (k = x)) as [->|Hne].
        - rewrite lookup_insert_eq. apply map_lookup_filter_Some. split; [done|]. cbn [fst]. left.
        - rewrite lookup_insert_ne by done.
          destruct (filter (λ kv : Z * list (nat * nat), kv.1 ∈ l) tbl !! k) as [v'|] eqn:E.
          + apply map_lookup_filter_Some in E as [E1 E2].
            apply map_lookup_filter_Some. split; [done|]. cbn [fst] in *. by right.
          + apply map_lookup_filter_None. apply map_lookup_filter_None in E as [E|E]; [by left|].
            right. intros v' Hv Hin. cbn [fst] in *. rewrite elem_of_cons in Hin.
            destruct Hin as [?|Hin]; [congruence|].
            by apply (E v'). }
      rewrite map_size_insert_None; [done|].
      apply map_lookup_filter_None. right. intros v' _ Hin. done.
    + rewrite decide_False by (by intros [? ?]). rewrite IH. f_equal.
      apply map_filter_strong_ext. intros k v'. cbn [fst]. split.
      * intros [Hin Hk]. split; [by right|done].
      * intros [Hin Hk]. split; [|done]. rewrite elem_of_cons in Hin.
        destruct Hin as [->|]; [congruence|done].
Qed.

(** X14.  [getStatus(lpnBegin, lpnEnd)] reports [nFreeBlocks] as the
    free physical blocks and leaves the total as it is.  On its slow
    path it counts exactly the mapped pages of the range
    [lpnBegin ≤ lpn < lpnEnd], none for an empty or reversed range.  On
    its fast path ([lpnBegin = 0] and [lpnEnd] at or beyond the total)
    it reports the size of the whole table: every mapped page, those at
    or beyond [lpnEnd] too. *)
Theorem getStatus_counts (status : Status) lpnBegin lpnEnd w :
  0 ≤ lpnBegin → lpnEnd < 2 ^ 64 →
  let range := λ kv : Z * list (nat * nat), lpnBegin ≤ kv.1 ∧ kv.1 < lpnEnd in
  freePhysicalBlocks (getStatus status lpnBegin lpnEnd w) = nFreeBlocks w ∧
  totalLogicalPages (getStatus status lpnBegin lpnEnd w) = totalLogicalPages status ∧
  (¬ (lpnBegin = 0 ∧ totalLogicalPages status ≤ lpnEnd) →
   mappedLogicalPages (getStatus status lpnBegin lpnEnd w) =
     Z.of_nat (size (filter range (table w)))) ∧
  (lpnBegin = 0 ∧ totalLogicalPages status ≤ lpnEnd →
   mappedLogicalPages (getStatus status lpnBegin lpnEnd w) =
     Z.of_nat (size (filter range (table w))) +
     Z.of_nat (size (filter (λ kv, ¬ range kv) (table w)))).
Proof.
  intros Hb He range. unfold getStatus. destruct (decide _) as [Hfast|Hslow]; simpl.
  - split_and!; [done..| |].
    + intros Hn. done.
    + intros _. rewrite <- Nat2Z.inj_add. f_equal.
      rewrite <- (map_filter_union_complement range (table w)) at 1.
      apply map_size_disj_union. apply map_disjoint_filter_complement.
  - split_and!; [done..| |done].
    intros _. unfold countMapped. rewrite countMapped_length; [|lia|].
    2:{ rewrite length_seqZ. lia. }
    rewrite mapped_among by apply NoDup_seqZ. rewrite Z.add_0_l. f_equal. f_equal.
    apply map_filter_ext. intros k v _. simpl. rewrite elem_of_seqZ. unfold range. simpl. lia.
Qed.

End GetStatusFacts.

Lemma getStatus_counts_witness :
  freePhysicalBlocks (getStatus (mkStatus 24 0 0) 0 24 demo_written) = nFreeBlocks demo_written.
Proof.
  refine (proj1 (getStatus_counts (mkStatus 24 0 0) 0 24 demo_written _ _)).
  - lia.
  - vm_compute. reflexivity.
Defined.

(** * [calculateWearLeveling] sums over all blocks *)

(** The sum of the erase counts of a list of blocks, and of their
    squares. *)
Definition eraseTotal (l : list Block) : Z := foldr (λ b s, erase_count b + s) 0 l.
Definition eraseSquares (l : list Block) : Z :=
  foldr (λ b s, erase_count b * erase_count b + s) 0 l.

Lemma eraseTotal_app l1 l2 : eraseTotal (l1 ++ l2) = eraseTotal l1 + eraseTotal l2.
Proof. induction l1 as [|b l1 IH]; simpl; [done|]. unfold eraseTotal in *. simpl. lia. Qed.

Lemma eraseSquares_app l1 l2 : eraseSquares (l1 ++ l2) = eraseSquares l1 + eraseSquares l2.
Proof. induction l1 as [|b l1 IH]; simpl; [done|]. unfold eraseSquares in *. simpl. lia. Qed.

Lemma wearAdd_u64 x y b :
  wearAdd (u64 x, u64 y) b = (u64 (x + erase_count b), u64 (y + erase_count b * erase_count b)).
Proof.
  unfold wearAdd, Block.getEraseCount, u64. simpl. f_equal.
  - by rewrite Zplus_mod_idemp_l.
  - by rewrite <- Zplus_mod.
Qed.

Lemma wear_foldl x y l :
  foldl wearAdd (u64 x, u64 y) l = (u64 (x + eraseTotal l), u64 (y + eraseSquares l)).
Proof.
  revert x y. induction l as [|b l IH]; intros x y; simpl.
  - by rewrite !Z.add_0_r.
  - rewrite wearAdd_u64, IH. unfold eraseTotal, eraseSquares. simpl. f_equal; f_equal; lia.
Qed.

(** On an ascending list of non-negative erase counts the loop that
    stops at the first 0 from the back has left out zeros only. *)
Lemma wearFree_ascending x y fb :
  StronglySorted by_erase_count fb → Forall (λ b, 0 ≤ erase_count b) fb →
  wearFree (reverse fb) (u64 x, u64 y) = (u64 (x + eraseTotal fb), u64 (y + eraseSquares fb)).
Proof.
  revert x y. induction fb as [|b fb IH] using rev_ind; intros x y Hs Hp.
  - simpl. by rewrite !Z.add_0_r.
  - rewrite reverse_app. simpl. unfold Block.getEraseCount.
    apply StronglySorted_app in Hs as (Hx & Hs & _).
    apply Forall_app in Hp as [Hp Hb].
    rewrite eraseTotal_app, eraseSquares_app.
    destruct (Z.eqb_spec (erase_count b) 0) as [E|E].
    + assert (Forall (λ a, erase_count a = 0) fb) as Hz.
      { apply Forall_forall. intros a Ha. rewrite Forall_forall in Hp.
        specialize (Hp a Ha). specialize (Hx a b Ha). unfold by_erase_count in Hx.
        assert (erase_count a ≤ erase_count b) by (apply Hx; left). lia. }
      assert (eraseTotal fb = 0 ∧ eraseSquares fb = 0) as [-> ->].
      { clear -Hz. induction Hz as [|a l Ha _ [IH1 IH2]]; [done|].
        unfold eraseTotal, eraseSquares in *. simpl. rewrite Ha. lia. }
      unfold eraseTotal, eraseSquares. simpl. rewrite E. f_equal; f_equal; lia.
    + rewrite wearAdd_u64, IH by done.
      assert (eraseTotal [b] = erase_count b) as -> by (unfold eraseTotal; simpl; lia).
      assert (eraseSquares [b] = erase_count b * erase_count b) as ->
        by (unfold eraseSquares; simpl; lia).
      f_equal; f_equal; lia.
Qed.

Section WearLevelingFacts.
Context {Dev : Type}.
Variable env : Env Dev.
Variable cfg : Config.
Implicit Type w : World Dev.

(** X15.  In a reachable state the shortcut of
    [calculateWearLeveling] ("freeBlocks is sorted ... stop when eraseCnt
    is zero") loses nothing: its two sums are the sum of the erase
    counts and the sum of their squares over all in-use and all free
    blocks (as [uint64_t]).  It answers [-1] exactly when the sum of the
    squares is 0, and divides by [totalLogicalBlocks], not by the number
    of physical blocks. *)
Theorem calculateWearLeveling_sums w :
  reachable env cfg w →
  let pool := (map_to_list (blocks w)).*2 ++ freeBlocks w in
  calculateWearLeveling cfg w =
    if u64 (eraseSquares pool) =? 0 then wear_none
    else wear_factor (u64 (eraseTotal pool)) (Z.of_nat (totalLogicalBlocks cfg))
           (u64 (eraseSquares pool)).
Proof.
  intros Hr pool. unfold calculateWearLeveling.
  change (0, 0) with (u64 0, u64 0). rewrite wear_foldl, wearFree_ascending.
  - unfold pool. by rewrite eraseTotal_app, eraseSquares_app, !Z.add_0_l.
  - apply ascending_strong. by apply (ascending_reachable env cfg).
  - apply Forall_forall. intros b Hb.
    pose proof (worn_below_reachable env cfg
      (Z.max (FTL_BAD_BLOCK_THRESHOLD cfg) (u32 (FTL_INITIAL_ERASE_COUNT cfg) + 1)) w)
      as [H _]; [lia..|done|].
    apply H in Hb. lia.
Qed.

End WearLevelingFacts.

(** Block 0 has been erased once and is the last of the free list,
    behind two blocks that have never been erased: the loop from the end
    of the free list adds block 0 and stops at the next block. *)
Lemma calculateWearLeveling_sums_witness :
  (erase_count <$> freeBlocks demo_formatted) = [0; 0; 1] ∧
  calculateWearLeveling Demo.cfg demo_formatted = wear_factor 1 3 1.
Proof.
  split; [vm_compute; reflexivity|].
  rewrite (calculateWearLeveling_sums (Demo.env 8) Demo.cfg demo_formatted
             demo_formatted_reachable).
  vm_compute. reflexivity.
Defined.

(** * Invariants kept by the parts of an operation

    An invariant that an operation breaks and restores between its
    steps is carried from the parts that keep it: the choice of the
    write target, the copy of one page, the erase of one block. *)

(** The counters of a filter that the refresh event bumps. *)
Inductive BloomCounter : (bloom_filter → bloom_filter) → Prop :=
| bc_true_positive : BloomCounter Bloom.incr_true_positive
| bc_false_positive : BloomCounter Bloom.incr_false_positive
| bc_true_negative : BloomCounter Bloom.incr_true_negative.

Section Collect.
Context {Dev : Type}.
Variable env : Env Dev.
Variable cfg : Config.
Variable I : World Dev → Prop.

Hypothesis I_event : ∀ d e w, I w → I (set_dev d e w).
Hypothesis I_stat : ∀ f w, I w → I (set_stat f w).
Hypothesis I_bReclaimMore : ∀ v w, I w → I (set_bReclaimMore v w).
Hypothesis I_eraseInternal : ∀ req tick, stable I (eraseInternal env cfg req tick).
Hypothesis I_gcCopyPage : ∀ v t l p, stable I (gcCopyPage env cfg v t l p).
Hypothesis I_refreshCopyPage : ∀ b t l p, stable I (refreshCopyPage env cfg b t l p).

Ltac part :=
  first
    [ apply stable_pPAL_read; intros; apply I_event; assumption
    | apply stable_pPAL_write; intros; apply I_event; assumption
    | apply stable_pDRAM_read; intros; apply I_event; assumption
    | apply stable_pDRAM_write; intros; apply I_event; assumption
    | apply I_eraseInternal | apply I_gcCopyPage | apply I_refreshCopyPage
    | apply stable_modify; intros; first [apply I_stat | apply I_bReclaimMore]; assumption ].

Lemma kept_selectVictimBlock tick : stable I (selectVictimBlock env tick).
Proof. unfold selectVictimBlock. stable_go part. Qed.

Lemma kept_doGarbageCollection l tick : stable I (doGarbageCollection env cfg l tick).
Proof.
  unfold doGarbageCollection, gcCollectBlock, gcIssueReads, gcIssueWrites, gcIssueErases.
  stable_go part.
Qed.

Lemma kept_gcCycle tick : stable I (gcCycle env cfg tick).
Proof.
  unfold gcCycle.
  stable_go ltac:(first [ apply kept_selectVictimBlock | apply kept_doGarbageCollection | part ]).
Qed.

Lemma kept_refreshPage b layer tick : stable I (refreshPage env cfg b layer tick).
Proof.
  unfold refreshPage, gcIssueReads, gcIssueWrites.
  stable_go ltac:(first [ apply kept_gcCycle | part ]).
Qed.

End Collect.

Section Operations.
Context {Dev : Type}.
Variable env : Env Dev.
Variable cfg : Config.
Variable I : World Dev → Prop.

Hypothesis I_event : ∀ d e w, I w → I (set_dev d e w).
Hypothesis I_stat : ∀ f w, I w → I (set_stat f w).
Hypothesis I_bloomCounter : ∀ f level w,
  BloomCounter f → I w → I (set_bloomFilters (alter f level) w).
Hypothesis I_refreshPage : ∀ b layer tick, stable I (refreshPage env cfg b layer tick).
Hypothesis I_readInternal : ∀ req tick, stable I (readInternal env cfg req tick).
Hypothesis I_writeInternal : ∀ req tick sendToPAL,
  stable I (writeInternal env cfg req tick sendToPAL).
Hypothesis I_trimInternal : ∀ req tick, stable I (trimInternal env cfg req tick).
Hypothesis I_format : ∀ range tick, stable I (format env cfg range tick).
Hypothesis I_setupRefresh : stable I (setupRefresh cfg).
Hypothesis I_ctor : stable I (PageMapping_ctor env cfg).
Hypothesis I_created : ∀ d : Dev, I (created cfg d).
Hypothesis I_env_moves : ∀ d w, I w → I (env_moves d w).

Ltac part :=
  first
    [ apply stable_do_warn; intros; apply I_event; assumption
    | apply I_refreshPage | apply I_readInternal
    | apply I_writeInternal | apply I_trimInternal | apply I_format
    | apply I_setupRefresh
    | apply stable_modify; intros; first
        [ apply I_stat | apply I_bloomCounter; [constructor|] ]; assumption ].

Lemma kept_run op : stable I (run env cfg op).
Proof.
  destruct op; simpl;
    unfold read, write, trim, refresh_event, checkLayer, warmupWrite, resetStatValues;
    stable_go part.
Qed.

Lemma kept_reachable w : reachable env cfg w → I w.
Proof.
  induction 1 as [d w H|w op w' _ IH H|w d _ IH].
  - eapply I_ctor; eauto.
  - eapply kept_run; eauto.
  - by apply I_env_moves.
Qed.

End Operations.

(** * The mapping table points at live data *)

(** One io unit of a page of a block: its valid bit, the logical page
    recorded for it, and the write pointer of the io unit. *)
Definition unitValid (blk : Block) (p idx : nat) : bool :=
  Bitset_test (default [] (valid_bits blk !! p)) idx.
Definition unitLpn (blk : Block) (p idx : nat) : option Z :=
  default [] (page_lpns blk !! p) !! idx.

Lemma lookup_row_other {A} (rows : list (list A)) page i (v : A) p idx :
  (p, idx) ≠ (page, i) →
  default [] (alter (λ row, <[i := v]> row) page rows !! p) !! idx =
  default [] (rows !! p) !! idx.
Proof.
  intros Hne. rewrite list_lookup_alter. case_decide as Hp; [subst page|done].
  destruct (rows !! p) as [row|]; simpl; [|done].
  rewrite list_lookup_insert_ne; [done|]. intros ->. by apply Hne.
Qed.

Lemma lookup_row_same {A} (rows : list (list A)) page i (v : A) row :
  rows !! page = Some row → (i < length row)%nat →
  default [] (alter (λ row, <[i := v]> row) page rows !! page) !! i = Some v.
Proof.
  intros Hr Hi. rewrite list_lookup_alter_eq, Hr. simpl. by rewrite list_lookup_insert_eq.
Qed.

Lemma lookup_row_cleared (rows : list (list bool)) page i p idx :
  default [] (alter (λ row, <[i := false]> row) page rows !! p) !! idx = Some true →
  default [] (rows !! p) !! idx = Some true.
Proof.
  destruct (decide ((p, idx) = (page, i))) as [[= -> ->]|Hne].
  - rewrite list_lookup_alter_eq. destruct (rows !! page) as [row|]; simpl; [|done].
    destruct (decide (i < length row)%nat).
    + by rewrite list_lookup_insert_eq.
    + by rewrite list_insert_ge by lia.
  - by rewrite lookup_row_other.
Qed.

Lemma Bitset_test_Some (b : Bitset) i : Bitset_test b i = true ↔ b !! i = Some true.
Proof.
  unfold Bitset_test. destruct (b !! i) as [[]|]; simpl; split; congruence.
Qed.

Lemma unitValid_invalidate blk p i p' idx' :
  unitValid (Block.invalidate p i blk) p' idx' = true → unitValid blk p' idx' = true.
Proof.
  unfold unitValid. rewrite !Bitset_test_Some. simpl.
  exact (lookup_row_cleared (valid_bits blk) p i p' idx').
Qed.

Lemma unitValid_invalidate_other blk p i p' idx' :
  (p', idx') ≠ (p, i) →
  unitValid (Block.invalidate p i blk) p' idx' = unitValid blk p' idx'.
Proof.
  intros Hne. unfold unitValid, Bitset_test. simpl. f_equal.
  exact (lookup_row_other (valid_bits blk) p i false p' idx' Hne).
Qed.

Lemma unitValid_write_other blk p l i t p' idx' :
  (p', idx') ≠ (p, i) →
  unitValid (Block.write p l i t blk) p' idx' = unitValid blk p' idx'.
Proof.
  intros Hne. unfold unitValid, Bitset_test. simpl. f_equal.
  exact (lookup_row_other (valid_bits blk) p i true p' idx' Hne).
Qed.

Lemma unitValid_write blk p l i t row :
  valid_bits blk !! p = Some row → (i < length row)%nat →
  unitValid (Block.write p l i t blk) p i = true.
Proof.
  intros Hr Hi. unfold unitValid. apply Bitset_test_Some. simpl.
  exact (lookup_row_same (valid_bits blk) p i true row Hr Hi).
Qed.

Lemma unitLpn_write_other blk p l i t p' idx' :
  (p', idx') ≠ (p, i) →
  unitLpn (Block.write p l i t blk) p' idx' = unitLpn blk p' idx'.
Proof. intros Hne. unfold unitLpn. simpl. by rewrite lookup_row_other. Qed.

Lemma unitLpn_write blk p l i t row :
  page_lpns blk !! p = Some row → (i < length row)%nat →
  unitLpn (Block.write p l i t blk) p i = Some l.
Proof. intros Hr Hi. unfold unitLpn. simpl. by rewrite (lookup_row_same _ p i l row). Qed.

Lemma pointer_write blk p l i t idx' :
  Block.getNextWritePageIndexOf (Block.write p l i t blk) idx' =
  if decide (idx' = i ∧ i < length (next_write_page_index blk))%nat then S p
  else Block.getNextWritePageIndexOf blk idx'.
Proof.
  unfold Block.getNextWritePageIndexOf. simpl.
  destruct (decide (idx' = i)) as [->|Hne].
  - destruct (decide (i < length (next_write_page_index blk))%nat).
    + rewrite decide_True by done. by rewrite list_lookup_insert_eq.
    + rewrite decide_False by tauto. by rewrite list_insert_ge by lia.
  - rewrite decide_False by tauto. by rewrite list_lookup_insert_ne.
Qed.

Section Shape.
Variable cfg : Config.

(** The arrays of a block have the configured sizes. *)
Definition block_shaped (blk : Block) : Prop :=
  length (valid_bits blk) = pagesInBlock cfg ∧
  Forall (λ row, length row = ioUnitInPage cfg) (valid_bits blk) ∧
  length (page_lpns blk) = pagesInBlock cfg ∧
  Forall (λ row, length row = ioUnitInPage cfg) (page_lpns blk) ∧
  length (next_write_page_index blk) = ioUnitInPage cfg.

Definition shaped (fb : list Block) (n : Z) (bs : gmap nat Block) : Prop :=
  (∀ b, b ∈ fb → block_shaped b) ∧ (∀ k b, bs !! k = Some b → block_shaped b).

Lemma Forall_alter_length {A} (f : list A → list A) n i (l : list (list A)) :
  (∀ row, length (f row) = length row) →
  Forall (λ row, length row = n) l → Forall (λ row, length row = n) (alter f i l).
Proof.
  intros Hf H. apply Forall_alter; [done|]. intros row _ Hr. by rewrite Hf.
Qed.

Lemma block_shaped_method f blk : BlockMethod f → block_shaped blk → block_shaped (f blk).
Proof.
  intros Hf (H1 & H2 & H3 & H4 & H5). destruct Hf; unfold block_shaped; simpl;
    unfold Block.setBit; rewrite ?length_alter, ?length_insert; split_and!; try done;
    apply Forall_alter_length; try done; intros; apply length_insert.
Qed.

Lemma block_shaped_erase blk : block_shaped blk → block_shaped (Block.erase blk).
Proof.
  intros (H1 & H2 & H3 & H4 & H5). unfold block_shaped; simpl.
  rewrite length_fmap, length_replicate. split_and!; try done.
  apply Forall_fmap. eapply Forall_impl; [exact H2|]. intros row Hr. simpl.
  by rewrite length_replicate.
Qed.

Lemma block_shaped_new i ec :
  block_shaped (Block.new i (pagesInBlock cfg) (ioUnitInPage cfg) ec).
Proof.
  unfold block_shaped; simpl. rewrite !length_replicate. split_and!; try done.
  - apply Forall_replicate. by rewrite length_replicate.
  - apply Forall_replicate. by rewrite length_replicate.
Qed.

End Shape.

Section ShapeReachable.
Context {Dev : Type}.
Variable env : Env Dev.
Variable cfg : Config.

Lemma shaped_pool :
  (∀ f b fb n bs, BlockMethod f → shaped cfg fb n bs → shaped cfg fb n (alter f b bs)) ∧
  (∀ fb n bs iter blk t,
     fb !! iter = Some blk → bs !! block_index blk = None → 0 < n → shaped cfg fb n bs →
     shaped cfg (delete iter fb) (u32 (n - 1))
       (alter (Block.setLastWrittenTime t) (block_index blk) (<[block_index blk := blk]> bs))) ∧
  (∀ fb n bs b blk iter,
     bs !! b = Some blk → shaped cfg fb n bs →
     shaped cfg (emplace iter (Block.erase blk) fb) (u32 (n + 1)) (delete b bs)) ∧
  (∀ fb n bs b blk, bs !! b = Some blk → shaped cfg fb n bs → shaped cfg fb n (delete b bs)).
Proof.
  split_and!.
  - intros f b fb n bs Hf [H1 H2]. split; [done|].
    intros k blk Hk. rewrite lookup_alter in Hk. destruct (decide (b = k)) as [->|]; [|eauto].
    destruct (bs !! k) as [blk0|] eqn:E; [|done]. injection Hk as <-.
    apply block_shaped_method; eauto.
  - intros fb n bs iter blk t Hf Hb Hn [H1 H2]. split.
    + intros b Hin. apply H1. eapply elem_of_sublist; [exact Hin|apply sublist_delete].
    + intros k b Hk. rewrite lookup_alter in Hk.
      destruct (decide (block_index blk = k)) as [<-|Hne].
      * rewrite lookup_insert_eq in Hk. injection Hk as <-.
        apply block_shaped_method; [constructor|]. apply H1. eapply list_elem_of_lookup_2, Hf.
      * rewrite lookup_insert_ne in Hk by done. eauto.
  - intros fb n bs b blk iter Hb [H1 H2]. split.
    + intros b' Hin. unfold emplace in Hin.
      apply elem_of_app in Hin as [Hin|Hin].
      * apply H1. eapply elem_of_sublist; [exact Hin|apply sublist_take].
      * rewrite elem_of_cons in Hin. destruct Hin as [->|Hin].
        -- apply block_shaped_erase. eauto.
        -- apply H1. eapply elem_of_sublist; [exact Hin|apply sublist_drop].
    + intros k b' Hk. apply lookup_delete_Some in Hk as [_ Hk]. eauto.
  - intros fb n bs b blk Hb [H1 H2]. split; [done|].
    intros k b' Hk. apply lookup_delete_Some in Hk as [_ Hk]. eauto.
Qed.

Lemma shaped_reachable w : reachable env cfg w → pool_inv (shaped cfg) w.
Proof.
  destruct shaped_pool as (Hm & Ha & Hr & Hd).
  apply (pool_reachable env cfg).
  - exact Hm.
  - exact Ha.
  - intros fb n bs b blk iter Hb _ _. by apply Hr.
  - intros fb n bs b blk Hb _. by eapply Hd.
  - intros d. unfold pool_inv, shaped; simpl. split.
    + intros b Hb. apply list_elem_of_fmap in Hb as (i & -> & _). apply block_shaped_new.
    + intros k b Hk. by rewrite lookup_empty in Hk.
Qed.

End ShapeReachable.

Lemma valid_count_zero blk p idx :
  Block.getValidPageCount blk = 0 → unitValid blk p idx = false.
Proof.
  unfold Block.getValidPageCount, unitValid. intros H.
  destruct (Bitset_test _ idx) eqn:E; [|done]. exfalso.
  apply Bitset_test_Some in E.
  destruct (valid_bits blk !! p) as [row|] eqn:Er; simpl in E; [|done].
  assert (true ∈ concat (valid_bits blk)) as Hin.
  { apply list_elem_of_In, in_concat. exists row. split; apply list_elem_of_In.
    - eapply list_elem_of_lookup_2, Er.
    - eapply list_elem_of_lookup_2, E. }
  assert (true ∈ filter (λ x, x = true) (concat (valid_bits blk))) as Hf.
  { by apply list_elem_of_filter. }
  destruct (filter _ _); [by apply elem_of_nil in Hf|]. simpl in H. lia.
Qed.

Section Sound.
Context {Dev : Type}.
Variable env : Env Dev.
Variable cfg : Config.
Implicit Type w : World Dev.
Implicit Type S : Z → nat → Prop.

(** The page an io unit of a logical page is mapped to holds it: the
    block is in use, the io unit of the page is valid and records the
    logical page, and the page is below the write pointer of the io
    unit. *)
Definition slot_sound w (lpn : Z) (idx b p : nat) : Prop :=
  ∃ blk, blocks w !! b = Some blk ∧ unitValid blk p idx = true ∧
         unitLpn blk p idx = Some lpn ∧ (p < Block.getNextWritePageIndexOf blk idx)%nat.

(** The io unit [idx] of [lpn] is mapped to the page [p] of the block
    [b]: the slot is not a sentinel. *)
Definition mapped_to w (lpn : Z) (idx b p : nat) : Prop :=
  ∃ mappingList, table w !! lpn = Some mappingList ∧ mappingList !! idx = Some (b, p) ∧
    (b < totalPhysicalBlocks cfg)%nat ∧ (p < pagesInBlock cfg)%nat.

(** Every mapped slot outside [S] is sound (the slots of [S] are the
    ones an operation is rewriting). *)
Definition sound_but S w : Prop :=
  pool_inv (shaped cfg) w ∧
  ∀ lpn idx b p, ¬ S lpn idx → mapped_to w lpn idx b p → slot_sound w lpn idx b p.

Definition sound : World Dev → Prop := sound_but (λ _ _, False).

Lemma sound_but_weaken S S' w :
  (∀ lpn idx, S lpn idx → S' lpn idx) → sound_but S w → sound_but S' w.
Proof. intros HS [Hsh H]. split; [done|]. intros lpn idx b p Hn. apply H. eauto. Qed.

Lemma sound_neutral S w f b :
  BlockMethod f →
  (∀ blk, valid_bits (f blk) = valid_bits blk ∧ page_lpns (f blk) = page_lpns blk ∧
          next_write_page_index (f blk) = next_write_page_index blk) →
  sound_but S w → sound_but S (set_blocks (alter f b) w).
Proof.
  intros Hm Hf [Hsh H]. split.
  { destruct (shaped_pool cfg) as (Hmeth & _). apply Hmeth; done. }
  intros lpn idx b' p Hn Hmap. destruct (H lpn idx b' p Hn Hmap) as (blk & Hb & Hv & Hl & Hp).
  unfold slot_sound. simpl. destruct (decide (b = b')) as [->|Hne].
  - exists (f blk). rewrite lookup_alter_eq, Hb. split; [done|].
    destruct (Hf blk) as (E1 & E2 & E3).
    unfold unitValid, unitLpn, Block.getNextWritePageIndexOf in *. by rewrite E1, E2, E3.
  - exists blk. by rewrite lookup_alter_ne.
Qed.

Lemma sound_getFreeBlock S idx : stable (sound_but S) (getFreeBlock env cfg idx).
Proof.
  intros w b w' H [Hsh Hs].
  apply getFreeBlock_Done in H as (iter & blk & Hf & -> & Hb & Hn & ->). split.
  { destruct (shaped_pool cfg) as (_ & Ha & _). unfold pool_inv; simpl. by apply Ha. }
  intros lpn idx' b' p Hnot Hmap. destruct (Hs lpn idx' b' p Hnot Hmap) as (blk' & Hb' & Hrest).
  exists blk'. split; [|done]. simpl.
  assert (block_index blk ≠ b') by congruence.
  by rewrite lookup_alter_ne, lookup_insert_ne.
Qed.

Lemma sound_eraseInternal S req tick : stable (sound_but S) (eraseInternal env cfg req tick).
Proof.
  intros w t w' H [Hsh Hs]. rewrite eraseInternal_eq in H.
  destruct (blocks w !! blockIndex req) as [blk|] eqn:Eb; [|done].
  destruct (decide (Block.getValidPageCount blk ≠ 0)) as [|Hz]; [done|].
  assert (Block.getValidPageCount blk = 0) as Hzero by lia.
  assert (∀ w1 : World Dev, table w1 = table w → blocks w1 = delete (blockIndex req) (blocks w) →
          ∀ lpn idx b p, ¬ S lpn idx → mapped_to w1 lpn idx b p → slot_sound w1 lpn idx b p) as Hkeep.
  { intros w1 Et Ebs lpn idx b p Hnot (ml & Hml & Hrest). rewrite Et in Hml.
    destruct (Hs lpn idx b p Hnot) as (blk' & Hb' & Hv & Hl & Hp); [by exists ml|].
    exists blk'. split; [|done]. rewrite Ebs, lookup_delete_ne; [done|].
    intros <-. rewrite Eb in Hb'. injection Hb' as <-.
    by rewrite (valid_count_zero blk p idx Hzero) in Hv. }
  destruct (shaped_pool cfg) as (_ & _ & Hret & Hdis).
  destruct (_ <? _).
  - destruct (reverseSearch _ _ _) as [iter|]; [|done]. injection H as <- <-. split.
    + unfold pool_inv; simpl. rewrite delete_alter_eq. by eapply Hret.
    + apply Hkeep; simpl; [done|]. by rewrite delete_alter_eq.
  - injection H as <- <-. split.
    + unfold pool_inv; simpl. rewrite delete_alter_eq. by eapply Hdis.
    + apply Hkeep; simpl; [done|]. by rewrite delete_alter_eq.
Qed.

(** [Block::invalidate] on an io unit that only slots of [S] are mapped
    to. *)
Lemma sound_invalidate S w b p i :
  sound_but S w → (∀ lpn, ¬ S lpn i → ¬ mapped_to w lpn i b p) →
  sound_but S (set_blocks (alter (Block.invalidate p i) b) w).
Proof.
  intros [Hsh H] HS. split.
  { destruct (shaped_pool cfg) as (Hmeth & _). apply Hmeth; [constructor|done]. }
  intros lpn idx b' p' Hn Hmap. destruct (H lpn idx b' p' Hn Hmap) as (blk & Hb & Hv & Hl & Hp).
  unfold slot_sound. simpl. destruct (decide (b = b')) as [->|Hne].
  - exists (Block.invalidate p i blk). rewrite lookup_alter_eq, Hb. split; [done|].
    split_and!; [|done..]. rewrite unitValid_invalidate_other; [done|].
    intros [= -> ->]. by apply (HS lpn Hn).
  - exists blk. by rewrite lookup_alter_ne.
Qed.

(** [Block::write] at the write pointer of an io unit. *)
Lemma sound_write S w b blk l i t :
  sound_but S w → blocks w !! b = Some blk →
  sound_but S
    (set_blocks (alter (Block.write (Block.getNextWritePageIndexOf blk i) l i t) b) w).
Proof.
  intros [Hsh H] Hblk. split.
  { destruct (shaped_pool cfg) as (Hmeth & _). apply Hmeth; [constructor|done]. }
  intros lpn idx b' p' Hn Hmap. destruct (H lpn idx b' p' Hn Hmap) as (blk' & Hb & Hv & Hl & Hp).
  unfold slot_sound. simpl. destruct (decide (b = b')) as [->|Hne].
  - rewrite Hblk in Hb. injection Hb as <-.
    exists (Block.write (Block.getNextWritePageIndexOf blk i) l i t blk).
    rewrite lookup_alter_eq, Hblk. split; [done|].
    assert ((p', idx) ≠ (Block.getNextWritePageIndexOf blk i, i)) as Hne.
    { intros [= -> ->]. lia. }
    rewrite unitValid_write_other, unitLpn_write_other by done. split_and!; [done..|].
    rewrite pointer_write. destruct (decide _) as [[-> _]|_]; lia.
  - exists blk'. by rewrite lookup_alter_ne.
Qed.

(** The slot of [S] that is being rewritten gets its new page. *)
Lemma sound_remap S w lpn i v :
  sound_but S w → S lpn i →
  sound_but S (set_table (alter (<[i := v]>) lpn) w).
Proof.
  intros [Hsh H] HS. split; [done|].
  intros l idx b p Hn (ml & Hml & Hidx & Hr). simpl in Hml.
  apply H; [done|]. rewrite lookup_alter in Hml.
  destruct (decide (lpn = l)) as [->|Hne]; [|by exists ml].
  destruct (table w !! l) as [ml0|] eqn:E; [|done]. injection Hml as <-.
  exists ml0. split; [done|]. split; [|done].
  rewrite list_lookup_insert_ne in Hidx; [done|]. intros ->. by apply Hn.
Qed.

(** A slot of [S] that is sound again leaves [S]. *)
Lemma sound_shrink S w lpn i :
  sound_but S w → (∀ b p, mapped_to w lpn i b p → slot_sound w lpn i b p) →
  sound_but (λ l j, S l j ∧ (l, j) ≠ (lpn, i)) w.
Proof.
  intros [Hsh H] Hs. split; [done|].
  intros l idx b p Hn Hmap. destruct (decide ((l, idx) = (lpn, i))) as [[= -> ->]|Hne].
  - by apply Hs.
  - apply H; [|done]. intros HS. apply Hn. done.
Qed.

Lemma sound_delete S w lpn :
  sound_but S w → sound_but (λ l j, S l j ∧ l ≠ lpn) (set_table (delete lpn) w).
Proof.
  intros [Hsh H]. split; [done|].
  intros l idx b p Hn (ml & Hml & Hrest). simpl in Hml.
  apply lookup_delete_Some in Hml as [Hne Hml].
  apply H; [|by exists ml]. intros HS. apply Hn. done.
Qed.

Lemma sound_create S w lpn n :
  sound_but S w →
  sound_but S
    (set_table (<[lpn := replicate n (totalPhysicalBlocks cfg, pagesInBlock cfg)]>) w).
Proof.
  intros [Hsh H]. split; [done|].
  intros l idx b p Hn (ml & Hml & Hidx & Hb & Hp). simpl in Hml.
  rewrite lookup_insert in Hml. destruct (decide (lpn = l)) as [->|Hne].
  - injection Hml as <-. apply lookup_replicate in Hidx as [[= -> ->] _]. lia.
  - apply H; [done|]. by exists ml.
Qed.

(** The slot [k] of an entry that is still sound is invalidated. *)
Lemma sound_invalidate_slot S w lpn mappingList k b p :
  sound_but S w → table w !! lpn = Some mappingList → mappingList !! k = Some (b, p) →
  ¬ S lpn k →
  sound_but (λ l j, S l j ∨ (l = lpn ∧ j = k))
    (set_blocks (alter (Block.invalidate p k) b) w).
Proof.
  intros Hs Hml Hk Hn. apply sound_invalidate.
  { eapply sound_but_weaken; [|exact Hs]. intros; by left. }
  intros l HS' Hmap. destruct Hs as [_ H].
  assert (¬ S l k) as HS by (intros ?; apply HS'; by left).
  destruct Hmap as (ml' & Hml' & Hk' & Hb & Hp).
  destruct (H l k b p HS) as (blk & Hblk & _ & Hl & _); [by exists ml'|].
  destruct (H lpn k b p Hn) as (blk' & Hblk' & _ & Hl' & _); [by exists mappingList|].
  apply HS'. right. split; [congruence|done].
Qed.

End Sound.

Section SoundSteps.
Context {Dev : Type}.
Variable env : Env Dev.
Variable cfg : Config.
Implicit Type w : World Dev.
Implicit Type S : Z → nat → Prop.

Lemma sound_getLastFreeBlock S iomap : stable (sound_but cfg S) (getLastFreeBlock env cfg iomap).
Proof.
  apply stable_getLastFreeBlock;
    first [ apply sound_getFreeBlock | intros; assumption ].
Qed.

Lemma sound_predictError S b p : stable (sound_but cfg S) (predictError env cfg b p).
Proof. apply stable_predictError; intros; assumption. Qed.

Lemma sound_pPAL_read S r t : stable (sound_but cfg S) (pPAL_read env r t).
Proof. apply stable_pPAL_read; intros; assumption. Qed.

Lemma sound_pPAL_write S r t : stable (sound_but cfg S) (pPAL_write env r t).
Proof. apply stable_pPAL_write; intros; assumption. Qed.

Lemma sound_pDRAM_read S l s t : stable (sound_but cfg S) (pDRAM_read env l s t).
Proof. apply stable_pDRAM_read; intros; assumption. Qed.

Lemma sound_pDRAM_write S l s t : stable (sound_but cfg S) (pDRAM_write env l s t).
Proof. apply stable_pDRAM_write; intros; assumption. Qed.

(** The io units of a request that [writeInternal] rewrites. *)
Definition flagged (req : Request) (j : nat) : Prop :=
  Bitset_test (ioFlag req) j || negb (bRandomTweak cfg) = true.

(** ** The loops that invalidate the slots of an entry *)

Lemma invalidateOld_step req mappingList k w w1 :
  invalidateOld cfg req mappingList k w = Done (tt, w1) →
  table w !! lpn req = Some mappingList →
  sound_but cfg (λ l j, l = lpn req ∧ (j < k)%nat ∧ flagged req j) w →
  sound_but cfg (λ l j, l = lpn req ∧ (j < S k)%nat ∧ flagged req j) w1 ∧ table w1 = table w.
Proof.
  unfold invalidateOld. intros H Hml Hs.
  assert (sound_but cfg (λ l j, l = lpn req ∧ (j < S k)%nat ∧ flagged req j) w) as Hweak.
  { eapply sound_but_weaken; [|exact Hs]. intros l j (? & ? & ?). split_and!; [done|lia|done]. }
  destruct (Bitset_test (ioFlag req) k || negb (bRandomTweak cfg)) eqn:Ef.
  2:{ by injection H as <-. }
  destruct (mappingList !! k) as [[b p]|] eqn:Ek; [|done].
  destruct (decide _) as [Hr|_].
  2:{ by injection H as <-. }
  apply bind_Done in H as (bs & w0 & [= <- <-] & H).
  destruct (blocks w !! b) as [blk|]; [|done]. injection H as <-. split; [|done].
  eapply sound_but_weaken;
    [|eapply (sound_invalidate_slot cfg _ w (lpn req) mappingList k b p Hs Hml Ek)].
  - intros l j [(? & ? & ?)|[-> ->]]; (split_and!; [done|lia|done]).
  - intros (_ & ? & _). lia.
Qed.

Lemma invalidate_phase req mappingList n a w w' :
  for_each (seq a n) (invalidateOld cfg req mappingList) w = Done (tt, w') →
  table w !! lpn req = Some mappingList →
  sound_but cfg (λ l j, l = lpn req ∧ (j < a)%nat ∧ flagged req j) w →
  sound_but cfg (λ l j, l = lpn req ∧ (j < a + n)%nat ∧ flagged req j) w'.
Proof.
  revert a w. induction n as [|n IH]; intros a w H Hml Hs.
  - injection H as <-. by rewrite Nat.add_0_r.
  - rewrite <- cons_seq, for_each_cons in H.
    apply bind_Done in H as ([] & w1 & H1 & H).
    destruct (invalidateOld_step _ _ _ _ _ H1 Hml Hs) as [Hs1 Et].
    replace (a + S n)%nat with (S a + n)%nat by lia.
    apply (IH (S a) w1); [done|by rewrite Et|done].
Qed.

Lemma trimUnit_step lpn mappingList k w w1 :
  trimUnit mappingList k w = Done (tt, w1) →
  table w !! lpn = Some mappingList →
  sound_but cfg (λ l j, l = lpn ∧ (j < k)%nat) w →
  sound_but cfg (λ l j, l = lpn ∧ (j < S k)%nat) w1 ∧ table w1 = table w.
Proof.
  unfold trimUnit. intros H Hml Hs.
  destruct (mappingList !! k) as [[b p]|] eqn:Ek; [|done].
  apply bind_Done in H as (bs & w0 & [= <- <-] & H).
  destruct (blocks w !! b) as [blk|]; [|done]. injection H as <-. split; [|done].
  eapply sound_but_weaken;
    [|eapply (sound_invalidate_slot cfg _ w lpn mappingList k b p Hs Hml Ek)].
  - intros l j [(? & ?)|[-> ->]]; (split; [done|lia]).
  - intros (_ & ?). lia.
Qed.

Lemma trim_phase lpn mappingList n a w w' :
  for_each (seq a n) (trimUnit mappingList) w = Done (tt, w') →
  table w !! lpn = Some mappingList →
  sound_but cfg (λ l j, l = lpn ∧ (j < a)%nat) w →
  sound_but cfg (λ l j, l = lpn ∧ (j < a + n)%nat) w' ∧ table w' = table w.
Proof.
  revert a w. induction n as [|n IH]; intros a w H Hml Hs.
  - injection H as <-. rewrite Nat.add_0_r. by split.
  - rewrite <- cons_seq, for_each_cons in H.
    apply bind_Done in H as ([] & w1 & H1 & H).
    destruct (trimUnit_step _ _ _ _ _ H1 Hml Hs) as [Hs1 Et].
    replace (a + S n)%nat with (S a + n)%nat by lia.
    destruct (IH (S a) w1) as [Hs' Et']; [done|by rewrite Et|done|].
    split; [done|congruence].
Qed.

Lemma sound_trimInternal req tick : stable (sound cfg) (trimInternal env cfg req tick).
Proof.
  intros w t w' H Hs. unfold trimInternal in H.
  apply bind_Done in H as (tbl & w0 & [= <- <-] & H).
  destruct (table w !! lpn req) as [mappingList|] eqn:Et.
  2:{ by injection H as <- <-. }
  apply bind_Done in H as (t1 & w1 & H1 & H).
  apply bind_Done in H as ([] & w2 & H2 & H).
  apply bind_Done in H as ([] & w3 & [= <-] & [= <- <-]).
  assert (sound_but cfg (λ l j, l = lpn req ∧ (j < 0)%nat) w1 ∧ table w1 = table w) as [Hs1 Et1].
  { split.
    - eapply sound_pDRAM_read; [exact H1|]. eapply sound_but_weaken; [|exact Hs]. done.
    - unfold pDRAM_read in H1. destruct (dram_read _ _ _ _ _). by injection H1 as <- <-. }
  destruct (trim_phase (lpn req) mappingList _ 0 w1 w2 H2) as [Hs2 Et2];
    [by rewrite Et1|done|].
  eapply sound_but_weaken; [|apply sound_delete, Hs2]. intros l j [[-> _] Hne]. done.
Qed.

Lemma formatUnit_step lpn mappingList blockList k w blockList1 w1 :
  formatUnit mappingList blockList k w = Done (blockList1, w1) →
  table w !! lpn = Some mappingList →
  sound_but cfg (λ l j, l = lpn ∧ (j < k)%nat) w →
  sound_but cfg (λ l j, l = lpn ∧ (j < S k)%nat) w1 ∧ table w1 = table w.
Proof.
  unfold formatUnit. intros H Hml Hs.
  destruct (mappingList !! k) as [[b p]|] eqn:Ek; [|done].
  apply bind_Done in H as (bs & w0 & [= <- <-] & H).
  destruct (blocks w !! b) as [blk|]; [|done].
  apply bind_Done in H as ([] & w2 & [= <-] & [= <- <-]). split; [|done].
  eapply sound_but_weaken;
    [|eapply (sound_invalidate_slot cfg _ w lpn mappingList k b p Hs Hml Ek)].
  - intros l j [(? & ?)|[-> ->]]; (split; [done|lia]).
  - intros (_ & ?). lia.
Qed.

Lemma format_phase lpn mappingList n a blockList w blockList' w' :
  foldM (formatUnit mappingList) blockList (seq a n) w = Done (blockList', w') →
  table w !! lpn = Some mappingList →
  sound_but cfg (λ l j, l = lpn ∧ (j < a)%nat) w →
  sound_but cfg (λ l j, l = lpn ∧ (j < a + n)%nat) w' ∧ table w' = table w.
Proof.
  revert a blockList w. induction n as [|n IH]; intros a blockList w H Hml Hs.
  - injection H as <- <-. rewrite Nat.add_0_r. by split.
  - rewrite <- cons_seq, foldM_cons in H.
    apply bind_Done in H as (bl1 & w1 & H1 & H).
    destruct (formatUnit_step _ _ _ _ _ _ _ H1 Hml Hs) as [Hs1 Et].
    replace (a + S n)%nat with (S a + n)%nat by lia.
    destruct (IH (S a) bl1 w1) as [Hs' Et']; [done|by rewrite Et|done|].
    split; [done|congruence].
Qed.

Lemma format_entries range entries blockList w blockList' w' :
  foldM (formatEntry cfg range) blockList entries w = Done (blockList', w') →
  NoDup entries.*1 →
  (∀ k ml, (k, ml) ∈ entries → table w !! k = Some ml) →
  sound cfg w → sound cfg w'.
Proof.
  revert blockList w. induction entries as [|[first mappingList] entries IH];
    intros blockList w H Hnd Hin Hs.
  - by injection H as <- <-.
  - rewrite foldM_cons in H. apply bind_Done in H as (bl1 & w1 & H1 & H).
    rewrite fmap_cons in Hnd. apply NoDup_cons in Hnd as [Hfirst Hnd].
    assert (table w !! first = Some mappingList) as Hml by (apply Hin; left).
    assert (sound cfg w1 ∧
            ∀ k ml, (k, ml) ∈ entries → table w1 !! k = Some ml) as [Hs1 Hin1].
    { unfold formatEntry in H1. destruct (decide _) as [_|_].
      2:{ injection H1 as <- <-. split; [done|]. intros k ml Hk. apply Hin. by right. }
      apply bind_Done in H1 as (bl2 & w2 & H2 & H1).
      apply bind_Done in H1 as ([] & w3 & [= <-] & [= <- <-]).
      destruct (format_phase first mappingList _ 0 blockList w bl2 w2 H2 Hml) as [Hs2 Et2].
      { eapply sound_but_weaken; [|exact Hs]. done. }
      split.
      - eapply sound_but_weaken; [|apply sound_delete, Hs2]. intros l j [[-> _] Hne]. done.
      - intros k ml Hk. simpl. rewrite lookup_delete_ne.
        + rewrite Et2. apply Hin. by right.
        + intros <-. apply Hfirst. apply list_elem_of_fmap. by exists (first, ml). }
    eapply IH; eauto.
Qed.

End SoundSteps.

Section SoundWrite.
Context {Dev : Type}.
Variable env : Env Dev.
Variable cfg : Config.
Implicit Type w : World Dev.
Implicit Type S : Z → nat → Prop.

Lemma slot_sound_blocks w w' lpn idx b p :
  blocks w' = blocks w → slot_sound w lpn idx b p → slot_sound w' lpn idx b p.
Proof. intros E (blk & H). exists blk. by rewrite E. Qed.

(** The io unit just written holds its logical page. *)
Lemma slot_sound_written w b blk lpn i t :
  pool_inv (shaped cfg) w → blocks w !! b = Some blk → (i < ioUnitInPage cfg)%nat →
  (Block.getNextWritePageIndexOf blk i < pagesInBlock cfg)%nat →
  slot_sound
    (set_blocks (alter (Block.write (Block.getNextWritePageIndexOf blk i) lpn i t) b) w)
    lpn i b (Block.getNextWritePageIndexOf blk i).
Proof.
  intros [_ Hsh] Hb Hi Hp. destruct (Hsh b blk Hb) as (H1 & H2 & H3 & H4 & H5).
  set (np := Block.getNextWritePageIndexOf blk i) in *.
  exists (Block.write np lpn i t blk). simpl. rewrite lookup_alter_eq, Hb. split; [done|].
  destruct (lookup_lt_is_Some_2 (valid_bits blk) np) as [row Hrow]; [lia|].
  destruct (lookup_lt_is_Some_2 (page_lpns blk) np) as [lrow Hlrow]; [lia|].
  rewrite Forall_forall in H2. rewrite Forall_forall in H4.
  assert (length row = ioUnitInPage cfg) as Hr by (apply H2; eapply list_elem_of_lookup_2, Hrow).
  assert (length lrow = ioUnitInPage cfg) as Hlr
    by (apply H4; eapply list_elem_of_lookup_2, Hlrow).
  split_and!.
  - eapply unitValid_write; [exact Hrow|lia].
  - eapply unitLpn_write; [exact Hlrow|lia].
  - rewrite pointer_write. rewrite decide_True by (split; [done|lia]). lia.
Qed.

(** Sound outside [S], with the blocks and the table of [w0]. *)
Definition still S (w0 w : World Dev) : Prop :=
  sound_but cfg S w ∧ blocks w = blocks w0 ∧ table w = table w0.

Lemma still_pPAL_read S w0 r t : stable (still S w0) (pPAL_read env r t).
Proof. apply stable_pPAL_read; intros; assumption. Qed.

Lemma still_pPAL_write S w0 r t : stable (still S w0) (pPAL_write env r t).
Proof. apply stable_pPAL_write; intros; assumption. Qed.

Lemma still_pDRAM_read S w0 l s t : stable (still S w0) (pDRAM_read env l s t).
Proof. apply stable_pDRAM_read; intros; assumption. Qed.

Lemma still_pDRAM_write S w0 l s t : stable (still S w0) (pDRAM_write env l s t).
Proof. apply stable_pDRAM_write; intros; assumption. Qed.

Lemma still_predictError S w0 b p : stable (still S w0) (predictError env cfg b p).
Proof. apply stable_predictError; intros; assumption. Qed.

(** ** The loop of [writeInternal] that writes the io units *)

Hypothesis units : (bitsetSize cfg ≤ ioUnitInPage cfg)%nat.

Lemma writeUnit_step req b tick sendToPAL readBeforeWrite fin k w fin' w1 :
  writeUnit env cfg req b tick sendToPAL readBeforeWrite fin k w = Done (fin', w1) →
  (k < bitsetSize cfg)%nat →
  sound_but cfg (λ l j, l = lpn req ∧ (k ≤ j < bitsetSize cfg)%nat ∧ flagged cfg req j) w →
  sound_but cfg (λ l j, l = lpn req ∧ (S k ≤ j < bitsetSize cfg)%nat ∧ flagged cfg req j) w1.
Proof.
  unfold writeUnit. intros H Hk Hs.
  destruct (Bitset_test (ioFlag req) k || negb (bRandomTweak cfg)) eqn:Ef.
  2:{ injection H as <- <-. eapply sound_but_weaken; [|exact Hs].
      intros l j (-> & Hj & Hf).
      assert (j ≠ k) by (intros ->; unfold flagged in Hf; congruence).
      split_and!; [done|lia|lia|done]. }
  apply bind_Done in H as (bs & w0 & [= <- <-] & H).
  apply bind_Done in H as (tbl & w0 & [= <- <-] & H).
  destruct (blocks w !! b) as [block|] eqn:Eb; [|done].
  destruct (table w !! lpn req) as [mappingList|] eqn:Et; [|done].
  destruct (mappingList !! k) as [[oldBlock oldPage]|] eqn:Ek; [|done].
  set (np := Block.getNextWritePageIndexOf block k) in *.
  apply bind_Done in H as ([] & w2 & Hwr & H).
  apply writeBlock_Done in Hwr as (blk0 & Hblk0 & Hwritable & ->).
  apply bind_Done in H as (begin1 & w3 & H3 & H).
  apply bind_Done in H as ([] & w4 & [= <-] & H).
  apply bind_Done in H as (begin2 & w5 & H5 & H).
  apply bind_Done in H as ([] & w6 & H6 & [= <- <-]).
  set (w2 := set_blocks (alter (Block.write np (lpn req) k tick) b) w) in *.
  set (SC := λ l j, l = lpn req ∧ (k ≤ j < bitsetSize cfg)%nat ∧ flagged cfg req j) in *.
  assert (still SC w2 w2) as Hst2.
  { split; [|done]. by apply sound_write. }
  assert ((np < pagesInBlock cfg)%nat → slot_sound w2 (lpn req) k b np) as Hslot.
  { intros Hp. apply slot_sound_written; [apply Hs|done|lia|done]. }
  assert (still SC w2 w3) as (Hs3 & Eb3 & Et3).
  { destruct (readBeforeWrite && sendToPAL).
    - eapply still_pPAL_read; [exact H3|exact Hst2].
    - by injection H3 as <- <-. }
  set (w4 := set_table (alter (<[k := (b, np)]>) (lpn req)) w3) in *.
  set (SC' := λ l j, l = lpn req ∧ (S k ≤ j < bitsetSize cfg)%nat ∧ flagged cfg req j) in *.
  assert (still SC' w4 w4) as Hst4.
  { split; [|done]. eapply sound_but_weaken; [|apply (sound_shrink cfg SC w4 (lpn req) k)].
    - intros l j [(-> & Hj & Hf) Hne].
      assert (j ≠ k) by (intros ->; by apply Hne).
      split_and!; [done|lia|lia|done].
    - apply sound_remap; [done|]. split_and!; [done|lia|lia|done].
    - intros b' p' (ml' & Hml' & Hk' & Hb' & Hp'). simpl in Hml'.
      rewrite lookup_alter_eq, Et3 in Hml'. simpl in Hml'. rewrite Et in Hml'.
      injection Hml' as <-. rewrite list_lookup_insert_eq in Hk'.
      2:{ by apply lookup_lt_Some in Ek. }
      injection Hk' as <- <-. eapply slot_sound_blocks; [|by apply Hslot].
      simpl. exact Eb3. }
  assert (still SC' w4 w5) as Hst5.
  { destruct sendToPAL.
    - eapply still_pPAL_write; [exact H5|exact Hst4].
    - by injection H5 as <- <-. }
  assert (still SC' w4 w6) as [Hs6 _].
  { destruct sendToPAL.
    - eapply still_predictError; [exact H6|exact Hst5].
    - by injection H6 as <-. }
  exact Hs6.
Qed.

Lemma write_phase req b tick sendToPAL readBeforeWrite n a fin w fin' w' :
  foldM (writeUnit env cfg req b tick sendToPAL readBeforeWrite) fin (seq a n) w
    = Done (fin', w') →
  (a + n ≤ bitsetSize cfg)%nat →
  sound_but cfg (λ l j, l = lpn req ∧ (a ≤ j < bitsetSize cfg)%nat ∧ flagged cfg req j) w →
  sound_but cfg
    (λ l j, l = lpn req ∧ (a + n ≤ j < bitsetSize cfg)%nat ∧ flagged cfg req j) w'.
Proof.
  revert a fin w. induction n as [|n IH]; intros a fin w H Hle Hs.
  - injection H as <- <-. by rewrite Nat.add_0_r.
  - rewrite <- cons_seq, foldM_cons in H.
    apply bind_Done in H as (fin1 & w1 & H1 & H).
    replace (a + S n)%nat with (S a + n)%nat by lia.
    apply (IH (S a) fin1 w1); [done|lia|].
    eapply writeUnit_step; [exact H1|lia|exact Hs].
Qed.

End SoundWrite.

Section SoundCopy.
Context {Dev : Type}.
Variable env : Env Dev.
Variable cfg : Config.
Implicit Type w : World Dev.
Implicit Type S : Z → nat → Prop.

Lemma pDRAM_read_Done l s t w t' w' :
  pDRAM_read env l s t w = Done (t', w') → ∃ d e, w' = set_dev d e w.
Proof.
  unfold pDRAM_read. destruct (dram_read _ _ _ _ _) as [t1 d]. intros [= <- <-]. eauto.
Qed.

(** The logical pages recorded for the other io units of a page stay
    through the copy of one io unit. *)
Definition rows_kept (victim pg i : nat) w w' : Prop :=
  ∀ j blk', j ≠ i → blocks w' !! victim = Some blk' →
    ∃ blk, blocks w !! victim = Some blk ∧ unitLpn blk' pg j = unitLpn blk pg j.

Lemma rows_kept_refl victim pg i w : rows_kept victim pg i w w.
Proof. intros j blk _ H. eauto. Qed.

Lemma rows_kept_invalidate victim pg i w :
  rows_kept victim pg i w (set_blocks (alter (Block.invalidate pg i) victim) w).
Proof.
  intros j blk' _ H. simpl in H. rewrite lookup_alter_eq in H.
  destruct (blocks w !! victim) as [blk|]; [|done]. injection H as <-. eauto.
Qed.

(** One io unit of a page is copied: invalidated, its slot remapped to
    the write pointer of the target block, and written there. *)
Lemma sound_copy w victim pg i lpn' mappingList nb freeBlock d e t :
  sound cfg w → (i < ioUnitInPage cfg)%nat →
  (∀ blk, blocks w !! victim = Some blk → unitLpn blk pg i = Some lpn') →
  table w !! lpn' = Some mappingList → (i < length mappingList)%nat →
  blocks (set_blocks (alter (Block.invalidate pg i) victim) w) !! nb = Some freeBlock →
  let np := Block.getNextWritePageIndexOf freeBlock i in
  let w' := set_blocks (alter (Block.write np lpn' i t) nb)
              (set_table (alter (<[i := (nb, np)]>) lpn')
                 (set_dev d e (set_blocks (alter (Block.invalidate pg i) victim) w))) in
  sound cfg w' ∧ rows_kept victim pg i w w'.
Proof.
  intros Hs Hi Hrow Hml Hlen Hnb np w'.
  set (S1 := λ (l : Z) (j : nat), l = lpn' ∧ j = i).
  set (w1 := set_blocks (alter (Block.invalidate pg i) victim) w) in *.
  assert (sound_but cfg S1 w1) as Hs1.
  { apply sound_invalidate.
    - eapply sound_but_weaken; [|exact Hs]. done.
    - intros l HS Hmap. destruct Hs as [_ H].
      destruct (H l i victim pg) as (blk & Hb & _ & Hl & _); [tauto|done|].
      rewrite (Hrow blk Hb) in Hl. injection Hl as <-. by apply HS. }
  set (w3 := set_table (alter (<[i := (nb, np)]>) lpn') (set_dev d e w1)) in *.
  assert (sound_but cfg S1 w3) as Hs3.
  { apply sound_remap; [exact Hs1|done]. }
  assert (sound_but cfg S1 w') as Hs4.
  { apply (sound_write cfg S1 w3 nb freeBlock lpn' i t Hs3). exact Hnb. }
  split.
  - eapply sound_but_weaken; [|apply (sound_shrink cfg S1 w' lpn' i Hs4)].
    + intros l j [[-> ->] Hne]. done.
    + intros b p (ml' & Hml' & Hk' & Hb' & Hp'). simpl in Hml'.
      rewrite lookup_alter_eq, Hml in Hml'. injection Hml' as <-.
      rewrite list_lookup_insert_eq in Hk' by done. injection Hk' as <- <-.
      apply (slot_sound_written cfg w3 nb freeBlock lpn' i t); [apply Hs3|exact Hnb|done|done].
  - intros j blk' Hj Hb'. simpl in Hb'. unfold w1 in Hnb. simpl in Hnb.
    destruct (decide (nb = victim)) as [->|Hne].
    + rewrite lookup_alter_eq in Hb'. rewrite Hnb in Hb'. injection Hb' as <-.
      rewrite lookup_alter_eq in Hnb.
      destruct (blocks w !! victim) as [blk|]; [|done]. injection Hnb as <-.
      exists blk. split; [done|]. rewrite unitLpn_write_other; [done|]. intros [= _ ->]. done.
    + rewrite lookup_alter_ne in Hb' by done. rewrite lookup_alter_eq in Hb'.
      destruct (blocks w !! victim) as [blk|]; [|done]. injection Hb' as <-. eauto.
Qed.

Lemma gcCopyUnit_step victim pg nb lpns bit t l i w l' w' :
  gcCopyUnit env cfg victim pg nb lpns bit t l i w = Done (l', w') →
  (i < ioUnitInPage cfg)%nat → sound cfg w →
  (∀ blk, blocks w !! victim = Some blk → unitLpn blk pg i = lpns !! i) →
  sound cfg w' ∧ rows_kept victim pg i w w'.
Proof.
  unfold gcCopyUnit. intros H Hi Hs Hrow.
  destruct (Bitset_test bit i).
  2:{ injection H as <- <-. split; [done|apply rows_kept_refl]. }
  apply bind_Done in H as ([] & w1 & [= <-] & H).
  destruct (lpns !! i) as [lpn'|] eqn:El; [|done].
  apply bind_Done in H as (tbl & w0 & [= <- <-] & H). simpl in H.
  destruct (table w !! lpn') as [mappingList|] eqn:Et; [|done].
  apply bind_Done in H as (tick & w2 & H2 & H).
  apply pDRAM_read_Done in H2 as (d & e & ->).
  destruct (decide _) as [|Hlen]; [done|].
  apply bind_Done in H as (bs & w0 & [= <- <-] & H). simpl in H.
  destruct (alter (Block.invalidate pg i) victim (blocks w) !! nb) as [freeBlock|] eqn:Enb;
    [|done].
  apply bind_Done in H as ([] & w3 & [= <-] & H).
  apply bind_Done in H as ([] & w4 & Hwr & H).
  apply writeBlock_Done in Hwr as (blk0 & Hblk0 & Hwritable & ->).
  apply bind_Done in H as ([] & w5 & [= <-] & [= <- <-]).
  apply (sound_copy w victim pg i lpn' mappingList nb freeBlock d e t); try done. lia.
Qed.

Lemma refreshCopyUnit_step victim pg nb lpns bit t l i w l' w' :
  refreshCopyUnit env cfg victim pg nb lpns bit t l i w = Done (l', w') →
  (i < ioUnitInPage cfg)%nat → sound cfg w →
  (∀ blk, blocks w !! victim = Some blk → unitLpn blk pg i = lpns !! i) →
  sound cfg w' ∧ rows_kept victim pg i w w'.
Proof.
  unfold refreshCopyUnit. intros H Hi Hs Hrow.
  destruct (Bitset_test bit i).
  2:{ injection H as <- <-. split; [done|apply rows_kept_refl]. }
  apply bind_Done in H as ([] & w1 & [= <-] & H).
  destruct (lpns !! i) as [lpn'|] eqn:El; [|done].
  apply bind_Done in H as (tbl & w0 & [= <- <-] & H). simpl in H.
  destruct (table w !! lpn') as [mappingList|] eqn:Et.
  2:{ injection H as <- <-. split; [|apply rows_kept_invalidate].
      apply sound_invalidate; [done|]. intros l0 _ (ml & Hml & Hk & Hb & Hp).
      destruct Hs as [_ Hs]. destruct (Hs l0 i victim pg) as (blk & Hblk & _ & Hl & _);
        [tauto|by exists ml|].
      rewrite (Hrow blk Hblk) in Hl. injection Hl as <-. congruence. }
  apply bind_Done in H as (tick & w2 & H2 & H).
  apply pDRAM_read_Done in H2 as (d & e & ->).
  destruct (decide _) as [|Hlen]; [done|].
  apply bind_Done in H as (bs & w0 & [= <- <-] & H). simpl in H.
  destruct (alter (Block.invalidate pg i) victim (blocks w) !! nb) as [freeBlock|] eqn:Enb;
    [|done].
  apply bind_Done in H as ([] & w3 & [= <-] & H).
  apply bind_Done in H as ([] & w4 & Hwr & H).
  apply writeBlock_Done in Hwr as (blk0 & Hblk0 & Hwritable & ->).
  apply bind_Done in H as ([] & w5 & [= <-] & [= <- <-]).
  apply (sound_copy w victim pg i lpn' mappingList nb freeBlock d e t); try done. lia.
Qed.

(** The loop over the io units of a page, for either copy. *)
Lemma copy_phase (unit : GCLocals → nat → FTL Dev GCLocals) victim pg (lpns : list Z)
    n a l w l' w' :
  (∀ l i w l' w',
     unit l i w = Done (l', w') → (i < ioUnitInPage cfg)%nat → sound cfg w →
     (∀ blk, blocks w !! victim = Some blk → unitLpn blk pg i = lpns !! i) →
     sound cfg w' ∧ rows_kept victim pg i w w') →
  foldM unit l (seq a n) w = Done (l', w') →
  (a + n ≤ ioUnitInPage cfg)%nat → sound cfg w →
  (∀ j blk, (a ≤ j)%nat → blocks w !! victim = Some blk → unitLpn blk pg j = lpns !! j) →
  sound cfg w'.
Proof.
  intros Hunit. revert a l w. induction n as [|n IH]; intros a l w H Hle Hs Hrows.
  - by injection H as <- <-.
  - rewrite <- cons_seq, foldM_cons in H.
    apply bind_Done in H as (l1 & w1 & H1 & H).
    destruct (Hunit l a w l1 w1 H1) as [Hs1 Hk];
      [lia|done|intros blk Hb; apply Hrows; [lia|done]|].
    apply (IH (S a) l1 w1); [done|lia|done|].
    intros j blk' Hj Hb'. destruct (Hk j blk') as (blk & Hb & ->); [lia|done|].
    apply Hrows; [lia|done].
Qed.

(** [getLastFreeBlock] leaves the blocks in use as they are. *)
Lemma getLastFreeBlock_keeps iomap k blk :
  stable (λ w, blocks w !! k = Some blk) (getLastFreeBlock env cfg iomap).
Proof.
  apply stable_getLastFreeBlock; try (intros; assumption).
  intros idx w b w' H Hk.
  apply getFreeBlock_Done in H as (iter & blk0 & _ & -> & Hnone & _ & ->). simpl.
  assert (block_index blk0 ≠ k) by congruence.
  by rewrite lookup_alter_ne, lookup_insert_ne.
Qed.

Hypothesis units : (bitsetSize cfg ≤ ioUnitInPage cfg)%nat.

Lemma sound_gcCopyPage victim t l pg : stable (sound cfg) (gcCopyPage env cfg victim t l pg).
Proof.
  intros w l' w' H Hs. unfold gcCopyPage in H.
  apply bind_Done in H as (bs & w0 & [= <- <-] & H).
  destruct (blocks w !! victim) as [block|] eqn:Eb; [|done].
  unfold Block.getPageInfo in H. simpl in H.
  destruct (Bitset_any _).
  2:{ by injection H as <- <-. }
  apply bind_Done in H as (nb & w1 & H1 & H).
  apply bind_Done in H as (bs & w0 & [= <- <-] & H).
  destruct (blocks w1 !! nb); [|done].
  apply bind_Done in H as (l2 & w2 & H2 & H).
  apply bind_Done in H as ([] & w3 & [= <-] & [= <- <-]).
  assert (sound cfg w1) as Hs1 by (eapply sound_getLastFreeBlock; eauto).
  assert (blocks w1 !! victim = Some block) as Eb1
    by (eapply getLastFreeBlock_keeps; eauto).
  eapply (copy_phase _ victim pg _ (bitsetSize cfg) 0 _ w1 l2 w2); [|exact H2|done|done|].
  - intros. eapply gcCopyUnit_step; eauto.
  - intros j blk _ Hb. rewrite Eb1 in Hb. by injection Hb as <-.
Qed.

Lemma sound_refreshCopyPage b t l pg :
  stable (sound cfg) (refreshCopyPage env cfg b t l pg).
Proof.
  intros w l' w' H Hs. unfold refreshCopyPage in H.
  apply bind_Done in H as (bs & w0 & [= <- <-] & H).
  destruct (blocks w !! b) as [block|] eqn:Eb; [|done].
  destruct (decide _) as [_|_].
  2:{ by injection H as <- <-. }
  unfold Block.getPageInfo in H. simpl in H.
  apply bind_Done in H as (nb & w1 & H1 & H).
  apply bind_Done in H as (bs & w0 & [= <- <-] & H).
  destruct (blocks w1 !! nb); [|done].
  apply bind_Done in H as (l2 & w2 & H2 & H).
  apply bind_Done in H as ([] & w3 & [= <-] & [= <- <-]).
  assert (sound cfg w1) as Hs1 by (eapply sound_getLastFreeBlock; eauto).
  assert (blocks w1 !! b = Some block) as Eb1
    by (eapply getLastFreeBlock_keeps; eauto).
  eapply (copy_phase _ b pg _ (bitsetSize cfg) 0 _ w1 l2 w2); [|exact H2|done|done|].
  - intros. eapply refreshCopyUnit_step; eauto.
  - intros j blk _ Hb. rewrite Eb1 in Hb. by injection Hb as <-.
Qed.

End SoundCopy.

Section SoundReachable.
Context {Dev : Type}.
Variable env : Env Dev.
Variable cfg : Config.
Implicit Type w : World Dev.

Hypothesis units : (bitsetSize cfg ≤ ioUnitInPage cfg)%nat.

Lemma sound_readInternal req tick : stable (sound cfg) (readInternal env cfg req tick).
Proof.
  unfold readInternal, readUnit.
  stable_go ltac:(first
    [ apply sound_pDRAM_read | apply sound_pPAL_read
    | apply stable_modify; intros w Hs; apply sound_neutral; [constructor|done|exact Hs] ]).
Qed.

Lemma sound_doGarbageCollection l tick :
  stable (sound cfg) (doGarbageCollection env cfg l tick).
Proof.
  apply kept_doGarbageCollection; try (intros; assumption).
  - apply sound_eraseInternal.
  - by apply sound_gcCopyPage.
Qed.

Lemma sound_gcCycle tick : stable (sound cfg) (gcCycle env cfg tick).
Proof.
  apply kept_gcCycle; try (intros; assumption).
  - apply sound_eraseInternal.
  - by apply sound_gcCopyPage.
Qed.

Lemma sound_refreshPage b layer tick : stable (sound cfg) (refreshPage env cfg b layer tick).
Proof.
  apply kept_refreshPage; try (intros; assumption).
  - apply sound_eraseInternal.
  - by apply sound_gcCopyPage.
  - by apply sound_refreshCopyPage.
Qed.

Lemma sound_writeInternal req tick sendToPAL :
  stable (sound cfg) (writeInternal env cfg req tick sendToPAL).
Proof.
  intros w t w' H Hs. unfold writeInternal in H.
  apply bind_Done in H as (tbl & w0 & [= <- <-] & H).
  apply bind_Done in H as ([] & w1 & H1 & H).
  set (SA := λ l j, l = lpn req ∧ (0 ≤ j < bitsetSize cfg)%nat ∧ flagged cfg req j).
  assert (sound_but cfg SA w1) as Hs1.
  { destruct (table w !! lpn req) as [mappingList|] eqn:Et.
    - eapply sound_but_weaken;
        [|eapply (invalidate_phase cfg req mappingList (bitsetSize cfg) 0 w w1 H1 Et)].
      + intros l j (-> & Hj & Hf). split_and!; [done|lia|lia|done].
      + eapply sound_but_weaken; [|exact Hs]. done.
    - injection H1 as <-. apply sound_create. eapply sound_but_weaken; [|exact Hs]. done. }
  apply bind_Done in H as (blockIdx & w2 & H2 & H).
  assert (sound_but cfg SA w2) as Hs2 by (eapply sound_getLastFreeBlock; eauto).
  apply bind_Done in H as (bs & w0 & [= <- <-] & H).
  destruct (blocks w2 !! blockIdx); [|done].
  apply bind_Done in H as (t1 & w3 & H3 & H).
  assert (sound_but cfg SA w3) as Hs3.
  { destruct sendToPAL.
    - apply bind_Done in H3 as (t0 & w0 & H30 & H31).
      eapply sound_pDRAM_write; [exact H31|]. eapply sound_pDRAM_read; eauto.
    - by injection H3 as <- <-. }
  apply bind_Done in H as (fin & w4 & H4 & H).
  assert (sound cfg w4) as Hs4.
  { eapply sound_but_weaken;
      [|eapply (write_phase env cfg units req _ _ _ _ (bitsetSize cfg) 0 _ w3 fin w4 H4)].
    - intros l j (_ & Hj & _). simpl in Hj. lia.
    - simpl. lia.
    - exact Hs3. }
  apply bind_Done in H as (n & w0 & [= <- <-] & H).
  apply bind_Done in H as ([] & w5 & H5 & [= <- <-]).
  destruct (gcThresholdReached env (nFreeBlocks w4)).
  - destruct sendToPAL; [|done]. eapply sound_gcCycle; eauto.
  - by injection H5 as <-.
Qed.

Lemma sound_format range tick : stable (sound cfg) (format env cfg range tick).
Proof.
  intros w t w' H Hs. unfold format in H.
  apply bind_Done in H as (tbl & w0 & [= <- <-] & H).
  apply bind_Done in H as (blockList & w1 & H1 & H).
  apply bind_Done in H as (t1 & w2 & H2 & [= <- <-]).
  eapply sound_doGarbageCollection; [exact H2|].
  eapply (format_entries cfg range _ _ w _ w1 H1); [| |exact Hs].
  - apply NoDup_fst_map_to_list.
  - intros k ml Hin. by apply elem_of_map_to_list.
Qed.

Lemma sound_ctor : stable (sound cfg) (PageMapping_ctor env cfg).
Proof.
  apply stable_PageMapping_ctor; first [ apply sound_getFreeBlock | intros; assumption ].
Qed.

Lemma sound_created (d : Dev) : sound cfg (created cfg d).
Proof.
  split.
  - unfold pool_inv, shaped; simpl. split.
    + intros b Hb. apply list_elem_of_fmap in Hb as (i & -> & _). apply block_shaped_new.
    + intros k b Hk. by rewrite lookup_empty in Hk.
  - intros lpn idx b p _ (ml & Hml & _). simpl in Hml. by rewrite lookup_empty in Hml.
Qed.

Lemma sound_reachable w : reachable env cfg w → sound cfg w.
Proof.
  apply (kept_reachable env cfg (sound cfg)); try (intros; assumption).
  - apply sound_refreshPage.
  - apply sound_readInternal.
  - apply sound_writeInternal.
  - apply sound_trimInternal.
  - apply sound_format.
  - apply stable_setupRefresh; intros; assumption.
  - intros w' a w'' H Hs. eapply sound_ctor; eauto.
  - apply sound_created.
Qed.

End SoundReachable.

(** ** Every slot is the sentinel or a page of the device *)

Section Ranged.
Context {Dev : Type}.
Variable env : Env Dev.
Variable cfg : Config.
Implicit Type w : World Dev.

(** A block of the device, with its erased bits for every page. *)
Definition block_housed (blk : Block) : Prop :=
  (block_index blk < totalPhysicalBlocks cfg)%nat ∧
  length (erased_bits blk) = pagesInBlock cfg.

Definition housed (fb : list Block) (n : Z) (bs : gmap nat Block) : Prop :=
  (∀ b, b ∈ fb → block_housed b) ∧
  (∀ k b, bs !! k = Some b → (k < totalPhysicalBlocks cfg)%nat ∧ block_housed b).

Lemma block_housed_method f blk : BlockMethod f → block_housed blk → block_housed (f blk).
Proof.
  intros Hf [H1 H2]. destruct Hf; unfold block_housed; simpl; try done.
  unfold Block.setBit. by rewrite length_alter.
Qed.

Lemma block_housed_erase blk : block_housed blk → block_housed (Block.erase blk).
Proof. intros [H1 H2]. unfold block_housed; simpl. by rewrite length_fmap. Qed.

Lemma housed_method f b fb n bs :
  BlockMethod f → housed fb n bs → housed fb n (alter f b bs).
Proof.
  intros Hf [H1 H2]. split; [done|].
  intros k blk Hk. rewrite lookup_alter in Hk. destruct (decide (b = k)) as [->|]; [|eauto].
  destruct (bs !! k) as [blk0|] eqn:E; [|done]. injection Hk as <-.
  destruct (H2 k blk0 E). split; [done|]. by apply block_housed_method.
Qed.

Lemma housed_getFreeBlock idx : stable (pool_inv housed) (getFreeBlock env cfg idx).
Proof.
  intros w b w' H [H1 H2].
  apply getFreeBlock_Done in H as (iter & blk & Hf & -> & Hb & Hn & ->).
  assert (block_housed blk) as Hblk by (apply H1; eapply list_elem_of_lookup_2, Hf).
  unfold pool_inv. simpl. split.
  - intros b Hin. apply H1. by eapply list_elem_of_delete_inv.
  - intros k b Hk. rewrite lookup_alter in Hk.
    destruct (decide (block_index blk = k)) as [<-|Hne].
    + rewrite lookup_insert_eq in Hk. injection Hk as <-. split; [apply Hblk|].
      apply block_housed_method; [constructor|done].
    + rewrite lookup_insert_ne in Hk by done. eauto.
Qed.

Lemma housed_eraseInternal req tick : stable (pool_inv housed) (eraseInternal env cfg req tick).
Proof.
  intros w t w' H [H1 H2]. rewrite eraseInternal_eq in H.
  destruct (blocks w !! blockIndex req) as [blk|] eqn:Eb; [|done].
  destruct (decide _); [done|].
  assert (∀ k b, delete (blockIndex req) (alter Block.erase (blockIndex req) (blocks w)) !! k
                 = Some b → (k < totalPhysicalBlocks cfg)%nat ∧ block_housed b) as H2'.
  { intros k b Hk. rewrite delete_alter_eq in Hk. apply lookup_delete_Some in Hk as [_ Hk].
    eauto. }
  destruct (_ <? _).
  - destruct (reverseSearch _ _ _) as [iter|]; [|done]. injection H as _ <-.
    unfold pool_inv. simpl. split; [|done].
    intros b Hin. rewrite emplace_Permutation in Hin.
    apply elem_of_cons in Hin as [->|Hin]; [|by apply H1].
    apply block_housed_erase. by destruct (H2 _ _ Eb).
  - injection H as _ <-. unfold pool_inv. simpl. split; done.
Qed.

(** The slots of the table. *)
Definition in_range w : Prop :=
  pool_inv housed w ∧
  ∀ lpn mappingList idx b p,
    table w !! lpn = Some mappingList → mappingList !! idx = Some (b, p) →
    (b = totalPhysicalBlocks cfg ∧ p = pagesInBlock cfg) ∨
    (b < totalPhysicalBlocks cfg ∧ p < pagesInBlock cfg)%nat.

Lemma in_range_method f b w : BlockMethod f → in_range w → in_range (set_blocks (alter f b) w).
Proof.
  intros Hf [Hp H]. split; [|done]. by apply housed_method.
Qed.

Lemma in_range_getFreeBlock idx : stable in_range (getFreeBlock env cfg idx).
Proof.
  intros w b w' H [Hp Hs]. split; [by eapply housed_getFreeBlock|].
  apply getFreeBlock_Done in H as (iter & blk & _ & _ & _ & _ & ->). exact Hs.
Qed.

Lemma in_range_eraseInternal req tick : stable in_range (eraseInternal env cfg req tick).
Proof.
  intros w t w' H [Hp Hs]. split; [by eapply housed_eraseInternal|].
  assert (table w' = table w) as ->; [|done].
  refine (frame_eraseInternal env cfg (λ w0, table w0 = table w) _ _ _ _ req tick w t w' H
            eq_refl); intros; assumption.
Qed.

Lemma in_range_remap w lpn idx b p :
  (b < totalPhysicalBlocks cfg)%nat → (p < pagesInBlock cfg)%nat →
  in_range w → in_range (set_table (alter (<[idx := (b, p)]>) lpn) w).
Proof.
  intros Hb Hp [Hpool H]. split; [done|].
  intros l ml i b' p' Hml Hi. simpl in Hml. rewrite lookup_alter in Hml.
  destruct (decide (lpn = l)) as [->|Hne]; [|by eapply H].
  destruct (table w !! l) as [ml0|] eqn:E; [|done]. injection Hml as <-.
  destruct (decide (i = idx)) as [->|Hi'].
  - apply list_lookup_insert_Some in Hi as [(_ & [= <- <-] & _)|[? _]]; [|done]. by right.
  - rewrite list_lookup_insert_ne in Hi by done. by eapply H.
Qed.

Lemma in_range_create w lpn n :
  in_range w →
  in_range (set_table (<[lpn := replicate n (totalPhysicalBlocks cfg, pagesInBlock cfg)]>) w).
Proof.
  intros [Hpool H]. split; [done|].
  intros l ml i b p Hml Hi. simpl in Hml. rewrite lookup_insert in Hml.
  destruct (decide (lpn = l)) as [->|Hne]; [|by eapply H].
  injection Hml as <-. apply lookup_replicate in Hi as [[= -> ->] _]. by left.
Qed.

Lemma in_range_delete w lpn : in_range w → in_range (set_table (delete lpn) w).
Proof.
  intros [Hpool H]. split; [done|].
  intros l ml i b p Hml Hi. simpl in Hml. apply lookup_delete_Some in Hml as [_ Hml].
  by eapply H.
Qed.

(** A page that can be written is a page of the block. *)
Lemma writable_page w b blk p i :
  in_range w → blocks w !! b = Some blk → Block.writable p i blk = true →
  (b < totalPhysicalBlocks cfg)%nat ∧ (p < pagesInBlock cfg)%nat.
Proof.
  intros [[_ Hp] _] Hb Hw. destruct (Hp b blk Hb) as (Hlt & _ & Hlen). split; [done|].
  unfold Block.writable in Hw. rewrite <- Hlen.
  destruct (erased_bits blk !! p) as [row|] eqn:E; [by apply lookup_lt_Some in E|].
  by destruct i.
Qed.

Ltac ranged :=
  first
    [ apply stable_getLastFreeBlock; try (intros; assumption); apply in_range_getFreeBlock
    | apply in_range_eraseInternal
    | apply stable_pPAL_read; intros; assumption
    | apply stable_pPAL_write; intros; assumption
    | apply stable_pDRAM_read; intros; assumption
    | apply stable_pDRAM_write; intros; assumption
    | apply stable_predictError; intros; assumption
    | apply stable_writeBlock; intros; by apply in_range_method
    | apply stable_onBlock; [constructor|]; intros; by apply in_range_method
    | apply stable_modify; intros ? ?; first
        [ assumption
        | apply in_range_method; [constructor|assumption]
        | apply in_range_create; assumption
        | apply in_range_delete; assumption ] ].

Lemma in_range_writeUnit req b tick sendToPAL rbw fin k :
  stable in_range (writeUnit env cfg req b tick sendToPAL rbw fin k).
Proof.
  intros w a w' H Hr. unfold writeUnit in H.
  destruct (_ || _); [|by injection H as _ <-].
  apply bind_Done in H as (bs & w0 & [= <- <-] & H).
  apply bind_Done in H as (tbl & w0 & [= <- <-] & H).
  destruct (blocks w !! b) as [block|] eqn:Eb; [|done].
  destruct (table w !! lpn req) as [mappingList|] eqn:Et; [|done].
  destruct (mappingList !! k) as [[oldBlock oldPage]|] eqn:Ek; [|done].
  apply bind_Done in H as ([] & w2 & Hwr & H).
  apply writeBlock_Done in Hwr as (blk0 & Hblk0 & Hwritable & ->).
  destruct (writable_page w b blk0 _ k Hr Hblk0 Hwritable) as [Hb Hp].
  assert (blk0 = block) as -> by congruence.
  refine ((_ : stable in_range _) _ a w' H (in_range_method _ b w _ Hr)); [|constructor].
  stable_go ltac:(first
    [ apply stable_modify; intros ? ?; by apply in_range_remap | ranged ]).
Qed.

Lemma in_range_copy nb lpn i t (l l' : GCLocals) count w w' :
  in_range w →
  (bs ← gets blocks;
   match bs !! nb with
   | None => undefined
   | Some freeBlock =>
       let newPageIdx := Block.getNextWritePageIndexOf freeBlock i in
       modify (set_table (alter (<[i := (nb, newPageIdx)]>) lpn));;
       writeBlock nb newPageIdx lpn i t;;
       modify (set_stat count);;
       mret (mkGC (gc_tick l) (readRequests l)
               (writeRequests l ++
                  [mkPAL nb newPageIdx (writeFlag cfg (ioUnitInPage cfg) i)])
               (eraseRequests l))
   end) w = Done (l', w') →
  in_range w'.
Proof.
  intros Hr H. apply bind_Done in H as (bs & w0 & [= <- <-] & H).
  destruct (blocks w !! nb) as [freeBlock|] eqn:Enb; [|done].
  apply bind_Done in H as ([] & w3 & [= <-] & H).
  apply bind_Done in H as ([] & w4 & Hwr & H).
  apply writeBlock_Done in Hwr as (blk0 & Hblk0 & Hwritable & ->).
  apply bind_Done in H as ([] & w5 & [= <-] & [= _ <-]).
  simpl in Hblk0. assert (blk0 = freeBlock) as -> by congruence.
  destruct (writable_page w nb freeBlock _ i Hr Enb Hwritable) as [Hb Hp].
  change (in_range (set_stat count (set_blocks
            (alter (Block.write (Block.getNextWritePageIndexOf freeBlock i) lpn i t) nb)
            (set_table (alter (<[i := (nb, Block.getNextWritePageIndexOf freeBlock i)]>) lpn)
               w)))).
  assert (in_range (set_blocks
            (alter (Block.write (Block.getNextWritePageIndexOf freeBlock i) lpn i t) nb)
            (set_table (alter (<[i := (nb, Block.getNextWritePageIndexOf freeBlock i)]>) lpn)
               w))) as Hw4; [|exact Hw4].
  apply in_range_method; [constructor|]. by apply in_range_remap.
Qed.

Lemma in_range_gcCopyUnit victim pg nb lpns bit t l i :
  stable in_range (gcCopyUnit env cfg victim pg nb lpns bit t l i).
Proof.
  intros w l' w' H Hr. unfold gcCopyUnit in H.
  destruct (Bitset_test bit i); [|by injection H as _ <-].
  apply bind_Done in H as ([] & w1 & [= <-] & H).
  destruct (lpns !! i) as [lpn'|]; [|done].
  apply bind_Done in H as (tbl & w0 & [= <- <-] & H). simpl in H.
  destruct (table w !! lpn') as [mappingList|]; [|done].
  apply bind_Done in H as (tick & w2 & H2 & H).
  destruct (decide _); [done|].
  assert (in_range w2) as Hr2.
  { refine ((_ : stable in_range _) _ tick w2 H2 (in_range_method _ victim w _ Hr));
      [ranged|constructor]. }
  eapply (in_range_copy nb lpn' i t (mkGC tick _ _ _)); [exact Hr2|exact H].
Qed.

Lemma in_range_refreshCopyUnit victim pg nb lpns bit t l i :
  stable in_range (refreshCopyUnit env cfg victim pg nb lpns bit t l i).
Proof.
  intros w l' w' H Hr. unfold refreshCopyUnit in H.
  destruct (Bitset_test bit i); [|by injection H as _ <-].
  apply bind_Done in H as ([] & w1 & [= <-] & H).
  destruct (lpns !! i) as [lpn'|]; [|done].
  apply bind_Done in H as (tbl & w0 & [= <- <-] & H). simpl in H.
  destruct (table w !! lpn') as [mappingList|].
  2:{ injection H as _ <-. apply in_range_method; [constructor|done]. }
  apply bind_Done in H as (tick & w2 & H2 & H).
  destruct (decide _); [done|].
  assert (in_range w2) as Hr2.
  { refine ((_ : stable in_range _) _ tick w2 H2 (in_range_method _ victim w _ Hr));
      [ranged|constructor]. }
  eapply (in_range_copy nb lpn' i t (mkGC tick _ _ _)); [exact Hr2|exact H].
Qed.

Lemma in_range_gcCopyPage v t l p : stable in_range (gcCopyPage env cfg v t l p).
Proof.
  unfold gcCopyPage. stable_go ltac:(first [apply in_range_gcCopyUnit | ranged]).
Qed.

Lemma in_range_refreshCopyPage b t l p : stable in_range (refreshCopyPage env cfg b t l p).
Proof.
  unfold refreshCopyPage. stable_go ltac:(first [apply in_range_refreshCopyUnit | ranged]).
Qed.

Lemma in_range_gcCycle tick : stable in_range (gcCycle env cfg tick).
Proof.
  apply kept_gcCycle; try (intros; assumption).
  - apply in_range_eraseInternal.
  - apply in_range_gcCopyPage.
Qed.

Lemma in_range_reachable w : reachable env cfg w → in_range w.
Proof.
  revert w. apply (kept_reachable env cfg in_range); try (intros; assumption).
  - apply kept_refreshPage; try (intros; assumption).
    + apply in_range_eraseInternal.
    + apply in_range_gcCopyPage.
    + apply in_range_refreshCopyPage.
  - intros. apply stable_readInternal; intros; first [assumption | by apply in_range_method].
  - intros req tick sendToPAL. unfold writeInternal, invalidateOld.
    stable_go ltac:(first [apply in_range_writeUnit | apply in_range_gcCycle | ranged]).
  - intros req tick. unfold trimInternal, trimUnit. stable_go ranged.
  - intros range tick. unfold format, formatEntry, formatUnit.
    stable_go ltac:(first
      [ apply kept_doGarbageCollection; try (intros; assumption);
        [ apply in_range_eraseInternal | apply in_range_gcCopyPage ]
      | ranged ]).
  - apply stable_setupRefresh; intros; assumption.
  - apply stable_PageMapping_ctor; first [apply in_range_getFreeBlock | intros; assumption].
  - intros d. split.
    + unfold pool_inv, created. simpl. split.
      * intros b Hb. apply list_elem_of_fmap in Hb as (i & -> & Hi).
        apply elem_of_seq in Hi. split; simpl; [lia|]. apply length_replicate.
      * intros k b Hk. by rewrite lookup_empty in Hk.
    + intros lpn ml idx b p Hml. simpl in Hml. by rewrite lookup_empty in Hml.
Qed.

End Ranged.

Section MappingTheorems.
Context {Dev : Type}.
Variable env : Env Dev.
Variable cfg : Config.
Implicit Type w : World Dev.

Lemma bitsetSize_units : (1 ≤ ioUnitInPage cfg)%nat → (bitsetSize cfg ≤ ioUnitInPage cfg)%nat.
Proof. unfold bitsetSize. destruct (bRandomTweak cfg); lia. Qed.

(** X16.  In every reachable state the mapping table points at live
    data: a slot that is not the sentinel
    [(totalPhysicalBlocks, pagesInBlock)] names a page of a block of the
    device; the block is in use, and in it the io unit of the page is
    valid, records the logical page of the slot, and lies below the
    write pointer of the io unit.  (A page has at least one io unit.) *)
Theorem mapped_pages_hold_their_data w lpn mappingList idx b p :
  (1 ≤ ioUnitInPage cfg)%nat →
  reachable env cfg w →
  table w !! lpn = Some mappingList → mappingList !! idx = Some (b, p) →
  (b, p) ≠ (totalPhysicalBlocks cfg, pagesInBlock cfg) →
  (b < totalPhysicalBlocks cfg)%nat ∧ (p < pagesInBlock cfg)%nat ∧
  ∃ blk, blocks w !! b = Some blk ∧
    unitValid blk p idx = true ∧ unitLpn blk p idx = Some lpn ∧
    (p < Block.getNextWritePageIndexOf blk idx)%nat.
Proof.
  intros Hu Hr Hml Hidx Hne.
  destruct (in_range_reachable env cfg w Hr) as [_ Hrange].
  destruct (Hrange lpn mappingList idx b p Hml Hidx) as [[-> ->]|[Hb Hp]]; [done|].
  split_and!; [done..|].
  destruct (sound_reachable env cfg (bitsetSize_units Hu) w Hr) as [_ H].
  apply (H lpn idx b p); [tauto|]. by exists mappingList.
Qed.

(** X17.  No two logical pages share an io unit of a physical page: in
    a reachable state, where one logical page is mapped to an io unit of
    a page of a block, no other logical page is mapped to it. *)
Theorem mapped_pages_are_distinct w lpn1 lpn2 ml1 ml2 idx b p :
  (1 ≤ ioUnitInPage cfg)%nat →
  reachable env cfg w →
  lpn1 ≠ lpn2 →
  table w !! lpn1 = Some ml1 → table w !! lpn2 = Some ml2 →
  ml1 !! idx = Some (b, p) →
  (b < totalPhysicalBlocks cfg)%nat → (p < pagesInBlock cfg)%nat →
  ml2 !! idx ≠ Some (b, p).
Proof.
  intros Hu Hr Hne H1 H2 Hi1 Hb Hp Hi2.
  destruct (sound_reachable env cfg (bitsetSize_units Hu) w Hr) as [_ H].
  destruct (H lpn1 idx b p) as (blk1 & Hb1 & _ & Hl1 & _); [tauto|by exists ml1|].
  destruct (H lpn2 idx b p) as (blk2 & Hb2 & _ & Hl2 & _); [tauto|by exists ml2|].
  congruence.
Qed.

(** The loop of [readInternal] returns when the slots of the entry
    exist and the mapped ones name blocks in use. *)
Lemma readUnits_return req tick mappingList n a fin w :
  table w !! lpn req = Some mappingList →
  (bitsetSize cfg ≤ length mappingList)%nat →
  (∀ idx b p, mappingList !! idx = Some (b, p) →
     (b < totalPhysicalBlocks cfg)%nat → (p < pagesInBlock cfg)%nat →
     is_Some (blocks w !! b)) →
  (a + n ≤ bitsetSize cfg)%nat →
  ∃ fin' w', foldM (readUnit env cfg req tick) fin (seq a n) w = Done (fin', w').
Proof.
  revert a fin w. induction n as [|n IH]; intros a fin w Hml Hlen Hin Hle.
  - simpl. eauto.
  - rewrite <- cons_seq, foldM_cons.
    assert (∃ fin1 w1, readUnit env cfg req tick fin a w = Done (fin1, w1) ∧
              table w1 = table w ∧ ∀ b, is_Some (blocks w !! b) → is_Some (blocks w1 !! b))
      as (fin1 & w1 & H1 & Et & Hb).
    { unfold readUnit. destruct (_ || _); [|eauto 6].
      unfold mbind at 1, FTL_bind at 1, gets at 1. rewrite Hml.
      destruct (lookup_lt_is_Some_2 mappingList a) as [[b p] Ha]; [lia|]. rewrite Ha.
      destruct (decide _) as [[Hb Hp]|_]; [|eauto 6].
      unfold mbind at 1, FTL_bind at 1, gets at 1.
      destruct (Hin a b p Ha Hb Hp) as [blk Hblk]. rewrite Hblk.
      unfold mbind at 1, FTL_bind at 1, onBlock at 1, modify at 1.
      unfold mbind at 1, FTL_bind at 1, pPAL_read at 1.
      destruct (pal_read _ _ _ _) as [t1 d]. simpl.
      eexists _, _. split; [reflexivity|]. simpl. split; [done|].
      intros b' Hb'. rewrite lookup_alter. destruct (decide _) as [<-|]; [|done].
      rewrite Hblk. eauto. }
    unfold mbind, FTL_bind. rewrite H1.
    apply IH; [by rewrite Et|done| |lia].
    intros idx b p Hidx Hb' Hp'. apply Hb. eauto.
Qed.

(** X18.  A read never fails between two operations: on every
    reachable state [read] returns, for every request and tick.  The
    "Block is not in use" check of [readInternal] does not fire, and
    every slot it indexes exists. *)
Theorem read_returns req tick w :
  (1 ≤ ioUnitInPage cfg)%nat →
  reachable env cfg w →
  ∃ t' w', read env cfg req tick w = Done (t', w').
Proof.
  intros Hu Hr. unfold read. destruct (0 <? Bitset_count (ioFlag req)).
  2:{ unfold mbind, FTL_bind, do_warn. simpl. eauto. }
  assert (∃ t1 w1, readInternal env cfg req tick w = Done (t1, w1)) as (t1 & w1 & H).
  { unfold readInternal. unfold mbind at 1, FTL_bind at 1, gets at 1.
    destruct (table w !! lpn req) as [mappingList|] eqn:Et; [|eauto].
    unfold mbind at 1, FTL_bind at 1, pDRAM_read at 1.
    destruct (dram_read _ _ _ _ _) as [t1 d].
    destruct (readUnits_return req t1 mappingList (bitsetSize cfg) 0 tick
                (set_dev d (DRAM_read (lpn req) (mappingSize cfg req) tick t1) w))
      as (fin & w2 & H2).
    - exact Et.
    - by rewrite (table_sized_reachable env cfg w Hr _ _ Et).
    - intros idx b p Hidx Hb Hp. simpl.
      destruct (sound_reachable env cfg (bitsetSize_units Hu) w Hr) as [_ H].
      destruct (H (lpn req) idx b p) as (blk & Hblk & _); [tauto|by exists mappingList|]. eauto.
    - lia.
    - unfold mbind, FTL_bind. rewrite H2. eauto. }
  unfold mbind, FTL_bind. rewrite H. eauto.
Qed.

End MappingTheorems.

Lemma mapped_pages_hold_their_data_witness :
  (0 < totalPhysicalBlocks Demo.cfg)%nat ∧ (0 < pagesInBlock Demo.cfg)%nat ∧
  ∃ blk, blocks demo_written !! 0%nat = Some blk ∧
    unitValid blk 0 0 = true ∧ unitLpn blk 0 0 = Some 0 ∧
    (0 < Block.getNextWritePageIndexOf blk 0)%nat.
Proof.
  apply (mapped_pages_hold_their_data (Demo.env 8) Demo.cfg demo_written 0 [(0%nat, 0%nat)]).
  - simpl. lia.
  - exact demo_written_reachable.
  - vm_compute. reflexivity.
  - reflexivity.
  - discriminate.
Defined.

Lemma mapped_pages_are_distinct_witness :
  table demo_two !! 1 = Some [(0%nat, 1%nat)] ∧
  [(0%nat, 1%nat)] !! 0%nat ≠ Some (0%nat, 0%nat).
Proof.
  split; [vm_compute; reflexivity|].
  apply (mapped_pages_are_distinct (Demo.env 8) Demo.cfg demo_two 0 1 [(0%nat, 0%nat)]).
  - simpl. lia.
  - exact demo_two_reachable.
  - discriminate.
  - vm_compute. reflexivity.
  - vm_compute. reflexivity.
  - reflexivity.
  - simpl. lia.
  - simpl. lia.
Defined.

Lemma read_returns_witness :
  ∃ t' w', read (Demo.env 8) Demo.cfg (mkRequest 0 [true]) 500 demo_written = Done (t', w').
Proof.
  apply read_returns.
  - simpl. lia.
  - exact demo_written_reachable.
Defined.

(** * What is registered for refresh stays registered *)

Section RegisteredForGood.
Context {Dev : Type}.
Variable env : Env Dev.
Variable cfg : Config.
Implicit Type w : World Dev.

(** Since [w0] no filter has lost a bit and no key of the refresh table
    has left or risen. *)
Definition registered_since w0 w : Prop :=
  (∀ level f, bloomFilters w0 !! level = Some f →
     ∃ f', bloomFilters w !! level = Some f' ∧ salt f' = salt f ∧
           bit_table f ⊆ bit_table f') ∧
  (∀ key rtc, refresh_table w0 !! key = Some rtc →
     ∃ rtc', refresh_table w !! key = Some rtc' ∧ rtc' ≤ rtc).

Lemma registered_since_refl w : registered_since w w.
Proof. split; [intros level f H; eauto|intros key rtc H; exists rtc; split; [done|lia]]. Qed.

Lemma registered_alter w0 w g level :
  (∀ f, salt (g f) = salt f ∧ bit_table f ⊆ bit_table (g f)) →
  registered_since w0 w → registered_since w0 (set_bloomFilters (alter g level) w).
Proof.
  intros Hg [H1 H2]. split; [|done]. intros lv f Hf. simpl.
  destruct (H1 lv f Hf) as (f' & Hf' & Hs & Hb). rewrite list_lookup_alter.
  destruct (decide (level = lv)) as [->|]; [|eauto].
  rewrite Hf'. simpl. destruct (Hg f') as [Hs' Hb']. exists (g f'). split; [done|].
  split; [congruence|]. by etrans.
Qed.

Lemma registered_lower w0 w key rtc :
  (∀ second, refresh_table w !! key = Some second → rtc ≤ second) →
  registered_since w0 w → registered_since w0 (set_refresh_table (<[key := rtc]>) w).
Proof.
  intros Hlow [H1 H2]. split; [done|]. intros k v Hk. simpl.
  destruct (H2 k v Hk) as (v' & Hv' & Hle). destruct (decide (key = k)) as [->|Hne].
  - rewrite lookup_insert_eq. exists rtc. split; [done|]. specialize (Hlow v' Hv'). lia.
  - rewrite lookup_insert_ne by done. eauto.
Qed.

Lemma registered_setRefreshPeriod w0 b l rtc :
  stable (registered_since w0) (setRefreshPeriod env b l rtc).
Proof.
  intros w [] w' H Hr. unfold setRefreshPeriod in H.
  apply bind_Done in H as (filters & w1 & [= <- <-] & H).
  destruct (decide _); [done|].
  apply bind_Done in H as (rt & w1 & [= <- <-] & H).
  apply bind_Done in H as ([] & w1 & H1 & [= <-]).
  apply registered_alter; [intros f; simpl; split; [done|set_solver]|].
  destruct (refresh_table w !! refreshKey b l) as [second|] eqn:Er.
  - destruct (second >? Z.of_nat rtc) eqn:Ec.
    + injection H1 as <-. apply registered_alter; [done|].
      apply registered_lower; [|done]. intros s Hs. apply Z.gtb_lt in Ec.
      rewrite Er in Hs. injection Hs as <-. lia.
    + by injection H1 as <-.
  - injection H1 as <-. apply registered_alter; [done|].
    apply registered_lower; [|done]. intros s Hs. congruence.
Qed.

Lemma registered_predictError w0 b p : stable (registered_since w0) (predictError env cfg b p).
Proof.
  unfold predictError.
  assert (∀ size l ec i j,
            stable (registered_since w0) (registerRefresh env cfg size b l ec i j)) as Hreg.
  { intros size l ec i. induction i as [|i IH]; intros j; simpl.
    - apply stable_ret.
    - stable_go ltac:(first [apply registered_setRefreshPeriod | apply IH]). }
  stable_go ltac:(apply Hreg).
Qed.

Lemma registered_getLastFreeBlock w0 iomap :
  stable (registered_since w0) (getLastFreeBlock env cfg iomap).
Proof.
  apply stable_getLastFreeBlock;
    first [ apply frame_getFreeBlock; intros; assumption | intros; assumption ].
Qed.

Lemma registered_gcCycle w0 tick : stable (registered_since w0) (gcCycle env cfg tick).
Proof.
  apply stable_gcCycle;
    first [ apply frame_getFreeBlock; intros; assumption
          | apply frame_eraseInternal; intros; assumption
          | intros; assumption ].
Qed.

Lemma registered_writeInternal w0 req tick sendToPAL :
  stable (registered_since w0) (writeInternal env cfg req tick sendToPAL).
Proof.
  unfold writeInternal, invalidateOld, writeUnit, writeBlock.
  stable_go ltac:(first
    [ apply registered_getLastFreeBlock | apply registered_predictError
    | apply registered_gcCycle
    | apply stable_pPAL_read; intros; assumption
    | apply stable_pPAL_write; intros; assumption
    | apply stable_pDRAM_read; intros; assumption
    | apply stable_pDRAM_write; intros; assumption
    | apply stable_modify; intros; assumption ]).
Qed.

Lemma registered_setupRefresh w0 : stable (registered_since w0) (setupRefresh cfg).
Proof.
  intros w [] w' H Hr. unfold setupRefresh in H.
  apply bind_Done in H as ([] & w1 & [= <-] & H).
  apply bind_Done in H as ([] & w2 & [= <-] & H).
  apply bind_Done in H as (filters & w3 & [= <- <-] & H).
  simpl in H. destruct (_ ++ _) eqn:E; [done|]. injection H as <-.
  apply registered_alter; [done|]. destruct Hr as [H1 H2]. split; [|done].
  intros level f Hf. simpl. destruct (H1 level f Hf) as (f' & Hf' & Hs).
  exists f'. split; [|done]. by apply lookup_app_l_Some.
Qed.

(** X19.  What is registered for refresh stays registered.  No
    operation removes a bit from a Bloom filter, changes a filter's salt
    set, or removes a key from the refresh table or raises its level:
    not the erase of the block, and not the invalidation or the copy of
    its pages.  A key that a filter contains is contained in it after
    every later operation, and is swept again whenever its level is
    checked. *)
Theorem refresh_registrations_stay op w w' :
  run env cfg op w = Done (tt, w') →
  (∀ level f, bloomFilters w !! level = Some f →
     ∃ f', bloomFilters w' !! level = Some f' ∧ salt f' = salt f ∧
       bit_table f ⊆ bit_table f' ∧
       ∀ key, Bloom.contains (bloom_positions env (salt f) key) f = true →
              Bloom.contains (bloom_positions env (salt f') key) f' = true) ∧
  (∀ key rtc, refresh_table w !! key = Some rtc →
     ∃ rtc', refresh_table w' !! key = Some rtc' ∧ rtc' ≤ rtc).
Proof.
  intros H.
  assert (registered_since w w') as [H1 H2].
  { eapply (kept_run env cfg (registered_since w)); [..|exact H|apply registered_since_refl];
      try (intros; assumption).
    - intros f level w1 Hf. apply registered_alter. by destruct Hf.
    - intros b layer tick. apply stable_refreshPage;
        first [ apply frame_getFreeBlock; intros; assumption
              | apply frame_eraseInternal; intros; assumption
              | intros; assumption ].
    - intros req tick. apply stable_readInternal; intros; assumption.
    - apply registered_writeInternal.
    - intros req tick. apply stable_trimInternal; intros; assumption.
    - intros range tick. apply stable_format;
        first [ apply frame_getFreeBlock; intros; assumption
              | apply frame_eraseInternal; intros; assumption
              | intros; assumption ].
    - apply registered_setupRefresh. }
  split; [|done]. intros level f Hf. destruct (H1 level f Hf) as (f' & Hf' & Hs & Hb).
  exists f'. split_and!; [done..|]. intros key Hc. rewrite Hs.
  unfold Bloom.contains in *. rewrite forallb_forall in Hc. apply forallb_forall.
  intros x Hx. specialize (Hc x Hx). apply bool_decide_eq_true in Hc.
  apply bool_decide_eq_true. set_solver.
Qed.

End RegisteredForGood.

Lemma refresh_registrations_stay_witness :
  (∀ level f, bloomFilters demo_two !! level = Some f →
     ∃ f', bloomFilters demo_formatted !! level = Some f' ∧ salt f' = salt f ∧
       bit_table f ⊆ bit_table f' ∧
       ∀ key, Bloom.contains (bloom_positions (Demo.env 8) (salt f) key) f = true →
              Bloom.contains (bloom_positions (Demo.env 8) (salt f') key) f' = true) ∧
  (∀ key rtc, refresh_table demo_two !! key = Some rtc →
     ∃ rtc', refresh_table demo_formatted !! key = Some rtc' ∧ rtc' ≤ rtc).
Proof.
  refine (refresh_registrations_stay (Demo.env 8) Demo.cfg
            (op_format (mkRange 0 1) 300) demo_two demo_formatted _).
  vm_compute. reflexivity.
Defined.

(** * The index of the write target *)

Section TargetIndex.
Context {Dev : Type}.
Variable env : Env Dev.
Variable cfg : Config.
Implicit Type w : World Dev.

(** The index of the current write target is an index of
    [lastFreeBlock]. *)
Definition target_in_bounds w : Prop :=
  (lastFreeBlockIndex w < pageCountToMaxPerf cfg)%nat ∧
  length (lastFreeBlock w) = pageCountToMaxPerf cfg.

Lemma targetIndex_in_bounds iomap w :
  target_in_bounds w → (targetIndex cfg iomap w < pageCountToMaxPerf cfg)%nat.
Proof.
  intros [Hi _]. unfold targetIndex. destruct (_ || _); [|done].
  destruct (decide _); lia.
Qed.

Lemma bounds_getLastFreeBlock iomap : stable target_in_bounds (getLastFreeBlock env cfg iomap).
Proof.
  intros w b w' H Hb. pose proof (targetIndex_in_bounds iomap w Hb) as Ht.
  destruct Hb as [Hi Hl]. rewrite getLastFreeBlock_eq in H.
  destruct (lastFreeBlock w !! _) as [b0|]; [|done].
  destruct (blocks w !! b0) as [blk0|]; [|done].
  assert (target_in_bounds (targeted cfg iomap w)) as Hb1.
  { unfold targeted, target_in_bounds. fold (targetIndex cfg iomap w).
    destruct (_ || _); simpl; done. }
  destruct (decide _).
  - destruct (getFreeBlock _ _ _ _) as [[b' w2]| |] eqn:Eg; [|done..].
    injection H as <- <-.
    apply getFreeBlock_Done in Eg as (iter & blk & _ & _ & _ & _ & ->).
    destruct Hb1 as [Hi1 Hl1]. unfold target_in_bounds. simpl. by rewrite length_insert.
  - by injection H as <- <-.
Qed.

Ltac bounded :=
  first
    [ apply bounds_getLastFreeBlock
    | apply frame_getFreeBlock; intros; assumption
    | apply frame_eraseInternal; intros; assumption
    | apply stable_pPAL_read; intros; assumption
    | apply stable_pPAL_write; intros; assumption
    | apply stable_pDRAM_read; intros; assumption
    | apply stable_pDRAM_write; intros; assumption
    | apply stable_predictError; intros; assumption
    | apply stable_modify; intros; assumption ].

Lemma bounds_gcCopyPage v t l p : stable target_in_bounds (gcCopyPage env cfg v t l p).
Proof. unfold gcCopyPage, gcCopyUnit, writeBlock, onBlock. stable_go bounded. Qed.

Lemma bounds_refreshCopyPage b t l p :
  stable target_in_bounds (refreshCopyPage env cfg b t l p).
Proof. unfold refreshCopyPage, refreshCopyUnit, writeBlock, onBlock. stable_go bounded. Qed.

Lemma bounds_gcCycle tick : stable target_in_bounds (gcCycle env cfg tick).
Proof.
  apply kept_gcCycle; try (intros; assumption).
  - intros. apply frame_eraseInternal; intros; assumption.
  - apply bounds_gcCopyPage.
Qed.

Lemma bounds_writeInternal req tick sendToPAL :
  stable target_in_bounds (writeInternal env cfg req tick sendToPAL).
Proof.
  unfold writeInternal, invalidateOld, writeUnit, writeBlock, onBlock.
  stable_go ltac:(first [apply bounds_gcCycle | bounded]).
Qed.

Lemma bounds_ctor :
  (0 < pageCountToMaxPerf cfg)%nat → stable target_in_bounds (PageMapping_ctor env cfg).
Proof.
  intros HP. unfold PageMapping_ctor.
  stable_go ltac:(first
    [ apply frame_getFreeBlock; intros; assumption
    | apply stable_modify; intros w [Hi Hl]; unfold target_in_bounds; simpl;
      rewrite ?length_insert; split; first [done|lia] ]).
Qed.

(** X20.  With at least one write target configured, the index of the
    current write target stays an index of [lastFreeBlock] in every
    reachable state, and so does the index [getLastFreeBlock] moves to:
    [lastFreeBlock.at(lastFreeBlockIndex)] never throws. *)
Theorem write_target_in_bounds w :
  (0 < pageCountToMaxPerf cfg)%nat →
  reachable env cfg w →
  (lastFreeBlockIndex w < pageCountToMaxPerf cfg)%nat ∧
  length (lastFreeBlock w) = pageCountToMaxPerf cfg ∧
  ∀ iomap,
    (targetIndex cfg iomap w < length (lastFreeBlock w))%nat ∧
    getLastFreeBlock env cfg iomap w ≠ Panic "vector::at".
Proof.
  intros HP Hr.
  assert (target_in_bounds w) as Hb.
  { revert w Hr. apply (kept_reachable env cfg target_in_bounds); try (intros; assumption).
    - apply kept_refreshPage; try (intros; assumption).
      + intros. apply frame_eraseInternal; intros; assumption.
      + apply bounds_gcCopyPage.
      + apply bounds_refreshCopyPage.
    - intros. apply stable_readInternal; intros; assumption.
    - apply bounds_writeInternal.
    - intros. apply stable_trimInternal; intros; assumption.
    - intros range tick. unfold format, formatEntry, formatUnit, onBlock.
      stable_go ltac:(first
        [ apply kept_doGarbageCollection; try (intros; assumption);
          [ intros; apply frame_eraseInternal; intros; assumption | apply bounds_gcCopyPage ]
        | bounded ]).
    - apply stable_setupRefresh; intros; assumption.
    - by apply bounds_ctor.
    - intros d. unfold target_in_bounds; simpl. by rewrite length_replicate. }
  pose proof Hb as [Hi Hl]. split_and!; [done..|]. intros iomap.
  pose proof (targetIndex_in_bounds iomap w Hb) as Ht. split; [lia|].
  rewrite getLastFreeBlock_eq.
  destruct (lookup_lt_is_Some_2 (lastFreeBlock w) (targetIndex cfg iomap w)) as [b0 ->]; [lia|].
  destruct (blocks w !! b0); [|done].
  destruct (decide _); [|done].
  rewrite getFreeBlock_eq. destruct (decide _); [lia|].
  destruct (0 <? _); [|done].
  destruct (findFreeBlock _ _ _) as [[iter blk]|]; [|done].
  destruct (decide _); done.
Qed.

End TargetIndex.

Lemma write_target_in_bounds_witness : (lastFreeBlockIndex demo_written < 1)%nat.
Proof.
  refine (proj1 (write_target_in_bounds (Demo.env 8) Demo.cfg demo_written _ _)).
  - simpl. lia.
  - exact demo_written_reachable.
Defined.

(** * The logical pages that are mapped *)

(** The logical pages an operation that returns leaves mapped, from the
    ones that were mapped before it. *)
Definition mapped_after (op : Operation) (D : gset Z) : gset Z :=
  match op with
  | op_write req _ => if 0 <? Bitset_count (ioFlag req) then {[lpn req]} ∪ D else D
  | op_warmup lpn => {[lpn]} ∪ D
  | op_trim req _ => D ∖ {[lpn req]}
  | op_format range _ =>
      filter (λ k, ¬ (slpn range ≤ k ∧ k < u64 (slpn range + nlp range))) D
  | _ => D
  end.

Section Mapped.
Context {Dev : Type}.
Variable env : Env Dev.
Variable cfg : Config.
Implicit Type w : World Dev.

Definition mapped (D : gset Z) w : Prop := dom (table w) = D.

Ltac same_table :=
  first
    [ apply stable_getLastFreeBlock; try (intros; assumption);
      intros; apply frame_getFreeBlock; intros; assumption
    | apply frame_eraseInternal; intros; assumption
    | apply stable_pPAL_read; intros; assumption
    | apply stable_pPAL_write; intros; assumption
    | apply stable_pDRAM_read; intros; assumption
    | apply stable_pDRAM_write; intros; assumption
    | apply stable_predictError; intros; assumption
    | apply stable_modify; intros ? ?; first
        [ assumption
        | unfold mapped in *; simpl; rewrite dom_alter_L; assumption ] ].

Lemma mapped_gcCopyPage D v t l p : stable (mapped D) (gcCopyPage env cfg v t l p).
Proof. unfold gcCopyPage, gcCopyUnit, writeBlock, onBlock. stable_go same_table. Qed.

Lemma mapped_refreshCopyPage D b t l p : stable (mapped D) (refreshCopyPage env cfg b t l p).
Proof. unfold refreshCopyPage, refreshCopyUnit, writeBlock, onBlock. stable_go same_table. Qed.

Lemma mapped_doGarbageCollection D l tick :
  stable (mapped D) (doGarbageCollection env cfg l tick).
Proof.
  apply kept_doGarbageCollection; try (intros; assumption).
  - intros. apply frame_eraseInternal; intros; assumption.
  - apply mapped_gcCopyPage.
Qed.

Lemma mapped_gcCycle D tick : stable (mapped D) (gcCycle env cfg tick).
Proof.
  apply kept_gcCycle; try (intros; assumption).
  - intros. apply frame_eraseInternal; intros; assumption.
  - apply mapped_gcCopyPage.
Qed.

Lemma mapped_refreshPage D b layer tick : stable (mapped D) (refreshPage env cfg b layer tick).
Proof.
  apply kept_refreshPage; try (intros; assumption).
  - intros. apply frame_eraseInternal; intros; assumption.
  - apply mapped_gcCopyPage.
  - apply mapped_refreshCopyPage.
Qed.

Lemma mapped_refresh_event D tick : stable (mapped D) (refresh_event env cfg tick).
Proof.
  unfold refresh_event, checkLayer.
  stable_go ltac:(first [apply mapped_refreshPage | same_table]).
Qed.

Lemma mapped_readInternal D req tick : stable (mapped D) (readInternal env cfg req tick).
Proof. apply stable_readInternal; intros; assumption. Qed.

(** [writeInternal] maps the page of the request and no other. *)
Lemma mapped_writeInternal D req tick sendToPAL :
  hoare (mapped D) (writeInternal env cfg req tick sendToPAL)
    (λ _, mapped ({[lpn req]} ∪ D)).
Proof.
  unfold writeInternal.
  eapply hoare_bind with (Q := λ tbl w, tbl = table w ∧ mapped D w).
  { intros w a w' [= <- <-] Hw. done. }
  intros tbl.
  eapply hoare_bind with (Q := λ _, mapped ({[lpn req]} ∪ D)).
  - intros w a w' H [-> Hw]. destruct (table w !! lpn req) as [ml|] eqn:E.
    + assert ({[lpn req]} ∪ D = D) as ->.
      { unfold mapped in Hw. subst D. apply elem_of_dom_2 in E.
        apply subseteq_union_1_L. by apply singleton_subseteq_l. }
      revert H Hw. apply hoare_stable.
      unfold invalidateOld, onBlock. stable_go same_table.
    + injection H as <- <-. unfold mapped in *. simpl. rewrite dom_insert_L. by rewrite Hw.
  - intros _. apply hoare_stable.
    unfold writeUnit, writeBlock, onBlock. stable_go ltac:(first [apply mapped_gcCycle | same_table]).
Qed.

(** [trimInternal] unmaps the page of the request and no other. *)
Lemma mapped_trimInternal D req tick :
  hoare (mapped D) (trimInternal env cfg req tick) (λ _, mapped (D ∖ {[lpn req]})).
Proof.
  unfold trimInternal.
  eapply hoare_bind with (Q := λ tbl w, tbl = table w ∧ mapped D w).
  { intros w a w' [= <- <-] Hw. done. }
  intros tbl w a w' H [-> Hw]. destruct (table w !! lpn req) as [ml|] eqn:E.
  - apply bind_Done in H as (t & wa & Ha & H).
    apply bind_Done in H as ([] & wb & Hb & H).
    apply bind_Done in H as ([] & wc & [= <-] & [= _ <-]).
    assert (stable (mapped D) (pDRAM_read env (lpn req) (mappingSize cfg req) tick)) as S1
      by same_table.
    assert (stable (mapped D) (for_each (seq 0 (bitsetSize cfg)) (trimUnit ml))) as S2
      by (unfold trimUnit, onBlock; stable_go same_table).
    pose proof (S2 _ _ _ Hb (S1 _ _ _ Ha Hw)) as Hwb.
    unfold mapped in *. simpl. by rewrite dom_delete_L, Hwb.
  - injection H as _ <-. unfold mapped in *. rewrite <- Hw.
    apply not_elem_of_dom in E. symmetry. apply difference_disjoint_L.
    by apply disjoint_singleton_r.
Qed.

(** The loop of [format] over the entries unmaps the ones in the range. *)
Lemma mapped_formatEntries range entries : ∀ D acc,
  hoare (mapped D) (foldM (formatEntry cfg range) acc entries)
    (λ _, mapped (D ∖ list_to_set
       (filter (λ k, slpn range ≤ k ∧ k < u64 (slpn range + nlp range)) entries.*1))).
Proof.
  induction entries as [|[first ml] entries IH]; intros D acc.
  - simpl. apply hoare_ret. intros w Hw. unfold mapped in *.
    cbn. rewrite Hw. apply set_eq. intros k. rewrite elem_of_difference, elem_of_empty. tauto.
  - cbn [foldM]. destruct (decide (slpn range ≤ first ∧ first < u64 (slpn range + nlp range)))
      as [Hin|Hout].
    + eapply hoare_bind with (Q := λ _, mapped (D ∖ {[first]})).
      * unfold formatEntry. rewrite decide_True by done.
        eapply hoare_bind with (Q := λ _, mapped D).
        { apply hoare_stable. unfold formatUnit, onBlock. stable_go same_table. }
        intros bl w a w' [= <- <-] Hw. unfold mapped in *. simpl.
        by rewrite dom_delete_L, Hw.
      * intros acc1 w a w' H Hw. specialize (IH _ acc1 w a w' H Hw).
        unfold mapped in *. rewrite IH. cbn [fmap list_fmap fst].
        rewrite filter_cons_True by done.
        by rewrite list_to_set_cons, difference_difference_l_L.
    + eapply hoare_bind with (Q := λ _, mapped D).
      * unfold formatEntry. rewrite decide_False by done.
        apply hoare_ret. done.
      * intros acc1 w a w' H Hw. specialize (IH _ acc1 w a w' H Hw).
        unfold mapped in *. rewrite IH. cbn [fmap list_fmap fst].
        by rewrite filter_cons_False by done.
Qed.

Lemma mapped_format D range tick :
  hoare (mapped D) (format env cfg range tick)
    (λ _, mapped (filter (λ k, ¬ (slpn range ≤ k ∧ k < u64 (slpn range + nlp range))) D)).
Proof.
  unfold format.
  eapply hoare_bind with (Q := λ tbl w, tbl = table w ∧ mapped D w).
  { intros w a w' [= <- <-] Hw. done. }
  intros tbl w a w' H [-> Hw]. revert H.
  set (D' := filter _ D).
  assert (mapped (D ∖ list_to_set
            (filter (λ k, slpn range ≤ k ∧ k < u64 (slpn range + nlp range))
               (map_to_list (table w)).*1)) = mapped D') as E.
  { f_equal. unfold D', mapped in *. subst D. apply set_eq. intros k.
    rewrite elem_of_difference, elem_of_filter, elem_of_list_to_set, list_elem_of_filter.
    rewrite elem_of_dom. split.
    - intros [Hk Hn]. split; [|done]. intros Hr. apply Hn. split; [done|].
      destruct Hk as [ml Hk]. apply list_elem_of_fmap. exists (k, ml).
      split; [done|]. by apply elem_of_map_to_list.
    - intros [Hn Hk]. split; [done|]. intros [Hr _]. done. }
  intros H.
  assert (hoare (mapped D) (blockList ← foldM (formatEntry cfg range) [] (map_to_list (table w));
     tick0 ← doGarbageCollection env cfg (sortUnique blockList) tick;
     mret (u64 (tick0 + applyLatency env FORMAT))) (λ _, mapped D')) as Hh.
  { eapply hoare_bind; [apply mapped_formatEntries|].
    intros bl. rewrite E. apply hoare_stable.
    stable_go ltac:(first [apply mapped_doGarbageCollection | same_table]). }
  eapply Hh; eauto.
Qed.

(** X21.  An operation that returns maps and unmaps exactly the pages
    it is asked to: a write maps its page, a trim unmaps its page, a
    format unmaps the mapped pages of its range, and nothing else
    changes which logical pages are mapped — neither the garbage
    collection that a write, a format or a refresh runs, nor the
    refresh. *)
Theorem mapped_pages_after op w w' :
  run env cfg op w = Done (tt, w') →
  dom (table w') = mapped_after op (dom (table w)).
Proof.
  intros H. destruct op as [req tick|req tick|req tick|range tick|tick|lpn0| |]; simpl in *.
  - assert (stable (mapped (dom (table w))) (run env cfg (op_read req tick))) as Hs.
    { simpl. unfold read. stable_go ltac:(first
        [ apply mapped_readInternal | apply stable_do_warn; intros; assumption | same_table ]). }
    by eapply Hs.
  - apply bind_Done in H as (t & w1 & H & [= <-]). unfold write in H.
    apply bind_Done in H as (t1 & w2 & H & [= _ <-]).
    destruct (0 <? _).
    + exact (mapped_writeInternal (dom (table w)) req tick true w t1 w2 H eq_refl).
    + apply bind_Done in H as ([] & w3 & H & [= _ <-]). by injection H as <-.
  - apply bind_Done in H as (t & w1 & H & [= <-]). unfold trim in H.
    apply bind_Done in H as (t1 & w2 & H & [= _ <-]).
    exact (mapped_trimInternal (dom (table w)) req tick w t1 w2 H eq_refl).
  - apply bind_Done in H as (t & w1 & H & [= <-]).
    exact (mapped_format (dom (table w)) range tick w t w1 H eq_refl).
  - assert (stable (mapped (dom (table w))) (run env cfg (op_refresh_event tick))) as Hs.
    { simpl. stable_go ltac:(apply mapped_refresh_event). }
    by eapply Hs.
  - unfold warmupWrite in H. apply bind_Done in H as (t & w1 & H & [= <-]).
    exact (mapped_writeInternal (dom (table w)) _ 0 false w t w1 H eq_refl).
  - by eapply (stable_setupRefresh cfg (mapped (dom (table w)))).
  - by injection H as <-.
Qed.

End Mapped.

Lemma mapped_pages_after_witness : dom (table demo_formatted) = {[1]}.
Proof.
  rewrite (mapped_pages_after (Demo.env 8) Demo.cfg (op_format (mkRange 0 1) 300)
             demo_two demo_formatted).
  - vm_compute. reflexivity.
  - vm_compute. reflexivity.
Defined.

(** * What a garbage collection reclaims *)

Section Reclaim.
Context {Dev : Type}.
Variable env : Env Dev.
Variable cfg : Config.
Implicit Type w : World Dev.

(** The blocks of [D] are in use. *)
Definition in_use (D : gset nat) w : Prop := D ⊆ dom (blocks w).

Lemma in_use_getFreeBlock D idx : stable (in_use D) (getFreeBlock env cfg idx).
Proof.
  intros w b w' H Hw. apply getFreeBlock_Done in H as (iter & blk & _ & _ & _ & _ & ->).
  unfold in_use in *. simpl. rewrite dom_alter_L, dom_insert_L.
  etrans; [exact Hw|apply union_subseteq_r].
Qed.

Ltac used :=
  first
    [ apply stable_getLastFreeBlock; try (intros; assumption); apply in_use_getFreeBlock
    | apply stable_pPAL_read; intros; assumption
    | apply stable_pPAL_write; intros; assumption
    | apply stable_pDRAM_read; intros; assumption
    | apply stable_modify; intros ? ?; first
        [ assumption
        | unfold in_use in *; simpl; rewrite dom_alter_L; assumption ] ].

Lemma in_use_collect D u l victims :
  stable (in_use D) (foldM (gcCollectBlock env cfg u) l victims).
Proof. unfold gcCollectBlock, gcCopyPage, gcCopyUnit, writeBlock, onBlock. stable_go used. Qed.

Lemma in_use_issue D tick r reqs r' reqs' :
  stable (in_use D)
    (readFinishedAt ← gcIssueReads env tick r reqs;
     writeFinishedAt ← gcIssueWrites env readFinishedAt r' reqs';
     mret (readFinishedAt, writeFinishedAt)).
Proof. unfold gcIssueReads, gcIssueWrites. stable_go used. Qed.

(** The collecting loops queue one erase per victim, in the order of
    the list. *)
Lemma hoare_const {A} (P : Prop) (m : FTL Dev A) : hoare (λ _, P) m (λ _ _, P).
Proof. intros w a w' _ H. exact H. Qed.

Ltac queued :=
  lazymatch goal with
  | |- hoare _ (mret _) _ => apply hoare_ret; intros ? ?; assumption
  | |- hoare _ (panic _) _ => apply hoare_panic
  | |- hoare _ undefined _ => apply hoare_undefined
  | |- hoare _ (foldM _ _ _ ≫= _) _ => fail
  | |- hoare _ (_ ≫= _) _ => eapply hoare_bind; [apply hoare_const | intros ?]
  | |- hoare _ (if ?c then _ else _) _ => destruct c
  | |- hoare _ (match ?x with _ => _ end) _ => destruct x
  end.

Lemma queued_gcCopyUnit E v p n lpns bit u l idx :
  hoare (λ _, eraseRequests l = E) (gcCopyUnit env cfg v p n lpns bit u l idx)
    (λ l' _, eraseRequests l' = E).
Proof. unfold gcCopyUnit. repeat queued. Qed.

Lemma queued_gcCopyPage E v u l p :
  hoare (λ _, eraseRequests l = E) (gcCopyPage env cfg v u l p)
    (λ l' _, eraseRequests l' = E).
Proof.
  unfold gcCopyPage. repeat queued.
  eapply hoare_bind.
  - apply (hoare_foldM_from (λ l' _, eraseRequests l' = E)).
    + intros acc x. apply queued_gcCopyUnit.
    + intros w H. exact H.
  - intros l'. repeat queued.
Qed.

Lemma queued_gcCollectBlock u l v :
  hoare (λ _, True) (gcCollectBlock env cfg u l v)
    (λ l' _, blockIndex <$> eraseRequests l' = (blockIndex <$> eraseRequests l) ++ [v]).
Proof.
  unfold gcCollectBlock.
  eapply hoare_bind; [apply hoare_const|intros bs].
  destruct (bs !! v); [|apply hoare_panic].
  eapply hoare_bind.
  - apply (hoare_foldM_from (λ l' _, eraseRequests l' = eraseRequests l)).
    + intros acc x. apply queued_gcCopyPage.
    + done.
  - intros l'. apply hoare_ret. intros w H. simpl. by rewrite fmap_app, H.
Qed.

Lemma queued_collect u victims : ∀ l w l' w',
  foldM (gcCollectBlock env cfg u) l victims w = Done (l', w') →
  blockIndex <$> eraseRequests l' = (blockIndex <$> eraseRequests l) ++ victims.
Proof.
  induction victims as [|v victims IH]; intros l w l' w' H.
  - injection H as <- <-. by rewrite app_nil_r.
  - rewrite foldM_cons in H. apply bind_Done in H as (l1 & w1 & H1 & H).
    pose proof (queued_gcCollectBlock _ _ _ _ _ _ H1 Logic.I) as Hq. apply IH in H.
    by rewrite H, Hq, <- app_assoc.
Qed.

(** The loop of erases takes each of its blocks out of the in-use map,
    and returns only when they are in use and pairwise distinct. *)
Lemma gcIssueErases_blocks r reqs : ∀ e w e' w',
  gcIssueErases env cfg r e reqs w = Done (e', w') →
  NoDup (blockIndex <$> reqs) ∧
  list_to_set (blockIndex <$> reqs) ⊆ dom (blocks w) ∧
  dom (blocks w') = dom (blocks w) ∖ list_to_set (blockIndex <$> reqs).
Proof.
  unfold gcIssueErases. induction reqs as [|req reqs IH]; intros e w e' w' H.
  - injection H as <- <-. simpl. split_and!; [constructor|apply empty_subseteq|].
    by rewrite difference_empty_L.
  - rewrite foldM_cons in H. apply bind_Done in H as (e1 & w1 & H1 & H).
    apply bind_Done in H1 as (t & w2 & H1 & [= <- <-]).
    assert (blockIndex req ∈ dom (blocks w) ∧
            dom (blocks w2) = dom (blocks w) ∖ {[blockIndex req]}) as [Hin Hd].
    { rewrite eraseInternal_eq in H1.
      destruct (blocks w !! blockIndex req) as [blk|] eqn:Eb; [|done].
      split; [by apply elem_of_dom_2 in Eb|].
      destruct (decide _); [done|]. destruct (_ <? _).
      - destruct (reverseSearch _ _ _); [|done]. injection H1 as <- <-.
        simpl. by rewrite dom_delete_L, dom_alter_L.
      - injection H1 as <- <-. simpl. by rewrite dom_delete_L, dom_alter_L. }
    apply IH in H as (Hnd & Hsub & Hdom). rewrite Hd in Hsub, Hdom.
    cbn [fmap list_fmap]. rewrite list_to_set_cons. split_and!.
    + constructor; [|done]. intros Hrest.
      assert (blockIndex req ∈ dom (blocks w) ∖ {[blockIndex req]}) as Hn
        by (apply Hsub; by apply elem_of_list_to_set).
      apply elem_of_difference in Hn as [_ Hn]. apply Hn. by apply elem_of_singleton.
    + apply union_least; [by apply singleton_subseteq_l|].
      etrans; [exact Hsub|]. apply subseteq_difference_l. done.
    + by rewrite Hdom, difference_difference_l_L.
Qed.

(** X22.  A garbage collection that returns has erased every block of
    its list and taken it out of the in-use map, and no other block:
    the blocks that were in use and are not in the list are still in
    use.  It returns only for a list without duplicates: a block listed
    twice is erased once and then missed ("No such block"). *)
Theorem doGarbageCollection_reclaims blocksToReclaim tick w t' w' :
  doGarbageCollection env cfg blocksToReclaim tick w = Done (t', w') →
  NoDup blocksToReclaim ∧
  (∀ b, b ∈ blocksToReclaim → blocks w' !! b = None) ∧
  (∀ b, b ∉ blocksToReclaim → is_Some (blocks w !! b) → is_Some (blocks w' !! b)).
Proof.
  intros H. unfold doGarbageCollection in H.
  destruct blocksToReclaim as [|v victims] eqn:Ev.
  { injection H as _ <-. split_and!; [constructor| |done]. intros b Hb. by apply elem_of_nil in Hb. }
  rewrite <- Ev in *. clear Ev.
  apply bind_Done in H as (l & w1 & Hc & H).
  apply bind_Done in H as (r & w2 & Hr & H).
  apply bind_Done in H as (wr & w3 & Hw & H).
  apply bind_Done in H as (e & w4 & He & [= _ <-]).
  pose proof (queued_collect _ _ _ _ _ _ Hc) as Hq. simpl in Hq.
  assert (in_use (dom (blocks w)) w3) as Hin.
  { eapply (in_use_issue _ (gc_tick l) tick (readRequests l) tick (writeRequests l)
              w1 (r, wr) w3).
    - apply bind_Done. exists r, w2. split; [done|].
      apply bind_Done. exists wr, w3. split; [done|]. done.
    - eapply in_use_collect; [exact Hc|]. unfold in_use. done. }
  apply gcIssueErases_blocks in He as (Hnd & Hsub & Hdom). rewrite Hq in Hnd, Hsub, Hdom.
  split_and!; [done| |].
  - intros b Hb. apply not_elem_of_dom. rewrite Hdom. intros Hn.
    apply elem_of_difference in Hn as [_ Hn]. apply Hn. by apply elem_of_list_to_set.
  - intros b Hb Hs. apply elem_of_dom. rewrite Hdom. apply elem_of_difference. split.
    + apply Hin. by apply elem_of_dom.
    + by rewrite elem_of_list_to_set.
Qed.

End Reclaim.

Lemma doGarbageCollection_reclaims_witness :
  NoDup [0%nat] ∧
  (∀ b, b ∈ [0%nat] → blocks demo_collected !! b = None) ∧
  (∀ b, b ∉ [0%nat] → is_Some (blocks demo_filled !! b) → is_Some (blocks demo_collected !! b)).
Proof.
  apply (doGarbageCollection_reclaims (Demo.env 8) Demo.cfg [0%nat] 5000 demo_filled 6028).
  vm_compute. reflexivity.
Defined.
